(** * Scope-tree creation (lib/AST/ASTScopeCreation.cpp)

    A shallow embedding of the scope-tree builder: the [ScopeCreator], the
    [ASTVisitorForScopeCreation] dispatch, the per-scope [expandMe] methods
    and the incremental extension of the source-file scope.

    Pointers to scopes are indices into an append-only arena; pointers to
    syntax nodes are the addresses kept in their [NodeInfo]. *)

From Stdlib Require Import Arith Lia.
From stdpp Require Import base option list gmap sets sorting.

(** ** Source locations *)

(** A [SourceLoc] is valid or not; a valid one is an offset in the buffer. *)
Abbreviation SourceLoc := (option nat).

Record SourceRange := mkRange { Start : SourceLoc; End : SourceLoc }.

Definition loc_isValid (l : SourceLoc) : bool := bool_decide (is_Some l).
Definition range_isValid (r : SourceRange) : bool := loc_isValid (Start r).

Definition loc_eqb (a b : SourceLoc) : bool := bool_decide (a = b).

(** What every syntax node carries: its identity (its address as an
    [Expr], a [Stmt] or a [Decl]), its source range and the
    compiler-synthesized flag. Syntax nodes are allocated aligned: the low
    bits of an address are zero.

    The duplicate set holds [void *]s. A closure and an accessor reach it
    as [ClosureExpr *] and [AccessorDecl *] as well; their classes have a
    [DeclContext] among their bases, so that address need not be the one
    the [ASTNode] holds. They carry both: [node_id] and [self]. *)
Record NodeInfo := mkInfo {
  node_id : nat;
  node_range : SourceRange;
  node_implicit : bool
}.

(** ** The syntax tree, as far as the builder reads it *)

Inductive IgnoredDeclKind :=
| ImportDecl | EnumCaseDecl | PrecedenceGroupDecl | InfixOperatorDecl
| PrefixOperatorDecl | PostfixOperatorDecl | GenericTypeParamDecl
| AssociatedTypeDecl | ModuleDecl | ParamDeclKind | EnumElementDecl
| IfConfigDecl | PoundDiagnosticDecl | MissingMemberDecl.

Inductive IgnoredStmtKind :=
| BreakStmt | ContinueStmt | FallthroughStmt | FailStmt | ThrowStmt
| PoundAssertStmt.

Inductive NominalKind := StructDecl | ClassDecl | EnumDecl | ProtocolDecl.

Inductive TypeDeclKind :=
| ExtensionDecl | NominalTypeDecl (k : NominalKind) | TypeAliasDecl
| OpaqueTypeDecl.

Inductive FuncKind := FuncDecl | ConstructorDecl | DestructorDecl | AccessorDecl.

(** [SpecializeAttr]: identity and location. *)
Record SpecializeAttr := mkSpecializeAttr { attr_id : nat; attr_loc : nat }.

(** [GenericParamList]: the identities of its [GenericTypeParamDecl]s. *)
Abbreviation GenericParamList := (list nat) (only parsing).

Inductive Expr :=
| E_Closure (c : ClosureExpr)
| E_CaptureList (cl : CaptureListExpr)
| E_Other (info : NodeInfo) (children : list WalkChild)
with ClosureExpr :=
| mkClosureExpr (info : NodeInfo) (self : nat) (inLoc : SourceLoc)
                (body : BraceStmt)
with CaptureListExpr :=
| mkCaptureListExpr (info : NodeInfo) (captureList : list CaptureListEntry)
                    (closureBody : ClosureExpr)
with CaptureListEntry :=
| mkCaptureListEntry (Init : PatternBindingDecl)
with WalkChild :=
| W_Expr (e : Expr)
| W_Stmt (s : Stmt)
| W_Decl (d : Decl)
| W_Pattern (p : Pattern)
| W_TypeLoc (t : NodeInfo) (inner : list Expr)
| W_TypeRepr (t : NodeInfo) (inner : list Expr)
| W_ParameterList (pl : list ParamDecl)
with BraceStmt :=
| mkBraceStmt (info : NodeInfo) (elements : list ASTNode)
with ASTNode :=
| N_Null
| N_Expr (e : Expr)
| N_Stmt (s : Stmt)
| N_Decl (d : Decl)
with Stmt :=
| S_Brace (bs : BraceStmt)
| S_Return (info : NodeInfo) (result : option Expr)
| S_Yield (info : NodeInfo) (yields : list Expr)
| S_Defer (info : NodeInfo) (tempDecl : AbstractFunctionDecl)
| S_If (info : NodeInfo) (cond : list StmtConditionElement)
       (thenStmt : ASTNode) (elseStmt : ASTNode)
| S_Guard (info : NodeInfo) (cond : list StmtConditionElement)
          (body : ASTNode)
| S_While (info : NodeInfo) (cond : list StmtConditionElement)
          (body : ASTNode)
| S_RepeatWhile (info : NodeInfo) (body : ASTNode) (cond : option Expr)
| S_DoCatch (info : NodeInfo) (body : ASTNode) (catches : list CatchStmt)
| S_Do (info : NodeInfo) (body : BraceStmt)
| S_Switch (info : NodeInfo) (subject : option Expr) (cases : list CaseStmt)
| S_ForEach (info : NodeInfo) (sequence : option Expr)
            (whereExpr : option Expr) (body : BraceStmt)
| S_Catch (c : CatchStmt)
| S_Case (c : CaseStmt)
| S_Ignored (k : IgnoredStmtKind) (info : NodeInfo)
with CatchStmt :=
| mkCatchStmt (info : NodeInfo) (guardExpr : option Expr) (body : ASTNode)
with CaseStmt :=
| mkCaseStmt (info : NodeInfo) (labelItemGuards : list (option Expr))
             (body : ASTNode)
with StmtConditionElement :=
| CK_Availability
| CK_Boolean (e : option Expr)
| CK_PatternBinding (p : Pattern) (initializer : option Expr)
with Pattern :=
| mkPattern (info : NodeInfo) (vars : list VarDecl) (subExprs : list Expr)
with Decl :=
| D_Ignored (k : IgnoredDeclKind) (info : NodeInfo)
| D_Var (v : VarDecl)
| D_Func (f : AbstractFunctionDecl)
| D_Subscript (s : SubscriptDecl)
| D_Type (t : TypeDecl)
| D_TopLevelCode (info : NodeInfo) (body : BraceStmt)
| D_PatternBinding (pb : PatternBindingDecl)
with AbstractFunctionDecl :=
| mkAbstractFunctionDecl (info : NodeInfo) (self : nat) (kind : FuncKind)
    (attrs : list SpecializeAttr) (genericParams : option GenericParamList)
    (parameters : list ParamDecl) (body : option BraceStmt)
    (isTypeContext : bool) (storage : option nat)
with ParamDecl :=
| mkParamDecl (info : NodeInfo) (defaultValue : option Expr)
with VarDecl :=
| mkVarDecl (info : NodeInfo) (customAttributesValid : bool)
    (bracesRangeValid : bool) (accessors : list AbstractFunctionDecl)
with SubscriptDecl :=
| mkSubscriptDecl (info : NodeInfo) (genericParams : option GenericParamList)
    (indices : list ParamDecl) (accessors : list AbstractFunctionDecl)
with TypeDecl :=
| mkTypeDecl (info : NodeInfo) (kind : TypeDeclKind)
    (genericParams : option GenericParamList) (trailingWhereClause : bool)
    (hasBody : bool) (members : list Decl)
with PatternBindingDecl :=
| mkPatternBindingDecl (info : NodeInfo) (patternList : list PatternBindingEntry)
with PatternBindingEntry :=
| mkPatternBindingEntry (pattern : Pattern) (init : option Expr)
    (initAsWritten : option Expr).

(** *** Accessors *)

Definition closure_info (c : ClosureExpr) : NodeInfo :=
  match c with mkClosureExpr i _ _ _ => i end.
Definition closure_self (c : ClosureExpr) : nat :=
  match c with mkClosureExpr _ a _ _ => a end.
Definition closure_inLoc (c : ClosureExpr) : SourceLoc :=
  match c with mkClosureExpr _ _ l _ => l end.
Definition closure_body (c : ClosureExpr) : BraceStmt :=
  match c with mkClosureExpr _ _ _ b => b end.

Definition capture_info (cl : CaptureListExpr) : NodeInfo :=
  match cl with mkCaptureListExpr i _ _ => i end.
Definition getCaptureList (cl : CaptureListExpr) : list CaptureListEntry :=
  match cl with mkCaptureListExpr _ l _ => l end.
Definition getClosureBody (cl : CaptureListExpr) : ClosureExpr :=
  match cl with mkCaptureListExpr _ _ c => c end.

Definition brace_info (bs : BraceStmt) : NodeInfo :=
  match bs with mkBraceStmt i _ => i end.
Definition getElements (bs : BraceStmt) : list ASTNode :=
  match bs with mkBraceStmt _ l => l end.

Definition expr_info (e : Expr) : NodeInfo :=
  match e with
  | E_Closure c => closure_info c
  | E_CaptureList cl => capture_info cl
  | E_Other i _ => i
  end.

Definition catch_info (c : CatchStmt) : NodeInfo :=
  match c with mkCatchStmt i _ _ => i end.
Definition case_info (c : CaseStmt) : NodeInfo :=
  match c with mkCaseStmt i _ _ => i end.

Definition stmt_info (s : Stmt) : NodeInfo :=
  match s with
  | S_Brace bs => brace_info bs
  | S_Return i _ | S_Yield i _ | S_Defer i _ | S_If i _ _ _ | S_Guard i _ _
  | S_While i _ _ | S_RepeatWhile i _ _ | S_DoCatch i _ _ | S_Do i _
  | S_Switch i _ _ | S_ForEach i _ _ _ | S_Ignored _ i => i
  | S_Catch c => catch_info c
  | S_Case c => case_info c
  end.

Definition func_info (f : AbstractFunctionDecl) : NodeInfo :=
  match f with mkAbstractFunctionDecl i _ _ _ _ _ _ _ _ => i end.
Definition func_self (f : AbstractFunctionDecl) : nat :=
  match f with mkAbstractFunctionDecl _ a _ _ _ _ _ _ _ => a end.
Definition func_kind (f : AbstractFunctionDecl) : FuncKind :=
  match f with mkAbstractFunctionDecl _ _ k _ _ _ _ _ _ => k end.
Definition func_attrs (f : AbstractFunctionDecl) : list SpecializeAttr :=
  match f with mkAbstractFunctionDecl _ _ _ a _ _ _ _ _ => a end.
Definition func_genericParams (f : AbstractFunctionDecl) : option GenericParamList :=
  match f with mkAbstractFunctionDecl _ _ _ _ g _ _ _ _ => g end.
Definition func_parameters (f : AbstractFunctionDecl) : list ParamDecl :=
  match f with mkAbstractFunctionDecl _ _ _ _ _ p _ _ _ => p end.
Definition func_body (f : AbstractFunctionDecl) : option BraceStmt :=
  match f with mkAbstractFunctionDecl _ _ _ _ _ _ b _ _ => b end.
Definition func_isTypeContext (f : AbstractFunctionDecl) : bool :=
  match f with mkAbstractFunctionDecl _ _ _ _ _ _ _ t _ => t end.
Definition func_storage (f : AbstractFunctionDecl) : option nat :=
  match f with mkAbstractFunctionDecl _ _ _ _ _ _ _ _ s => s end.

Definition isa_AccessorDecl (f : AbstractFunctionDecl) : bool :=
  match func_kind f with AccessorDecl => true | _ => false end.

Definition param_info (p : ParamDecl) : NodeInfo :=
  match p with mkParamDecl i _ => i end.
Definition getDefaultValue (p : ParamDecl) : option Expr :=
  match p with mkParamDecl _ d => d end.

Definition var_info (v : VarDecl) : NodeInfo :=
  match v with mkVarDecl i _ _ _ => i end.
Definition var_customAttributesValid (v : VarDecl) : bool :=
  match v with mkVarDecl _ c _ _ => c end.
Definition var_bracesRangeValid (v : VarDecl) : bool :=
  match v with mkVarDecl _ _ b _ => b end.
Definition var_accessors (v : VarDecl) : list AbstractFunctionDecl :=
  match v with mkVarDecl _ _ _ a => a end.

Definition subscript_info (s : SubscriptDecl) : NodeInfo :=
  match s with mkSubscriptDecl i _ _ _ => i end.
Definition subscript_genericParams (s : SubscriptDecl) : option GenericParamList :=
  match s with mkSubscriptDecl _ g _ _ => g end.
Definition subscript_indices (s : SubscriptDecl) : list ParamDecl :=
  match s with mkSubscriptDecl _ _ p _ => p end.
Definition subscript_accessors (s : SubscriptDecl) : list AbstractFunctionDecl :=
  match s with mkSubscriptDecl _ _ _ a => a end.

Definition type_info (t : TypeDecl) : NodeInfo :=
  match t with mkTypeDecl i _ _ _ _ _ => i end.
Definition type_kind (t : TypeDecl) : TypeDeclKind :=
  match t with mkTypeDecl _ k _ _ _ _ => k end.
Definition type_genericParams (t : TypeDecl) : option GenericParamList :=
  match t with mkTypeDecl _ _ g _ _ _ => g end.
Definition type_trailingWhereClause (t : TypeDecl) : bool :=
  match t with mkTypeDecl _ _ _ w _ _ => w end.
Definition type_hasBody (t : TypeDecl) : bool :=
  match t with mkTypeDecl _ _ _ _ b _ => b end.
Definition type_members (t : TypeDecl) : list Decl :=
  match t with mkTypeDecl _ _ _ _ _ m => m end.

Definition pbd_info (pb : PatternBindingDecl) : NodeInfo :=
  match pb with mkPatternBindingDecl i _ => i end.
Definition getPatternList (pb : PatternBindingDecl) : list PatternBindingEntry :=
  match pb with mkPatternBindingDecl _ l => l end.

Definition entry_pattern (e : PatternBindingEntry) : Pattern :=
  match e with mkPatternBindingEntry p _ _ => p end.
Definition entry_init (e : PatternBindingEntry) : option Expr :=
  match e with mkPatternBindingEntry _ i _ => i end.
Definition getInitAsWritten (e : PatternBindingEntry) : option Expr :=
  match e with mkPatternBindingEntry _ _ i => i end.

Definition pattern_info (p : Pattern) : NodeInfo :=
  match p with mkPattern i _ _ => i end.
(** [Pattern::forEachVariable] enumerates these, in order. *)
Definition pattern_vars (p : Pattern) : list VarDecl :=
  match p with mkPattern _ v _ => v end.

Definition capture_Init (c : CaptureListEntry) : PatternBindingDecl :=
  match c with mkCaptureListEntry i => i end.

Definition decl_info (d : Decl) : NodeInfo :=
  match d with
  | D_Ignored _ i => i
  | D_Var v => var_info v
  | D_Func f => func_info f
  | D_Subscript s => subscript_info s
  | D_Type t => type_info t
  | D_TopLevelCode i _ => i
  | D_PatternBinding pb => pbd_info pb
  end.

(** [ASTNode] is a pointer union of [Expr *], [Stmt *] and [Decl *]: one
    word, the address of the node with the number of the alternative in
    low bits that the alignment leaves zero. [Expr *], the first
    alternative, has number 0: its word is the address itself, and so is
    the null node's (address 0, where no syntax node lives). For a [Stmt *]
    and a [Decl *] the word is no address of a node. Which of the free bits
    hold the number is the pointer union's own business; they are taken to
    be the lowest here. *)
Definition exprTag : nat := 0.
Definition stmtTag : nat := 1.
Definition declTag : nat := 2.

(** [ASTNode::getOpaqueValue]: the word of the pointer union. *)
Definition getOpaqueValue (n : ASTNode) : nat :=
  match n with
  | N_Null => 0
  | N_Expr e => node_id (expr_info e) + exprTag
  | N_Stmt s => node_id (stmt_info s) + stmtTag
  | N_Decl d => node_id (decl_info d) + declTag
  end.

Definition getStartLoc (i : NodeInfo) : SourceLoc := Start (node_range i).
Definition getEndLoc (i : NodeInfo) : SourceLoc := End (node_range i).

(** ** Scope nodes *)

Inductive DeclVisibilityKind := MemberOfCurrentNominal | LocalVariable.

Inductive Portion :=
| GenericTypeOrExtensionWholePortion
| GenericTypeOrExtensionWherePortion
| IterableTypeBodyPortion.

(** A pointer to a scope: its index in the arena. *)
Abbreviation ScopePtr := nat.

(** One constructor per scope class, with the constructor arguments the
    builder reads back. (An [AbstractFunctionParamsScope] also stores the
    matching accessor, which the builder never reads.) *)
Inductive ScopeData :=
| ASTSourceFileScope
| GenericTypeOrExtensionScope (portion : Portion) (decl : TypeDecl)
| GenericParamScope (holder : NodeInfo) (generics : GenericParamList) (index : nat)
| AbstractFunctionDeclScope (decl : AbstractFunctionDecl)
| AbstractFunctionParamsScope (params : list ParamDecl)
| MethodBodyScope (decl : AbstractFunctionDecl)
| PureFunctionBodyScope (decl : AbstractFunctionDecl)
| DefaultArgumentInitializerScope (decl : ParamDecl)
| AttachedPropertyWrapperScope (decl : VarDecl)
| PatternEntryDeclScope (decl : PatternBindingDecl) (patternEntryIndex : nat)
                        (vis : DeclVisibilityKind)
| PatternEntryInitializerScope (decl : PatternBindingDecl)
                               (patternEntryIndex : nat) (vis : DeclVisibilityKind)
| PatternEntryUseScope (decl : PatternBindingDecl) (patternEntryIndex : nat)
                       (vis : DeclVisibilityKind) (initializerEnd : SourceLoc)
| ConditionalClauseScope (enclosingStmt : NodeInfo)
                         (cond : list StmtConditionElement) (index : nat)
| ConditionalClauseUseScope (lookupParent : ScopePtr) (startLoc : SourceLoc)
| StatementConditionElementPatternScope (pattern : Pattern)
| CaptureListScope (expr : CaptureListExpr)
| WholeClosureScope (closureExpr : ClosureExpr)
                    (captureList : option CaptureListExpr)
| ClosureParametersScope (closureExpr : ClosureExpr)
                         (captureList : option CaptureListExpr)
| ClosureBodyScope (closureExpr : ClosureExpr)
                   (captureList : option CaptureListExpr)
| TopLevelCodeScope (info : NodeInfo) (body : BraceStmt)
| SpecializeAttributeScope (specializeAttr : SpecializeAttr)
                           (whatWasSpecialized : AbstractFunctionDecl)
| SubscriptDeclScope (decl : SubscriptDecl)
| VarDeclScope (decl : VarDecl)
| IfStmtScope (stmt : NodeInfo) (cond : list StmtConditionElement)
              (thenStmt elseStmt : ASTNode)
| WhileStmtScope (stmt : NodeInfo) (cond : list StmtConditionElement)
                 (body : ASTNode)
| GuardStmtScope (stmt : NodeInfo) (cond : list StmtConditionElement)
                 (body : ASTNode)
| RepeatWhileScope (stmt : NodeInfo) (body : ASTNode) (condExpr : option Expr)
| DoCatchStmtScope (stmt : NodeInfo) (body : ASTNode) (catches : list CatchStmt)
| SwitchStmtScope (stmt : NodeInfo) (subject : option Expr)
                  (cases : list CaseStmt)
| ForEachStmtScope (stmt : NodeInfo) (sequence whereExpr : option Expr)
                   (body : BraceStmt)
| ForEachPatternScope (stmt : NodeInfo) (sequence whereExpr : option Expr)
                      (body : BraceStmt)
| CatchStmtScope (stmt : CatchStmt)
| CaseStmtScope (stmt : CaseStmt)
| BraceStmtScope (stmt : BraceStmt).

(** The tree-linkage fields of [ASTScopeImpl], plus the one field a
    [ConditionalClauseScope] sets after its construction. *)
Record ASTScopeImpl := mkScope {
  data : ScopeData;
  parent : option ScopePtr;
  storedChildren : list ScopePtr;
  statementConditionElementPatternScope : option ScopePtr
}.

(** The arena of scopes allocated in the [ASTContext]. *)
Abbreviation Arena := (list ASTScopeImpl).

(** ** Source-range bookkeeping

    The range cache of the scopes lives in ASTScopeSourceRange.cpp; the
    builder only calls into it. It is kept as a separate component [R] of
    the state, updated through these five entry points, each of which may
    read the tree but cannot change it. *)
Class RangeOps (R : Type) := {
  initialRanges : R;
  widenSourceRangeForIgnoredASTNode : Arena → ScopePtr → SourceRange → R → R;
  clearCachedSourceRangesOfMeAndAncestors : Arena → ScopePtr → R → R;
  cacheSourceRangesOfSlice : Arena → ScopePtr → R → R;
  cacheSourceRange : Arena → ScopePtr → R → R;
  getSourceRange : Arena → ScopePtr → R → SourceRange
}.

(** ** The scope creator *)

(** The mutable state reachable from a [ScopeCreator]: the scopes it has
    allocated, its own two fields, the range cache, and the counter kept
    by the [ASTSourceFileScope] (which is scope 0). *)
Record ScopeCreator (R : Type) := mkCreator {
  scopes : Arena;
  newNodeInjectionPoint : ScopePtr;
  astDuplicates : gset nat;
  ranges : R;
  numberOfDeclsAlreadySeen : nat
}.
Arguments mkCreator {R}.
Arguments scopes {R}.
Arguments newNodeInjectionPoint {R}.
Arguments astDuplicates {R}.
Arguments ranges {R}.
Arguments numberOfDeclsAlreadySeen {R}.

Definition sourceFileScope : ScopePtr := 0.

(** A computation over the creator. [None] only ever means that the
    recursion budget of [createSubtree] ran out. *)
Definition M (R A : Type) : Type := ScopeCreator R → option (A * ScopeCreator R).

Definition ret {R A} (a : A) : M R A := λ sc, Some (a, sc).
Definition bind {R A B} (m : M R A) (k : A → M R B) : M R B :=
  λ sc, match m sc with
        | Some (a, sc') => k a sc'
        | None => None
        end.

Declare Scope creator_scope.
Delimit Scope creator_scope with creator.
Notation "'do' x <- m ; k" := (bind m (λ x, k))
  (at level 10, x name, m at level 100, k at level 200) : creator_scope.
Notation "m ;; k" := (bind m (λ _, k))
  (at level 100, k at level 200, right associativity) : creator_scope.
Open Scope creator_scope.

(** [for (x : l) body], threading the creator. *)
Fixpoint forEach {R A} (l : list A) (body : A → M R unit) : M R unit :=
  match l with
  | [] => ret tt
  | x :: l' => body x ;; forEach l' body
  end.

(** A loop that carries a local variable [s] besides the creator. *)
Fixpoint forEachWith {R A S} (l : list A) (s : S) (body : S → A → M R S) : M R S :=
  match l with
  | [] => ret s
  | x :: l' => do s' <- body s x; forEachWith l' s' body
  end.

Definition when {R} (b : bool) (m : M R unit) : M R unit :=
  if b then m else ret tt.

(** ** Finding closures: [ScopeCreator::forEachClosureIn]

    [ClosureFinder] is an [ASTWalker]; [Expr::walk] drives it in pre-order,
    asking the [walkTo...Pre] hook of every node it reaches and descending
    into the node's children only when the hook says so. The hooks of
    [ClosureFinder]:
    - [walkToExprPre]: a [ClosureExpr] or a [CaptureListExpr] is reported
      and not entered; any other expression is entered;
    - [walkToStmtPre]: only a [BraceStmt] is entered;
    - [walkToPatternPre], [walkToDeclPre], [walkToTypeLocPre],
      [walkToTypeReprPre], [walkToParameterListPre]: never entered.
    The result lists the calls of [foundClosure], in order. *)
Abbreviation FoundClosure := (option CaptureListExpr * ClosureExpr)%type.

Fixpoint walkExpr (e : Expr) : list FoundClosure :=
  match e with
  | E_Closure closure => [(None, closure)]
  | E_CaptureList capture => [(Some capture, getClosureBody capture)]
  | E_Other _ children =>
      (fix walkChildren (l : list WalkChild) : list FoundClosure :=
         match l with
         | [] => []
         | c :: l' => walkChild c ++ walkChildren l'
         end) children
  end
with walkChild (c : WalkChild) : list FoundClosure :=
  match c with
  | W_Expr e => walkExpr e
  | W_Stmt s => walkStmt s
  | W_Decl _ | W_Pattern _ | W_TypeLoc _ _ | W_TypeRepr _ _
  | W_ParameterList _ => []
  end
with walkStmt (s : Stmt) : list FoundClosure :=
  match s with
  | S_Brace (mkBraceStmt _ elements) =>
      (fix walkElements (l : list ASTNode) : list FoundClosure :=
         match l with
         | [] => []
         | n :: l' => walkNode n ++ walkElements l'
         end) elements
  | _ => []
  end
with walkNode (n : ASTNode) : list FoundClosure :=
  match n with
  | N_Expr e => walkExpr e
  | N_Stmt s => walkStmt s
  | N_Decl _ | N_Null => []
  end.

Definition forEachClosureIn (expr : Expr) : list FoundClosure := walkExpr expr.

(** ** Pure classification *)

(** [isa<VarDecl>]: a [ParamDecl] is a [VarDecl]. *)
Definition isa_VarDecl (d : Decl) : bool :=
  match d with
  | D_Var _ | D_Ignored ParamDeclKind _ => true
  | _ => false
  end.

(** [isa<AccessorDecl>] *)
Definition isa_Accessor (d : Decl) : bool :=
  match d with
  | D_Func f => isa_AccessorDecl f
  | _ => false
  end.

(** [PatternEntryDeclScope::isHandledSpecially] *)
Definition isHandledSpecially (n : ASTNode) : bool :=
  match n with
  | N_Decl d => isa_VarDecl d || isa_Accessor d
  | _ => false
  end.

Definition isa_PatternBindingDecl (d : Decl) : bool :=
  match d with D_PatternBinding _ => true | _ => false end.

(** [ScopeCreator::shouldCreateScope] *)
Definition shouldCreateScope (n : ASTNode) : bool :=
  match n with
  | N_Null => false
  | N_Stmt _ | N_Expr _ => true
  | N_Decl d =>
      if node_implicit (decl_info d) then false
      else if isa_PatternBindingDecl d
              && loc_eqb (getStartLoc (decl_info d)) (getEndLoc (decl_info d))
      then false
      else true
  end.

(** [ASTScopeImpl::isATypeDeclScope]. [getDecl] is overridden per scope
    class in ASTScope.h; the scopes whose declaration is a nominal type or
    an extension are the [GenericTypeOrExtensionScope]s, whatever their
    portion; every other class stores a declaration of another kind, or
    none. *)
Definition isATypeDeclScope (d : ScopeData) : bool :=
  match d with
  | GenericTypeOrExtensionScope _ t =>
      match type_kind t with
      | NominalTypeDecl _ | ExtensionDecl => true
      | TypeAliasDecl | OpaqueTypeDecl => false
      end
  | _ => false
  end.

(** [GenericTypeOrExtensionScope::shouldHaveABody]: the iterable type
    scopes (nominal types and extensions) should. *)
Definition shouldHaveABody (t : TypeDecl) : bool :=
  match type_kind t with
  | NominalTypeDecl _ | ExtensionDecl => true
  | TypeAliasDecl | OpaqueTypeDecl => false
  end.

(** [forEachSpecializeAttrInSourceOrder] sorts by location. *)
Fixpoint insertByLocation (a : SpecializeAttr) (l : list SpecializeAttr) :
    list SpecializeAttr :=
  match l with
  | [] => [a]
  | b :: l' => if attr_loc a <? attr_loc b then a :: l
               else b :: insertByLocation a l'
  end.

Definition sortByLocation (l : list SpecializeAttr) : list SpecializeAttr :=
  foldr insertByLocation [] l.

(** [getEnclosingAbstractStorageDecl]: the scopes of a specialize attribute,
    a function declaration, a parameter list and a generic parameter ask
    their parent; the scope of a variable or of a subscript answers with its
    declaration; any other scope has none. A parent has a smaller index
    than its child, so [S p] steps suffice from scope [p]. *)
Fixpoint enclosingStorageFrom (steps : nat) (a : Arena) (p : ScopePtr) :
    option nat :=
  match steps with
  | 0 => None
  | S steps' =>
      match a !! p with
      | None => None
      | Some sc =>
          match data sc with
          | SpecializeAttributeScope _ _ | AbstractFunctionDeclScope _
          | AbstractFunctionParamsScope _ | GenericParamScope _ _ _ =>
              match parent sc with
              | Some q => enclosingStorageFrom steps' a q
              | None => None
              end
          | VarDeclScope v => Some (node_id (var_info v))
          | SubscriptDeclScope s => Some (node_id (subscript_info s))
          | _ => None
          end
      end
  end.

Definition getEnclosingAbstractStorageDecl (a : Arena) (p : ScopePtr) :
    option nat :=
  enclosingStorageFrom (S p) a p.

(** ** Primitive steps on the creator *)

Section Primitives.
Context {R : Type} `{RangeOps R}.

Definition setScopes (a : Arena) (sc : ScopeCreator R) : ScopeCreator R :=
  mkCreator a (newNodeInjectionPoint sc) (astDuplicates sc) (ranges sc)
            (numberOfDeclsAlreadySeen sc).
Definition setInjectionPoint (p : ScopePtr) (sc : ScopeCreator R) : ScopeCreator R :=
  mkCreator (scopes sc) p (astDuplicates sc) (ranges sc)
            (numberOfDeclsAlreadySeen sc).
Definition setDuplicates (s : gset nat) (sc : ScopeCreator R) : ScopeCreator R :=
  mkCreator (scopes sc) (newNodeInjectionPoint sc) s (ranges sc)
            (numberOfDeclsAlreadySeen sc).
Definition setRanges (r : R) (sc : ScopeCreator R) : ScopeCreator R :=
  mkCreator (scopes sc) (newNodeInjectionPoint sc) (astDuplicates sc) r
            (numberOfDeclsAlreadySeen sc).
Definition setDeclsSeen (n : nat) (sc : ScopeCreator R) : ScopeCreator R :=
  mkCreator (scopes sc) (newNodeInjectionPoint sc) (astDuplicates sc)
            (ranges sc) n.

Definition get : M R (ScopeCreator R) := λ sc, Some (sc, sc).
Definition modify (f : ScopeCreator R → ScopeCreator R) : M R unit :=
  λ sc, Some (tt, f sc).

(** [constructInContext]: allocate a scope; it has no parent and no
    children yet. *)
Definition constructInContext (d : ScopeData) : M R ScopePtr :=
  λ sc, Some (length (scopes sc),
              setScopes (scopes sc ++ [mkScope d None [] None]) sc).

Definition pushChild (child : ScopePtr) (s : ASTScopeImpl) : ASTScopeImpl :=
  mkScope (data s) (parent s) (storedChildren s ++ [child])
          (statementConditionElementPatternScope s).
Definition setParent (p : ScopePtr) (s : ASTScopeImpl) : ASTScopeImpl :=
  mkScope (data s) (Some p) (storedChildren s)
          (statementConditionElementPatternScope s).
Definition setPatternScope (q : ScopePtr) (s : ASTScopeImpl) : ASTScopeImpl :=
  mkScope (data s) (parent s) (storedChildren s) (Some q).

(** [ASTScopeImpl::addChild], called on [p]. *)
Definition addChild (p child : ScopePtr) : M R unit :=
  modify (λ sc, setScopes (alter (setParent p) child
                             (alter (pushChild child) p (scopes sc))) sc).

(** [getParent().get()] *)
Definition getParent (this : ScopePtr) : M R ScopePtr :=
  λ sc, Some (default this (scopes sc !! this ≫= parent), sc).

Definition getData (p : ScopePtr) : M R (option ScopeData) :=
  λ sc, Some (data <$> scopes sc !! p, sc).

Definition widen (p : ScopePtr) (r : SourceRange) : M R unit :=
  modify (λ sc, setRanges
                  (widenSourceRangeForIgnoredASTNode (scopes sc) p r (ranges sc)) sc).

(** [ScopeCreator::isDuplicate] *)
Definition isDuplicate (p : nat) (registerDuplicate : bool) : M R bool :=
  λ sc, let seen := bool_decide (p ∈ astDuplicates sc) in
        if registerDuplicate
        then Some (seen, setDuplicates ({[p]} ∪ astDuplicates sc) sc)
        else Some (seen, sc).

(** [ScopeCreator::shouldThisNodeBeScopedWhenEncountered] *)
Definition shouldThisNodeBeScopedWhenEncountered (n : ASTNode) : M R bool :=
  if isHandledSpecially n then ret false
  else do seen <- isDuplicate (getOpaqueValue n) true; ret (negb seen).

End Primitives.

(** ** The visitor and the expansions

    [createSubtree] and the expansions call each other; the section takes
    [createSubtree] as given and the knot is tied after it.
    [doISplitAScope] is a virtual method declared in ASTScope.h. *)

Section Expansion.
Context {R : Type} `{RangeOps R}.
Variable doISplitAScope : ScopeData → bool.
Variable createSubtree : ScopeData → ScopePtr → M R ScopePtr.

(** [createSubtree2D<Scope, Portion>]; the scope class follows from the
    declaration. *)
Definition createSubtree2D (portion : Portion) (parent : ScopePtr)
    (decl : TypeDecl) : M R ScopePtr :=
  createSubtree (GenericTypeOrExtensionScope portion decl) parent.

Definition forEachUniqueClosureIn (expr : Expr)
    (foundUniqueClosure : option CaptureListExpr → ClosureExpr → M R unit) :
    M R unit :=
  forEach (forEachClosureIn expr) (λ found,
    do dup <- isDuplicate (closure_self found.2) true;
    when (negb dup) (foundUniqueClosure found.1 found.2)).

Definition addChildrenForCapturesAndClosuresIn (expr : Expr)
    (parent : ScopePtr) : M R unit :=
  forEachUniqueClosureIn expr (λ captureList closureExpr,
    createSubtree (WholeClosureScope closureExpr captureList) parent ;; ret tt).

(** The variables of [getPattern(0)]; a pattern binding has an entry. *)
Definition firstPatternVars (pb : PatternBindingDecl) : list VarDecl :=
  match getPatternList pb with
  | e :: _ => pattern_vars (entry_pattern e)
  | [] => []
  end.

Definition hasCustomAttribute (vd : VarDecl) : bool :=
  var_customAttributesValid vd.

Definition createAttachedPropertyWrapperScope (patternBinding : PatternBindingDecl)
    (parent : ScopePtr) : M R unit :=
  forEach (firstPatternVars patternBinding) (λ vd,
    when (hasCustomAttribute vd)
         (createSubtree (AttachedPropertyWrapperScope vd) parent ;; ret tt)).

Definition indices {A} (l : list A) : list nat := seq 0 (length l).

Definition createGenericParamScopes (parameterizedDecl : NodeInfo)
    (generics : option GenericParamList) (parent : ScopePtr) : M R ScopePtr :=
  match generics with
  | None => ret parent
  | Some params =>
      forEachWith (indices params) parent (λ s i,
        do dup <- isDuplicate (default 0 (params !! i)) true;
        if negb dup
        then createSubtree (GenericParamScope parameterizedDecl params i) s
        else ret s)
  end.

Definition visitAbstractFunctionDecl (w : AbstractFunctionDecl) (p : ScopePtr) :
    M R ScopePtr :=
  createSubtree (AbstractFunctionDeclScope w) p.

Definition addChildrenForAllExplicitAccessors
    (accessors : list AbstractFunctionDecl) (parent : ScopePtr) : M R unit :=
  forEach accessors (λ accessor,
    when (negb (node_implicit (func_info accessor))
          && loc_isValid (getStartLoc (func_info accessor)))
      (do dup <- isDuplicate (func_self accessor) true;
       do sc <- get;
       when (negb dup
             && bool_decide (getEnclosingAbstractStorageDecl (scopes sc) parent
                             = func_storage accessor))
            (visitAbstractFunctionDecl accessor parent ;; ret tt))).

Definition forEachSpecializeAttrInSourceOrder
    (declBeingSpecialized : AbstractFunctionDecl)
    (fn : SpecializeAttr → M R unit) : M R unit :=
  do sortedSpecializeAttrs <-
    forEachWith (func_attrs declBeingSpecialized) [] (λ acc specializeAttr,
      do dup <- isDuplicate (attr_id specializeAttr) true;
      ret (if negb dup then acc ++ [specializeAttr] else acc));
  forEach (sortByLocation sortedSpecializeAttrs) fn.

Definition visitExpr (expr : option Expr) (p : ScopePtr) : M R ScopePtr :=
  match expr with
  | Some e =>
      widen p (node_range (expr_info e)) ;;
      addChildrenForCapturesAndClosuresIn e p
  | None => ret tt
  end ;;
  ret p.

Definition splits (p : ScopePtr) : M R bool :=
  do d <- getData p;
  ret (from_option doISplitAScope false d).

Definition visitBraceStmt (bs : BraceStmt) (p : ScopePtr) : M R ScopePtr :=
  do insertionPoint <- createSubtree (BraceStmtScope bs) p;
  do split <- splits p;
  ret (if split then insertionPoint else p).

Definition inTypeDecl (p : ScopePtr) : M R bool :=
  do d <- getData p;
  ret (from_option isATypeDeclScope false d).

Definition visitPatternBindingDecl (patternBinding : PatternBindingDecl)
    (parentScope : ScopePtr) : M R ScopePtr :=
  createAttachedPropertyWrapperScope patternBinding parentScope ;;
  do isInTypeDecl <- inTypeDecl parentScope;
  let vis := if isInTypeDecl then MemberOfCurrentNominal else LocalVariable in
  do insertionPoint <-
    forEachWith (indices (getPatternList patternBinding)) parentScope
      (λ insertionPoint i,
         createSubtree (PatternEntryDeclScope patternBinding i vis)
                       insertionPoint);
  ret (if isInTypeDecl then parentScope else insertionPoint).

Definition visitAndIgnore (w : NodeInfo) (p : ScopePtr) : M R ScopePtr :=
  widen p (node_range w) ;; ret p.

(** The dispatch of [ASTVisitor::visit] on a declaration. A protocol gets
    its generic parameters created first if they are missing; the syntax
    tree given here is the one after that step. *)
Definition visitDecl (d : Decl) (p : ScopePtr) : M R ScopePtr :=
  match d with
  | D_Ignored _ w => visitAndIgnore w p
  | D_Var v => visitAndIgnore (var_info v) p
  | D_Func f =>
      if isa_AccessorDecl f then visitAndIgnore (func_info f) p
      else visitAbstractFunctionDecl f p
  | D_Subscript s => createSubtree (SubscriptDeclScope s) p
  | D_Type t => createSubtree2D GenericTypeOrExtensionWholePortion p t
  | D_TopLevelCode i b => createSubtree (TopLevelCodeScope i b) p
  | D_PatternBinding pb => visitPatternBindingDecl pb p
  end.

(** The dispatch of [ASTVisitor::visit] on a statement. [visitDoStmt] calls
    [createScopeFor] on the body, a brace statement: [shouldCreateScope]
    accepts it and the dispatch reaches [visitBraceStmt]. *)
Definition visitStmt (s : Stmt) (p : ScopePtr) : M R ScopePtr :=
  match s with
  | S_Brace bs => visitBraceStmt bs p
  | S_Return _ result => visitExpr result p ;; ret p
  | S_Yield _ yields =>
      forEach yields (λ e, visitExpr (Some e) p ;; ret tt) ;; ret p
  | S_Defer _ tempDecl => visitAbstractFunctionDecl tempDecl p ;; ret p
  | S_If i c t e => createSubtree (IfStmtScope i c t e) p
  | S_Guard i c b => createSubtree (GuardStmtScope i c b) p
  | S_While i c b => createSubtree (WhileStmtScope i c b) p
  | S_RepeatWhile i b c => createSubtree (RepeatWhileScope i b c) p
  | S_DoCatch i b cs => createSubtree (DoCatchStmtScope i b cs) p
  | S_Do _ body => visitBraceStmt body p
  | S_Switch i e cs => createSubtree (SwitchStmtScope i e cs) p
  | S_ForEach i e w b => createSubtree (ForEachStmtScope i e w b) p
  | S_Catch c => createSubtree (CatchStmtScope c) p
  | S_Case c => createSubtree (CaseStmtScope c) p
  | S_Ignored _ w => visitAndIgnore w p
  end.

(** [ScopeCreator::createScopeFor] *)
Definition createScopeFor (n : ASTNode) (parent : ScopePtr) : M R ScopePtr :=
  if negb (shouldCreateScope n) then ret parent
  else match n with
       | N_Decl d => visitDecl d parent
       | N_Expr e => visitExpr (Some e) parent
       | N_Stmt s => visitStmt s parent
       | N_Null => ret parent
       end.

(** [ASTScopeImpl::ensureSourceRangesAreCorrectWhenAddingDescendants] *)
Definition ensureSourceRangesAreCorrectWhenAddingDescendants (this : ScopePtr)
    (modify_ : M R unit) : M R unit :=
  modify (λ sc, setRanges
     (clearCachedSourceRangesOfMeAndAncestors (scopes sc) this (ranges sc)) sc) ;;
  modify_ ;;
  modify (λ sc, setRanges
     (cacheSourceRangesOfSlice (scopes sc) this (ranges sc)) sc).

(** The body of the loop of [addScopesToTree]: the node is scoped under
    the injection point, and what that returns is the injection point of
    the next node. *)
Definition addScopeToTree (nd : ASTNode) : M R unit :=
  do should <- shouldThisNodeBeScopedWhenEncountered nd;
  when should
    (do cur <- get;
     do p <- createScopeFor nd (newNodeInjectionPoint cur);
     modify (setInjectionPoint p)).

(** [ScopeCreator::addScopesToTree] *)
Definition addScopesToTree (nodesOrDeclsToAdd : list ASTNode) : M R unit :=
  if bool_decide (nodesOrDeclsToAdd = []) then ret tt
  else
    do sc <- get;
    ensureSourceRangesAreCorrectWhenAddingDescendants (newNodeInjectionPoint sc)
      (forEach nodesOrDeclsToAdd addScopeToTree).

(** *** Helpers of the expansions *)

Definition getPatternEntry (decl : PatternBindingDecl) (patternEntryIndex : nat) :
    option PatternBindingEntry :=
  getPatternList decl !! patternEntryIndex.

(** [AbstractPatternEntryScope::forEachVarDeclWithExplicitAccessors] *)
Definition forEachVarDeclWithExplicitAccessors (decl : PatternBindingDecl)
    (patternEntryIndex : nat) (dontRegisterAsDuplicate : bool)
    (foundOne : VarDecl → M R unit) : M R unit :=
  forEach (from_option (λ e, pattern_vars (entry_pattern e)) []
                       (getPatternEntry decl patternEntryIndex))
    (λ var,
       do dup <- isDuplicate (node_id (var_info var))
                             (negb dontRegisterAsDuplicate);
       when (negb dup
             && var_bracesRangeValid var
             && negb (node_implicit (var_info var)))
            (foundOne var)).

(** [getStatementConditionIfAny], overridden by [ConditionalClauseScope]. *)
Definition getStatementConditionIfAny (p : ScopePtr) : M R ScopePtr :=
  do sc <- get;
  ret (match scopes sc !! p with
       | Some s =>
           match data s with
           | ConditionalClauseScope _ _ _ =>
               default p (statementConditionElementPatternScope s)
           | _ => p
           end
       | None => p
       end).

(** [LabeledConditionalStmtScope::createCondScopes] *)
Definition createCondScopes (this : ScopePtr) (stmt : NodeInfo)
    (cond : list StmtConditionElement) : M R ScopePtr :=
  do insertionPoint <-
    forEachWith (indices cond) this (λ insertionPoint i,
      createSubtree (ConditionalClauseScope stmt cond i) insertionPoint);
  getStatementConditionIfAny insertionPoint.

(** [ConditionalClauseScope::createSubtreeForCondition] *)
Definition createSubtreeForCondition (this : ScopePtr)
    (cond : list StmtConditionElement) (index : nat) : M R unit :=
  match cond !! index with
  | Some CK_Availability | None => ret tt
  | Some (CK_Boolean e) => visitExpr e this ;; ret tt
  | Some (CK_PatternBinding pattern initializer) =>
      do s <- createSubtree (StatementConditionElementPatternScope pattern) this;
      modify (λ sc, setScopes (alter (setPatternScope s) this (scopes sc)) sc) ;;
      visitExpr initializer this ;; ret tt
  end.

(** [createTrailingWhereClauseScope], by scope class. *)
Definition createTrailingWhereClauseScope (decl : TypeDecl) (parent : ScopePtr) :
    M R ScopePtr :=
  match type_kind decl with
  | ExtensionDecl | NominalTypeDecl _ | TypeAliasDecl =>
      createSubtree2D GenericTypeOrExtensionWherePortion parent decl
  | OpaqueTypeDecl => ret parent
  end.

(** [createBodyScope], by scope class; only [ExtensionScope] and
    [NominalTypeScope] override the empty default. *)
Definition createBodyScope (decl : TypeDecl) (leaf : ScopePtr) : M R unit :=
  match type_kind decl with
  | ExtensionDecl | NominalTypeDecl _ =>
      createSubtree2D IterableTypeBodyPortion leaf decl ;; ret tt
  | TypeAliasDecl | OpaqueTypeDecl => ret tt
  end.

(** [Portion::expandScope]. The where portion has nothing to expand. *)
Definition expandScope (portion : Portion) (scope : ScopePtr) (decl : TypeDecl) :
    M R unit :=
  match portion with
  | GenericTypeOrExtensionWholePortion =>
      if shouldHaveABody decl && negb (type_hasBody decl) then ret tt
      else
        do deepestScope <-
          createGenericParamScopes (type_info decl) (type_genericParams decl) scope;
        do deepestScope <-
          (if type_trailingWhereClause decl
           then createTrailingWhereClauseScope decl deepestScope
           else ret deepestScope);
        createBodyScope decl deepestScope
  | GenericTypeOrExtensionWherePortion => ret tt
  | IterableTypeBodyPortion =>
      if shouldHaveABody decl
      then forEach (type_members decl) (λ member,
             do dup <- isDuplicate (node_id (decl_info member)) true;
             when (negb dup) (createScopeFor (N_Decl member) scope ;; ret tt))
      else ret tt
  end.

(** *** [expandAScopeThatCreatesANewInsertionPoint] *)

Definition expandAScopeThatCreatesANewInsertionPoint (this : ScopePtr)
    (d : ScopeData) : M R ScopePtr :=
  match d with
  | AbstractFunctionParamsScope params =>
      forEach params (λ pd,
        do dup <- isDuplicate (node_id (param_info pd)) true;
        when (negb dup && bool_decide (is_Some (getDefaultValue pd)))
             (createSubtree (DefaultArgumentInitializerScope pd) this ;; ret tt)) ;;
      ret this
  | PatternEntryDeclScope decl patternEntryIndex vis =>
      do initializerEnd <-
        match getPatternEntry decl patternEntryIndex ≫= getInitAsWritten with
        | Some e =>
            if range_isValid (node_range (expr_info e))
            then
              do initializer <-
                createSubtree
                  (PatternEntryInitializerScope decl patternEntryIndex vis) this;
              modify (λ sc, setRanges
                (cacheSourceRange (scopes sc) initializer (ranges sc)) sc) ;;
              do sc <- get;
              ret (End (getSourceRange (scopes sc) initializer (ranges sc)))
            else ret None
        | None => ret None
        end;
      createSubtree
        (PatternEntryUseScope decl patternEntryIndex vis initializerEnd) this
  | PatternEntryInitializerScope decl patternEntryIndex _ =>
      visitExpr (getPatternEntry decl patternEntryIndex ≫= getInitAsWritten) this ;;
      ret this
  | PatternEntryUseScope decl patternEntryIndex _ _ =>
      forEachVarDeclWithExplicitAccessors decl patternEntryIndex false
        (λ var, createSubtree (VarDeclScope var) this ;; ret tt) ;;
      ret this
  | ConditionalClauseScope _ cond index =>
      createSubtreeForCondition this cond index ;;
      ret this
  | GuardStmtScope stmt cond body =>
      do lookupParent <- createCondScopes this stmt cond;
      createScopeFor body this ;;
      createSubtree (ConditionalClauseUseScope lookupParent (getEndLoc stmt)) this
  | _ => ret this
  end.

(** *** [expandAScopeThatDoesNotCreateANewInsertionPoint] *)

Definition createIfNotDuplicate (id : nat) (d : ScopeData) (this : ScopePtr) :
    M R unit :=
  do dup <- isDuplicate id true;
  when (negb dup) (createSubtree d this ;; ret tt).

Definition expandAScopeThatDoesNotCreateANewInsertionPoint (this : ScopePtr)
    (d : ScopeData) : M R unit :=
  match d with
  | AbstractFunctionDeclScope decl =>
      forEachSpecializeAttrInSourceOrder decl (λ specializeAttr,
        createSubtree (SpecializeAttributeScope specializeAttr decl) this ;;
        ret tt) ;;
      do leaf <-
        (if negb (isa_AccessorDecl decl)
         then
           do leaf <- createGenericParamScopes (func_info decl)
                        (func_genericParams decl) this;
           if negb (node_implicit (func_info decl))
           then createSubtree (AbstractFunctionParamsScope (func_parameters decl))
                              leaf
           else ret leaf
         else ret this);
      if bool_decide (is_Some (func_body decl))
      then createSubtree (if func_isTypeContext decl then MethodBodyScope decl
                          else PureFunctionBodyScope decl) leaf ;; ret tt
      else ret tt
  | MethodBodyScope decl | PureFunctionBodyScope decl =>
      match func_body decl with
      | Some braceStmt => visitBraceStmt braceStmt this ;; ret tt
      | None => ret tt
      end
  | IfStmtScope stmt cond thenStmt elseStmt =>
      do lookupParent <- createCondScopes this stmt cond;
      createScopeFor thenStmt lookupParent ;;
      createScopeFor elseStmt this ;; ret tt
  | WhileStmtScope stmt cond body =>
      do lookupParent <- createCondScopes this stmt cond;
      createScopeFor body lookupParent ;; ret tt
  | RepeatWhileScope _ body condExpr =>
      createScopeFor body this ;;
      visitExpr condExpr this ;; ret tt
  | DoCatchStmtScope _ body catches =>
      createScopeFor body this ;;
      forEach catches (λ catchClause,
        createIfNotDuplicate (node_id (catch_info catchClause))
                             (CatchStmtScope catchClause) this)
  | SwitchStmtScope _ subject cases =>
      visitExpr subject this ;;
      forEach cases (λ caseStmt,
        createIfNotDuplicate (node_id (case_info caseStmt))
                             (CaseStmtScope caseStmt) this)
  | ForEachStmtScope stmt sequence whereExpr body =>
      visitExpr sequence this ;;
      createSubtree (ForEachPatternScope stmt sequence whereExpr body) this ;;
      ret tt
  | ForEachPatternScope _ _ whereExpr body =>
      visitExpr whereExpr this ;;
      visitBraceStmt body this ;; ret tt
  | CatchStmtScope (mkCatchStmt _ guardExpr body) =>
      visitExpr guardExpr this ;;
      createScopeFor body this ;; ret tt
  | CaseStmtScope (mkCaseStmt _ labelItemGuards body) =>
      forEach labelItemGuards (λ g, visitExpr g this ;; ret tt) ;;
      createScopeFor body this ;; ret tt
  | VarDeclScope decl =>
      addChildrenForAllExplicitAccessors (var_accessors decl) this
  | SubscriptDeclScope sub =>
      do leaf <- createGenericParamScopes (subscript_info sub)
                   (subscript_genericParams sub) this;
      do params <- createSubtree (AbstractFunctionParamsScope (subscript_indices sub))
                                 leaf;
      addChildrenForAllExplicitAccessors (subscript_accessors sub) params
  | WholeClosureScope closureExpr captureList =>
      match captureList with
      | Some cl => createSubtree (CaptureListScope cl) this ;; ret tt
      | None => ret tt
      end ;;
      do bodyParent <-
        (if loc_isValid (closure_inLoc closureExpr)
         then createSubtree (ClosureParametersScope closureExpr captureList) this
         else ret this);
      createSubtree (ClosureBodyScope closureExpr captureList) bodyParent ;;
      ret tt
  | CaptureListScope expr =>
      (* every entry of a capture has its initializer *)
      forEach (getCaptureList expr) (λ captureListEntry,
        forEach (getPatternList (capture_Init captureListEntry)) (λ entry,
          match entry_init entry with
          | Some init => addChildrenForCapturesAndClosuresIn init this
          | None => ret tt
          end))
  | ClosureBodyScope closureExpr _ =>
      createSubtree (BraceStmtScope (closure_body closureExpr)) this ;; ret tt
  | TopLevelCodeScope _ body =>
      createSubtree (BraceStmtScope body) this ;; ret tt
  | DefaultArgumentInitializerScope decl =>
      visitExpr (getDefaultValue decl) this ;; ret tt
  | GenericTypeOrExtensionScope portion decl => expandScope portion this decl
  | BraceStmtScope stmt => addScopesToTree (getElements stmt)
  | _ => ret tt
  end.

(** *** [expandMe]: which macro defines it for which class *)

Inductive ExpansionKind :=
| CREATES_NEW_INSERTION_POINT
| NO_NEW_INSERTION_POINT
| NO_EXPANSION.

Definition expansionKind (d : ScopeData) : ExpansionKind :=
  match d with
  | AbstractFunctionParamsScope _ | ConditionalClauseScope _ _ _
  | GuardStmtScope _ _ _ | PatternEntryDeclScope _ _ _
  | PatternEntryInitializerScope _ _ _ | PatternEntryUseScope _ _ _ _ =>
      CREATES_NEW_INSERTION_POINT
  | MethodBodyScope _ | PureFunctionBodyScope _ | AbstractFunctionDeclScope _
  | BraceStmtScope _ | CaptureListScope _ | CaseStmtScope _ | CatchStmtScope _
  | ClosureBodyScope _ _ | DefaultArgumentInitializerScope _
  | DoCatchStmtScope _ _ _ | ForEachPatternScope _ _ _ _
  | ForEachStmtScope _ _ _ _ | GenericTypeOrExtensionScope _ _
  | IfStmtScope _ _ _ _ | RepeatWhileScope _ _ _ | SubscriptDeclScope _
  | SwitchStmtScope _ _ _ | TopLevelCodeScope _ _ | VarDeclScope _
  | WhileStmtScope _ _ _ | WholeClosureScope _ _ =>
      NO_NEW_INSERTION_POINT
  | GenericParamScope _ _ _ | ASTSourceFileScope | ClosureParametersScope _ _
  | SpecializeAttributeScope _ _ | ConditionalClauseUseScope _ _
  | AttachedPropertyWrapperScope _ | StatementConditionElementPatternScope _ =>
      NO_EXPANSION
  end.

Definition expandMe (this : ScopePtr) (d : ScopeData) : M R ScopePtr :=
  match expansionKind d with
  | CREATES_NEW_INSERTION_POINT =>
      expandAScopeThatCreatesANewInsertionPoint this d
  | NO_NEW_INSERTION_POINT =>
      expandAScopeThatDoesNotCreateANewInsertionPoint this d ;;
      getParent this
  | NO_EXPANSION => getParent this
  end.

(** The body of [createSubtree], given [createSubtree] for the scopes
    below. *)
Definition createSubtreeStep (d : ScopeData) (parent : ScopePtr) : M R ScopePtr :=
  do child <- constructInContext d;
  addChild parent child ;;
  expandMe child d.

End Expansion.

(** [ScopeCreator::createSubtree]. [depth] bounds the nesting of scopes
    still to be created. *)
Fixpoint createSubtree {R} `{RangeOps R} (doISplitAScope : ScopeData → bool)
    (depth : nat) (d : ScopeData) (parent : ScopePtr) : M R ScopePtr :=
  match depth with
  | 0 => λ _, None
  | S depth' =>
      createSubtreeStep doISplitAScope (createSubtree doISplitAScope depth')
                        d parent
  end.

(** ** Building and extending the tree of a source file *)

Section SourceFile.
Context {R : Type} `{RangeOps R}.
Variable doISplitAScope : ScopeData → bool.
Variable depth : nat.

(** The creator as its constructor leaves it: the source-file scope is
    allocated and is the injection point, nothing is registered yet. *)
Definition newScopeCreator : ScopeCreator R :=
  mkCreator [mkScope ASTSourceFileScope None [] None] sourceFileScope ∅
            initialRanges 0.

(** [ASTSourceFileScope::addNewDeclsToTree]; [decls] is [SF->Decls] at the
    time of the call. *)
Definition addNewDeclsToTree (decls : list Decl) : M R unit :=
  do sc <- get;
  let newDecls := drop (numberOfDeclsAlreadySeen sc) decls in
  addScopesToTree doISplitAScope (createSubtree doISplitAScope depth)
                  (N_Decl <$> newDecls) ;;
  modify (setDeclsSeen (length decls)).

(** [ASTScope::createScopeTreeFor] *)
Definition createScopeTreeFor (decls : list Decl) :
    option (unit * ScopeCreator R) :=
  addNewDeclsToTree decls newScopeCreator.

(** [ASTScope::addAnyNewScopesToTree] *)
Definition addAnyNewScopesToTree (decls : list Decl) : M R unit :=
  addNewDeclsToTree decls.

End SourceFile.

(** ** The range cache, from the specification *)

Definition locMin (a b : SourceLoc) : SourceLoc :=
  union_with (λ x y, Some (x `min` y)) a b.
Definition locMax (a b : SourceLoc) : SourceLoc :=
  union_with (λ x y, Some (x `max` y)) a b.

(** [SourceRange::widen]: the smallest range covering both. *)
Definition widenRange (r1 r2 : SourceRange) : SourceRange :=
  mkRange (locMin (Start r1) (Start r2)) (locMax (End r1) (End r2)).

Definition invalidRange : SourceRange := mkRange None None.

(** [inner ⊆ outer], on the valid ends of [inner]. *)
Definition rangeContains (outer inner : SourceRange) : Prop :=
  (∀ x, Start inner = Some x → ∃ y, Start outer = Some y ∧ y ≤ x) ∧
  (∀ x, End inner = Some x → ∃ y, End outer = Some y ∧ x ≤ y).

(** Per scope: the cached range, absent until computed, and the range
    accumulated from the ignored syntax nodes the scope was widened by. *)
Record RangeCache := mkRangeCache {
  cachedSourceRange : gmap ScopePtr SourceRange;
  sourceRangeOfIgnoredASTNodes : gmap ScopePtr SourceRange
}.

Definition setCached (m : gmap ScopePtr SourceRange) (rc : RangeCache) : RangeCache :=
  mkRangeCache m (sourceRangeOfIgnoredASTNodes rc).

Definition childrenOf (a : Arena) (p : ScopePtr) : list ScopePtr :=
  from_option storedChildren [] (a !! p).

Definition parentOf (a : Arena) (p : ScopePtr) : option ScopePtr :=
  a !! p ≫= parent.

(** The parent chain of [p], nearest first. A parent has a smaller index
    than its child, so the chain of [p] has at most [p] links. *)
Fixpoint ancestorsFrom (steps : nat) (a : Arena) (p : ScopePtr) : list ScopePtr :=
  match steps with
  | 0 => []
  | S steps' =>
      match parentOf a p with
      | Some q => q :: ancestorsFrom steps' a q
      | None => []
      end
  end.

Definition ancestors (a : Arena) (p : ScopePtr) : list ScopePtr :=
  ancestorsFrom p a p.

Definition isDescendantOrSelf (a : Arena) (top p : ScopePtr) : bool :=
  bool_decide (p = top) || bool_decide (top ∈ ancestors a p).

Section SpecRanges.
(** The range a scope has on its own, before its children and the ignored
    nodes are counted in (per scope class, in ASTScopeSourceRange.cpp). *)
Variable childlessRange : ScopeData → SourceRange.

(** The range of a scope from what it covers now: its own range, the
    ignored nodes it was widened by, and the cached ranges of its
    children. *)
Definition computeRange (a : Arena) (rc : RangeCache) (p : ScopePtr) : SourceRange :=
  foldl widenRange
    (widenRange (from_option (λ s, childlessRange (data s)) invalidRange (a !! p))
                (default invalidRange (sourceRangeOfIgnoredASTNodes rc !! p)))
    (omap (λ c, cachedSourceRange rc !! c) (childrenOf a p)).

Definition recompute (a : Arena) (rc : RangeCache) (p : ScopePtr) : RangeCache :=
  setCached (<[p := computeRange a rc p]> (cachedSourceRange rc)) rc.

(** Modelled from the spec: the range-widening operation of a scope
    (ASTScopeSourceRange.cpp is not part of the sources). It "extends its
    cached range to include a given position without creating a child";
    the position is also remembered, so that a later recomputation covers
    it. *)
Definition spec_widenSourceRangeForIgnoredASTNode (a : Arena) (p : ScopePtr)
    (r : SourceRange) (rc : RangeCache) : RangeCache :=
  mkRangeCache
    (alter (λ c, widenRange c r) p (cachedSourceRange rc))
    (<[p := widenRange (default invalidRange
                          (sourceRangeOfIgnoredASTNodes rc !! p)) r]>
       (sourceRangeOfIgnoredASTNodes rc)).

(** Modelled from the spec: "before the loop starts, the current insertion
    point's cached range is invalidated", for the scope and, as the name
    of the method says, for its ancestors. *)
Definition spec_clearCachedSourceRangesOfMeAndAncestors (a : Arena)
    (p : ScopePtr) (rc : RangeCache) : RangeCache :=
  setCached (foldl (λ m q, delete q m) (cachedSourceRange rc) (p :: ancestors a p))
            rc.

(** The scope and its descendants, children before parents: a child has a
    larger index than its parent, so decreasing index order is bottom-up. *)
Definition sliceBottomUp (a : Arena) (p : ScopePtr) : list ScopePtr :=
  filter (λ i, isDescendantOrSelf a p i = true)
         (reverse (seq 0 (length a))).

(** Modelled from the spec: "after the loop, its range is recomputed
    bottom-up": the scope and its descendants first, then its ancestors,
    nearest first. *)
Definition spec_cacheSourceRangesOfSlice (a : Arena) (p : ScopePtr)
    (rc : RangeCache) : RangeCache :=
  foldl (recompute a) (foldl (recompute a) rc (sliceBottomUp a p))
        (ancestors a p).

(** Modelled from the spec: computing and caching the range of one scope. *)
Definition spec_cacheSourceRange (a : Arena) (p : ScopePtr) (rc : RangeCache) :
    RangeCache :=
  recompute a rc p.

(** Modelled from the spec: the source range of a scope is its cached
    range, "invalid until computed". *)
Definition spec_getSourceRange (a : Arena) (p : ScopePtr) (rc : RangeCache) :
    SourceRange :=
  default invalidRange (cachedSourceRange rc !! p).

Definition specRanges : RangeOps RangeCache := {|
  initialRanges := mkRangeCache ∅ ∅;
  widenSourceRangeForIgnoredASTNode := spec_widenSourceRangeForIgnoredASTNode;
  clearCachedSourceRangesOfMeAndAncestors :=
    spec_clearCachedSourceRangesOfMeAndAncestors;
  cacheSourceRangesOfSlice := spec_cacheSourceRangesOfSlice;
  cacheSourceRange := spec_cacheSourceRange;
  getSourceRange := spec_getSourceRange
|}.

End SpecRanges.

(** ** Vocabulary of the properties *)

(** The source range of a node is degenerate when it starts where it ends. *)
Definition zeroWidth (i : NodeInfo) : Prop := getStartLoc i = getEndLoc i.

(** A node is skipped entirely when [createScopeFor] hands back the parent
    and leaves the creator untouched: no scope, no widening, whatever the
    scopes below would do. *)
Definition skippedEntirely {R} `{RangeOps R} (n : ASTNode) : Prop :=
  ∀ dsplit rec (p : ScopePtr) (sc : ScopeCreator R),
    createScopeFor dsplit rec n p sc = Some (p, sc).

(** The state [constructInContext] and [addChild] leave behind. *)
Definition allocChild {R} (d : ScopeData) (p : ScopePtr) (sc : ScopeCreator R) :
    ScopeCreator R :=
  setScopes (alter (setParent p) (length (scopes sc))
               (alter (pushChild (length (scopes sc))) p
                  (scopes sc ++ [mkScope d None [] None]))) sc.

(** [GoodAll Good L sc]: every scope of [L] is good in [sc]. *)
Definition GoodAll {R} (Good : ScopePtr → ScopeCreator R → Prop)
    (L : list ScopePtr) (sc : ScopeCreator R) : Prop :=
  ∀ p, p ∈ L → Good p sc.

(** [triple P Inv Good L m ptrs]: from a state that satisfies the invariant
    and in which the scopes of [L] are good, the computation [m], when it
    returns, has moved along [P], kept the invariant, and the scopes it
    returns, [ptrs a], are good. *)
Definition triple {R} (P : relation (ScopeCreator R))
    (Inv : ScopeCreator R → Prop) (Good : ScopePtr → ScopeCreator R → Prop)
    {A} (L : list ScopePtr) (m : M R A) (ptrs : A → list ScopePtr) : Prop :=
  ∀ sc a sc', Inv sc → GoodAll Good L sc → m sc = Some (a, sc') →
              P sc sc' ∧ Inv sc' ∧ GoodAll Good (ptrs a) sc'.

(** What a transition relation [P], a state invariant [Inv] and the
    predicates [Good] (scopes that may receive children, in a given state)
    and [New] (scopes allocated by the operation under study) must satisfy
    for the builder to move along [P] and keep [Inv]: one law per
    primitive step of the builder. In [H_pat] the conditional clause
    records itself, because the scope of its pattern, which it records,
    hands back its parent. *)
Class Laws {R : Type} `{RangeOps R} (P : relation (ScopeCreator R))
    (Inv : ScopeCreator R → Prop) (Good : ScopePtr → ScopeCreator R → Prop)
    (New : ScopePtr → Prop) : Prop := {
  P_refl : ∀ sc, P sc sc;
  P_trans : ∀ sc1 sc2 sc3, P sc1 sc2 → P sc2 sc3 → P sc1 sc3;
  Good_stable : ∀ p sc sc', P sc sc' → Good p sc → Good p sc';
  H_alloc : ∀ d p sc, Inv sc → Good p sc →
    P sc (allocChild d p sc) ∧ Inv (allocChild d p sc) ∧
    Good (length (scopes sc)) (allocChild d p sc) ∧ New (length (scopes sc));
  H_parent : ∀ sc this q, Inv sc → New this → Good this sc →
    parentOf (scopes sc) this = Some q → Good q sc;
  H_widen : ∀ p r sc, Inv sc → Good p sc →
    let sc' := setRanges
      (widenSourceRangeForIgnoredASTNode (scopes sc) p r (ranges sc)) sc in
    P sc sc' ∧ Inv sc';
  H_clear : ∀ p sc, Inv sc → Good p sc →
    let sc' := setRanges
      (clearCachedSourceRangesOfMeAndAncestors (scopes sc) p (ranges sc)) sc in
    P sc sc' ∧ Inv sc';
  H_cacheSlice : ∀ p sc, Inv sc → Good p sc →
    let sc' := setRanges (cacheSourceRangesOfSlice (scopes sc) p (ranges sc)) sc in
    P sc sc' ∧ Inv sc';
  H_cacheRange : ∀ p sc, Inv sc → Good p sc →
    let sc' := setRanges (cacheSourceRange (scopes sc) p (ranges sc)) sc in
    P sc sc' ∧ Inv sc';
  H_dups : ∀ x sc, Inv sc →
    let sc' := setDuplicates ({[x]} ∪ astDuplicates sc) sc in
    P sc sc' ∧ Inv sc';
  H_ip : ∀ p sc, Inv sc → Good p sc →
    P sc (setInjectionPoint p sc) ∧ Inv (setInjectionPoint p sc);
  H_pat : ∀ this sc, Inv sc → Good this sc →
    let sc' := setScopes (alter (setPatternScope this) this (scopes sc)) sc in
    P sc sc' ∧ Inv sc';
  H_seen : ∀ n sc, Inv sc → P sc (setDeclsSeen n sc) ∧ Inv (setDeclsSeen n sc);
  Inv_ip : ∀ sc, Inv sc → Good (newNodeInjectionPoint sc) sc;
  Inv_pat : ∀ sc p s q, Inv sc → Good p sc → scopes sc !! p = Some s →
    statementConditionElementPatternScope s = Some q → Good q sc
}.

(** The scopes a computation hands back: none, or its result. *)
Definition noScopes {A} (a : A) : list ScopePtr := [].
Definition thisScope (p : ScopePtr) : list ScopePtr := [p].

(** A scope only ever gains children. *)
Definition scopeExt (s s' : ASTScopeImpl) : Prop :=
  data s' = data s ∧ parent s' = parent s ∧
  storedChildren s `prefix_of` storedChildren s'.

(** The tree only grows: every scope stays where it is, with the same
    class, payload and parent; the duplicate set only gains members. *)
Definition Ext {R} (sc sc' : ScopeCreator R) : Prop :=
  (∀ i s, scopes sc !! i = Some s →
          ∃ s', scopes sc' !! i = Some s' ∧ scopeExt s s') ∧
  astDuplicates sc ⊆ astDuplicates sc'.

Definition anyState {R} (sc : ScopeCreator R) : Prop := True.
Definition anyScope (p : ScopePtr) : Prop := True.
Definition anyScopeIn {R} (p : ScopePtr) (sc : ScopeCreator R) : Prop := True.

(** *** The size of syntax, to bound the nesting of scopes *)

Fixpoint sizeExpr (e : Expr) : nat :=
  match e with
  | E_Closure c => S (sizeClosure c)
  | E_CaptureList cl => S (sizeCaptureList cl)
  | E_Other _ children => S (sum_list_with sizeWalkChild children)
  end
with sizeClosure (c : ClosureExpr) : nat :=
  match c with mkClosureExpr _ _ _ body => S (sizeBrace body) end
with sizeCaptureList (cl : CaptureListExpr) : nat :=
  match cl with
  | mkCaptureListExpr _ l c => S (sum_list_with sizeCaptureEntry l + sizeClosure c)
  end
with sizeCaptureEntry (ce : CaptureListEntry) : nat :=
  match ce with mkCaptureListEntry pb => S (sizePatternBinding pb) end
with sizeWalkChild (c : WalkChild) : nat :=
  match c with
  | W_Expr e => S (sizeExpr e)
  | W_Stmt s => S (sizeStmt s)
  | W_Decl d => S (sizeDecl d)
  | W_Pattern p => S (sizePattern p)
  | W_TypeLoc _ l | W_TypeRepr _ l => S (sum_list_with sizeExpr l)
  | W_ParameterList pl => S (sum_list_with sizeParam pl)
  end
with sizeBrace (bs : BraceStmt) : nat :=
  match bs with mkBraceStmt _ l => S (sum_list_with sizeNode l) end
with sizeNode (n : ASTNode) : nat :=
  match n with
  | N_Null => 0
  | N_Expr e => S (sizeExpr e)
  | N_Stmt s => S (sizeStmt s)
  | N_Decl d => S (sizeDecl d)
  end
with sizeStmt (s : Stmt) : nat :=
  match s with
  | S_Brace bs => S (sizeBrace bs)
  | S_Return _ r => S (match r with Some e => sizeExpr e | None => 0 end)
  | S_Yield _ l => S (sum_list_with sizeExpr l)
  | S_Defer _ f => S (sizeFunc f)
  | S_If _ c t e => S (S (sum_list_with sizeCond c) + sizeNode t + sizeNode e)
  | S_Guard _ c b => S (S (sum_list_with sizeCond c) + sizeNode b)
  | S_While _ c b => S (S (sum_list_with sizeCond c) + sizeNode b)
  | S_RepeatWhile _ b c =>
      S (sizeNode b + match c with Some e => sizeExpr e | None => 0 end)
  | S_DoCatch _ b l => S (sizeNode b + sum_list_with sizeCatch l)
  | S_Do _ b => S (sizeBrace b)
  | S_Switch _ e l =>
      S (match e with Some e => sizeExpr e | None => 0 end
         + sum_list_with sizeCase l)
  | S_ForEach _ e w b =>
      S (match e with Some e => sizeExpr e | None => 0 end
         + match w with Some e => sizeExpr e | None => 0 end
         + sizeBrace b)
  | S_Catch c => S (sizeCatch c)
  | S_Case c => S (sizeCase c)
  | S_Ignored _ _ => 1
  end
with sizeCatch (c : CatchStmt) : nat :=
  match c with
  | mkCatchStmt _ g b =>
      S (match g with Some e => sizeExpr e | None => 0 end + sizeNode b)
  end
with sizeCase (c : CaseStmt) : nat :=
  match c with
  | mkCaseStmt _ l b =>
      S (sum_list_with
           (λ g, match g with Some e => sizeExpr e | None => 0 end) l
         + sizeNode b)
  end
with sizeCond (c : StmtConditionElement) : nat :=
  match c with
  | CK_Availability => 1
  | CK_Boolean e => S (match e with Some e => sizeExpr e | None => 0 end)
  | CK_PatternBinding p i =>
      S (sizePattern p + match i with Some e => sizeExpr e | None => 0 end)
  end
with sizePattern (p : Pattern) : nat :=
  match p with
  | mkPattern _ vs es => S (sum_list_with sizeVar vs + sum_list_with sizeExpr es)
  end
with sizeDecl (d : Decl) : nat :=
  match d with
  | D_Ignored _ _ => 1
  | D_Var v => S (sizeVar v)
  | D_Func f => S (sizeFunc f)
  | D_Subscript s => S (sizeSubscript s)
  | D_Type t => S (sizeType t)
  | D_TopLevelCode _ b => S (S (sizeBrace b))
  | D_PatternBinding pb => S (sizePatternBinding pb)
  end
with sizeFunc (f : AbstractFunctionDecl) : nat :=
  match f with
  | mkAbstractFunctionDecl _ _ _ _ _ ps b _ _ =>
      S (S (sum_list_with sizeParam ps)
         + match b with Some b => sizeBrace b | None => 0 end)
  end
with sizeParam (p : ParamDecl) : nat :=
  match p with
  | mkParamDecl _ d => S (match d with Some e => sizeExpr e | None => 0 end)
  end
with sizeVar (v : VarDecl) : nat :=
  match v with mkVarDecl _ _ _ l => S (sum_list_with sizeFunc l) end
with sizeSubscript (s : SubscriptDecl) : nat :=
  match s with
  | mkSubscriptDecl _ _ ps l =>
      S (S (sum_list_with sizeParam ps) + sum_list_with sizeFunc l)
  end
with sizeType (t : TypeDecl) : nat :=
  match t with mkTypeDecl _ _ _ _ _ l => S (sum_list_with sizeDecl l) end
with sizePatternBinding (pb : PatternBindingDecl) : nat :=
  match pb with mkPatternBindingDecl _ l => S (sum_list_with sizeEntry l) end
with sizeEntry (e : PatternBindingEntry) : nat :=
  match e with
  | mkPatternBindingEntry p i w =>
      S (sizePattern p
         + match i with Some e => sizeExpr e | None => 0 end
         + match w with Some e => sizeExpr e | None => 0 end)
  end.

Definition sizeOpt (e : option Expr) : nat := from_option sizeExpr 0 e.

(** How much syntax a scope still has to expand, and its rank among the
    scopes made from the same syntax. *)
Definition scopeSize (d : ScopeData) : nat :=
  match d with
  | GenericTypeOrExtensionScope _ t => sizeType t
  | AbstractFunctionDeclScope f | MethodBodyScope f | PureFunctionBodyScope f =>
      sizeFunc f
  | AbstractFunctionParamsScope ps => S (sum_list_with sizeParam ps)
  | DefaultArgumentInitializerScope pd => sizeParam pd
  | PatternEntryDeclScope pb _ _ | PatternEntryInitializerScope pb _ _
  | PatternEntryUseScope pb _ _ _ => sizePatternBinding pb
  | ConditionalClauseScope _ c _ => S (sum_list_with sizeCond c)
  | CaptureListScope cl => sum_list_with sizeCaptureEntry (getCaptureList cl)
  | WholeClosureScope c cl =>
      sizeClosure c
      + from_option (λ cl, sum_list_with sizeCaptureEntry (getCaptureList cl)) 0 cl
  | ClosureBodyScope c _ => sizeClosure c
  | TopLevelCodeScope _ b => S (sizeBrace b)
  | SubscriptDeclScope s => sizeSubscript s
  | VarDeclScope v => sizeVar v
  | IfStmtScope i c t e => sizeStmt (S_If i c t e)
  | WhileStmtScope i c b => sizeStmt (S_While i c b)
  | GuardStmtScope i c b => sizeStmt (S_Guard i c b)
  | RepeatWhileScope i b c => sizeStmt (S_RepeatWhile i b c)
  | DoCatchStmtScope i b l => sizeStmt (S_DoCatch i b l)
  | SwitchStmtScope i e l => sizeStmt (S_Switch i e l)
  | ForEachStmtScope i e w b | ForEachPatternScope i e w b =>
      sizeStmt (S_ForEach i e w b)
  | CatchStmtScope c => sizeCatch c
  | CaseStmtScope c => sizeCase c
  | BraceStmtScope b => sizeBrace b
  | ASTSourceFileScope | GenericParamScope _ _ _ | AttachedPropertyWrapperScope _
  | ConditionalClauseUseScope _ _ | StatementConditionElementPatternScope _
  | ClosureParametersScope _ _ | SpecializeAttributeScope _ _ => 0
  end.

Definition scopeRank (d : ScopeData) : nat :=
  match d with
  | GenericTypeOrExtensionScope GenericTypeOrExtensionWholePortion _ => 3
  | WholeClosureScope _ _ => 3
  | AbstractFunctionDeclScope _ | PatternEntryDeclScope _ _ _
  | ForEachStmtScope _ _ _ _ => 2
  | GenericTypeOrExtensionScope GenericTypeOrExtensionWherePortion _
  | ASTSourceFileScope | GenericParamScope _ _ _ | AttachedPropertyWrapperScope _
  | ConditionalClauseUseScope _ _ | StatementConditionElementPatternScope _
  | ClosureParametersScope _ _ | SpecializeAttributeScope _ _ => 0
  | _ => 1
  end.

(** The depth [createSubtree] needs for a scope is more than this. *)
Definition depthNeeded (d : ScopeData) : nat := 4 * scopeSize d + scopeRank d.

(** A computation that returns from every state. *)
Definition total {R A} (m : M R A) : Prop := ∀ sc, is_Some (m sc).

Definition sizeFound (f : FoundClosure) : nat :=
  scopeSize (WholeClosureScope f.2 f.1).

(** The depth that suffices for a list of declarations. *)
Definition depthFor (decls : list Decl) : nat :=
  4 * S (sum_list_with sizeNode (N_Decl <$> decls)).

(** The classes that hand back the scope just created. *)
Definition returnsItself (d : ScopeData) : bool :=
  match d with
  | AbstractFunctionParamsScope _ | ConditionalClauseScope _ _ _
  | GuardStmtScope _ _ _ | PatternEntryInitializerScope _ _ _
  | PatternEntryUseScope _ _ _ _ => true
  | _ => false
  end.

(** The scope [createScopeFor] creates for a node itself, for the nodes
    whose visitor is a plain [createSubtree]. *)
Definition directScope (n : ASTNode) : option ScopeData :=
  match n with
  | N_Stmt (S_Brace bs) => Some (BraceStmtScope bs)
  | N_Stmt (S_If i c t e) => Some (IfStmtScope i c t e)
  | N_Stmt (S_Guard i c b) => Some (GuardStmtScope i c b)
  | N_Stmt (S_While i c b) => Some (WhileStmtScope i c b)
  | N_Stmt (S_RepeatWhile i b c) => Some (RepeatWhileScope i b c)
  | N_Stmt (S_DoCatch i b cs) => Some (DoCatchStmtScope i b cs)
  | N_Stmt (S_Do _ b) => Some (BraceStmtScope b)
  | N_Stmt (S_Switch i e cs) => Some (SwitchStmtScope i e cs)
  | N_Stmt (S_ForEach i e w b) => Some (ForEachStmtScope i e w b)
  | N_Stmt (S_Catch c) => Some (CatchStmtScope c)
  | N_Stmt (S_Case c) => Some (CaseStmtScope c)
  | N_Decl d =>
      if node_implicit (decl_info d) then None
      else match d with
           | D_Func f =>
               if isa_AccessorDecl f then None
               else Some (AbstractFunctionDeclScope f)
           | D_Subscript s => Some (SubscriptDeclScope s)
           | D_Type t =>
               Some (GenericTypeOrExtensionScope
                       GenericTypeOrExtensionWholePortion t)
           | D_TopLevelCode i b => Some (TopLevelCodeScope i b)
           | _ => None
           end
  | _ => None
  end.

(** Every parent pointer of the arena points into the arena. *)
Definition parentsValid (a : Arena) : Prop :=
  ∀ i q, parentOf a i = Some q → q < length a.

Definition dataOf (a : Arena) (p : ScopePtr) : option ScopeData :=
  data <$> a !! p.

(** The scopes of the entries [is] of a pattern binding, chained: the
    declaration scope of an entry lies under the insertion point [ip]
    left by the entry before it, its use scope lies under its declaration
    scope and is the insertion point of the next entry; [fin] is the
    insertion point left by the last entry. *)
Inductive entryChain (a : Arena) (pb : PatternBindingDecl)
    (vis : DeclVisibilityKind) : ScopePtr → list nat → ScopePtr → Prop :=
| entryChain_nil ip : entryChain a pb vis ip [] ip
| entryChain_cons ip i rest d u e fin :
    dataOf a d = Some (PatternEntryDeclScope pb i vis) →
    parentOf a d = Some ip →
    dataOf a u = Some (PatternEntryUseScope pb i vis e) →
    parentOf a u = Some d →
    entryChain a pb vis u rest fin →
    entryChain a pb vis ip (i :: rest) fin.

(** *** The shape of the tree *)

(** What the builder keeps of the shape of the tree: a parent lies before
    its child in the arena; the children of a scope are the scopes that
    name it as their parent; every scope but the first has a parent; a conditional clause
    that has recorded the scope of its pattern has recorded itself (the
    scope of the pattern hands back its parent); the injection point is a
    scope of the arena. *)
Record wellFormed {R} (sc : ScopeCreator R) : Prop := mkWellFormed {
  wf_parent_before : ∀ i q, parentOf (scopes sc) i = Some q → q < i;
  wf_children : ∀ p c,
    c ∈ childrenOf (scopes sc) p → parentOf (scopes sc) c = Some p;
  wf_child_listed : ∀ p c,
    parentOf (scopes sc) c = Some p → c ∈ childrenOf (scopes sc) p;
  wf_has_parent : ∀ i,
    0 < i < length (scopes sc) → is_Some (parentOf (scopes sc) i);
  wf_pattern : ∀ p s q,
    scopes sc !! p = Some s →
    statementConditionElementPatternScope s = Some q → q = p;
  wf_injection_point : newNodeInjectionPoint sc < length (scopes sc)
}.

(** The scope is allocated. *)
Definition inScopes {R} (p : ScopePtr) (sc : ScopeCreator R) : Prop :=
  p < length (scopes sc).

(** *** The range cache and the tree *)

(** The cached range of a scope is the one its own range, its ignored
    nodes and the cached ranges of its children give now. *)
Definition upToDate (childlessRange : ScopeData → SourceRange) (a : Arena)
    (rc : RangeCache) (i : ScopePtr) : Prop :=
  cachedSourceRange rc !! i = Some (computeRange childlessRange a rc i).

Definition allUpToDate (childlessRange : ScopeData → SourceRange)
    (sc : ScopeCreator RangeCache) : Prop :=
  ∀ i, i < length (scopes sc) →
       upToDate childlessRange (scopes sc) (ranges sc) i.

(** Ranges are cached for allocated scopes only. *)
Definition cacheInScopes (sc : ScopeCreator RangeCache) : Prop :=
  ∀ i, is_Some (cachedSourceRange (ranges sc) !! i) → i < length (scopes sc).

(** Where a scope lies with respect to the injection point of [sc0]: at or
    below it (the scopes still to be allocated go there), or outside of
    its subtree and of its ancestors. *)
Definition below {R} (sc0 : ScopeCreator R) (i : ScopePtr) : Prop :=
  length (scopes sc0) ≤ i ∨
  isDescendantOrSelf (scopes sc0) (newNodeInjectionPoint sc0) i = true.

Definition outside {R} (sc0 : ScopeCreator R) (i : ScopePtr) : Prop :=
  i < length (scopes sc0) ∧
  isDescendantOrSelf (scopes sc0) (newNodeInjectionPoint sc0) i = false ∧
  i ∉ ancestors (scopes sc0) (newNodeInjectionPoint sc0).

(** The scopes outside are as they were in [sc0], and so are their cached
    ranges and ignored nodes. *)
Definition keepsOutside (sc0 sc : ScopeCreator RangeCache) : Prop :=
  ∀ i, outside sc0 i →
       scopes sc !! i = scopes sc0 !! i ∧
       cachedSourceRange (ranges sc) !! i = cachedSourceRange (ranges sc0) !! i ∧
       sourceRangeOfIgnoredASTNodes (ranges sc) !! i
       = sourceRangeOfIgnoredASTNodes (ranges sc0) !! i.

(** What holds of the creator while siblings are added from [sc0] on. *)
Record framed (sc0 sc : ScopeCreator RangeCache) : Prop := mkFramed {
  fr_wellFormed : wellFormed sc;
  fr_Ext : Ext sc0 sc;
  fr_outside : keepsOutside sc0 sc;
  fr_new_parents : ∀ i q,
    length (scopes sc0) ≤ i → parentOf (scopes sc) i = Some q → below sc0 q;
  fr_injection_point : below sc0 (newNodeInjectionPoint sc);
  fr_cache : cacheInScopes sc
}.

Definition goodBelow {R} (sc0 : ScopeCreator R) (p : ScopePtr)
    (sc : ScopeCreator R) : Prop :=
  p < length (scopes sc) ∧ below sc0 p.

Definition isNew {R} (sc0 : ScopeCreator R) (p : ScopePtr) : Prop :=
  length (scopes sc0) ≤ p.

(** The creator between two public operations: the tree is well formed,
    and either nothing was scoped yet or every cached range is up to
    date. *)
Definition settled (childlessRange : ScopeData → SourceRange)
    (sc : ScopeCreator RangeCache) : Prop :=
  wellFormed sc ∧ cacheInScopes sc ∧
  ((cachedSourceRange (ranges sc) = ∅ ∧ length (scopes sc) = 1) ∨
   allUpToDate childlessRange sc).

(** *** Two runs side by side *)

(** Two creators that agree on everything but the ranges cached for the
    scopes allocated before [n0], and the count of the declarations
    seen. *)
Record agreeFrom (n0 : nat) (scA scB : ScopeCreator RangeCache) : Prop :=
  mkAgreeFrom {
  ag_scopes : scopes scA = scopes scB;
  ag_injection_point : newNodeInjectionPoint scA = newNodeInjectionPoint scB;
  ag_duplicates : astDuplicates scA = astDuplicates scB;
  ag_ignored :
    sourceRangeOfIgnoredASTNodes (ranges scA)
    = sourceRangeOfIgnoredASTNodes (ranges scB);
  ag_cached : ∀ i, n0 ≤ i →
    cachedSourceRange (ranges scA) !! i = cachedSourceRange (ranges scB) !! i;
  ag_length : n0 ≤ length (scopes scA);
  ag_children : ∀ p c, n0 ≤ p → c ∈ childrenOf (scopes scA) p → n0 ≤ c
}.

(** From creators that agree, the computation [mB] does what [mA] does. *)
Definition simulates (n0 : nat) {A} (mA mB : M RangeCache A) : Prop :=
  ∀ scA scB a scA', agreeFrom n0 scA scB → mA scA = Some (a, scA') →
    ∃ scB', mB scB = Some (a, scB') ∧ agreeFrom n0 scA' scB'.

(** *** The tree while siblings are added *)

(** What holds of the tree while siblings are added from [sc0] on,
    whatever the range cache is: the tree is well formed and has only
    grown, the scopes outside are as they were, every scope allocated
    since has its parent at or below the injection point of [sc0], and so
    is the injection point. *)
Record treeFramed {R} (sc0 sc : ScopeCreator R) : Prop := mkTreeFramed {
  tf_wellFormed : wellFormed sc;
  tf_Ext : Ext sc0 sc;
  tf_outside : ∀ i, outside sc0 i → scopes sc !! i = scopes sc0 !! i;
  tf_new_parents : ∀ i q,
    length (scopes sc0) ≤ i → parentOf (scopes sc) i = Some q → below sc0 q;
  tf_injection_point : below sc0 (newNodeInjectionPoint sc)
}.

(** ** Concrete parameters for the examples *)

(** The range cache of the specification, with scopes that have no range
    of their own. *)
Definition exampleRanges : RangeOps RangeCache := specRanges (λ _, invalidRange).

Definition neverSplits : ScopeData → bool := λ _, false.

Definition exampleCreator : ScopeCreator RangeCache :=
  newScopeCreator (H:=exampleRanges).

Definition exampleRange (a b : nat) : SourceRange := mkRange (Some a) (Some b).

(** [let x] and [let y, z], without initializers. *)
Definition exampleVar (id : nat) : VarDecl :=
  mkVarDecl (mkInfo id (exampleRange 0 0) false) false false [].
Definition exampleEntry (id : nat) : PatternBindingEntry :=
  mkPatternBindingEntry (mkPattern (mkInfo id (exampleRange 0 0) false)
                                   [exampleVar (8 + id)] []) None None.
Definition oneEntryBinding : PatternBindingDecl :=
  mkPatternBindingDecl (mkInfo 80 (exampleRange 1 5) false) [exampleEntry 88].
Definition twoEntryBinding : PatternBindingDecl :=
  mkPatternBindingDecl (mkInfo 160 (exampleRange 6 9) false)
                       [exampleEntry 168; exampleEntry 184].


(** [{ let x }] *)
Definition exampleBlock : BraceStmt :=
  mkBraceStmt (mkInfo 320 (exampleRange 0 9) false)
              [N_Decl (D_PatternBinding oneEntryBinding)].

(** [struct S { }] *)
Definition exampleStruct : TypeDecl :=
  mkTypeDecl (mkInfo 400 (exampleRange 0 9) false) (NominalTypeDecl StructDecl)
             None false true [].

(** A creator whose injection point is the body of [struct S]. *)
Definition creatorInTypeBody : ScopeCreator RangeCache :=
  mkCreator [mkScope ASTSourceFileScope None [1] None;
             mkScope (GenericTypeOrExtensionScope IterableTypeBodyPortion
                        exampleStruct) (Some 0) [] None]
            1 ∅ (mkRangeCache ∅ ∅) 0.

(** A pattern binding and an expression whose ranges start where they
    end. *)
Definition zeroWidthBinding : PatternBindingDecl :=
  mkPatternBindingDecl (mkInfo 560 (exampleRange 5 5) false) [exampleEntry 568].
Definition zeroWidthExpr : Expr := E_Other (mkInfo 584 (exampleRange 5 5) false) [].

(** *** Closures found in an expression *)

(** One round of the loop of [forEachUniqueClosureIn], with the callback
    that [addChildrenForCapturesAndClosuresIn] gives it. *)
Definition addChildForClosure {R} `{RangeOps R}
    (createSubtree : ScopeData → ScopePtr → M R ScopePtr)
    (parent : ScopePtr) (found : FoundClosure) : M R unit :=
  do dup <- isDuplicate (closure_self found.2) true;
  when (negb dup)
       (createSubtree (WholeClosureScope found.2 found.1) parent ;; ret tt).

(** The closures of an expression that are reached through the children of
    expressions that are not closures and through the elements of brace
    statements, and through nothing else. *)
Inductive reportsExpr : Expr → FoundClosure → Prop :=
| reports_closure c : reportsExpr (E_Closure c) (None, c)
| reports_capture cl : reportsExpr (E_CaptureList cl) (Some cl, getClosureBody cl)
| reports_child i children w f :
    w ∈ children → reportsChild w f → reportsExpr (E_Other i children) f
with reportsChild : WalkChild → FoundClosure → Prop :=
| reports_W_Expr e f : reportsExpr e f → reportsChild (W_Expr e) f
| reports_W_Stmt s f : reportsStmt s f → reportsChild (W_Stmt s) f
with reportsStmt : Stmt → FoundClosure → Prop :=
| reports_brace i elements n f :
    n ∈ elements → reportsNode n f →
    reportsStmt (S_Brace (mkBraceStmt i elements)) f
with reportsNode : ASTNode → FoundClosure → Prop :=
| reports_N_Expr e f : reportsExpr e f → reportsNode (N_Expr e) f
| reports_N_Stmt s f : reportsStmt s f → reportsNode (N_Stmt s) f.

Scheme reportsExpr_mut := Induction for reportsExpr Sort Prop
  with reportsChild_mut := Induction for reportsChild Sort Prop
  with reportsStmt_mut := Induction for reportsStmt Sort Prop
  with reportsNode_mut := Induction for reportsNode Sort Prop.

(** The syntax directly below a statement. *)
Definition nodeAsChild (n : ASTNode) : list WalkChild :=
  match n with
  | N_Null => []
  | N_Expr e => [W_Expr e]
  | N_Stmt s => [W_Stmt s]
  | N_Decl d => [W_Decl d]
  end.

Definition conditionChildren (c : StmtConditionElement) : list WalkChild :=
  match c with
  | CK_Availability => []
  | CK_Boolean e => W_Expr <$> option_list e
  | CK_PatternBinding p initializer =>
      W_Pattern p :: (W_Expr <$> option_list initializer)
  end.

Definition stmtChildren (s : Stmt) : list WalkChild :=
  match s with
  | S_Brace bs => getElements bs ≫= nodeAsChild
  | S_Return _ result => W_Expr <$> option_list result
  | S_Yield _ yields => W_Expr <$> yields
  | S_Defer _ tempDecl => [W_Decl (D_Func tempDecl)]
  | S_If _ cond thenStmt elseStmt =>
      (cond ≫= conditionChildren) ++ nodeAsChild thenStmt ++ nodeAsChild elseStmt
  | S_Guard _ cond body | S_While _ cond body =>
      (cond ≫= conditionChildren) ++ nodeAsChild body
  | S_RepeatWhile _ body cond => nodeAsChild body ++ (W_Expr <$> option_list cond)
  | S_DoCatch _ body catches => nodeAsChild body ++ (W_Stmt ∘ S_Catch <$> catches)
  | S_Do _ body => [W_Stmt (S_Brace body)]
  | S_Switch _ subject cases =>
      (W_Expr <$> option_list subject) ++ (W_Stmt ∘ S_Case <$> cases)
  | S_ForEach _ sequence whereExpr body =>
      (W_Expr <$> option_list sequence) ++ (W_Expr <$> option_list whereExpr)
      ++ [W_Stmt (S_Brace body)]
  | S_Catch (mkCatchStmt _ guardExpr body) =>
      (W_Expr <$> option_list guardExpr) ++ nodeAsChild body
  | S_Case (mkCaseStmt _ labelItemGuards body) =>
      (W_Expr <$> (labelItemGuards ≫= option_list)) ++ nodeAsChild body
  | S_Ignored _ _ => []
  end.

(** Following the specification: the closures of an expression that are
    not nested inside another closure, nor inside a declaration, a pattern,
    a type representation or a parameter list. *)
Inductive outsideClosuresExpr : Expr → FoundClosure → Prop :=
| outside_closure c : outsideClosuresExpr (E_Closure c) (None, c)
| outside_capture cl :
    outsideClosuresExpr (E_CaptureList cl) (Some cl, getClosureBody cl)
| outside_child i children w f :
    w ∈ children → outsideClosuresChild w f →
    outsideClosuresExpr (E_Other i children) f
with outsideClosuresChild : WalkChild → FoundClosure → Prop :=
| outside_W_Expr e f : outsideClosuresExpr e f → outsideClosuresChild (W_Expr e) f
| outside_W_Stmt s w f :
    w ∈ stmtChildren s → outsideClosuresChild w f →
    outsideClosuresChild (W_Stmt s) f.

(** *** Scopes and the syntax they come from *)

(** The syntax node handed to the constructor of a scope, when there is
    one. *)
Definition constructedFrom (d : ScopeData) : option nat :=
  match d with
  | ASTSourceFileScope | AbstractFunctionParamsScope _
  | ConditionalClauseUseScope _ _ => None
  | GenericTypeOrExtensionScope _ decl => Some (node_id (type_info decl))
  | GenericParamScope holder _ _ => Some (node_id holder)
  | AbstractFunctionDeclScope decl | MethodBodyScope decl
  | PureFunctionBodyScope decl => Some (node_id (func_info decl))
  | DefaultArgumentInitializerScope decl => Some (node_id (param_info decl))
  | AttachedPropertyWrapperScope decl | VarDeclScope decl =>
      Some (node_id (var_info decl))
  | PatternEntryDeclScope decl _ _ | PatternEntryInitializerScope decl _ _
  | PatternEntryUseScope decl _ _ _ => Some (node_id (pbd_info decl))
  | ConditionalClauseScope stmt _ _ | IfStmtScope stmt _ _ _
  | WhileStmtScope stmt _ _ | GuardStmtScope stmt _ _ | RepeatWhileScope stmt _ _
  | DoCatchStmtScope stmt _ _ | SwitchStmtScope stmt _ _
  | ForEachStmtScope stmt _ _ _ | ForEachPatternScope stmt _ _ _ =>
      Some (node_id stmt)
  | StatementConditionElementPatternScope pattern =>
      Some (node_id (pattern_info pattern))
  | CaptureListScope expr => Some (node_id (capture_info expr))
  | WholeClosureScope closureExpr _ | ClosureParametersScope closureExpr _
  | ClosureBodyScope closureExpr _ => Some (node_id (closure_info closureExpr))
  | TopLevelCodeScope info _ => Some (node_id info)
  | SpecializeAttributeScope specializeAttr _ => Some (attr_id specializeAttr)
  | SubscriptDeclScope decl => Some (node_id (subscript_info decl))
  | CatchStmtScope stmt => Some (node_id (catch_info stmt))
  | CaseStmtScope stmt => Some (node_id (case_info stmt))
  | BraceStmtScope stmt => Some (node_id (brace_info stmt))
  end.

(** The states reached from [sc] by extending the tree any number of
    times, with whatever the list of declarations is at each call. *)
Inductive extendedFrom {R} `{RangeOps R} (dsplit : ScopeData → bool)
    (sc : ScopeCreator R) : ScopeCreator R → Prop :=
| extended_refl : extendedFrom dsplit sc sc
| extended_step sc1 depth decls sc2 :
    extendedFrom dsplit sc sc1 →
    addAnyNewScopesToTree dsplit depth decls sc1 = Some (tt, sc2) →
    extendedFrom dsplit sc sc2.

(** A closure, and an expression that holds it behind a [return] in a
    block. *)
Definition exampleClosure : ClosureExpr :=
  mkClosureExpr (mkInfo 720 (exampleRange 3 6) false) 760 None
                (mkBraceStmt (mkInfo 728 (exampleRange 3 6) false) []).

Definition closureBehindReturn : Expr :=
  E_Other (mkInfo 736 (exampleRange 1 9) false)
    [W_Stmt (S_Brace (mkBraceStmt (mkInfo 744 (exampleRange 2 8) false)
       [N_Stmt (S_Return (mkInfo 752 (exampleRange 3 6) false)
                         (Some (E_Closure exampleClosure)))]))].

(** A function with an empty body. *)
Definition exampleFunc : AbstractFunctionDecl :=
  mkAbstractFunctionDecl (mkInfo 640 (exampleRange 1 9) false) 680 FuncDecl [] None
    []
    (Some (mkBraceStmt (mkInfo 648 (exampleRange 5 9) false) [])) false None.

(** [struct S { import A }; import B]: a type whose body ignores a
    declaration, followed by a declaration the source file ignores, and the
    tree built for them. *)
Definition structWithImport : TypeDecl :=
  mkTypeDecl (mkInfo 800 (exampleRange 2 9) false) (NominalTypeDecl StructDecl)
             None false true
             [D_Ignored ImportDecl (mkInfo 808 (exampleRange 3 4) false)].
Definition importAfterStruct : Decl :=
  D_Ignored ImportDecl (mkInfo 816 (exampleRange 11 12) false).
Definition exampleTree : ScopeCreator RangeCache :=
  default exampleCreator
    (snd <$> createScopeTreeFor (H:=exampleRanges) neverSplits 30
               [D_Type structWithImport; importAfterStruct]).

(** ** Inputs used as examples *)

(** An import that is compiler-synthesized and has a source range. *)
Definition implicitImportWithRange : Decl :=
  D_Ignored ImportDecl (mkInfo 8 (mkRange (Some 3) (Some 9)) true).

(** ** Vocabulary of the further properties *)

(** *** Reading the tree *)

(** Scope [j] has class and payload [d], and its parent is [q]. *)
Definition scopeAt (a : Arena) (j : ScopePtr) (d : ScopeData) (q : ScopePtr) :
    Prop :=
  dataOf a j = Some d ∧ parentOf a j = Some q.

(** The scope of the body of a function, by the context of the function. *)
Definition bodyScopeOf (decl : AbstractFunctionDecl) : ScopeData :=
  if func_isTypeContext decl then MethodBodyScope decl
  else PureFunctionBodyScope decl.

(** The entry has an initializer as written, with a valid range. *)
Definition hasInitializerAsWritten (decl : PatternBindingDecl)
    (patternEntryIndex : nat) : bool :=
  match getPatternEntry decl patternEntryIndex ≫= getInitAsWritten with
  | Some e => range_isValid (node_range (expr_info e))
  | None => false
  end.

(** The scopes of the conditions [is] of a statement, chained: the scope
    of a condition lies under the insertion point [ip] left by the one
    before it and is the insertion point of the next; [fin] is the
    insertion point left by the last. *)
Inductive clauseChain (a : Arena) (stmt : NodeInfo)
    (cond : list StmtConditionElement) :
    ScopePtr → list nat → ScopePtr → Prop :=
| clauseChain_nil ip : clauseChain a stmt cond ip [] ip
| clauseChain_cons ip i rest c fin :
    scopeAt a c (ConditionalClauseScope stmt cond i) ip →
    clauseChain a stmt cond c rest fin →
    clauseChain a stmt cond ip (i :: rest) fin.

(** The tree is well formed and the children of every scope are stored in
    the order of their allocation. *)
Definition childrenInOrder {R} (sc : ScopeCreator R) : Prop :=
  wellFormed sc ∧ ∀ p, StronglySorted lt (childrenOf (scopes sc) p).

(** *** Specialize attributes *)

(** The attributes of [l] whose identity is neither in [seen] nor earlier
    in [l]: those for which [isDuplicate] answers no. *)
Fixpoint firstEncounters (seen : gset nat) (l : list SpecializeAttr) :
    list SpecializeAttr :=
  match l with
  | [] => []
  | a :: l' =>
      if decide (attr_id a ∈ seen) then firstEncounters seen l'
      else a :: firstEncounters ({[attr_id a]} ∪ seen) l'
  end.

(** [isBeforeInBuffer] does not put [b] before [a]. *)
Definition notAfter (a b : SpecializeAttr) : Prop := attr_loc a ≤ attr_loc b.

(** ** More inputs used as examples *)

(** [struct S { import A }; var x]: the tree built for them has the use
    scope of [x] as its injection point and the scopes of [S] beside it. *)
Definition structThenBinding : list Decl :=
  [D_Type structWithImport; D_PatternBinding oneEntryBinding].
Definition treeOfStructThenBinding : ScopeCreator RangeCache :=
  default exampleCreator
    (snd <$> createScopeTreeFor (H:=exampleRanges) neverSplits 30
               structThenBinding).

(** [if let p = ... { } else { }] as top-level code. *)
Definition examplePattern : Pattern :=
  mkPattern (mkInfo 888 (exampleRange 4 5) false) [] [].
Definition thenBlock : BraceStmt :=
  mkBraceStmt (mkInfo 896 (exampleRange 8 12) false) [].
Definition elseBlock : BraceStmt :=
  mkBraceStmt (mkInfo 904 (exampleRange 14 18) false) [].
Definition ifLetStmt : Stmt :=
  S_If (mkInfo 880 (exampleRange 1 18) false)
       [CK_PatternBinding examplePattern None]
       (N_Stmt (S_Brace thenBlock)) (N_Stmt (S_Brace elseBlock)).
Definition ifLetFile : list Decl :=
  [D_TopLevelCode (mkInfo 912 (exampleRange 1 18) false)
     (mkBraceStmt (mkInfo 920 (exampleRange 1 18) false) [N_Stmt ifLetStmt])].
Definition treeOfIfLet : ScopeCreator RangeCache :=
  default exampleCreator
    (snd <$> createScopeTreeFor (H:=exampleRanges) neverSplits 60 ifLetFile).

(** [struct S { import A }; var x; func f() { }], added to the tree of the
    first two. *)
Definition treeWithFunc : ScopeCreator RangeCache :=
  default exampleCreator
    (snd <$> addAnyNewScopesToTree (H:=exampleRanges) neverSplits 30
               (structThenBinding ++ [D_Func exampleFunc])
               treeOfStructThenBinding).

(** Two generic parameters, scoped under the source file. *)
Definition twoGenericParams : option (list nat) := Some [1608; 1616].
Definition treeWithGenericParams : ScopeCreator RangeCache :=
  default exampleCreator
    (snd <$> createGenericParamScopes
               (createSubtree (H:=exampleRanges) neverSplits 5)
               (mkInfo 1600 (exampleRange 1 9) false) twoGenericParams 0
               exampleCreator).

(** A getter of the storage declaration 2400. *)
Definition exampleGetter : AbstractFunctionDecl :=
  mkAbstractFunctionDecl (mkInfo 2408 (exampleRange 4 8) false) 2416 AccessorDecl
    [] None []
    (Some (mkBraceStmt (mkInfo 2424 (exampleRange 5 8) false) [])) true (Some 2400).

(** A struct that was not given a body. *)
Definition structWithoutBody : TypeDecl :=
  mkTypeDecl (mkInfo 2480 (exampleRange 2 9) false) (NominalTypeDecl StructDecl)
             (Some [2488]) false false [].

(** A function as a [defer] statement holds it: compiler-synthesized, with
    a body; and the statement. *)
Definition deferredFunc : AbstractFunctionDecl :=
  mkAbstractFunctionDecl (mkInfo 2560 (exampleRange 3 9) true) 2568 FuncDecl [] None
    []
    (Some (mkBraceStmt (mkInfo 2576 (exampleRange 5 9) false) [])) false None.
Definition deferStmt : Stmt :=
  S_Defer (mkInfo 2584 (exampleRange 3 9) false) deferredFunc.

(** A generic function with a parameter and a body. *)
Definition genericFunc : AbstractFunctionDecl :=
  mkAbstractFunctionDecl (mkInfo 2640 (exampleRange 1 9) false) 2648 FuncDecl []
    (Some [2656; 2664])
    [mkParamDecl (mkInfo 2672 (exampleRange 3 4) false) None]
    (Some (mkBraceStmt (mkInfo 2680 (exampleRange 5 9) false) [])) false None.

(** A closure with its parameters written out ([in] is there) and a
    capture list. *)
Definition closureWithParams : ClosureExpr :=
  mkClosureExpr (mkInfo 2720 (exampleRange 3 9) false) 2728 (Some 5)
                (mkBraceStmt (mkInfo 2736 (exampleRange 3 9) false) []).
Definition exampleCaptureList : CaptureListExpr :=
  mkCaptureListExpr (mkInfo 2744 (exampleRange 2 9) false) [] closureWithParams.

(** A block with an [if] statement in it. *)
Definition blockWithIf : BraceStmt :=
  mkBraceStmt (mkInfo 2800 (exampleRange 0 20) false) [N_Stmt ifLetStmt].

(** [guard let p = ... else { }] *)
Definition guardLetScope : ScopeData :=
  GuardStmtScope (mkInfo 2880 (exampleRange 1 9) false)
    [CK_PatternBinding examplePattern None] (N_Stmt (S_Brace elseBlock)).

(** A generic struct with a where clause and an empty body. *)
Definition genericStruct : TypeDecl :=
  mkTypeDecl (mkInfo 2960 (exampleRange 2 9) false) (NominalTypeDecl StructDecl)
             (Some [2968]) true true [].

(** A variable with a getter: [var x: Int { get { } }]. *)
Definition getterOfVar : AbstractFunctionDecl :=
  mkAbstractFunctionDecl (mkInfo 3048 (exampleRange 4 8) false) 3056 AccessorDecl
    [] None []
    (Some (mkBraceStmt (mkInfo 3064 (exampleRange 5 8) false) [])) false (Some 3040).
Definition varWithGetter : VarDecl :=
  mkVarDecl (mkInfo 3040 (exampleRange 1 9) false) false true [getterOfVar].

(** [for p in ... { }] *)
Definition forEachScope : ScopeData :=
  ForEachStmtScope (mkInfo 3120 (exampleRange 1 9) false) None None thenBlock.

(** A struct with a method: [struct T { func f() { } }]. *)
Definition structWithMethod : TypeDecl :=
  mkTypeDecl (mkInfo 3200 (exampleRange 1 20) false) (NominalTypeDecl StructDecl)
             None false true [D_Func exampleFunc].

(** A subscript with one index and a getter:
    [subscript(i: Int) { get { } }]. *)
Definition getterOfSubscript : AbstractFunctionDecl :=
  mkAbstractFunctionDecl (mkInfo 3288 (exampleRange 4 8) false) 3296 AccessorDecl
    [] None []
    (Some (mkBraceStmt (mkInfo 3304 (exampleRange 5 8) false) [])) true (Some 3280).
Definition exampleSubscript : SubscriptDecl :=
  mkSubscriptDecl (mkInfo 3280 (exampleRange 1 9) false) None
    [mkParamDecl (mkInfo 3312 (exampleRange 2 3) false) None]
    [getterOfSubscript].

(** A closure and a block whose ranges start where they end. *)
Definition zeroWidthClosure : ClosureExpr :=
  mkClosureExpr (mkInfo 4000 (exampleRange 5 5) false) 4008 None
                (mkBraceStmt (mkInfo 4016 (exampleRange 5 5) false) []).
Definition zeroWidthBlock : Stmt :=
  S_Brace (mkBraceStmt (mkInfo 4024 (exampleRange 5 5) false) []).

(** A compiler-synthesized [return] of a closure that was written out. *)
Definition implicitReturnOfClosure : Stmt :=
  S_Return (mkInfo 4032 (exampleRange 3 6) true)
           (Some (E_Closure exampleClosure)).

(** A compiler-synthesized block without a source range. *)
Definition implicitBlockWithoutRange : BraceStmt :=
  mkBraceStmt (mkInfo 4040 invalidRange true) [].

(** A parameter, met as a declaration. *)
Definition exampleParam : Decl :=
  D_Ignored ParamDeclKind (mkInfo 4048 (exampleRange 2 3) false).
(** * Properties *)

(** ** Reasoning about computations over the creator *)

Lemma bind_Some {R A B} (m : M R A) (k : A → M R B) sc b sc' :
  bind m k sc = Some (b, sc') ↔
  ∃ a sc1, m sc = Some (a, sc1) ∧ k a sc1 = Some (b, sc').
Proof.
  unfold bind. destruct (m sc) as [[a sc1]|]; split.
  - intros ?. by exists a, sc1.
  - by intros (? & ? & [= <- <-] & ?).
  - done.
  - by intros (? & ? & ? & ?).
Qed.

Lemma createSubtreeStep_eq {R} `{RangeOps R} dsplit rec d p (sc : ScopeCreator R) :
  createSubtreeStep dsplit rec d p sc
  = expandMe dsplit rec (length (scopes sc)) d (allocChild d p sc).
Proof. done. Qed.

Section Logic.
Context {R : Type} `{RangeOps R}.
Context {P : relation (ScopeCreator R)} {Inv : ScopeCreator R → Prop}.
Context {Good : ScopePtr → ScopeCreator R → Prop} {New : ScopePtr → Prop}.
Context `{!Laws P Inv Good New}.

Local Abbreviation spec := (triple P Inv Good).

Lemma GoodAll_stable L sc sc' : P sc sc' → GoodAll Good L sc → GoodAll Good L sc'.
Proof. intros HP HL p Hp. eapply Good_stable; eauto. Qed.

Lemma GoodAll_cons p L sc :
  Good p sc → GoodAll Good L sc → GoodAll Good (p :: L) sc.
Proof. intros Hp HL q [->|Hq]%elem_of_cons; auto. Qed.

Lemma GoodAll_this p sc : Good p sc → GoodAll Good (thisScope p) sc.
Proof. intros Hp q ->%list_elem_of_singleton. done. Qed.

Lemma GoodAll_none {A} (a : A) sc : GoodAll Good (noScopes a) sc.
Proof. by intros q ?%elem_of_nil. Qed.

Lemma GoodAll_nil sc : GoodAll Good [] sc.
Proof. by intros q ?%elem_of_nil. Qed.

Lemma spec_ret_ptr L (a : ScopePtr) : a ∈ L → spec L (ret a) thisScope.
Proof.
  intros Ha sc a' sc' HI HL [= <- <-]. split; [apply P_refl|]. split; [done|].
  apply GoodAll_this. by apply HL.
Qed.

Lemma spec_ret_any {A} L (a : A) : spec L (ret a) noScopes.
Proof.
  intros sc a' sc' HI HL [= <- <-]. split; [apply P_refl|]. split; [done|].
  apply GoodAll_none.
Qed.

Lemma spec_bind_ptr {B} L (m : M R ScopePtr) (k : ScopePtr → M R B) q :
  spec L m thisScope → (∀ a, spec (a :: L) (k a) q) → spec L (bind m k) q.
Proof.
  intros Hm Hk sc b sc' HI HL (a & sc1 & H1 & H2)%bind_Some.
  destruct (Hm _ _ _ HI HL H1) as (HP1 & HI1 & HQ1).
  assert (GoodAll Good (a :: L) sc1) as HL1.
  { apply GoodAll_cons; [apply HQ1, list_elem_of_singleton; done|].
    by eapply GoodAll_stable. }
  destruct (Hk a _ _ _ HI1 HL1 H2) as (HP2 & HI2 & HQ2).
  split; [by eapply P_trans|done].
Qed.

Lemma spec_bind_any {A B} L (m : M R A) (k : A → M R B) q :
  spec L m noScopes → (∀ a, spec L (k a) q) → spec L (bind m k) q.
Proof.
  intros Hm Hk sc b sc' HI HL (a & sc1 & H1 & H2)%bind_Some.
  destruct (Hm _ _ _ HI HL H1) as (HP1 & HI1 & HQ1).
  assert (GoodAll Good L sc1) as HL1 by (by eapply GoodAll_stable).
  destruct (Hk a _ _ _ HI1 HL1 H2) as (HP2 & HI2 & HQ2).
  split; [by eapply P_trans|done].
Qed.

Lemma spec_forget {A} L (m : M R A) q : spec L m q → spec L m noScopes.
Proof.
  intros Hm sc a sc' HI HL Hr. destruct (Hm _ _ _ HI HL Hr) as (?&?&?).
  split; [done|]. split; [done|]. apply GoodAll_none.
Qed.

Lemma spec_more {A} L L' (m : M R A) q : L ⊆ L' → spec L m q → spec L' m q.
Proof.
  intros Hsub Hm sc a sc' HI HL. apply Hm; [done|].
  intros p Hp. apply HL. by apply Hsub.
Qed.

Lemma spec_forEach {A} L (l : list A) (body : A → M R unit) :
  (∀ x, x ∈ l → spec L (body x) noScopes) → spec L (forEach l body) noScopes.
Proof.
  induction l as [|x l IH]; intros Hb; simpl.
  - apply spec_ret_any.
  - apply spec_bind_any; [apply Hb; left|]. intros _. apply IH.
    intros y Hy. apply Hb. by right.
Qed.

(** A loop that carries a scope. *)
Lemma spec_forEachWith_ptr {A} L (l : list A) (s : ScopePtr)
    (body : ScopePtr → A → M R ScopePtr) :
  s ∈ L → (∀ L' s x, x ∈ l → L ⊆ L' → s ∈ L' → spec L' (body s x) thisScope) →
  spec L (forEachWith l s body) thisScope.
Proof.
  revert L s. induction l as [|x l IH]; intros L s Hs Hb; simpl.
  - by apply spec_ret_ptr.
  - apply spec_bind_ptr; [apply Hb; [left|done|done]|]. intros s'.
    apply IH; [left|]. intros L' s2 y Hy Hsub Hs2. apply Hb; [by right| |done].
    intros z Hz. apply Hsub. by right.
Qed.

(** A loop that carries anything else. *)
Lemma spec_forEachWith_any {A S} L (l : list A) (s : S) (body : S → A → M R S) :
  (∀ s x, x ∈ l → spec L (body s x) noScopes) →
  spec L (forEachWith l s body) noScopes.
Proof.
  revert s. induction l as [|x l IH]; intros s Hb; simpl.
  - apply spec_ret_any.
  - apply spec_bind_any; [apply Hb; left|]. intros s'. apply IH.
    intros s2 y Hy. apply Hb. by right.
Qed.

Lemma spec_when L (b : bool) (m : M R unit) :
  (b = true → spec L m noScopes) → spec L (when b m) noScopes.
Proof. destruct b; simpl; [auto|intros _; apply spec_ret_any]. Qed.

Lemma spec_bind_get {B} L (k : ScopeCreator R → M R B) q :
  (∀ s, spec (newNodeInjectionPoint s :: L) (k s) q) → spec L (bind get k) q.
Proof.
  intros Hk sc b sc' HI HL. unfold bind, get. apply Hk; [done|].
  apply GoodAll_cons; [by apply Inv_ip|done].
Qed.

Lemma spec_modify L (f : ScopeCreator R → ScopeCreator R) :
  (∀ sc, Inv sc → GoodAll Good L sc → P sc (f sc) ∧ Inv (f sc)) →
  spec L (modify f) noScopes.
Proof.
  intros Hf sc a sc' HI HL [= <- <-]. destruct (Hf _ HI HL).
  split; [done|]. split; [done|]. apply GoodAll_none.
Qed.

Lemma spec_getData L p : spec L (getData p) noScopes.
Proof.
  intros sc a sc' HI HL [= <- <-]. split; [apply P_refl|]. split; [done|].
  apply GoodAll_none.
Qed.

Lemma spec_widen L p r : p ∈ L → spec L (widen p r) noScopes.
Proof. intros Hp. apply spec_modify. intros sc HI HL. apply H_widen; auto. Qed.

Lemma spec_isDuplicate L x b : spec L (isDuplicate x b) noScopes.
Proof.
  intros sc a sc' HI HL. unfold isDuplicate. destruct b; intros [= <- <-].
  - destruct (H_dups x sc HI). split; [done|]. split; [done|]. apply GoodAll_none.
  - split; [apply P_refl|]. split; [done|]. apply GoodAll_none.
Qed.

Lemma spec_shouldThisNodeBeScopedWhenEncountered L n :
  spec L (shouldThisNodeBeScopedWhenEncountered n) noScopes.
Proof.
  unfold shouldThisNodeBeScopedWhenEncountered.
  destruct (isHandledSpecially n); [apply spec_ret_any|].
  apply spec_bind_any; [apply spec_isDuplicate|]. intros. apply spec_ret_any.
Qed.

Lemma spec_getParent L this :
  this ∈ L → New this → spec L (getParent this) thisScope.
Proof.
  intros Hg Hn sc a sc' HI HL [= <- <-]. split; [apply P_refl|]. split; [done|].
  apply GoodAll_this.
  destruct (scopes sc !! this ≫= parent) as [q|] eqn:Hq; simpl; [|by apply HL].
  eapply H_parent; eauto.
Qed.

Lemma spec_setInjectionPoint L p : p ∈ L → spec L (modify (setInjectionPoint p)) noScopes.
Proof. intros Hp. apply spec_modify. intros sc HI HL. apply H_ip; auto. Qed.

Lemma spec_clear L p :
  p ∈ L →
  spec L (modify (λ sc, setRanges
     (clearCachedSourceRangesOfMeAndAncestors (scopes sc) p (ranges sc)) sc))
    noScopes.
Proof. intros Hp. apply spec_modify. intros sc HI HL. apply H_clear; auto. Qed.

Lemma spec_cacheSlice L p :
  p ∈ L →
  spec L (modify (λ sc, setRanges
     (cacheSourceRangesOfSlice (scopes sc) p (ranges sc)) sc)) noScopes.
Proof. intros Hp. apply spec_modify. intros sc HI HL. apply H_cacheSlice; auto. Qed.

Lemma spec_cacheRange L p :
  p ∈ L →
  spec L (modify (λ sc, setRanges
     (cacheSourceRange (scopes sc) p (ranges sc)) sc)) noScopes.
Proof. intros Hp. apply spec_modify. intros sc HI HL. apply H_cacheRange; auto. Qed.

(** ** The visitor and the expansions, given the scopes below *)

Section Step.
Variable dsplit : ScopeData → bool.
Variable rec : ScopeData → ScopePtr → M R ScopePtr.
Hypothesis Hrec : ∀ L d p, p ∈ L → spec L (rec d p) thisScope.
(** The scope of the pattern of a condition hands back its parent. *)
Hypothesis Hrec_pattern : ∀ pattern this sc s sc',
  rec (StatementConditionElementPatternScope pattern) this sc = Some (s, sc') →
  s = this.

Ltac mem :=
  solve [ repeat first
            [ assumption
            | apply list_elem_of_here
            | apply list_elem_of_further
            | match goal with Hs : _ ⊆ _ |- _ => apply Hs end ] ].

Create HintDb spec.
Local Hint Resolve spec_widen spec_isDuplicate spec_getData
  spec_shouldThisNodeBeScopedWhenEncountered Hrec : spec.
Local Hint Extern 1 (_ ∈ _) => mem : spec.

Ltac sp :=
  lazymatch goal with
  | |- spec _ (ret _) thisScope =>
      apply spec_ret_ptr; first [ mem | repeat case_match; mem | idtac ]
  | |- spec _ (ret _) noScopes => apply spec_ret_any
  | |- spec _ (bind get _) _ => apply spec_bind_get; intros; sp
  | |- spec _ (@bind _ ?A _ _ _) _ =>
      first [ unify A nat; apply spec_bind_ptr; [sp | intros; sp]
            | apply spec_bind_any; [sp | intros; sp] ]
  | |- spec _ (forEach _ _) _ => apply spec_forEach; intros; sp
  | |- spec _ (forEachWith _ _ _) thisScope =>
      apply spec_forEachWith_ptr; [mem | intros; sp]
  | |- spec _ (forEachWith _ _ _) noScopes =>
      apply spec_forEachWith_any; intros; sp
  | |- spec _ (when _ _) _ => apply spec_when; intros; sp
  | |- spec _ (modify (setInjectionPoint _)) _ =>
      apply spec_setInjectionPoint; mem
  | |- spec _ (modify _) _ =>
      first [ apply spec_clear; mem | apply spec_cacheSlice; mem
            | apply spec_cacheRange; mem | idtac ]
  | |- spec _ (if ?b then _ else _) _ => destruct b eqn:?; sp
  | |- spec _ (match ?x with _ => _ end) _ => destruct x eqn:?; sp
  | |- spec _ _ noScopes =>
      first [ solve [eauto with spec]
            | eapply spec_forget; solve [eauto with spec]
            | idtac ]
  | |- _ => first [ solve [eauto with spec] | idtac ]
  end.

Lemma spec_addChildrenForCapturesAndClosuresIn L e p :
  p ∈ L → spec L (addChildrenForCapturesAndClosuresIn rec e p) noScopes.
Proof.
  intros. unfold addChildrenForCapturesAndClosuresIn, forEachUniqueClosureIn. sp.
Qed.
Local Hint Resolve spec_addChildrenForCapturesAndClosuresIn : spec.

Lemma spec_createAttachedPropertyWrapperScope L pb p :
  p ∈ L → spec L (createAttachedPropertyWrapperScope rec pb p) noScopes.
Proof. intros. unfold createAttachedPropertyWrapperScope. sp. Qed.
Local Hint Resolve spec_createAttachedPropertyWrapperScope : spec.

Lemma spec_createGenericParamScopes L i g p :
  p ∈ L → spec L (createGenericParamScopes rec i g p) thisScope.
Proof. intros. unfold createGenericParamScopes. sp. Qed.
Local Hint Resolve spec_createGenericParamScopes : spec.

Lemma spec_visitAbstractFunctionDecl L f p :
  p ∈ L → spec L (visitAbstractFunctionDecl rec f p) thisScope.
Proof. intros. unfold visitAbstractFunctionDecl. sp. Qed.
Local Hint Resolve spec_visitAbstractFunctionDecl : spec.

Lemma spec_addChildrenForAllExplicitAccessors L l p :
  p ∈ L → spec L (addChildrenForAllExplicitAccessors rec l p) noScopes.
Proof. intros. unfold addChildrenForAllExplicitAccessors. sp. Qed.
Local Hint Resolve spec_addChildrenForAllExplicitAccessors : spec.

Lemma spec_forEachSpecializeAttrInSourceOrder L f fn :
  (∀ a, spec L (fn a) noScopes) →
  spec L (forEachSpecializeAttrInSourceOrder f fn) noScopes.
Proof. intros. unfold forEachSpecializeAttrInSourceOrder. sp. Qed.

Lemma spec_visitExpr L e p : p ∈ L → spec L (visitExpr rec e p) thisScope.
Proof. intros. unfold visitExpr. sp. Qed.
Local Hint Resolve spec_visitExpr : spec.

Lemma spec_visitBraceStmt L bs p :
  p ∈ L → spec L (visitBraceStmt dsplit rec bs p) thisScope.
Proof. intros. unfold visitBraceStmt, splits. sp. Qed.
Local Hint Resolve spec_visitBraceStmt : spec.

Lemma spec_visitPatternBindingDecl L pb p :
  p ∈ L → spec L (visitPatternBindingDecl rec pb p) thisScope.
Proof. intros. unfold visitPatternBindingDecl, inTypeDecl. sp. Qed.
Local Hint Resolve spec_visitPatternBindingDecl : spec.

Lemma spec_visitAndIgnore L w p : p ∈ L → spec L (visitAndIgnore w p) thisScope.
Proof. intros. unfold visitAndIgnore. sp. Qed.
Local Hint Resolve spec_visitAndIgnore : spec.

Lemma spec_visitDecl L d p : p ∈ L → spec L (visitDecl rec d p) thisScope.
Proof. intros. unfold visitDecl, createSubtree2D. sp. Qed.
Local Hint Resolve spec_visitDecl : spec.

Lemma spec_visitStmt L s p : p ∈ L → spec L (visitStmt dsplit rec s p) thisScope.
Proof. intros. unfold visitStmt. sp. Qed.
Local Hint Resolve spec_visitStmt : spec.

Lemma spec_createScopeFor L n p :
  p ∈ L → spec L (createScopeFor dsplit rec n p) thisScope.
Proof. intros. unfold createScopeFor. sp. Qed.
Local Hint Resolve spec_createScopeFor : spec.

Lemma spec_addScopeToTree L nd : spec L (addScopeToTree dsplit rec nd) noScopes.
Proof. unfold addScopeToTree. sp. Qed.
Local Hint Resolve spec_addScopeToTree : spec.

Lemma spec_addScopesToTree L l : spec L (addScopesToTree dsplit rec l) noScopes.
Proof.
  unfold addScopesToTree, ensureSourceRangesAreCorrectWhenAddingDescendants.
  destruct (bool_decide (l = [])); sp.
Qed.
Local Hint Resolve spec_addScopesToTree : spec.

Lemma spec_forEachVarDeclWithExplicitAccessors L pb i b foundOne :
  (∀ v, spec L (foundOne v) noScopes) →
  spec L (forEachVarDeclWithExplicitAccessors pb i b foundOne) noScopes.
Proof. intros. unfold forEachVarDeclWithExplicitAccessors. sp. Qed.

Lemma spec_getStatementConditionIfAny L p :
  p ∈ L → spec L (getStatementConditionIfAny p) thisScope.
Proof.
  intros Hp sc a sc' HI HL [= <- <-]. split; [apply P_refl|]. split; [done|].
  apply GoodAll_this.
  destruct (scopes sc !! p) as [s|] eqn:Hs; [|by apply HL].
  destruct (data s); try (by apply HL).
  destruct (statementConditionElementPatternScope s) as [q|] eqn:Hq;
    [|by apply HL].
  simpl. eapply Inv_pat; eauto.
Qed.
Local Hint Resolve spec_getStatementConditionIfAny : spec.

Lemma spec_createCondScopes L this i c :
  this ∈ L → spec L (createCondScopes rec this i c) thisScope.
Proof. intros. unfold createCondScopes. sp. Qed.
Local Hint Resolve spec_createCondScopes : spec.

Lemma spec_setPatternScope L this :
  this ∈ L →
  spec L (modify (λ sc, setScopes
            (alter (setPatternScope this) this (scopes sc)) sc)) noScopes.
Proof. intros Hp. apply spec_modify. intros sc HI HL. apply H_pat; auto. Qed.

Lemma spec_createSubtreeForCondition L this c i :
  this ∈ L → spec L (createSubtreeForCondition rec this c i) noScopes.
Proof.
  intros Hin. unfold createSubtreeForCondition.
  destruct (c !! i) as [[|e|pattern initializer]|]; [sp|sp| |sp].
  intros sc u sc' HI HL (s & sc1 & Hs & Hk)%bind_Some.
  pose proof (Hrec_pattern _ _ _ _ _ Hs) as ->.
  destruct (Hrec L _ this Hin _ _ _ HI HL Hs) as (HP1 & HI1 & _).
  assert (spec L (modify (λ sc, setScopes
                     (alter (setPatternScope this) this (scopes sc)) sc) ;;
                  visitExpr rec initializer this ;; ret tt) noScopes) as Hrest.
  { apply spec_bind_any; [by apply spec_setPatternScope|]. intros _. sp. }
  destruct (Hrest _ _ _ HI1 (GoodAll_stable _ _ _ HP1 HL) Hk) as (HP2 & HI2 & HQ).
  split; [by eapply P_trans|done].
Qed.
Local Hint Resolve spec_createSubtreeForCondition : spec.

Lemma spec_createTrailingWhereClauseScope L t p :
  p ∈ L → spec L (createTrailingWhereClauseScope rec t p) thisScope.
Proof. intros. unfold createTrailingWhereClauseScope, createSubtree2D. sp. Qed.
Local Hint Resolve spec_createTrailingWhereClauseScope : spec.

Lemma spec_createBodyScope L t p :
  p ∈ L → spec L (createBodyScope rec t p) noScopes.
Proof. intros. unfold createBodyScope, createSubtree2D. sp. Qed.
Local Hint Resolve spec_createBodyScope : spec.

Lemma spec_expandScope L portion this t :
  this ∈ L → spec L (expandScope dsplit rec portion this t) noScopes.
Proof. intros. unfold expandScope. sp. Qed.
Local Hint Resolve spec_expandScope : spec.

Lemma spec_expandAScopeThatCreatesANewInsertionPoint L this d :
  this ∈ L →
  spec L (expandAScopeThatCreatesANewInsertionPoint dsplit rec this d) thisScope.
Proof.
  intros. unfold expandAScopeThatCreatesANewInsertionPoint.
  destruct d; try (by apply spec_ret_ptr); sp.
  apply spec_forEachVarDeclWithExplicitAccessors. intros. sp.
Qed.

Lemma spec_createIfNotDuplicate L x d this :
  this ∈ L → spec L (createIfNotDuplicate rec x d this) noScopes.
Proof. intros. unfold createIfNotDuplicate. sp. Qed.
Local Hint Resolve spec_createIfNotDuplicate : spec.

Lemma spec_expandAScopeThatDoesNotCreateANewInsertionPoint L this d :
  this ∈ L →
  spec L (expandAScopeThatDoesNotCreateANewInsertionPoint dsplit rec this d)
       noScopes.
Proof.
  intros. unfold expandAScopeThatDoesNotCreateANewInsertionPoint.
  destruct d; try (by apply spec_ret_any); sp.
  apply spec_forEachSpecializeAttrInSourceOrder. intros. sp.
Qed.

Lemma spec_expandMe L this d :
  this ∈ L → New this → spec L (expandMe dsplit rec this d) thisScope.
Proof.
  intros. unfold expandMe. destruct (expansionKind d).
  - by apply spec_expandAScopeThatCreatesANewInsertionPoint.
  - apply spec_bind_any;
      [by apply spec_expandAScopeThatDoesNotCreateANewInsertionPoint|].
    intros _. by apply spec_getParent.
  - by apply spec_getParent.
Qed.

Lemma spec_createSubtreeStep L d p :
  p ∈ L → spec L (createSubtreeStep dsplit rec d p) thisScope.
Proof.
  intros Hp sc r sc' HI HL. rewrite createSubtreeStep_eq. intros Hr.
  destruct (H_alloc d p sc HI (HL p Hp)) as (HP1 & HI1 & Hg & Hn).
  destruct (spec_expandMe (length (scopes sc) :: L) _ d
              ltac:(apply list_elem_of_here) Hn _ _ _ HI1
              (GoodAll_cons _ _ _ Hg (GoodAll_stable _ _ _ HP1 HL)) Hr)
    as (HP2 & HI2 & HQ).
  split; [by eapply P_trans|done].
Qed.

End Step.

End Logic.
(** ** The tree only grows *)

Lemma scopeExt_refl s : scopeExt s s.
Proof. done. Qed.

Lemma scopeExt_trans s1 s2 s3 : scopeExt s1 s2 → scopeExt s2 s3 → scopeExt s1 s3.
Proof.
  intros (? & ? & ?) (? & ? & ?). split; [congruence|]. split; [congruence|].
  by etrans.
Qed.

Lemma Ext_refl {R} (sc : ScopeCreator R) : Ext sc sc.
Proof. split; [|done]. intros i s Hs. exists s. split; [done|apply scopeExt_refl]. Qed.

Lemma Ext_trans {R} (sc1 sc2 sc3 : ScopeCreator R) :
  Ext sc1 sc2 → Ext sc2 sc3 → Ext sc1 sc3.
Proof.
  intros (H1 & Hd1) (H2 & Hd2). split; [|set_solver].
  intros i s Hs. destruct (H1 _ _ Hs) as (s' & Hs' & He).
  destruct (H2 _ _ Hs') as (s'' & Hs'' & He'). exists s''.
  split; [done|by eapply scopeExt_trans].
Qed.

Lemma Ext_length {R} (sc sc' : ScopeCreator R) :
  Ext sc sc' → length (scopes sc) ≤ length (scopes sc').
Proof.
  intros (Hl & _). destruct (decide (length (scopes sc) = 0)) as [->|Hne]; [lia|].
  destruct (lookup_lt_is_Some_2 (scopes sc) (pred (length (scopes sc))))
    as (s & Hs); [lia|].
  destruct (Hl _ _ Hs) as (s' & Hs' & _).
  apply lookup_lt_Some in Hs'. lia.
Qed.

(** Scopes that are only re-labelled in fields the extension order does not
    read stay in the extension order. *)
Lemma Ext_alter {R} (f : ASTScopeImpl → ASTScopeImpl) i (sc : ScopeCreator R) :
  (∀ s, scopeExt s (f s)) → Ext sc (setScopes (alter f i (scopes sc)) sc).
Proof.
  intros Hf. split; [|done]. intros j s Hs. unfold setScopes; cbn [scopes].
  destruct (decide (i = j)) as [->|Hne].
  - exists (f s). rewrite list_lookup_alter_eq, Hs. split; [done|apply Hf].
  - exists s. rewrite list_lookup_alter_ne by done. split; [done|apply scopeExt_refl].
Qed.

Lemma allocChild_lookup_old {R} d p (sc : ScopeCreator R) i s :
  scopes sc !! i = Some s →
  scopes (allocChild d p sc) !! i
  = Some (if decide (p = i) then pushChild (length (scopes sc)) s else s).
Proof.
  intros Hs. pose proof (lookup_lt_Some _ _ _ Hs) as Hlt.
  unfold allocChild, setScopes; cbn [scopes].
  rewrite list_lookup_alter_ne by lia.
  destruct (decide (p = i)) as [->|Hne].
  - by rewrite list_lookup_alter_eq, lookup_app_l, Hs.
  - by rewrite list_lookup_alter_ne, lookup_app_l.
Qed.

Lemma allocChild_lookup_new {R} d p (sc : ScopeCreator R) :
  ∃ s, scopes (allocChild d p sc) !! length (scopes sc) = Some s ∧
       data s = d ∧ parent s = Some p.
Proof.
  unfold allocChild, setScopes; cbn [scopes]. rewrite list_lookup_alter_eq.
  destruct (decide (p = length (scopes sc))) as [->|Hne].
  - rewrite list_lookup_alter_eq, lookup_app_r, Nat.sub_diag by done. simpl.
    eexists. split; [done|]. done.
  - rewrite list_lookup_alter_ne, lookup_app_r, Nat.sub_diag by done. simpl.
    eexists. split; [done|]. done.
Qed.

Lemma allocChild_length {R} d p (sc : ScopeCreator R) :
  length (scopes (allocChild d p sc)) = S (length (scopes sc)).
Proof.
  unfold allocChild, setScopes; cbn [scopes].
  rewrite !length_alter, length_app. simpl. lia.
Qed.

Lemma Ext_allocChild {R} d p (sc : ScopeCreator R) : Ext sc (allocChild d p sc).
Proof.
  split; [|done]. intros i s Hs. rewrite (allocChild_lookup_old _ _ _ _ _ Hs).
  eexists. split; [done|]. destruct (decide (p = i)); [|apply scopeExt_refl].
  split; [done|]. split; [done|]. by apply prefix_app_r.
Qed.

Lemma Ext_same {R} (sc sc' : ScopeCreator R) :
  scopes sc' = scopes sc → astDuplicates sc ⊆ astDuplicates sc' → Ext sc sc'.
Proof.
  intros Hs Hd. split; [|done]. intros i s Hi. exists s. rewrite Hs.
  split; [done|apply scopeExt_refl].
Qed.

#[export] Instance Ext_laws {R} `{RangeOps R} :
  Laws (R:=R) Ext anyState anyScopeIn anyScope.
Proof.
  split; try done.
  - apply Ext_refl.
  - apply Ext_trans.
  - intros. split; [apply Ext_allocChild|done].
  - intros. split; [by apply Ext_same|done].
  - intros. split; [by apply Ext_same|done].
  - intros. split; [by apply Ext_same|done].
  - intros. split; [by apply Ext_same|done].
  - intros. split; [|done]. apply Ext_same; [done|]. simpl. set_solver.
  - intros. split; [by apply Ext_same|done].
  - intros. split; [|done]. apply Ext_alter. done.
  - intros. split; [by apply Ext_same|done].
Qed.

(** ** The builder returns, given enough depth *)

Lemma sum_list_with_elem {A} (f : A → nat) l x :
  x ∈ l → f x ≤ sum_list_with f l.
Proof.
  induction 1 as [|? ? ? ? IH]; simpl; [lia|]. lia.
Qed.

Lemma total_ret {R A} (a : A) : total (R:=R) (ret a).
Proof. intros sc. by eexists. Qed.

Lemma total_bind {R A B} (m : M R A) (k : A → M R B) :
  total m → (∀ a, total (k a)) → total (bind m k).
Proof.
  intros Hm Hk sc. unfold bind. destruct (Hm sc) as [[a sc1] ->]. apply Hk.
Qed.

Lemma total_forEach {R A} (l : list A) (body : A → M R unit) :
  (∀ x, x ∈ l → total (body x)) → total (forEach l body).
Proof.
  induction l as [|x l IH]; intros Hb; simpl; [apply total_ret|].
  apply total_bind; [apply Hb; left|]. intros _. apply IH. intros y Hy.
  apply Hb. by right.
Qed.

Lemma total_forEachWith {R A S} (l : list A) (s : S) (body : S → A → M R S) :
  (∀ s x, x ∈ l → total (body s x)) → total (forEachWith l s body).
Proof.
  revert s. induction l as [|x l IH]; intros s Hb; simpl; [apply total_ret|].
  apply total_bind; [apply Hb; left|]. intros s'. apply IH. intros s2 y Hy.
  apply Hb. by right.
Qed.

Lemma total_when {R} (b : bool) (m : M R unit) :
  (b = true → total m) → total (when b m).
Proof. destruct b; simpl; [auto|intros _; apply total_ret]. Qed.

Lemma total_get {R} : total (R:=R) get.
Proof. intros sc. by eexists. Qed.

Lemma total_modify {R} (f : ScopeCreator R → ScopeCreator R) : total (modify f).
Proof. intros sc. by eexists. Qed.

Lemma total_getData {R} p : total (R:=R) (getData p).
Proof. intros sc. by eexists. Qed.

Lemma total_getParent {R} p : total (R:=R) (getParent p).
Proof. intros sc. by eexists. Qed.

Lemma total_isDuplicate {R} x b : total (R:=R) (isDuplicate x b).
Proof. intros sc. unfold isDuplicate. destruct b; by eexists. Qed.

Lemma total_widen {R} `{RangeOps R} p r : total (R:=R) (widen p r).
Proof. apply total_modify. Qed.

Lemma total_shouldThisNodeBeScopedWhenEncountered {R} n :
  total (R:=R) (shouldThisNodeBeScopedWhenEncountered n).
Proof.
  unfold shouldThisNodeBeScopedWhenEncountered.
  destruct (isHandledSpecially n); [apply total_ret|].
  apply total_bind; [apply total_isDuplicate|]. intros. apply total_ret.
Qed.

Lemma total_getStatementConditionIfAny {R} p :
  total (R:=R) (getStatementConditionIfAny p).
Proof. intros sc. by eexists. Qed.

(** *** What the closure finder reports is smaller than where it looked *)

Lemma walkExpr_Other i l :
  walkExpr (E_Other i l) = l ≫= walkChild.
Proof. simpl. induction l as [|c l IH]; [done|]. simpl. by rewrite IH. Qed.

Lemma walkStmt_Brace i l :
  walkStmt (S_Brace (mkBraceStmt i l)) = l ≫= walkNode.
Proof. simpl. induction l as [|c l IH]; [done|]. simpl. by rewrite IH. Qed.

Lemma walk_smaller n :
  (∀ e, sizeExpr e ≤ n → ∀ f, f ∈ walkExpr e → sizeFound f < sizeExpr e) ∧
  (∀ s, sizeStmt s ≤ n → ∀ f, f ∈ walkStmt s → sizeFound f < sizeStmt s) ∧
  (∀ c, sizeWalkChild c ≤ n → ∀ f, f ∈ walkChild c → sizeFound f < sizeWalkChild c) ∧
  (∀ c, sizeNode c ≤ n → ∀ f, f ∈ walkNode c → sizeFound f < sizeNode c).
Proof.
  induction n as [|n (IHe & IHs & IHc & IHn)].
  { repeat split; intros x Hs f Hf; destruct x; simpl in *; try lia;
      by apply elem_of_nil in Hf. }
  repeat split.
  - intros [c|[i l c]|i l] Hs f.
    + intros ->%list_elem_of_singleton. unfold sizeFound. simpl. lia.
    + intros ->%list_elem_of_singleton. unfold sizeFound. simpl. lia.
    + rewrite walkExpr_Other. intros (c & Hf & Hc)%list_elem_of_bind.
      pose proof (sum_list_with_elem sizeWalkChild _ _ Hc). simpl in *.
      assert (sizeFound f < sizeWalkChild c) by (apply IHc; [lia|done]). lia.
  - intros s Hs f. destruct s as [[i l]| | | | | | | | | | | | | |];
      try (by intros ?%elem_of_nil).
    rewrite walkStmt_Brace. intros (c & Hf & Hc)%list_elem_of_bind.
    pose proof (sum_list_with_elem sizeNode _ _ Hc). simpl in *.
    assert (sizeFound f < sizeNode c) by (apply IHn; [lia|done]). lia.
  - intros [e|s| | | | |] Hs f; simpl in *; try (by intros ?%elem_of_nil).
    + intros Hf. assert (sizeFound f < sizeExpr e) by (apply IHe; [lia|done]). lia.
    + intros Hf. assert (sizeFound f < sizeStmt s) by (apply IHs; [lia|done]). lia.
  - intros [|e|s|] Hs f; simpl in *; try (by intros ?%elem_of_nil).
    + intros Hf. assert (sizeFound f < sizeExpr e) by (apply IHe; [lia|done]). lia.
    + intros Hf. assert (sizeFound f < sizeStmt s) by (apply IHs; [lia|done]). lia.
Qed.

Lemma forEachClosureIn_smaller e f :
  f ∈ forEachClosureIn e → sizeFound f < sizeExpr e.
Proof. intros Hf. by eapply (proj1 (walk_smaller (sizeExpr e))). Qed.

Section Totality.
Context {R : Type} `{RangeOps R}.
Variable dsplit : ScopeData → bool.
Variable rec : ScopeData → ScopePtr → M R ScopePtr.
Variable N : nat.
Hypothesis Hrec : ∀ d p, depthNeeded d < N → total (rec d p).

Create HintDb tot.
Local Hint Resolve total_ret total_get total_modify total_getData
  total_getParent total_isDuplicate total_widen
  total_shouldThisNodeBeScopedWhenEncountered
  total_getStatementConditionIfAny : tot.

(** Membership facts in the context, turned into size bounds. *)
Ltac sizes :=
  repeat match goal with
  | Hl : _ !! _ = Some _ |- _ => apply list_elem_of_lookup_2 in Hl
  end;
  repeat match goal with
  | Hx : ?x ∈ ?l |- _ =>
      first
        [ pose proof (sum_list_with_elem sizeParam l x Hx)
        | pose proof (sum_list_with_elem sizeFunc l x Hx)
        | pose proof (sum_list_with_elem sizeVar l x Hx)
        | pose proof (sum_list_with_elem sizeDecl l x Hx)
        | pose proof (sum_list_with_elem sizeNode l x Hx)
        | pose proof (sum_list_with_elem sizeExpr l x Hx)
        | pose proof (sum_list_with_elem sizeCond l x Hx)
        | pose proof (sum_list_with_elem sizeCatch l x Hx)
        | pose proof (sum_list_with_elem sizeCase l x Hx)
        | pose proof (sum_list_with_elem sizeEntry l x Hx)
        | pose proof (sum_list_with_elem sizeCaptureEntry l x Hx)
        | pose proof (sum_list_with_elem
            (λ g, match g with Some e => sizeExpr e | None => 0 end) l x Hx)
        | idtac ];
      clear Hx
  end.

Ltac open_records :=
  repeat match goal with
  | x : TypeDecl |- _ => destruct x
  | x : AbstractFunctionDecl |- _ => destruct x
  | x : VarDecl |- _ => destruct x
  | x : SubscriptDecl |- _ => destruct x
  | x : PatternBindingDecl |- _ => destruct x
  | x : PatternBindingEntry |- _ => destruct x
  | x : Pattern |- _ => destruct x
  | x : ClosureExpr |- _ => destruct x
  | x : CaptureListExpr |- _ => destruct x
  | x : CaptureListEntry |- _ => destruct x
  | x : BraceStmt |- _ => destruct x
  | x : ParamDecl |- _ => destruct x
  | x : CatchStmt |- _ => destruct x
  | x : CaseStmt |- _ => destruct x
  end.

Ltac arith :=
  subst; open_records; unfold getPatternEntry in *; simpl in *;
  sizes; unfold depthNeeded, sizeOpt in *; simpl in *; subst; simpl in *;
  unfold from_option in *; lia.

Ltac tot :=
  lazymatch goal with
  | |- total (ret _) => apply total_ret
  | |- total (bind _ _) => apply total_bind; [tot | intros; tot]
  | |- total (forEach _ _) => apply total_forEach; intros; tot
  | |- total (forEachWith _ _ _) => apply total_forEachWith; intros; tot
  | |- total (when _ _) => apply total_when; intros; tot
  | |- total (rec _ _) => apply Hrec; try arith
  | |- total (if ?b then _ else _) => destruct b eqn:?; tot
  | |- total (match ?x with _ => _ end) => destruct x eqn:?; tot
  | |- _ => first [ solve [eauto with tot] | idtac ]
  end.

Lemma total_addChildrenForCapturesAndClosuresIn e p :
  4 * sizeExpr e ≤ N → total (addChildrenForCapturesAndClosuresIn rec e p).
Proof.
  intros. unfold addChildrenForCapturesAndClosuresIn, forEachUniqueClosureIn.
  tot. pose proof (forEachClosureIn_smaller _ _ H1) as Hlt.
  unfold sizeFound in Hlt. unfold depthNeeded. simpl scopeRank. lia.
Qed.

Lemma total_visitExpr e p : 4 * sizeOpt e ≤ N → total (visitExpr rec e p).
Proof.
  intros. unfold visitExpr. tot.
  apply total_addChildrenForCapturesAndClosuresIn. by subst.
Qed.

Lemma total_createAttachedPropertyWrapperScope pb p :
  0 < N → total (createAttachedPropertyWrapperScope rec pb p).
Proof. intros. unfold createAttachedPropertyWrapperScope. tot. Qed.

Lemma total_createGenericParamScopes i g p :
  0 < N → total (createGenericParamScopes rec i g p).
Proof. intros. unfold createGenericParamScopes. tot. Qed.

Lemma total_visitAbstractFunctionDecl f p :
  4 * S (sizeFunc f) ≤ N → total (visitAbstractFunctionDecl rec f p).
Proof. intros. unfold visitAbstractFunctionDecl. tot. Qed.

Lemma total_addChildrenForAllExplicitAccessors l p :
  4 * S (sum_list_with sizeFunc l) ≤ N →
  total (addChildrenForAllExplicitAccessors rec l p).
Proof.
  intros. unfold addChildrenForAllExplicitAccessors. tot.
  apply total_visitAbstractFunctionDecl. arith.
Qed.

Lemma total_forEachSpecializeAttrInSourceOrder f (fn : SpecializeAttr → M R unit) :
  (∀ a, total (fn a)) → total (forEachSpecializeAttrInSourceOrder f fn).
Proof. intros. unfold forEachSpecializeAttrInSourceOrder. tot. Qed.

Lemma total_visitBraceStmt bs p :
  4 * S (sizeBrace bs) ≤ N → total (visitBraceStmt dsplit rec bs p).
Proof. intros. unfold visitBraceStmt, splits. tot. Qed.

Lemma total_visitPatternBindingDecl pb p :
  4 * S (sizePatternBinding pb) ≤ N → total (visitPatternBindingDecl rec pb p).
Proof.
  intros. unfold visitPatternBindingDecl, inTypeDecl. tot.
  apply total_createAttachedPropertyWrapperScope. lia.
Qed.

Lemma total_visitAndIgnore w p : total (R:=R) (visitAndIgnore w p).
Proof. unfold visitAndIgnore. tot. Qed.

Lemma total_visitDecl d p : 4 * S (sizeDecl d) ≤ N → total (visitDecl rec d p).
Proof.
  intros. unfold visitDecl, createSubtree2D.
  destruct d; simpl in *; tot.
  - apply total_visitAndIgnore.
  - apply total_visitAndIgnore.
  - apply total_visitAndIgnore.
  - apply total_visitAbstractFunctionDecl. lia.
  - apply total_visitPatternBindingDecl. lia.
Qed.

Lemma total_visitStmt s p : 4 * S (sizeStmt s) ≤ N → total (visitStmt dsplit rec s p).
Proof.
  intros. unfold visitStmt. destruct s; simpl in *; tot.
  - apply total_visitBraceStmt. lia.
  - apply total_visitExpr. unfold sizeOpt. destruct result; simpl; lia.
  - apply total_visitExpr. arith.
  - apply total_visitAbstractFunctionDecl. lia.
  - apply total_visitBraceStmt. lia.
  - apply total_visitAndIgnore.
Qed.

Lemma total_createScopeFor n p :
  4 * sizeNode n ≤ N → total (createScopeFor dsplit rec n p).
Proof.
  intros. unfold createScopeFor. destruct n; simpl in *; tot.
  - apply total_visitExpr. simpl. lia.
  - apply total_visitStmt. lia.
  - apply total_visitDecl. lia.
Qed.

Lemma total_addScopesToTree l :
  4 * S (sum_list_with sizeNode l) ≤ N → total (addScopesToTree dsplit rec l).
Proof.
  intros. unfold addScopesToTree, ensureSourceRangesAreCorrectWhenAddingDescendants.
  tot. unfold addScopeToTree. tot. apply total_createScopeFor. arith.
Qed.


Lemma total_forEachVarDeclWithExplicitAccessors pb i b
    (foundOne : VarDecl → M R unit) :
  (∀ e v, getPatternEntry pb i = Some e → v ∈ pattern_vars (entry_pattern e) →
          total (foundOne v)) →
  total (forEachVarDeclWithExplicitAccessors pb i b foundOne).
Proof.
  intros Hf. unfold forEachVarDeclWithExplicitAccessors.
  destruct (getPatternEntry pb i) as [e|] eqn:He; simpl; [|apply total_ret].
  tot.
Qed.

Lemma total_createCondScopes this i c :
  4 * S (sum_list_with sizeCond c) + 1 < N → total (createCondScopes rec this i c).
Proof. intros. unfold createCondScopes. tot. Qed.

Lemma total_createSubtreeForCondition this c i :
  4 * S (sum_list_with sizeCond c) ≤ N →
  total (createSubtreeForCondition rec this c i).
Proof.
  intros. unfold createSubtreeForCondition. tot; apply total_visitExpr; arith.
Qed.

Lemma total_createTrailingWhereClauseScope t p :
  4 * sizeType t < N → total (createTrailingWhereClauseScope rec t p).
Proof.
  intros. unfold createTrailingWhereClauseScope, createSubtree2D. tot.
Qed.

Lemma total_createBodyScope t p :
  4 * sizeType t + 1 < N → total (createBodyScope rec t p).
Proof. intros. unfold createBodyScope, createSubtree2D. tot. Qed.

Ltac fin :=
  first
    [ apply total_visitExpr; arith
    | apply total_createScopeFor; arith
    | apply total_visitBraceStmt; arith
    | apply total_createGenericParamScopes; arith
    | apply total_createCondScopes; arith
    | apply total_createSubtreeForCondition; arith
    | apply total_createTrailingWhereClauseScope; arith
    | apply total_createBodyScope; arith
    | apply total_addChildrenForAllExplicitAccessors; arith
    | apply total_addChildrenForCapturesAndClosuresIn; arith
    | apply total_addScopesToTree; arith
    | apply total_forEachSpecializeAttrInSourceOrder; intros; tot
    | apply total_forEachVarDeclWithExplicitAccessors; intros; tot ].

Lemma total_expandScope portion this t :
  depthNeeded (GenericTypeOrExtensionScope portion t) ≤ N →
  total (expandScope dsplit rec portion this t).
Proof.
  intros Hn. unfold expandScope. destruct portion; unfold depthNeeded in Hn;
    simpl in Hn; tot; fin.
Qed.

Lemma sizeOpt_initAsWritten pb i :
  sizeOpt (getPatternEntry pb i ≫= getInitAsWritten) < sizePatternBinding pb.
Proof.
  destruct (getPatternEntry pb i) as [e|] eqn:He; simpl.
  - destruct (getInitAsWritten e) eqn:Hw; arith.
  - destruct pb. simpl. lia.
Qed.

Lemma total_expandAScopeThatCreatesANewInsertionPoint this d :
  depthNeeded d ≤ N →
  total (expandAScopeThatCreatesANewInsertionPoint dsplit rec this d).
Proof.
  intros Hn. unfold expandAScopeThatCreatesANewInsertionPoint.
  destruct d; try apply total_ret; unfold depthNeeded in Hn; simpl in Hn;
    tot; try fin.
  apply total_visitExpr.
  pose proof (sizeOpt_initAsWritten decl patternEntryIndex). lia.
Qed.

Lemma total_createIfNotDuplicate x d this :
  depthNeeded d < N → total (createIfNotDuplicate rec x d this).
Proof. intros. unfold createIfNotDuplicate. tot. Qed.

Lemma total_expandAScopeThatDoesNotCreateANewInsertionPoint this d :
  depthNeeded d ≤ N →
  total (expandAScopeThatDoesNotCreateANewInsertionPoint dsplit rec this d).
Proof.
  intros Hn. unfold expandAScopeThatDoesNotCreateANewInsertionPoint.
  destruct d; try apply total_ret; unfold depthNeeded in Hn; simpl in Hn;
    try (by apply total_expandScope); tot; try fin;
    try (apply total_createIfNotDuplicate; arith).
  destruct (func_isTypeContext decl); unfold depthNeeded; simpl; lia.
Qed.

Lemma total_expandMe this d :
  depthNeeded d ≤ N → total (expandMe dsplit rec this d).
Proof.
  intros. unfold expandMe. destruct (expansionKind d).
  - by apply total_expandAScopeThatCreatesANewInsertionPoint.
  - apply total_bind;
      [by apply total_expandAScopeThatDoesNotCreateANewInsertionPoint|].
    intros. apply total_getParent.
  - apply total_getParent.
Qed.

Lemma total_createSubtreeStep d p :
  depthNeeded d ≤ N → total (createSubtreeStep dsplit rec d p).
Proof.
  intros Hn sc. rewrite createSubtreeStep_eq. by apply total_expandMe.
Qed.

End Totality.

(** With more depth than [depthNeeded], [createSubtree] returns. *)
Theorem createSubtree_total {R} `{RangeOps R} dsplit depth d p :
  depthNeeded d < depth → total (R:=R) (createSubtree dsplit depth d p).
Proof.
  revert d p. induction depth as [|depth IH]; intros d p Hd; [lia|].
  simpl. apply total_createSubtreeStep with (N := depth); [|lia].
  intros d' p' Hd'. by apply IH.
Qed.

Lemma sum_list_with_drop {A} (f : A → nat) n l :
  sum_list_with f (drop n l) ≤ sum_list_with f l.
Proof.
  revert n. induction l as [|x l IH]; intros [|n]; simpl; try lia.
  specialize (IH n). lia.
Qed.

Theorem addNewDeclsToTree_total {R} `{RangeOps R} dsplit depth decls :
  depthFor decls ≤ depth →
  total (R:=R) (addNewDeclsToTree dsplit depth decls).
Proof.
  intros Hd. unfold addNewDeclsToTree. apply total_bind; [apply total_get|].
  intros sc. apply total_bind; [|intros; apply total_modify].
  apply total_addScopesToTree with (N := depth).
  - intros d p Hlt. by apply createSubtree_total.
  - unfold depthFor in Hd. rewrite fmap_drop.
    pose proof (sum_list_with_drop sizeNode (numberOfDeclsAlreadySeen sc)
                  (N_Decl <$> decls)). lia.
Qed.

(** ** What [createSubtree] returns *)

Section Returns.
Context {R : Type} `{RangeOps R}.
Variable dsplit : ScopeData → bool.

Lemma Ext_parentOf (sc sc' : ScopeCreator R) i q :
  Ext sc sc' → parentOf (scopes sc) i = Some q → parentOf (scopes sc') i = Some q.
Proof.
  intros (He & _). unfold parentOf.
  destruct (scopes sc !! i) as [s|] eqn:Hs; [|done]. simpl. intros Hq.
  destruct (He _ _ Hs) as (s' & -> & _ & Hp & _). simpl. congruence.
Qed.

Lemma Ext_data (sc sc' : ScopeCreator R) i d :
  Ext sc sc' → data <$> scopes sc !! i = Some d → data <$> scopes sc' !! i = Some d.
Proof.
  intros (He & _). destruct (scopes sc !! i) as [s|] eqn:Hs; [|done]. simpl.
  intros [= <-]. destruct (He _ _ Hs) as (s' & -> & Hd & _). simpl. congruence.
Qed.

Lemma allocChild_parentOf d p (sc : ScopeCreator R) :
  parentOf (scopes (allocChild d p sc)) (length (scopes sc)) = Some p.
Proof.
  destruct (allocChild_lookup_new d p sc) as (s & Hs & _ & Hp).
  unfold parentOf. by rewrite Hs.
Qed.

Lemma allocChild_data d p (sc : ScopeCreator R) :
  data <$> scopes (allocChild d p sc) !! length (scopes sc) = Some d.
Proof.
  destruct (allocChild_lookup_new d p sc) as (s & Hs & Hd & _).
  rewrite Hs. simpl. by rewrite Hd.
Qed.

Lemma getParent_Some this (sc : ScopeCreator R) r sc' q :
  parentOf (scopes sc) this = Some q →
  getParent this sc = Some (r, sc') → r = q ∧ sc' = sc.
Proof.
  unfold getParent, parentOf. intros -> [= <- <-]. done.
Qed.

Local Abbreviation specExt := (triple (R:=R) Ext anyState anyScopeIn).

(** The tree only grows while a subtree is created, and a scope whose
    class expands with [NO_NEW_INSERTION_POINT] or [NO_EXPANSION] hands
    back the parent it was created under. *)
Lemma createSubtree_Ext_parent depth :
  (∀ L d p, p ∈ L → specExt L (createSubtree dsplit depth d p) thisScope) ∧
  (∀ d p (sc : ScopeCreator R) r sc',
     expansionKind d ≠ CREATES_NEW_INSERTION_POINT →
     createSubtree dsplit depth d p sc = Some (r, sc') → r = p).
Proof.
  induction depth as [|depth [IHs IHp]].
  { split; [intros L d p _ sc a sc' _ _ [=]|intros d p sc r sc' _ [=]]. }
  assert (∀ pattern this (sc : ScopeCreator R) s sc',
            createSubtree dsplit depth
              (StatementConditionElementPatternScope pattern) this sc
              = Some (s, sc') → s = this) as Hpat.
  { intros pattern this sc s sc'. by apply IHp. }
  split.
  - intros L d p Hp. simpl. by apply (spec_createSubtreeStep (New:=anyScope)).
  - intros d p sc r sc' Hk. simpl. rewrite createSubtreeStep_eq. unfold expandMe.
    destruct (expansionKind d); [done| |].
    + intros (u & sc1 & Hx & Hg)%bind_Some.
      assert (Ext (allocChild d p sc) sc1) as He.
      { by destruct (spec_expandAScopeThatDoesNotCreateANewInsertionPoint
          (P:=Ext) (Inv:=anyState) (Good:=anyScopeIn) (New:=anyScope) dsplit _
          IHs [length (scopes sc)] (length (scopes sc)) d
          ltac:(apply list_elem_of_here) _ _ _ I ltac:(done) Hx). }
      eapply getParent_Some in Hg; [by destruct Hg|].
      eapply Ext_parentOf; [done|]. apply allocChild_parentOf.
    + intros Hg. eapply getParent_Some in Hg; [by destruct Hg|].
      apply allocChild_parentOf.
Qed.

Lemma createSubtree_spec_Ext depth L d p :
  p ∈ L → specExt L (createSubtree dsplit depth d p) thisScope.
Proof. apply createSubtree_Ext_parent. Qed.

Lemma createSubtree_returns_parent depth d p (sc : ScopeCreator R) r sc' :
  expansionKind d ≠ CREATES_NEW_INSERTION_POINT →
  createSubtree dsplit depth d p sc = Some (r, sc') → r = p.
Proof. apply createSubtree_Ext_parent. Qed.

Lemma createSubtree_pattern depth pattern this (sc : ScopeCreator R) s sc' :
  createSubtree dsplit depth (StatementConditionElementPatternScope pattern)
    this sc = Some (s, sc') → s = this.
Proof. by apply createSubtree_returns_parent. Qed.

Lemma specExt_Ext {A} (m : M R A) q (sc : ScopeCreator R) a sc' :
  specExt [] m q → m sc = Some (a, sc') → Ext sc sc'.
Proof. intros Hm Hr. by destruct (Hm sc a sc' I ltac:(done) Hr). Qed.

Lemma specExt_any {A} L (m : M R A) q : specExt L m q → specExt [] m q.
Proof.
  intros Hm sc a sc' _ _ Hr. destruct (Hm sc a sc' I ltac:(done) Hr) as [? _].
  done.
Qed.

Lemma createSubtree_Ext depth d p (sc : ScopeCreator R) r sc' :
  createSubtree dsplit depth d p sc = Some (r, sc') → Ext sc sc'.
Proof.
  apply specExt_Ext with (q := thisScope), specExt_any with (L := [p]).
  apply createSubtree_spec_Ext, list_elem_of_here.
Qed.

Lemma expandMe_Ext depth this d (sc : ScopeCreator R) r sc' :
  expandMe dsplit (createSubtree dsplit depth) this d sc = Some (r, sc') →
  Ext sc sc'.
Proof.
  apply specExt_Ext with (q := thisScope), specExt_any with (L := [this]).
  apply (spec_expandMe (New:=anyScope));
    [apply createSubtree_spec_Ext|apply createSubtree_pattern
    |apply list_elem_of_here|done].
Qed.

Lemma expandNoNew_Ext depth this d (sc : ScopeCreator R) r sc' :
  expandAScopeThatDoesNotCreateANewInsertionPoint dsplit
    (createSubtree dsplit depth) this d sc = Some (r, sc') →
  Ext sc sc'.
Proof.
  apply specExt_Ext with (q := noScopes), specExt_any with (L := [this]).
  apply (spec_expandAScopeThatDoesNotCreateANewInsertionPoint (New:=anyScope));
    [apply createSubtree_spec_Ext|apply list_elem_of_here].
Qed.

Lemma createScopeFor_Ext depth n p (sc : ScopeCreator R) r sc' :
  createScopeFor dsplit (createSubtree dsplit depth) n p sc = Some (r, sc') →
  Ext sc sc'.
Proof.
  apply specExt_Ext with (q := thisScope), specExt_any with (L := [p]).
  apply (spec_createScopeFor (New:=anyScope));
    [apply createSubtree_spec_Ext|apply list_elem_of_here].
Qed.

Lemma addScopeToTree_Ext depth nd (sc : ScopeCreator R) u sc' :
  addScopeToTree dsplit (createSubtree dsplit depth) nd sc = Some (u, sc') →
  Ext sc sc'.
Proof.
  apply specExt_Ext with (q := noScopes).
  apply (spec_addScopeToTree (New:=anyScope)), createSubtree_spec_Ext.
Qed.

Lemma addScopesToTree_Ext depth l (sc : ScopeCreator R) r sc' :
  addScopesToTree dsplit (createSubtree dsplit depth) l sc = Some (r, sc') →
  Ext sc sc'.
Proof.
  apply specExt_Ext with (q := noScopes).
  apply (spec_addScopesToTree (New:=anyScope)), createSubtree_spec_Ext.
Qed.

(** The scope allocated by [createSubtree] is the next free one; it keeps
    its class and its parent. *)
Lemma createSubtree_child depth d p (sc : ScopeCreator R) r sc' :
  createSubtree dsplit depth d p sc = Some (r, sc') →
  parentOf (scopes sc') (length (scopes sc)) = Some p ∧
  data <$> scopes sc' !! length (scopes sc) = Some d.
Proof.
  destruct depth as [|depth]; [done|]. simpl. rewrite createSubtreeStep_eq.
  intros He%expandMe_Ext. split.
  - eapply Ext_parentOf; [done|]. apply allocChild_parentOf.
  - eapply Ext_data; [done|]. apply allocChild_data.
Qed.

Lemma createSubtree_returns_child depth d p (sc : ScopeCreator R) r sc' :
  returnsItself d = true →
  createSubtree dsplit depth d p sc = Some (r, sc') → r = length (scopes sc).
Proof.
  intros Hk. destruct depth as [|depth]; [done|]. simpl.
  rewrite createSubtreeStep_eq. unfold expandMe.
  destruct d; try done; simpl.
  - intros (? & ? & _ & [= <- <-])%bind_Some. done.
  - intros (? & ? & _ & [= <- <-])%bind_Some. done.
  - intros (? & ? & _ & [= <- <-])%bind_Some. done.
  - intros (? & ? & _ & [= <- <-])%bind_Some. done.
  - intros (? & ? & _ & (? & ? & _ & Hu)%bind_Some)%bind_Some.
    by apply createSubtree_returns_parent in Hu.
Qed.

(** A pattern-entry declaration scope hands back its use scope, which is
    its last child. *)
Lemma createSubtree_PatternEntryDeclScope depth pb i vis p
    (sc : ScopeCreator R) r sc' :
  createSubtree dsplit depth (PatternEntryDeclScope pb i vis) p sc
    = Some (r, sc') →
  length (scopes sc) < r ∧
  parentOf (scopes sc') r = Some (length (scopes sc)) ∧
  (∃ e, data <$> scopes sc' !! r = Some (PatternEntryUseScope pb i vis e)) ∧
  parentOf (scopes sc') (length (scopes sc)) = Some p.
Proof.
  intros Hr. pose proof (createSubtree_child _ _ _ _ _ _ Hr) as [Hp _].
  destruct depth as [|depth]; [done|]. simpl in Hr.
  rewrite createSubtreeStep_eq in Hr. unfold expandMe in Hr. simpl in Hr.
  apply bind_Some in Hr as (e & sc1 & Hi & Hu).
  assert (Ext (allocChild (PatternEntryDeclScope pb i vis) p sc) sc1) as He.
  { revert Hi. destruct (_ ≫= getInitAsWritten) as [x|];
      [|intros [= <- <-]; apply Ext_refl].
    destruct (range_isValid _); [|intros [= <- <-]; apply Ext_refl].
    intros (? & ? & Hc%createSubtree_Ext & (? & ? & [= <- <-] & [= <- <-])%bind_Some)%bind_Some.
    eapply Ext_trans; [done|]. by apply Ext_same. }
  pose proof (createSubtree_returns_child _ (PatternEntryUseScope pb i vis e)
                _ _ _ _ eq_refl Hu) as ->.
  destruct (createSubtree_child _ _ _ _ _ _ Hu) as [Hpu Hdu].
  apply Ext_length in He. rewrite allocChild_length in He.
  split; [lia|]. split; [done|]. split; [by eexists|done].
Qed.

End Returns.

(** ** The builder keeps what its steps keep *)

Section Builder.
Context {R : Type} `{RangeOps R}.
Context {P : relation (ScopeCreator R)} {Inv : ScopeCreator R → Prop}.
Context {Good : ScopePtr → ScopeCreator R → Prop} {New : ScopePtr → Prop}.
Context `{!Laws P Inv Good New}.
Variable dsplit : ScopeData → bool.

Theorem spec_createSubtree depth L d p :
  p ∈ L → triple P Inv Good L (createSubtree dsplit depth d p) thisScope.
Proof.
  revert L d p. induction depth as [|depth IH]; intros L d p Hp; simpl.
  - intros sc a sc' _ _ [=].
  - apply (spec_createSubtreeStep (New:=New)); [done| |done].
    apply createSubtree_pattern.
Qed.

Theorem spec_addScopeToTree_builder depth L nd :
  triple P Inv Good L
    (addScopeToTree dsplit (createSubtree dsplit depth) nd) noScopes.
Proof. apply (spec_addScopeToTree (New:=New)). apply spec_createSubtree. Qed.

Theorem spec_addNewDeclsToTree depth decls :
  triple P Inv Good [] (addNewDeclsToTree dsplit depth decls) noScopes.
Proof.
  unfold addNewDeclsToTree.
  apply spec_bind_get. intros s.
  apply spec_bind_any.
  - apply (spec_addScopesToTree (New:=New)). apply spec_createSubtree.
  - intros _. apply spec_modify. intros. by apply H_seen.
Qed.

End Builder.

(** ** One sibling after the other *)

Section Siblings.
Context {R : Type} `{RangeOps R}.
Variable dsplit : ScopeData → bool.
Variable depth : nat.

Local Abbreviation rec := (createSubtree (R:=R) dsplit depth).

Lemma createScopeFor_total n p :
  4 * sizeNode n ≤ depth → total (createScopeFor dsplit rec n p).
Proof.
  intros. apply total_createScopeFor with (N := depth); [|done].
  intros. by apply createSubtree_total.
Qed.

Lemma addScopeToTree_total nd :
  4 * sizeNode nd ≤ depth → total (addScopeToTree dsplit rec nd).
Proof.
  intros. unfold addScopeToTree.
  apply total_bind; [apply total_shouldThisNodeBeScopedWhenEncountered|].
  intros b. apply total_when. intros _.
  apply total_bind; [apply total_get|]. intros.
  apply total_bind; [by apply createScopeFor_total|]. intros.
  apply total_modify.
Qed.

(** A node that was encountered before, or that the pattern code handles
    itself, changes nothing. *)
Lemma addScopeToTree_skip nd (sc : ScopeCreator R) :
  isHandledSpecially nd = true ∨ getOpaqueValue nd ∈ astDuplicates sc →
  addScopeToTree dsplit rec nd sc = Some (tt, sc).
Proof.
  unfold addScopeToTree, shouldThisNodeBeScopedWhenEncountered.
  destruct (isHandledSpecially nd); [done|].
  intros [?|Hin]; [done|]. unfold bind, isDuplicate, ret. simpl.
  rewrite bool_decide_eq_true_2 by done. simpl.
  assert ({[getOpaqueValue nd]} ∪ astDuplicates sc = astDuplicates sc) as Heq
    by set_solver.
  rewrite Heq.
  by destruct sc.
Qed.

(** A node encountered for the first time is registered, scoped under the
    injection point, and what that returns is the next injection point. *)
Lemma addScopeToTree_scoped nd (sc : ScopeCreator R) u sc' :
  isHandledSpecially nd = false →
  getOpaqueValue nd ∉ astDuplicates sc →
  addScopeToTree dsplit rec nd sc = Some (u, sc') →
  ∃ r scb,
    createScopeFor dsplit rec nd (newNodeInjectionPoint sc)
      (setDuplicates ({[getOpaqueValue nd]} ∪ astDuplicates sc) sc)
      = Some (r, scb) ∧
    sc' = setInjectionPoint r scb.
Proof.
  unfold addScopeToTree, shouldThisNodeBeScopedWhenEncountered.
  intros -> Hnot. unfold bind at 1 2. unfold isDuplicate, ret. simpl.
  rewrite bool_decide_eq_false_2 by done. simpl.
  unfold bind at 1. unfold get. 
  intros (r & scb & Hc & [= <- <-])%bind_Some. eauto.
Qed.

(** For a node with a scope of its own, [createScopeFor] is [createSubtree]
    of that scope. *)
Lemma createScopeFor_direct nd d p (sc : ScopeCreator R) r sc' :
  directScope nd = Some d →
  createScopeFor dsplit rec nd p sc = Some (r, sc') →
  createSubtree dsplit depth d p sc = Some (r, sc').
Proof.
  intros Hd. unfold createScopeFor.
  assert (∀ bs, visitBraceStmt dsplit rec bs p sc = Some (r, sc') →
                createSubtree dsplit depth (BraceStmtScope bs) p sc = Some (r, sc'))
    as Hbrace.
  { intros bs. unfold visitBraceStmt.
    intros (ip & sc1 & Hc & (b & sc2 & Hs & [= <- <-])%bind_Some)%bind_Some.
    unfold splits, getData, bind, ret in Hs. injection Hs as <- <-.
    pose proof (createSubtree_returns_parent dsplit depth (BraceStmtScope bs)
                  _ _ _ _ ltac:(done) Hc) as ->.
    rewrite Hc. by destruct (from_option _ _ _). }
  destruct nd as [|e|s|dd]; simpl in Hd; try done.
  - destruct s; simplify_eq; simpl; try done; apply Hbrace.
  - unfold shouldCreateScope. destruct (node_implicit (decl_info dd)); [done|].
    destruct dd; simplify_eq; simpl; try done.
    destruct (isa_AccessorDecl f); simplify_eq. done.
Qed.

(** The scope of the next sibling is a child of the injection point. *)
Lemma addScopeToTree_child nd d (sc : ScopeCreator R) u sc' :
  directScope nd = Some d →
  getOpaqueValue nd ∉ astDuplicates sc →
  addScopeToTree dsplit rec nd sc = Some (u, sc') →
  dataOf (scopes sc') (length (scopes sc)) = Some d ∧
  parentOf (scopes sc') (length (scopes sc)) = Some (newNodeInjectionPoint sc) ∧
  (returnsItself d = true → newNodeInjectionPoint sc' = length (scopes sc)) ∧
  (expansionKind d ≠ CREATES_NEW_INSERTION_POINT →
   newNodeInjectionPoint sc' = newNodeInjectionPoint sc).
Proof.
  intros Hd Hnot Hrun.
  assert (isHandledSpecially nd = false) as Hsp.
  { destruct nd as [| | |[k i| |f| | | |]]; try done; simpl in *.
    - by destruct (node_implicit i).
    - by destruct (node_implicit _).
    - destruct (node_implicit _); [done|]. by destruct (isa_AccessorDecl f). }
  destruct (addScopeToTree_scoped _ _ _ _ Hsp Hnot Hrun) as (r & scb & Hc & ->).
  apply (createScopeFor_direct _ _ _ _ _ _ Hd) in Hc.
  destruct (createSubtree_child _ _ _ _ _ _ _ Hc) as [Hp Hdat].
  simpl in *. repeat split; try done.
  - intros Hk. by apply (createSubtree_returns_child _ _ _ _ _ _ _ Hk) in Hc.
  - intros Hk. by apply (createSubtree_returns_parent _ _ _ _ _ _ _ Hk) in Hc.
Qed.

End Siblings.

(** ** Ancestors of a scope that was there before *)

Lemma Ext_parentOf_old {R} (sc sc' : ScopeCreator R) i :
  Ext sc sc' → i < length (scopes sc) →
  parentOf (scopes sc') i = parentOf (scopes sc) i.
Proof.
  intros (He & _) Hi. unfold parentOf.
  destruct (lookup_lt_is_Some_2 _ _ Hi) as (s & Hs).
  destruct (He _ _ Hs) as (s' & Hs' & _ & Hp & _). rewrite Hs, Hs'. simpl. done.
Qed.

Lemma ancestorsFrom_old {R} (sc sc' : ScopeCreator R) steps q j :
  Ext sc sc' → parentsValid (scopes sc) → q < length (scopes sc) →
  j ∈ ancestorsFrom steps (scopes sc') q → j < length (scopes sc).
Proof.
  intros He Hv. revert q. induction steps as [|steps IH]; intros q Hq; simpl.
  { by intros ?%elem_of_nil. }
  rewrite (Ext_parentOf_old _ _ _ He Hq).
  destruct (parentOf (scopes sc) q) as [q'|] eqn:Hp; [|by intros ?%elem_of_nil].
  pose proof (Hv _ _ Hp). intros [->|Hj]%elem_of_cons; [done|]. by eapply IH.
Qed.

(** ** The chain of a pattern binding *)

Lemma Ext_dataOf {R} (sc sc' : ScopeCreator R) i d :
  Ext sc sc' → dataOf (scopes sc) i = Some d → dataOf (scopes sc') i = Some d.
Proof. apply Ext_data. Qed.

Lemma entryChain_Ext {R} (sc sc' : ScopeCreator R) pb vis ip l fin :
  Ext sc sc' → entryChain (scopes sc) pb vis ip l fin →
  entryChain (scopes sc') pb vis ip l fin.
Proof.
  intros He. induction 1; econstructor; eauto using Ext_dataOf, Ext_parentOf.
Qed.

Section Chain.
Context {R : Type} `{RangeOps R}.
Variable dsplit : ScopeData → bool.
Variable depth : nat.
Local Abbreviation rec := (createSubtree (R:=R) dsplit depth).

Lemma entry_loop pb vis l ip (sc : ScopeCreator R) r sc' :
  forEachWith l ip
    (λ insertionPoint i, rec (PatternEntryDeclScope pb i vis) insertionPoint) sc
    = Some (r, sc') →
  entryChain (scopes sc') pb vis ip l r ∧ Ext sc sc'.
Proof.
  revert ip sc. induction l as [|i l IH]; intros ip sc; simpl.
  - intros [= <- <-]. split; [constructor|apply Ext_refl].
  - intros (u & sc1 & Hc & Hl)%bind_Some.
    destruct (IH _ _ Hl) as [Hch He].
    pose proof (createSubtree_Ext _ _ _ _ _ _ _ Hc) as He1.
    destruct (createSubtree_child _ _ _ _ _ _ _ Hc) as [_ Hd].
    destruct (createSubtree_PatternEntryDeclScope _ _ _ _ _ _ _ _ _ Hc)
      as (_ & Hpu & (e & Hdu) & Hpd).
    split; [|by eapply Ext_trans].
    econstructor; [| | | |exact Hch]; eauto using Ext_dataOf, Ext_parentOf.
Qed.

Lemma createAttachedPropertyWrapperScope_Ext pb p (sc : ScopeCreator R) u sc' :
  createAttachedPropertyWrapperScope rec pb p sc = Some (u, sc') → Ext sc sc'.
Proof.
  intros Hr.
  by destruct (spec_createAttachedPropertyWrapperScope (P:=Ext) (Inv:=anyState)
                 (Good:=anyScopeIn) (New:=anyScope) _
                 (createSubtree_spec_Ext dsplit depth) [p] pb p
                 ltac:(apply list_elem_of_here) sc u sc' I ltac:(done) Hr).
Qed.

Lemma visitPatternBindingDecl_chain pb p s (sc : ScopeCreator R) r sc' :
  scopes sc !! p = Some s →
  visitPatternBindingDecl rec pb p sc = Some (r, sc') →
  let vis := if isATypeDeclScope (data s) then MemberOfCurrentNominal
             else LocalVariable in
  ∃ fin, entryChain (scopes sc') pb vis p (indices (getPatternList pb)) fin ∧
         r = if isATypeDeclScope (data s) then p else fin.
Proof.
  intros Hs. unfold visitPatternBindingDecl.
  intros (u & sc1 & Hw%createAttachedPropertyWrapperScope_Ext & Hrest)%bind_Some.
  apply bind_Some in Hrest as (b & sc2 & Hb & Hrest).
  unfold inTypeDecl, getData, bind, ret in Hb. injection Hb as <- <-.
  destruct Hw as [Hw _]. destruct (Hw _ _ Hs) as (s' & Hs' & Hd & _).
  rewrite Hs' in Hrest. simpl in Hrest. rewrite Hd in Hrest.
  apply bind_Some in Hrest as (fin & sc3 & Hl & [= <- <-]).
  apply entry_loop in Hl as [Hch _]. eauto.
Qed.

End Chain.

(** ** C1, C4, C5: the insertion point *)




(** The scopes of generic parameters come back as siblings: each
    [GenericParamScope] returns its parent, so the second is created under
    the same scope as the first. *)
Lemma genericParamScopes_are_siblings :
  ∃ sc',
    createGenericParamScopes (createSubtree (H:=exampleRanges) neverSplits 3)
      (mkInfo 480 (exampleRange 0 9) false) (Some [488; 496]) 0 exampleCreator
    = Some (0, sc') ∧
    parentOf (scopes sc') 1 = Some 0 ∧
    parentOf (scopes sc') 2 = Some 0.
Proof. vm_compute. eexists. done. Qed.

(** C4. A brace statement met among siblings hands the following siblings
    back to the insertion point that was current before it: the injection
    point is unchanged, the scope of the next sibling is created under it,
    and none of that scope's ancestors is a scope created while the block
    was processed. *)
Theorem C4_block_isolation {R} `{RangeOps R} dsplit depth bs nd2 d2
    (sc0 : ScopeCreator R) :
  4 * sizeNode (N_Stmt (S_Brace bs)) ≤ depth →
  parentsValid (scopes sc0) →
  newNodeInjectionPoint sc0 < length (scopes sc0) →
  getOpaqueValue (N_Stmt (S_Brace bs)) ∉ astDuplicates sc0 →
  ∃ sc1,
    addScopeToTree dsplit (createSubtree dsplit depth) (N_Stmt (S_Brace bs)) sc0
      = Some (tt, sc1) ∧
    newNodeInjectionPoint sc1 = newNodeInjectionPoint sc0 ∧
    ∀ sc2,
      directScope nd2 = Some d2 →
      getOpaqueValue nd2 ∉ astDuplicates sc1 →
      addScopeToTree dsplit (createSubtree dsplit depth) nd2 sc1 = Some (tt, sc2) →
      dataOf (scopes sc2) (length (scopes sc1)) = Some d2 ∧
      parentOf (scopes sc2) (length (scopes sc1))
        = Some (newNodeInjectionPoint sc0) ∧
      ∀ j, j ∈ ancestors (scopes sc2) (length (scopes sc1)) →
           j < length (scopes sc0).
Proof.
  intros Hdepth Hv Hip Hnot.
  destruct (addScopeToTree_total dsplit depth _ Hdepth sc0) as [[[] sc1] Hrun].
  exists sc1. split; [done|].
  destruct (addScopeToTree_child dsplit depth (N_Stmt (S_Brace bs)) _ _ _ _
              eq_refl Hnot Hrun) as (_ & _ & _ & Hsame).
  specialize (Hsame ltac:(done)). split; [done|].
  intros sc2 Hd2 Hnot2 Hrun2.
  destruct (addScopeToTree_child dsplit depth _ _ _ _ _ Hd2 Hnot2 Hrun2)
    as (Hdat & Hpar & _).
  rewrite Hsame in Hpar. split; [done|]. split; [done|].
  assert (Ext sc0 sc2) as He.
  { eapply Ext_trans.
    - by eapply addScopeToTree_Ext.
    - by eapply addScopeToTree_Ext. }
  intros j. unfold ancestors.
  destruct (length (scopes sc1)) as [|n] eqn:Hlen; simpl.
  { by intros ?%elem_of_nil. }
  rewrite Hpar. intros [->|Hj]%elem_of_cons; [done|].
  by eapply ancestorsFrom_old.
Qed.

Lemma C4_witness :
  ∃ sc1,
    addScopeToTree (H:=exampleRanges) neverSplits
      (createSubtree (H:=exampleRanges) neverSplits 60)
      (N_Stmt (S_Brace exampleBlock)) exampleCreator = Some (tt, sc1) ∧
    newNodeInjectionPoint sc1 = 0.
Proof.
  destruct (C4_block_isolation (H:=exampleRanges) neverSplits 60 exampleBlock
              N_Null ASTSourceFileScope exampleCreator)
    as (sc1 & Hrun & Hip & _).
  - vm_compute. lia.
  - intros i q. destruct i as [|i]; [|destruct i]; vm_compute; congruence.
  - vm_compute. lia.
  - vm_compute. set_solver.
  - exists sc1. split; [done|]. exact Hip.
Defined.

(** C5. A pattern binding chains one declaration scope and one use scope
    per entry, each entry under the use scope of the entry before it; what
    it returns is the use scope of the last entry, unless the parent is
    the scope of a nominal type or of an extension, in which case the
    chain is built all the same and the parent itself is returned. *)
Theorem C5_type_body_versus_block_chaining {R} `{RangeOps R} dsplit depth
    pb p s (sc : ScopeCreator R) :
  4 * S (sizePatternBinding pb) ≤ depth →
  scopes sc !! p = Some s →
  let vis := if isATypeDeclScope (data s) then MemberOfCurrentNominal
             else LocalVariable in
  ∃ r sc' fin,
    visitPatternBindingDecl (createSubtree dsplit depth) pb p sc = Some (r, sc') ∧
    entryChain (scopes sc') pb vis p (indices (getPatternList pb)) fin ∧
    r = if isATypeDeclScope (data s) then p else fin.
Proof.
  intros Hdepth Hs vis.
  destruct (total_visitPatternBindingDecl (R:=R) (createSubtree dsplit depth)
              depth (λ d p Hlt, createSubtree_total dsplit depth d p Hlt)
              pb p Hdepth sc) as [[r sc'] Hrun].
  destruct (visitPatternBindingDecl_chain _ _ _ _ _ _ _ _ Hs Hrun) as (fin & ? & ?).
  by exists r, sc', fin.
Qed.

Lemma C5_witness :
  (∃ sc',
     visitPatternBindingDecl (createSubtree (H:=exampleRanges) neverSplits 40)
       twoEntryBinding 0 exampleCreator = Some (4, sc')) ∧
  (∃ sc',
     visitPatternBindingDecl (createSubtree (H:=exampleRanges) neverSplits 40)
       twoEntryBinding 1 creatorInTypeBody = Some (1, sc')).
Proof.
  split.
  - destruct (C5_type_body_versus_block_chaining (H:=exampleRanges) neverSplits
                40 twoEntryBinding 0 (mkScope ASTSourceFileScope None [] None)
                exampleCreator)
      as (r & sc' & fin & Hrun & _ & _); [vm_compute; lia|reflexivity|].
    exists sc'. rewrite Hrun. vm_compute in Hrun. injection Hrun as <- _. done.
  - destruct (C5_type_body_versus_block_chaining (H:=exampleRanges) neverSplits
                40 twoEntryBinding 1
                (mkScope (GenericTypeOrExtensionScope IterableTypeBodyPortion
                            exampleStruct) (Some 0) [] None)
                creatorInTypeBody)
      as (r & sc' & fin & Hrun & _ & Hr); [vm_compute; lia|reflexivity|].
    exists sc'. rewrite Hrun. simpl in Hr. by rewrite Hr.
Defined.

(** ** What [shouldCreateScope] accepts *)

Lemma shouldCreateScope_false_iff n :
  shouldCreateScope n = false ↔
    n = N_Null ∨
    ∃ d, n = N_Decl d ∧
         (node_implicit (decl_info d) = true ∨
          (isa_PatternBindingDecl d = true ∧ zeroWidth (decl_info d))).
Proof.
  unfold zeroWidth. destruct n as [|e|s|d]; simpl.
  - split; [by left|done].
  - split; [done|]. intros [?|(? & ? & ?)]; done.
  - split; [done|]. intros [?|(? & ? & ?)]; done.
  - destruct (node_implicit (decl_info d)) eqn:Himp.
    + split; [|done]. intros _. right. exists d. by eauto.
    + unfold loc_eqb. destruct (isa_PatternBindingDecl d) eqn:Hpb; simpl.
      * case_bool_decide as Heq.
        -- split; [|done]. intros _. right. exists d. by eauto.
        -- split; [done|]. intros [?|(d' & [= <-] & [?|[_ ?]])]; congruence.
      * split; [done|].
        intros [?|(d' & [= <-] & [?|[? _]])]; congruence.
Qed.

Lemma createScopeFor_skip {R} `{RangeOps R} n :
  shouldCreateScope n = false → skippedEntirely n.
Proof.
  intros Hn dsplit rec p sc. unfold createScopeFor. by rewrite Hn.
Qed.

(** ** The closures of an expression *)

Lemma walk_reports n :
  (∀ e, sizeExpr e ≤ n → ∀ f, f ∈ walkExpr e → reportsExpr e f) ∧
  (∀ s, sizeStmt s ≤ n → ∀ f, f ∈ walkStmt s → reportsStmt s f) ∧
  (∀ c, sizeWalkChild c ≤ n → ∀ f, f ∈ walkChild c → reportsChild c f) ∧
  (∀ c, sizeNode c ≤ n → ∀ f, f ∈ walkNode c → reportsNode c f).
Proof.
  induction n as [|n (IHe & IHs & IHc & IHn)].
  { repeat split; intros x Hs f Hf; destruct x; simpl in *; try lia;
      by apply elem_of_nil in Hf. }
  repeat split.
  - intros [c|cl|i l] Hs f.
    + intros ->%list_elem_of_singleton. constructor.
    + intros ->%list_elem_of_singleton. constructor.
    + rewrite walkExpr_Other. intros (c & Hf & Hc)%list_elem_of_bind.
      pose proof (sum_list_with_elem sizeWalkChild _ _ Hc). simpl in *.
      econstructor; [done|]. apply IHc; [lia|done].
  - intros s Hs f. destruct s as [[i l]| | | | | | | | | | | | | |];
      try (by intros ?%elem_of_nil).
    rewrite walkStmt_Brace. intros (c & Hf & Hc)%list_elem_of_bind.
    pose proof (sum_list_with_elem sizeNode _ _ Hc). simpl in *.
    econstructor; [done|]. apply IHn; [lia|done].
  - intros [e|s| | | | |] Hs f; simpl in *; try (by intros ?%elem_of_nil).
    + intros Hf. constructor. apply IHe; [lia|done].
    + intros Hf. constructor. apply IHs; [lia|done].
  - intros [|e|s|] Hs f; simpl in *; try (by intros ?%elem_of_nil).
    + intros Hf. constructor. apply IHe; [lia|done].
    + intros Hf. constructor. apply IHs; [lia|done].
Qed.

Lemma reports_walk e f : reportsExpr e f → f ∈ walkExpr e.
Proof.
  revert e f.
  apply (reportsExpr_mut
           (λ e f _, f ∈ walkExpr e) (λ c f _, f ∈ walkChild c)
           (λ s f _, f ∈ walkStmt s) (λ n f _, f ∈ walkNode n)).
  - intros. apply list_elem_of_singleton. done.
  - intros. apply list_elem_of_singleton. done.
  - intros i l w f Hw _ IH. rewrite walkExpr_Other.
    apply list_elem_of_bind. eauto.
  - done.
  - done.
  - intros i l n f Hn _ IH. rewrite walkStmt_Brace.
    apply list_elem_of_bind. eauto.
  - done.
  - done.
Qed.

Lemma forEachClosureIn_reports e f :
  f ∈ forEachClosureIn e ↔ reportsExpr e f.
Proof.
  split; [|apply reports_walk].
  intros Hf. by eapply (proj1 (walk_reports (sizeExpr e))).
Qed.

Lemma addChildrenForCapturesAndClosuresIn_eq {R} `{RangeOps R}
    (rec : ScopeData → ScopePtr → M R ScopePtr) e p :
  addChildrenForCapturesAndClosuresIn rec e p
  = forEach (forEachClosureIn e) (addChildForClosure rec p).
Proof. reflexivity. Qed.

Lemma addChildForClosure_skip {R} `{RangeOps R}
    (rec : ScopeData → ScopePtr → M R ScopePtr) p f (sc : ScopeCreator R) :
  closure_self f.2 ∈ astDuplicates sc →
  addChildForClosure rec p f sc = Some (tt, sc).
Proof.
  intros Hin. unfold addChildForClosure, bind, isDuplicate. simpl.
  rewrite bool_decide_eq_true_2 by done. simpl.
  assert ({[closure_self f.2]} ∪ astDuplicates sc = astDuplicates sc)
    as ->.
  { apply subseteq_union_1_L. by apply singleton_subseteq_l. }
  by destruct sc.
Qed.

Lemma addChildForClosure_scoped {R} `{RangeOps R} dsplit depth p f
    (sc : ScopeCreator R) :
  depthNeeded (WholeClosureScope f.2 f.1) < depth →
  closure_self f.2 ∉ astDuplicates sc →
  ∃ sc', addChildForClosure (createSubtree dsplit depth) p f sc = Some (tt, sc') ∧
         dataOf (scopes sc') (length (scopes sc))
           = Some (WholeClosureScope f.2 f.1) ∧
         parentOf (scopes sc') (length (scopes sc)) = Some p ∧
         closure_self f.2 ∈ astDuplicates sc'.
Proof.
  intros Hd Hnot. unfold addChildForClosure, bind at 1, isDuplicate. simpl.
  rewrite bool_decide_eq_false_2 by done. simpl.
  set (sc0 := setDuplicates _ sc).
  destruct (createSubtree_total dsplit depth (WholeClosureScope f.2 f.1) p Hd sc0)
    as [[r sc'] Hr].
  exists sc'. unfold bind. rewrite Hr. simpl. split; [done|].
  destruct (createSubtree_child _ _ _ _ _ _ _ Hr) as [Hp Hdat].
  split; [done|]. split; [done|].
  apply createSubtree_Ext in Hr as [_ Hsub]. apply Hsub. subst sc0. simpl.
  set_solver.
Qed.

(** C9 (amended). The closure walk reports exactly the closures reached
    through the children of expressions that are not closures and through
    the elements of brace statements: it enters no closure, no declaration,
    pattern, type representation or parameter list, and no statement other
    than a brace statement. [addChildrenForCapturesAndClosuresIn] then
    takes the reported closures one by one, in order: a closure that is not
    registered yet is registered and gets a [WholeClosureScope], with its
    capture list, as a child of the scope at hand; a closure that is
    registered already gets no scope and nothing changes. *)
Theorem C9_restricted_closure_walk {R} `{RangeOps R} dsplit depth
    (e : Expr) (p : ScopePtr) :
  (∀ f, f ∈ forEachClosureIn e ↔ reportsExpr e f) ∧
  addChildrenForCapturesAndClosuresIn (createSubtree dsplit depth) e p
  = forEach (forEachClosureIn e)
            (addChildForClosure (createSubtree dsplit depth) p) ∧
  (∀ f (sc : ScopeCreator R),
     depthNeeded (WholeClosureScope f.2 f.1) < depth →
     closure_self f.2 ∉ astDuplicates sc →
     ∃ sc', addChildForClosure (createSubtree dsplit depth) p f sc
              = Some (tt, sc') ∧
            dataOf (scopes sc') (length (scopes sc))
              = Some (WholeClosureScope f.2 f.1) ∧
            parentOf (scopes sc') (length (scopes sc)) = Some p ∧
            closure_self f.2 ∈ astDuplicates sc') ∧
  (∀ f (sc : ScopeCreator R),
     closure_self f.2 ∈ astDuplicates sc →
     addChildForClosure (createSubtree dsplit depth) p f sc = Some (tt, sc)).
Proof.
  split; [apply forEachClosureIn_reports|].
  split; [reflexivity|].
  split.
  - intros. by apply addChildForClosure_scoped.
  - intros. by apply addChildForClosure_skip.
Qed.

Lemma C9_witness :
  ∃ sc', addChildForClosure (H:=exampleRanges)
           (createSubtree (H:=exampleRanges) neverSplits 20) 0
           (None, exampleClosure) exampleCreator = Some (tt, sc') ∧
         dataOf (scopes sc') 1 = Some (WholeClosureScope exampleClosure None) ∧
         parentOf (scopes sc') 1 = Some 0.
Proof.
  destruct (C9_restricted_closure_walk (H:=exampleRanges) neverSplits 20
              (E_Closure exampleClosure) 0) as (_ & _ & Hnew & _).
  destruct (Hnew (None, exampleClosure) exampleCreator)
    as (sc' & Hrun & Hd & Hp & _).
  - vm_compute. lia.
  - simpl. apply not_elem_of_empty.
  - exists sc'. done.
Defined.

(** A closure behind a [return] in a block of the expression lies outside
    every closure, declaration, pattern, type representation and parameter
    list, and the walk does not report it. *)
Lemma C9_counterexample :
  outsideClosuresExpr closureBehindReturn (None, exampleClosure) ∧
  forEachClosureIn closureBehindReturn = [].
Proof.
  split; [|reflexivity].
  eapply outside_child; [apply list_elem_of_here|].
  eapply outside_W_Stmt; [apply list_elem_of_here|].
  eapply outside_W_Stmt; [apply list_elem_of_here|].
  apply outside_W_Expr, outside_closure.
Qed.

(** ** Encountering a node twice *)

Section Registered.
Context {R : Type} `{RangeOps R}.
Variable dsplit : ScopeData → bool.

Lemma addNewDeclsToTree_Ext depth decls (sc : ScopeCreator R) u sc' :
  addNewDeclsToTree dsplit depth decls sc = Some (u, sc') → Ext sc sc'.
Proof.
  intros Hr.
  by destruct (spec_addNewDeclsToTree (P:=Ext) (Inv:=anyState)
                 (Good:=anyScopeIn) (New:=anyScope) dsplit depth decls
                 _ _ _ I ltac:(done) Hr).
Qed.

Lemma extendedFrom_Ext (sc sc' : ScopeCreator R) :
  extendedFrom dsplit sc sc' → Ext sc sc'.
Proof.
  induction 1 as [|sc1 depth decls sc2 _ IH Hr]; [apply Ext_refl|].
  eapply Ext_trans; [done|]. by eapply addNewDeclsToTree_Ext.
Qed.

Lemma shouldThisNodeBeScopedWhenEncountered_eq nd (sc : ScopeCreator R) :
  isHandledSpecially nd = false →
  shouldThisNodeBeScopedWhenEncountered nd sc
  = Some (negb (bool_decide (getOpaqueValue nd ∈ astDuplicates sc)),
          setDuplicates ({[getOpaqueValue nd]} ∪ astDuplicates sc) sc).
Proof.
  intros Hs. unfold shouldThisNodeBeScopedWhenEncountered. by rewrite Hs.
Qed.

Lemma addScopeToTree_registers depth nd (sc : ScopeCreator R) u sc' :
  isHandledSpecially nd = false →
  addScopeToTree dsplit (createSubtree dsplit depth) nd sc = Some (u, sc') →
  getOpaqueValue nd ∈ astDuplicates sc'.
Proof.
  intros Hs Hr.
  destruct (decide (getOpaqueValue nd ∈ astDuplicates sc)) as [Hin|Hnot].
  - apply addScopeToTree_Ext in Hr as [_ Hsub]. by apply Hsub.
  - destruct (addScopeToTree_scoped _ _ _ _ _ _ Hs Hnot Hr)
      as (r & scb & Hc & ->).
    apply createScopeFor_Ext in Hc as [_ Hsub]. simpl. apply Hsub. simpl.
    apply elem_of_union_l, elem_of_singleton. done.
Qed.

Lemma forEach_addScopeToTree_registers depth l nd (sc : ScopeCreator R) u sc' :
  nd ∈ l → isHandledSpecially nd = false →
  forEach l (addScopeToTree dsplit (createSubtree dsplit depth)) sc
    = Some (u, sc') →
  getOpaqueValue nd ∈ astDuplicates sc'.
Proof.
  intros Hin Hs. revert sc. induction l as [|x l IH]; intros sc.
  { by apply elem_of_nil in Hin. }
  simpl. intros (v & sc1 & Hx & Hl)%bind_Some.
  apply elem_of_cons in Hin as [->|Hin]; [|by eapply IH].
  apply addScopeToTree_registers in Hx; [|done].
  assert (Ext sc1 sc') as [_ Hsub]; [|by apply Hsub].
  clear -Hl. revert sc1 Hl. induction l as [|y l IH]; intros sc1; simpl.
  - intros [= <- <-]. apply Ext_refl.
  - intros (v & sc2 & Hy%addScopeToTree_Ext & Hl)%bind_Some.
    eapply Ext_trans; [done|]. by eapply IH.
Qed.

Lemma addNewDeclsToTree_registers depth decls d (sc : ScopeCreator R) u sc' :
  d ∈ drop (numberOfDeclsAlreadySeen sc) decls →
  isHandledSpecially (N_Decl d) = false →
  addNewDeclsToTree dsplit depth decls sc = Some (u, sc') →
  getOpaqueValue (N_Decl d) ∈ astDuplicates sc'.
Proof.
  intros Hin Hs. unfold addNewDeclsToTree, bind at 1, get.
  intros (v & sc1 & Hr & [= <- <-])%bind_Some. simpl.
  revert Hr. unfold addScopesToTree.
  case_bool_decide as Hnil.
  { apply fmap_nil_inv in Hnil. rewrite Hnil in Hin. by apply elem_of_nil in Hin. }
  unfold bind at 1, get, ensureSourceRangesAreCorrectWhenAddingDescendants.
  unfold bind at 1, modify.
  intros (w & sc2 & Hl & [= <- <-])%bind_Some. simpl.
  eapply (forEach_addScopeToTree_registers _ _ (N_Decl d)) in Hl; [done| |done].
  by apply list_elem_of_fmap_2.
Qed.

End Registered.

(** ** The shape of the tree *)

Lemma allocChild_lookup {R} d p (sc : ScopeCreator R) i :
  p < length (scopes sc) →
  scopes (allocChild d p sc) !! i
  = if decide (i = length (scopes sc)) then Some (mkScope d (Some p) [] None)
    else (λ s, if decide (p = i) then pushChild (length (scopes sc)) s else s)
           <$> scopes sc !! i.
Proof.
  intros Hp. unfold allocChild, setScopes; cbn [scopes].
  destruct (decide (i = length (scopes sc))) as [->|Hne].
  - rewrite list_lookup_alter_eq, list_lookup_alter_ne by lia.
    rewrite lookup_app_r, Nat.sub_diag by done. done.
  - rewrite list_lookup_alter_ne by done.
    destruct (decide (p = i)) as [->|Hpi].
    + rewrite list_lookup_alter_eq, lookup_app_l by done.
      by destruct (scopes sc !! i).
    + rewrite list_lookup_alter_ne by done.
      destruct (decide (i < length (scopes sc))).
      * rewrite lookup_app_l by done. by destruct (scopes sc !! i).
      * rewrite !lookup_ge_None_2; [done|lia|rewrite length_app; simpl; lia].
Qed.

Lemma parentOf_allocChild {R} d p (sc : ScopeCreator R) i :
  p < length (scopes sc) →
  parentOf (scopes (allocChild d p sc)) i
  = if decide (i = length (scopes sc)) then Some p else parentOf (scopes sc) i.
Proof.
  intros Hp. unfold parentOf. rewrite allocChild_lookup by done.
  destruct (decide (i = _)); [done|].
  destruct (scopes sc !! i) as [s|]; [|done]. simpl. by destruct (decide (p = i)).
Qed.

Lemma childrenOf_allocChild {R} d p (sc : ScopeCreator R) i :
  p < length (scopes sc) →
  childrenOf (scopes (allocChild d p sc)) i
  = childrenOf (scopes sc) i ++ (if decide (i = p) then [length (scopes sc)] else []).
Proof.
  intros Hp. unfold childrenOf. rewrite allocChild_lookup by done.
  destruct (decide (i = length _)) as [->|Hne].
  - rewrite lookup_ge_None_2 by lia. simpl. rewrite decide_False by lia. done.
  - destruct (scopes sc !! i) as [s|] eqn:Hs; simpl.
    + destruct (decide (p = i)) as [->|]; [by rewrite decide_True|].
      rewrite decide_False by done. by rewrite app_nil_r.
    + destruct (decide (i = p)) as [->|]; [|done].
      apply lookup_ge_None_1 in Hs. lia.
Qed.

Lemma patternScope_allocChild {R} d p (sc : ScopeCreator R) i s :
  p < length (scopes sc) →
  scopes (allocChild d p sc) !! i = Some s →
  statementConditionElementPatternScope s = None ∨
  ∃ s0, scopes sc !! i = Some s0 ∧
        statementConditionElementPatternScope s
        = statementConditionElementPatternScope s0.
Proof.
  intros Hp. rewrite allocChild_lookup by done.
  destruct (decide (i = _)); [intros [= <-]; by left|].
  destruct (scopes sc !! i) as [s0|]; [|done]. simpl. intros [= <-]. right.
  exists s0. split; [done|]. by destruct (decide (p = i)).
Qed.

Lemma parentOf_lt {R} (sc : ScopeCreator R) i q :
  parentOf (scopes sc) i = Some q → i < length (scopes sc).
Proof.
  unfold parentOf. destruct (scopes sc !! i) eqn:Hs; [|done].
  intros _. by eapply lookup_lt_Some.
Qed.

Lemma wellFormed_allocChild {R} d p (sc : ScopeCreator R) :
  wellFormed sc → p < length (scopes sc) → wellFormed (allocChild d p sc).
Proof.
  intros [Hb Hc Hl Hh Hpat Hip] Hp. split.
  - intros i q. rewrite parentOf_allocChild by done.
    destruct (decide (i = _)) as [->|]; [intros [= <-]; done|apply Hb].
  - intros q c. rewrite childrenOf_allocChild, parentOf_allocChild by done.
    intros [Hin|Hin]%elem_of_app.
    + pose proof (parentOf_lt _ _ _ (Hc _ _ Hin)).
      rewrite decide_False by lia. by apply Hc.
    + destruct (decide (q = p)) as [->|]; [|by apply elem_of_nil in Hin].
      apply list_elem_of_singleton in Hin as ->. by rewrite decide_True.
  - intros q c. rewrite childrenOf_allocChild, parentOf_allocChild by done.
    destruct (decide (c = _)) as [->|].
    + intros [= <-]. apply elem_of_app. right. rewrite decide_True by done.
      apply list_elem_of_here.
    + intros Hq. apply elem_of_app. left. by apply Hl.
  - intros i. rewrite allocChild_length, parentOf_allocChild by done.
    intros Hi. destruct (decide (i = _)); [done|]. apply Hh. lia.
  - intros q s x Hs Hx.
    destruct (patternScope_allocChild _ _ _ _ _ Hp Hs) as [Hn|(s0 & Hs0 & Heq)];
      [congruence|].
    eapply Hpat; [done|congruence].
  - rewrite allocChild_length. simpl. lia.
Qed.

Lemma wellFormed_same {R} (sc sc' : ScopeCreator R) :
  scopes sc' = scopes sc →
  newNodeInjectionPoint sc' = newNodeInjectionPoint sc →
  wellFormed sc → wellFormed sc'.
Proof.
  intros Hs Hi [Hb Hc Hl Hh Hpat Hip]. split; rewrite ?Hs, ?Hi; done.
Qed.

Lemma wellFormed_setPatternScope {R} this (sc : ScopeCreator R) :
  wellFormed sc →
  wellFormed (setScopes (alter (setPatternScope this) this (scopes sc)) sc).
Proof.
  intros [Hb Hc Hl Hh Hpat Hip].
  assert (∀ i, parentOf (alter (setPatternScope this) this (scopes sc)) i
               = parentOf (scopes sc) i) as Hpar.
  { intros i. unfold parentOf. destruct (decide (this = i)) as [->|].
    - rewrite list_lookup_alter_eq. by destruct (scopes sc !! i).
    - by rewrite list_lookup_alter_ne. }
  assert (∀ i, childrenOf (alter (setPatternScope this) this (scopes sc)) i
               = childrenOf (scopes sc) i) as Hch.
  { intros i. unfold childrenOf. destruct (decide (this = i)) as [->|].
    - rewrite list_lookup_alter_eq. by destruct (scopes sc !! i).
    - by rewrite list_lookup_alter_ne. }
  split; simpl.
  - intros i q. rewrite Hpar. apply Hb.
  - intros p c. rewrite Hch, Hpar. apply Hc.
  - intros p c. rewrite Hch, Hpar. apply Hl.
  - intros i. rewrite length_alter, Hpar. apply Hh.
  - intros p s q. destruct (decide (this = p)) as [->|].
    + rewrite list_lookup_alter_eq. destruct (scopes sc !! p); [|done].
      simpl. intros [= <-]. simpl. congruence.
    + rewrite list_lookup_alter_ne by done. apply Hpat.
  - by rewrite length_alter.
Qed.

#[export] Instance wellFormed_laws {R} `{RangeOps R} :
  Laws (R:=R) Ext wellFormed inScopes anyScope.
Proof.
  split.
  - apply Ext_refl.
  - apply Ext_trans.
  - intros p sc sc' He%Ext_length. unfold inScopes. lia.
  - intros d p sc Hw Hp. split; [apply Ext_allocChild|].
    split; [by apply wellFormed_allocChild|].
    unfold inScopes. rewrite allocChild_length. split; [lia|done].
  - intros sc this q Hw _ Ht Hq. apply (wf_parent_before _ Hw) in Hq.
    unfold inScopes in *. lia.
  - intros p r sc Hw _. simpl. split; [by apply Ext_same|].
    by apply (wellFormed_same sc).
  - intros p sc Hw _. simpl. split; [by apply Ext_same|].
    by apply (wellFormed_same sc).
  - intros p sc Hw _. simpl. split; [by apply Ext_same|].
    by apply (wellFormed_same sc).
  - intros p sc Hw _. simpl. split; [by apply Ext_same|].
    by apply (wellFormed_same sc).
  - intros x sc Hw. simpl. split; [|by apply (wellFormed_same sc)].
    apply Ext_same; [done|]. simpl. apply union_subseteq_r.
  - intros p sc Hw Hp. split; [by apply Ext_same|].
    destruct Hw. by split.
  - intros this sc Hw _. simpl. split; [|by apply wellFormed_setPatternScope].
    apply Ext_alter. done.
  - intros n sc Hw. split; [by apply Ext_same|]. by apply (wellFormed_same sc).
  - intros sc Hw. apply (wf_injection_point _ Hw).
  - intros sc p s q Hw Hp Hs Hq. by rewrite (wf_pattern _ Hw _ _ _ Hs Hq).
Qed.

(** ** Ancestors and descendants *)

Section Ancestors.
Variable a : Arena.
Hypothesis parent_before : ∀ i q, parentOf a i = Some q → q < i.

Lemma ancestorsFrom_enough k1 k2 p :
  p ≤ k1 → p ≤ k2 → ancestorsFrom k1 a p = ancestorsFrom k2 a p.
Proof.
  revert k2 p. induction k1 as [|k1 IH]; intros k2 p H1 H2.
  - assert (p = 0) as -> by lia. destruct k2 as [|k2]; [done|]. simpl.
    destruct (parentOf a 0) as [q|] eqn:Hq; [|done].
    apply parent_before in Hq. lia.
  - destruct k2 as [|k2].
    + assert (p = 0) as -> by lia. simpl.
      destruct (parentOf a 0) as [q|] eqn:Hq; [|done].
      apply parent_before in Hq. lia.
    + simpl. destruct (parentOf a p) as [q|] eqn:Hq; [|done].
      apply parent_before in Hq. f_equal. apply IH; lia.
Qed.

Lemma ancestors_parent p q :
  parentOf a p = Some q → ancestors a p = q :: ancestors a q.
Proof.
  intros Hq. pose proof (parent_before _ _ Hq) as Hlt. unfold ancestors.
  destruct p as [|p]; [lia|]. simpl. rewrite Hq. f_equal.
  apply ancestorsFrom_enough; lia.
Qed.

Lemma ancestors_root p : parentOf a p = None → ancestors a p = [].
Proof. intros Hq. unfold ancestors. destruct p; simpl; by rewrite ?Hq. Qed.

Lemma ancestors_lt p q : q ∈ ancestors a p → q < p.
Proof.
  revert q. induction (lt_wf p) as [p _ IH]. intros q.
  destruct (parentOf a p) as [x|] eqn:Hx.
  - rewrite (ancestors_parent _ _ Hx). pose proof (parent_before _ _ Hx).
    intros [->|Hq]%elem_of_cons; [done|]. apply IH in Hq; lia.
  - rewrite (ancestors_root _ Hx). by intros ?%elem_of_nil.
Qed.

Lemma ancestors_trans p q x :
  q ∈ ancestors a p → x ∈ ancestors a q → x ∈ ancestors a p.
Proof.
  induction (lt_wf p) as [p _ IH]. 
  destruct (parentOf a p) as [y|] eqn:Hy.
  - rewrite (ancestors_parent _ _ Hy). pose proof (parent_before _ _ Hy).
    intros [->|Hq]%elem_of_cons Hx; [by right|]. right. by apply IH.
  - rewrite (ancestors_root _ Hy). by intros ?%elem_of_nil.
Qed.

Lemma ancestors_parent_in p q : parentOf a p = Some q → q ∈ ancestors a p.
Proof. intros Hq. rewrite (ancestors_parent _ _ Hq). left. Qed.

(** The ancestors of a scope are closed under taking the parent. *)
Lemma ancestors_closed p q x :
  q ∈ ancestors a p → parentOf a q = Some x → x ∈ ancestors a p.
Proof.
  intros Hq Hx. eapply ancestors_trans; [done|]. by apply ancestors_parent_in.
Qed.

Lemma isDescendantOrSelf_refl p : isDescendantOrSelf a p p = true.
Proof. unfold isDescendantOrSelf. by rewrite bool_decide_eq_true_2. Qed.

Lemma isDescendantOrSelf_spec top p :
  isDescendantOrSelf a top p = true ↔ p = top ∨ top ∈ ancestors a p.
Proof.
  unfold isDescendantOrSelf. rewrite orb_true_iff, !bool_decide_eq_true. done.
Qed.

Lemma isDescendantOrSelf_parent top p q :
  parentOf a p = Some q → isDescendantOrSelf a top q = true →
  isDescendantOrSelf a top p = true.
Proof.
  rewrite !isDescendantOrSelf_spec. intros Hq [->|Hin]; right.
  - by apply ancestors_parent_in.
  - eapply ancestors_trans; [by apply ancestors_parent_in|done].
Qed.

(** The parent of a proper descendant is a descendant, or the top itself. *)
Lemma isDescendantOrSelf_up top p q :
  isDescendantOrSelf a top p = true → p ≠ top → parentOf a p = Some q →
  isDescendantOrSelf a top q = true.
Proof.
  rewrite !isDescendantOrSelf_spec. intros [->|Hin] Hne Hq; [done|].
  rewrite (ancestors_parent _ _ Hq) in Hin.
  apply elem_of_cons in Hin as [->|Hin]; [by left|by right].
Qed.

Lemma isDescendantOrSelf_le top p :
  isDescendantOrSelf a top p = true → top ≤ p.
Proof.
  rewrite isDescendantOrSelf_spec. intros [->|Hin%ancestors_lt]; lia.
Qed.

Lemma isDescendantOrSelf_trans top p q :
  isDescendantOrSelf a top p = true → isDescendantOrSelf a p q = true →
  isDescendantOrSelf a top q = true.
Proof.
  rewrite !isDescendantOrSelf_spec. intros [->|H1] [->|H2]; eauto.
  right. by eapply ancestors_trans.
Qed.

End Ancestors.

(** Arenas with the same parents have the same ancestors. *)
Lemma ancestors_agree (a a' : Arena) p :
  (∀ i q, parentOf a i = Some q → q < i) →
  (∀ i q, parentOf a' i = Some q → q < i) →
  (∀ i, i ≤ p → parentOf a' i = parentOf a i) →
  ancestors a' p = ancestors a p.
Proof.
  intros Hb Hb'. induction (lt_wf p) as [p _ IH]. intros Heq.
  destruct (parentOf a p) as [q|] eqn:Hq.
  - rewrite (ancestors_parent a Hb _ _ Hq).
    rewrite (ancestors_parent a' Hb' p q) by (rewrite Heq; done).
    pose proof (Hb _ _ Hq). f_equal. apply IH; [done|].
    intros i Hi. apply Heq. lia.
  - rewrite (ancestors_root a _ Hq), (ancestors_root a' p); [done|].
    by rewrite Heq.
Qed.

(** ** Ranges *)

Lemma rangeContains_refl r : rangeContains r r.
Proof. split; intros x Hx; exists x; done. Qed.

Lemma rangeContains_trans r1 r2 r3 :
  rangeContains r1 r2 → rangeContains r2 r3 → rangeContains r1 r3.
Proof.
  intros [H1s H1e] [H2s H2e]. split; intros x Hx.
  - destruct (H2s _ Hx) as (y & Hy & ?). destruct (H1s _ Hy) as (z & Hz & ?).
    exists z. split; [done|lia].
  - destruct (H2e _ Hx) as (y & Hy & ?). destruct (H1e _ Hy) as (z & Hz & ?).
    exists z. split; [done|lia].
Qed.

Lemma rangeContains_widen_l r1 r2 : rangeContains (widenRange r1 r2) r1.
Proof.
  split; intros x Hx; simpl; rewrite Hx; unfold locMin, locMax.
  - destruct (Start r2) as [y|]; simpl; eexists; (split; [done|lia]).
  - destruct (End r2) as [y|]; simpl; eexists; (split; [done|lia]).
Qed.

Lemma rangeContains_widen_r r1 r2 : rangeContains (widenRange r1 r2) r2.
Proof.
  split; intros x Hx; simpl; rewrite Hx; unfold locMin, locMax.
  - destruct (Start r1) as [y|]; simpl; eexists; (split; [done|lia]).
  - destruct (End r1) as [y|]; simpl; eexists; (split; [done|lia]).
Qed.

Lemma foldl_widenRange_base b l : rangeContains (foldl widenRange b l) b.
Proof.
  revert b. induction l as [|r l IH]; intros b; simpl.
  - apply rangeContains_refl.
  - eapply rangeContains_trans; [apply IH|apply rangeContains_widen_l].
Qed.

Lemma foldl_widenRange_elem b l r :
  r ∈ l → rangeContains (foldl widenRange b l) r.
Proof.
  revert b. induction l as [|r' l IH]; intros b; [by intros ?%elem_of_nil|].
  simpl. intros [->|Hin]%elem_of_cons; [|by apply IH].
  eapply rangeContains_trans; [apply foldl_widenRange_base|].
  apply rangeContains_widen_r.
Qed.

Section RangeFacts.
Variable childlessRange : ScopeData → SourceRange.

Local Abbreviation computeRange' := (computeRange childlessRange).
Local Abbreviation recompute' := (recompute childlessRange).
Local Abbreviation upToDate' := (upToDate childlessRange).

(** The range computed for a scope covers the cached range of each of its
    children. *)
Lemma computeRange_contains_child a rc p c r :
  c ∈ childrenOf a p → cachedSourceRange rc !! c = Some r →
  rangeContains (computeRange' a rc p) r.
Proof.
  intros Hc Hr. unfold computeRange. apply foldl_widenRange_elem.
  apply list_elem_of_omap. eauto.
Qed.

(** The range computed for a scope depends on the scope, its ignored nodes
    and the cached ranges of its children only. *)
Lemma computeRange_ext a rc a' rc' p :
  a' !! p = a !! p →
  sourceRangeOfIgnoredASTNodes rc' !! p = sourceRangeOfIgnoredASTNodes rc !! p →
  (∀ c, c ∈ childrenOf a p →
        cachedSourceRange rc' !! c = cachedSourceRange rc !! c) →
  computeRange' a' rc' p = computeRange' a rc p.
Proof.
  intros Ha Hi Hc. unfold computeRange, childrenOf. rewrite Ha, Hi. f_equal.
  apply list_omap_ext, Forall_Forall2_diag, Forall_forall.
  intros c Hin. by apply Hc.
Qed.

Lemma recompute_cached a rc p q :
  cachedSourceRange (recompute' a rc p) !! q
  = if decide (q = p) then Some (computeRange' a rc p)
    else cachedSourceRange rc !! q.
Proof.
  unfold recompute. simpl. destruct (decide (q = p)) as [->|].
  - by rewrite lookup_insert_eq.
  - by rewrite lookup_insert_ne.
Qed.

Lemma recompute_ignored a rc p :
  sourceRangeOfIgnoredASTNodes (recompute' a rc p)
  = sourceRangeOfIgnoredASTNodes rc.
Proof. done. Qed.

Lemma foldl_recompute_ignored a rc l :
  sourceRangeOfIgnoredASTNodes (foldl (recompute' a) rc l)
  = sourceRangeOfIgnoredASTNodes rc.
Proof. revert rc. induction l as [|p l IH]; intros rc; simpl; [done|]. by rewrite IH. Qed.

Lemma foldl_recompute_cached_other a rc l q :
  q ∉ l →
  cachedSourceRange (foldl (recompute' a) rc l) !! q = cachedSourceRange rc !! q.
Proof.
  revert rc. induction l as [|p l IH]; intros rc Hq; simpl; [done|].
  apply not_elem_of_cons in Hq as [Hne Hq]. rewrite IH by done.
  rewrite recompute_cached. by rewrite decide_False.
Qed.

(** Recomputing [p] brings [p] up to date, and leaves up to date every
    scope that does not have [p] as a child. *)
Lemma recompute_upToDate a rc p q :
  p ∉ childrenOf a q →
  q = p ∨ upToDate' a rc q →
  upToDate' a (recompute' a rc p) q.
Proof.
  intros Hnc Hq. unfold upToDate. rewrite recompute_cached.
  assert (computeRange' a (recompute' a rc p) q = computeRange' a rc q) as ->.
  { apply computeRange_ext; [done|done|]. intros c Hc. rewrite recompute_cached.
    rewrite decide_False; [done|]. by intros ->. }
  destruct (decide (q = p)) as [->|Hne]; [done|]. by destruct Hq.
Qed.

(** Recomputing the scopes of [l] in order brings them up to date, when no
    scope of [l] is a child of a scope recomputed before it or of a scope
    of [S], the scopes that are up to date already. *)
Lemma foldl_recompute_upToDate a (S : ScopePtr → Prop) l rc :
  (∀ p, p ∉ childrenOf a p) →
  (∀ l1 p l2 q, l = l1 ++ p :: l2 → S q ∨ q ∈ l1 → p ∉ childrenOf a q) →
  (∀ q, S q → upToDate' a rc q) →
  ∀ q, S q ∨ q ∈ l → upToDate' a (foldl (recompute' a) rc l) q.
Proof.
  intros Hirr. revert S rc. induction l as [|p l IH]; intros S rc Hord Hup q.
  { intros [Hq|Hq%elem_of_nil]; [by apply Hup|done]. }
  simpl. intros Hq.
  apply (IH (λ x, S x ∨ x = p)).
  - intros l1 x l2 y -> [[Hy| ->]|Hy].
    + apply (Hord (p :: l1) x l2); [done|by left].
    + apply (Hord (p :: l1) x l2); [done|]. right. left.
    + apply (Hord (p :: l1) x l2); [done|]. right. by right.
  - intros y [Hy| ->].
    + apply recompute_upToDate; [|right; by apply Hup].
      apply (Hord [] p l); [done|by left].
    + apply recompute_upToDate; [apply Hirr|by left].
  - destruct Hq as [Hq|[->|Hq]%elem_of_cons]; auto.
Qed.

End RangeFacts.

(** ** Adding siblings leaves the rest of the tree alone *)

Lemma foldl_delete_lookup (m : gmap ScopePtr SourceRange) l i :
  i ∉ l → foldl (λ m q, delete q m) m l !! i = m !! i.
Proof.
  revert m. induction l as [|q l IH]; intros m Hi; simpl; [done|].
  apply not_elem_of_cons in Hi as [Hne Hi]. rewrite IH by done.
  by rewrite lookup_delete_ne.
Qed.

Section Frame.
Variable childlessRange : ScopeData → SourceRange.
Variable sc0 : ScopeCreator RangeCache.
Hypothesis wf0 : wellFormed sc0.

Local Abbreviation a0 := (scopes sc0).
Local Abbreviation ip0 := (newNodeInjectionPoint sc0).
Local Abbreviation inRegion :=
  (λ x, below sc0 x ∨ x ∈ ancestors (scopes sc0) (newNodeInjectionPoint sc0)).

Lemma outside_not_region i : outside sc0 i → ¬ inRegion i.
Proof.
  intros (Hlt & Hd & Ha) [[Hge|Hb]|Hin]; [lia|congruence|done].
Qed.

Lemma region_or_outside i : i < length a0 → inRegion i ∨ outside sc0 i.
Proof.
  intros Hi. destruct (isDescendantOrSelf a0 ip0 i) eqn:Hd.
  { left. left. by right. }
  destruct (decide (i ∈ ancestors a0 ip0)); [by left; right|].
  right. done.
Qed.

Lemma framed_ancestors_old sc i :
  framed sc0 sc → i < length a0 → ancestors (scopes sc) i = ancestors a0 i.
Proof.
  intros Hf Hi. apply ancestors_agree.
  - apply (wf_parent_before _ wf0).
  - apply (wf_parent_before _ (fr_wellFormed _ _ Hf)).
  - intros j Hj. apply Ext_parentOf_old; [apply (fr_Ext _ _ Hf)|lia].
Qed.

Lemma framed_region_parent sc x q :
  framed sc0 sc → inRegion x → parentOf (scopes sc) x = Some q → inRegion q.
Proof.
  intros Hf Hx Hq.
  destruct (decide (length a0 ≤ x)) as [Hge|Hlt].
  { left. by eapply (fr_new_parents _ _ Hf). }
  rewrite (Ext_parentOf_old _ _ _ (fr_Ext _ _ Hf)) in Hq by lia.
  destruct Hx as [[?|Hd]|Hin]; [lia| |].
  - destruct (decide (x = ip0)) as [->|Hne].
    + right. by apply ancestors_parent_in; [apply (wf_parent_before _ wf0)|].
    + left. right.
      by eapply isDescendantOrSelf_up; [apply (wf_parent_before _ wf0)|..].
  - right. by eapply ancestors_closed; [apply (wf_parent_before _ wf0)|..].
Qed.

Lemma framed_region_ancestors sc p q :
  framed sc0 sc → inRegion p → q ∈ ancestors (scopes sc) p → inRegion q.
Proof.
  intros Hf. pose proof (wf_parent_before _ (fr_wellFormed _ _ Hf)) as Hb.
  revert q. induction (lt_wf p) as [p _ IH]. intros q Hp.
  destruct (parentOf (scopes sc) p) as [x|] eqn:Hx.
  - rewrite (ancestors_parent _ Hb _ _ Hx).
    pose proof (framed_region_parent _ _ _ Hf Hp Hx) as Hrx.
    intros [->|Hq]%elem_of_cons; [done|].
    eapply IH; [by apply Hb|done|done].
  - rewrite (ancestors_root _ _ Hx). by intros ?%elem_of_nil.
Qed.

Lemma framed_below_descendant sc p q :
  framed sc0 sc → below sc0 p →
  isDescendantOrSelf (scopes sc) p q = true → below sc0 q.
Proof.
  intros Hf Hp Hd.
  destruct (decide (length a0 ≤ q)) as [Hge|Hlt]; [by left|].
  apply isDescendantOrSelf_spec in Hd as [->|Hin]; [done|].
  rewrite (framed_ancestors_old _ _ Hf) in Hin by lia.
  pose proof (ancestors_lt _ (wf_parent_before _ wf0) _ _ Hin).
  destruct Hp as [?|Hp]; [lia|]. right.
  eapply isDescendantOrSelf_trans; [apply (wf_parent_before _ wf0)|done|].
  apply isDescendantOrSelf_spec. by right.
Qed.

(** A change of the range cache away from the scopes outside. *)
Lemma framed_ranges sc rc :
  framed sc0 sc →
  (∀ i, outside sc0 i →
        cachedSourceRange rc !! i = cachedSourceRange (ranges sc) !! i ∧
        sourceRangeOfIgnoredASTNodes rc !! i
        = sourceRangeOfIgnoredASTNodes (ranges sc) !! i) →
  (∀ i, is_Some (cachedSourceRange rc !! i) → i < length (scopes sc)) →
  framed sc0 (setRanges rc sc).
Proof.
  intros [Hw He Ho Hn Hi Hc] Hrc Hrc'. split; simpl.
  - by apply (wellFormed_same sc).
  - eapply Ext_trans; [done|]. by apply Ext_same.
  - intros i Hout. destruct (Ho i Hout) as (? & Hc0 & Hg).
    destruct (Hrc i Hout) as (Hc' & Hg'). split; [done|]. simpl.
    rewrite Hc', Hg'. done.
  - done.
  - done.
  - done.
Qed.

Lemma framed_refl : below sc0 ip0 → cacheInScopes sc0 → framed sc0 sc0.
Proof.
  intros Hip Hc. split; [done|apply Ext_refl|done| |done|done].
  intros i q Hi Hq. apply parentOf_lt in Hq. lia.
Qed.

Lemma below_injection_point : below sc0 ip0.
Proof.
  right. apply isDescendantOrSelf_refl.
Qed.

Lemma framed_update sc sc' :
  framed sc0 sc → scopes sc' = scopes sc → ranges sc' = ranges sc →
  astDuplicates sc ⊆ astDuplicates sc' →
  newNodeInjectionPoint sc' < length (scopes sc) →
  below sc0 (newNodeInjectionPoint sc') →
  framed sc0 sc'.
Proof.
  intros [Hw He Ho Hn Hi Hc] Hs Hr Hd Hlt Hb. split.
  - destruct Hw. split; rewrite ?Hs; done.
  - eapply Ext_trans; [done|]. by apply Ext_same.
  - intros i Hout. rewrite Hs, Hr. by apply Ho.
  - intros i q. rewrite Hs. apply Hn.
  - done.
  - intros i. rewrite Hs, Hr. apply Hc.
Qed.

Lemma foldl_recompute_cached_valid (a : Arena) rc l i :
  (∀ q, q ∈ l → q < length a) →
  (∀ j, is_Some (cachedSourceRange rc !! j) → j < length a) →
  is_Some (cachedSourceRange (foldl (recompute childlessRange a) rc l) !! i) →
  i < length a.
Proof.
  revert rc. induction l as [|q l IH]; intros rc Hl Hrc; simpl; [apply Hrc|].
  apply IH.
  - intros x Hx. apply Hl. by right.
  - intros j. rewrite recompute_cached. destruct (decide (j = q)) as [->|].
    + intros _. apply Hl. left.
    + apply Hrc.
Qed.

Lemma foldl_delete_is_Some (m : gmap ScopePtr SourceRange) l i :
  is_Some (foldl (λ m q, delete q m) m l !! i) → is_Some (m !! i).
Proof.
  revert m. induction l as [|q l IH]; intros m; simpl; [done|].
  intros Hi%IH. destruct (decide (i = q)) as [->|].
  - rewrite lookup_delete_eq in Hi. by destruct Hi.
  - by rewrite lookup_delete_ne in Hi.
Qed.

Lemma parentOf_setPatternScope (a : Arena) this i :
  parentOf (alter (setPatternScope this) this a) i = parentOf a i.
Proof.
  unfold parentOf. destruct (decide (this = i)) as [->|].
  - rewrite list_lookup_alter_eq. by destruct (a !! i).
  - by rewrite list_lookup_alter_ne.
Qed.

Lemma framed_length sc : framed sc0 sc → length a0 ≤ length (scopes sc).
Proof. intros Hf. apply Ext_length, (fr_Ext _ _ Hf). Qed.

Lemma framed_laws :
  Laws (H:=specRanges childlessRange) Ext (framed sc0) (goodBelow sc0)
       (isNew sc0).
Proof.
  split.
  - apply Ext_refl.
  - apply Ext_trans.
  - intros p sc sc' He%Ext_length [Hp Hb]. split; [lia|done].
  - intros d p sc Hf [Hp Hb]. pose proof (framed_length _ Hf) as Hlen.
    split; [apply Ext_allocChild|]. split; [|split].
    + destruct Hf as [Hw He Ho Hn Hi Hc]. split.
      * by apply wellFormed_allocChild.
      * eapply Ext_trans; [done|apply Ext_allocChild].
      * intros i Hout. destruct (Ho i Hout) as (Hs & Hc0 & Hg).
        split; [|done]. rewrite allocChild_lookup by done.
        destruct Hout as (Hlt & Hout). rewrite decide_False by lia.
        rewrite <- Hs. destruct (scopes sc !! i) as [s|]; [|done]. simpl.
        rewrite decide_False; [done|]. intros ->.
        eapply outside_not_region; [split; [exact Hlt|exact Hout]|by left].
      * intros i q Hi'. rewrite parentOf_allocChild by done.
        destruct (decide (i = _)); [by intros [= <-]|by apply Hn].
      * done.
      * intros i Hi'%Hc. rewrite allocChild_length. lia.
    + split; [rewrite allocChild_length; lia|by left].
    + done.
  - intros sc this q Hf Hn [Ht Hb] Hq. split.
    + apply (wf_parent_before _ (fr_wellFormed _ _ Hf)) in Hq. lia.
    + by eapply (fr_new_parents _ _ Hf).
  - intros p r sc Hf [Hp Hb]. simpl. split; [by apply Ext_same|].
    apply framed_ranges; [done| |].
    + intros i Hout. simpl.
      assert (i ≠ p) as Hne.
      { intros ->. eapply outside_not_region; [done|by left]. }
      split; [by rewrite lookup_alter_ne|by rewrite lookup_insert_ne].
    + intros i. simpl. rewrite lookup_alter_is_Some. apply (fr_cache _ _ Hf).
  - intros p sc Hf [Hp Hb]. simpl. split; [by apply Ext_same|].
    apply framed_ranges; [done| |].
    + intros i Hout. simpl. split; [|done].
      rewrite foldl_delete_lookup, lookup_delete_ne; [done| |].
      * intros ->. eapply outside_not_region; [done|by left].
      * intros Hin. eapply outside_not_region; [done|].
        eapply framed_region_ancestors; [done| |done]. by left.
    + intros i Hi. apply (fr_cache _ _ Hf).
      by apply (foldl_delete_is_Some _ (p :: ancestors (scopes sc) p)).
  - intros p sc Hf [Hp Hb]. simpl. split; [by apply Ext_same|].
    apply framed_ranges; [done| |].
    + intros i Hout. simpl. unfold spec_cacheSourceRangesOfSlice.
      rewrite !foldl_recompute_ignored. split; [|done].
      rewrite !foldl_recompute_cached_other; [done| |].
      * intros (Hd & _)%list_elem_of_filter.
        eapply outside_not_region; [done|]. left.
        by eapply framed_below_descendant.
      * intros Hin. eapply outside_not_region; [done|].
        eapply framed_region_ancestors; [done| |done]. by left.
    + intros i. simpl. unfold spec_cacheSourceRangesOfSlice.
      rewrite <- foldl_app. apply foldl_recompute_cached_valid.
      * intros q [(_ & Hq%elem_of_reverse%elem_of_seq)%list_elem_of_filter
                 |Hq]%elem_of_app; [lia|].
        apply ancestors_lt in Hq;
          [lia|apply (wf_parent_before _ (fr_wellFormed _ _ Hf))].
      * apply (fr_cache _ _ Hf).
  - intros p sc Hf [Hp Hb]. simpl. split; [by apply Ext_same|].
    apply framed_ranges; [done| |].
    + intros i Hout. simpl. split; [|done].
      rewrite lookup_insert_ne; [done|].
      intros ->. eapply outside_not_region; [done|by left].
    + intros i. simpl. destruct (decide (i = p)) as [->|]; [done|].
      rewrite lookup_insert_ne by done. apply (fr_cache _ _ Hf).
  - intros x sc Hf. simpl.
    assert (astDuplicates sc ⊆ {[x]} ∪ astDuplicates sc) as Hsub
      by apply union_subseteq_r.
    split; [by apply Ext_same|].
    apply (framed_update sc); try done.
    + apply (wf_injection_point _ (fr_wellFormed _ _ Hf)).
    + apply (fr_injection_point _ _ Hf).
  - intros p sc Hf [Hp Hb]. split; [by apply Ext_same|].
    by apply (framed_update sc).
  - intros this sc Hf [Hp Hb]. simpl. split; [by apply Ext_alter|].
    destruct Hf as [Hw He Ho Hn Hi Hc]. split; simpl.
    + by apply wellFormed_setPatternScope.
    + eapply Ext_trans; [done|]. by apply Ext_alter.
    + intros i Hout. destruct (Ho i Hout) as (Hs & Hc0 & Hg).
      split; [|done]. simpl. rewrite list_lookup_alter_ne; [done|].
      intros ->. eapply outside_not_region; [done|by left].
    + intros i q. rewrite parentOf_setPatternScope. apply Hn.
    + done.
    + intros i Hi'%Hc. simpl. by rewrite length_alter.
  - intros n sc Hf. split; [by apply Ext_same|].
    apply (framed_update sc); try done.
    + apply (wf_injection_point _ (fr_wellFormed _ _ Hf)).
    + apply (fr_injection_point _ _ Hf).
  - intros sc Hf. split.
    + apply (wf_injection_point _ (fr_wellFormed _ _ Hf)).
    + apply (fr_injection_point _ _ Hf).
  - intros sc p s q Hf Hp Hs Hq.
    by rewrite (wf_pattern _ (fr_wellFormed _ _ Hf) _ _ _ Hs Hq).
Qed.

End Frame.

(** ** Recomputing the ranges after siblings were added *)

Lemma sorted_reverse_seq n : StronglySorted (λ x y, y < x) (reverse (seq 0 n)).
Proof.
  induction n as [|n IH]; [constructor|].
  rewrite seq_S, reverse_app. simpl. constructor; [done|].
  apply Forall_forall. intros y Hy%elem_of_reverse%elem_of_seq. lia.
Qed.

Lemma sorted_filter {A} (R : relation A) (P : A → Prop)
    `{∀ x, Decision (P x)} l :
  StronglySorted R l → StronglySorted R (filter P l).
Proof.
  induction 1 as [|x l Hs IH Hx]; [constructor|].
  rewrite filter_cons. destruct (decide (P x)); [|done].
  constructor; [done|]. apply Forall_forall. intros y Hy%list_elem_of_filter.
  rewrite Forall_forall in Hx. apply Hx. tauto.
Qed.

Lemma sorted_ancestors (a : Arena) p :
  (∀ i q, parentOf a i = Some q → q < i) →
  StronglySorted (λ x y, y < x) (ancestors a p).
Proof.
  intros Hb. induction (lt_wf p) as [p _ IH].
  destruct (parentOf a p) as [q|] eqn:Hq.
  - rewrite (ancestors_parent _ Hb _ _ Hq). constructor.
    + apply IH. by apply Hb.
    + apply Forall_forall. intros y Hy. by eapply ancestors_lt.
  - rewrite (ancestors_root _ _ Hq). constructor.
Qed.

(** The scopes that [cacheSourceRangesOfSlice] recomputes, in order: from
    the last allocated one down. *)
Lemma sorted_slice (a : Arena) p :
  (∀ i q, parentOf a i = Some q → q < i) →
  StronglySorted (λ x y, y < x) (sliceBottomUp a p ++ ancestors a p).
Proof.
  intros Hb. apply StronglySorted_app_2.
  - intros x y (Hx & _)%list_elem_of_filter Hy.
    apply isDescendantOrSelf_le in Hx; [|done].
    apply ancestors_lt in Hy; [|done]. lia.
  - apply sorted_filter, sorted_reverse_seq.
  - by apply sorted_ancestors.
Qed.

Lemma elem_of_sliceBottomUp (a : Arena) p i :
  i ∈ sliceBottomUp a p ↔ isDescendantOrSelf a p i = true ∧ i < length a.
Proof.
  unfold sliceBottomUp. rewrite list_elem_of_filter, elem_of_reverse, elem_of_seq.
  split; intros [? ?]; (split; [done|lia]).
Qed.

Section Recompute.
Variable childlessRange : ScopeData → SourceRange.
Variable sc0 : ScopeCreator RangeCache.
Hypothesis wf0 : wellFormed sc0.

Local Abbreviation a0 := (scopes sc0).
Local Abbreviation ip0 := (newNodeInjectionPoint sc0).

Lemma outside_children i c :
  outside sc0 i → c ∈ childrenOf a0 i → outside sc0 c.
Proof.
  intros (Hi & Hd & Ha) Hc. pose proof (wf_parent_before _ wf0) as Hb.
  apply (wf_children _ wf0) in Hc. split; [by eapply parentOf_lt|]. split.
  - destruct (isDescendantOrSelf a0 ip0 c) eqn:Hdc; [|done].
    destruct (decide (c = ip0)) as [->|Hne].
    + destruct Ha. by apply ancestors_parent_in.
    + rewrite (isDescendantOrSelf_up _ Hb _ _ _ Hdc Hne Hc) in Hd. done.
  - intros Hin. apply Ha. by eapply ancestors_closed.
Qed.

(** Every scope allocated since [sc0] lies below the injection point of
    [sc0]. *)
Lemma framed_new_descendant sc i :
  framed sc0 sc → length a0 ≤ i → i < length (scopes sc) →
  isDescendantOrSelf (scopes sc) ip0 i = true.
Proof.
  intros Hf. pose proof (wf_parent_before _ (fr_wellFormed _ _ Hf)) as Hb.
  pose proof (wf_injection_point _ wf0) as Hip0.
  induction (lt_wf i) as [i _ IH]. intros Hge Hlt.
  destruct (wf_has_parent _ (fr_wellFormed _ _ Hf) i) as [q Hq]; [lia|].
  pose proof (Hb _ _ Hq) as Hqi.
  eapply isDescendantOrSelf_parent; [done|done|].
  destruct (decide (length a0 ≤ q)) as [Hq0|Hq0]; [apply IH; lia|].
  destruct (fr_new_parents _ _ Hf _ _ Hge Hq) as [?|Hd]; [lia|].
  apply isDescendantOrSelf_spec. apply isDescendantOrSelf_spec in Hd.
  rewrite (framed_ancestors_old sc0 wf0 _ _ Hf) by lia. done.
Qed.

Lemma framed_old_descendant sc i :
  framed sc0 sc → i < length a0 →
  isDescendantOrSelf (scopes sc) ip0 i = isDescendantOrSelf a0 ip0 i.
Proof.
  intros Hf Hi. unfold isDescendantOrSelf.
  by rewrite (framed_ancestors_old sc0 wf0 _ _ Hf).
Qed.

(** The scopes outside are still up to date. *)
Lemma framed_outside_upToDate sc i :
  framed sc0 sc → outside sc0 i →
  upToDate childlessRange a0 (ranges sc0) i →
  upToDate childlessRange (scopes sc) (ranges sc) i.
Proof.
  intros Hf Hout Hup. unfold upToDate in *.
  destruct (fr_outside _ _ Hf i Hout) as (Hs & Hc & Hg). rewrite Hc, Hup.
  f_equal. symmetry. apply computeRange_ext; [done|done|].
  intros c Hin. apply (fr_outside _ _ Hf). by eapply outside_children.
Qed.

(** After siblings were added from [sc0] on, recomputing the slice of the
    injection point of [sc0] brings every cached range up to date. *)
Lemma cacheSourceRangesOfSlice_allUpToDate sc :
  framed sc0 sc →
  (∀ i, outside sc0 i → upToDate childlessRange a0 (ranges sc0) i) →
  allUpToDate childlessRange
    (setRanges (spec_cacheSourceRangesOfSlice childlessRange (scopes sc) ip0
                  (ranges sc)) sc).
Proof.
  intros Hf Hup0 i Hi. simpl in *.
  pose proof (fr_wellFormed _ _ Hf) as Hw.
  pose proof (wf_parent_before _ Hw) as Hb.
  pose proof (wf_injection_point _ wf0) as Hip0.
  unfold spec_cacheSourceRangesOfSlice. rewrite <- foldl_app.
  apply (foldl_recompute_upToDate _ _ (outside sc0)).
  - intros p Hp%(wf_children _ Hw)%Hb. lia.
  - intros l1 p l2 q Heq Hq Hp. apply (wf_children _ Hw) in Hp.
    assert (below sc0 p ∨ p ∈ ancestors a0 ip0) as Hreg.
    { assert (p ∈ sliceBottomUp (scopes sc) ip0 ++ ancestors (scopes sc) ip0)
        as [Hin|Hin]%elem_of_app.
      { rewrite Heq. apply elem_of_app. right. left. }
      - apply elem_of_sliceBottomUp in Hin as [Hd _]. left.
        eapply framed_below_descendant; [done|done| |done].
        apply below_injection_point.
      - right. by rewrite <- (framed_ancestors_old sc0 wf0 _ _ Hf). }
    destruct Hq as [Hq|Hq].
    + eapply outside_not_region; [done|].
      by eapply framed_region_parent.
    + pose proof (sorted_slice (scopes sc) ip0 Hb) as Hs. rewrite Heq in Hs.
      pose proof (StronglySorted_app_1_elem_of _ _ _ q p Hs Hq
                    ltac:(left)) as Hlt.
      apply Hb in Hp. simpl in Hlt. lia.
  - intros q Hq. by apply framed_outside_upToDate; [|done|apply Hup0].
  - destruct (decide (length a0 ≤ i)) as [Hge|Hlt].
    { right. apply elem_of_app. left. apply elem_of_sliceBottomUp.
      split; [|done]. by apply framed_new_descendant. }
    destruct (region_or_outside sc0 i) as [[[?|Hd]|Hin]|Hout];
      [lia|lia| | |by left].
    + right. apply elem_of_app. left. apply elem_of_sliceBottomUp.
      split; [|done]. rewrite framed_old_descendant by (done || lia). done.
    + right. apply elem_of_app. right.
      by rewrite (framed_ancestors_old sc0 wf0 _ _ Hf).
Qed.

End Recompute.

(** ** The ranges between two public operations *)

Section Settled.
Variable childlessRange : ScopeData → SourceRange.
Variable dsplit : ScopeData → bool.

Local Abbreviation ranges' := (specRanges childlessRange).

Lemma forEach_addScopeToTree_framed depth l sc0 sc1 u sc2 :
  wellFormed sc0 → framed sc0 sc1 →
  forEach l (addScopeToTree (H:=ranges') dsplit
               (createSubtree (H:=ranges') dsplit depth)) sc1 = Some (u, sc2) →
  framed sc0 sc2.
Proof.
  intros Hw Hf Hr.
  pose proof (framed_laws childlessRange sc0 Hw) as Hlaws.
  destruct (spec_forEach (H:=ranges') (Laws0:=Hlaws) [] l _
              (λ nd _, spec_addScopeToTree_builder (H:=ranges') (Laws0:=Hlaws)
                         dsplit depth [] nd)
              sc1 u sc2 Hf (GoodAll_nil _) Hr) as (_ & Hf2 & _).
  done.
Qed.

(** Adding siblings to a tree whose ranges are up to date outside of the
    injection point and its ancestors leaves all ranges up to date. *)
Lemma addScopesToTree_allUpToDate depth l sc0 u sc3 :
  wellFormed sc0 → cacheInScopes sc0 →
  (∀ i, outside sc0 i →
        upToDate childlessRange (scopes sc0) (ranges sc0) i) →
  l ≠ [] →
  addScopesToTree (H:=ranges') dsplit (createSubtree (H:=ranges') dsplit depth)
    l sc0 = Some (u, sc3) →
  wellFormed sc3 ∧ cacheInScopes sc3 ∧ allUpToDate childlessRange sc3.
Proof.
  intros Hw Hc Hup Hl. unfold addScopesToTree.
  rewrite bool_decide_eq_false_2 by done.
  unfold bind at 1, get, ensureSourceRangesAreCorrectWhenAddingDescendants.
  unfold bind at 1, modify.
  intros (v & sc2 & Hrun & [= <- <-])%bind_Some.
  pose proof (framed_laws childlessRange sc0 Hw) as Hlaws.
  assert (framed sc0 sc0) as Hf0.
  { apply framed_refl; [done|apply below_injection_point|done]. }
  assert (goodBelow sc0 (newNodeInjectionPoint sc0) sc0) as Hg0.
  { split; [apply (wf_injection_point _ Hw)|apply below_injection_point]. }
  destruct (H_clear (Laws:=Hlaws) (newNodeInjectionPoint sc0) sc0 Hf0 Hg0)
    as [_ Hf1].
  pose proof (forEach_addScopeToTree_framed _ _ _ _ _ _ Hw Hf1 Hrun) as Hf2.
  assert (goodBelow sc0 (newNodeInjectionPoint sc0) sc2) as Hg2.
  { split; [|apply below_injection_point].
    pose proof (wf_injection_point _ Hw). pose proof (framed_length _ _ Hf2).
    lia. }
  destruct (H_cacheSlice (Laws:=Hlaws) (newNodeInjectionPoint sc0) sc2 Hf2 Hg2)
    as [_ Hf3].
  split; [apply (fr_wellFormed _ _ Hf3)|]. split; [apply (fr_cache _ _ Hf3)|].
  by apply cacheSourceRangesOfSlice_allUpToDate.
Qed.

Lemma wellFormed_newScopeCreator :
  wellFormed (newScopeCreator (H:=ranges')).
Proof.
  split; simpl.
  - intros [|i] q; [done|]. by destruct i.
  - intros [|p] c; simpl; [by intros ?%elem_of_nil|].
    destruct p; by intros ?%elem_of_nil.
  - intros p [|c]; [done|]. by destruct c.
  - intros i Hi. lia.
  - intros [|p] s q; [by intros [= <-]|by destruct p].
  - unfold sourceFileScope. lia.
Qed.

Lemma settled_newScopeCreator :
  settled childlessRange (newScopeCreator (H:=ranges')).
Proof.
  split; [apply wellFormed_newScopeCreator|]. split; [|by left].
  intros i. simpl. rewrite lookup_empty. by intros [? ?].
Qed.

Lemma settled_outside sc i :
  settled childlessRange sc → outside sc i →
  upToDate childlessRange (scopes sc) (ranges sc) i.
Proof.
  intros (Hw & _ & [[_ Hlen]|Hall]) (Hi & Hd & _); [|by apply Hall].
  pose proof (wf_injection_point _ Hw).
  assert (i = newNodeInjectionPoint sc) as -> by lia.
  by rewrite isDescendantOrSelf_refl in Hd.
Qed.

Lemma settled_setDeclsSeen n sc :
  settled childlessRange sc → settled childlessRange (setDeclsSeen n sc).
Proof. intros (Hw & Hs). split; [by apply (wellFormed_same sc)|done]. Qed.

Lemma addNewDeclsToTree_settled depth decls sc u sc' :
  settled childlessRange sc →
  addNewDeclsToTree (H:=ranges') dsplit depth decls sc = Some (u, sc') →
  settled childlessRange sc'.
Proof.
  intros Hs. unfold addNewDeclsToTree, bind at 1, get.
  intros (v & sc1 & Hr & [= <- <-])%bind_Some.
  apply settled_setDeclsSeen.
  destruct (decide (N_Decl <$> drop (numberOfDeclsAlreadySeen sc) decls = []))
    as [Hnil|Hne].
  - rewrite Hnil in Hr. by injection Hr as <- <-.
  - apply addScopesToTree_allUpToDate in Hr as (Hw & Hc & Hall);
      [|apply Hs|apply Hs| |done].
    + split; [done|]. split; [done|by right].
    + intros i. by apply settled_outside.
Qed.

Lemma extendedFrom_settled sc sc' :
  settled childlessRange sc →
  extendedFrom (H:=ranges') dsplit sc sc' → settled childlessRange sc'.
Proof.
  intros Hs. induction 1 as [|sc1 depth decls sc2 _ IH Hr]; [done|].
  by eapply addNewDeclsToTree_settled.
Qed.

(** In a settled creator, the cached range of a scope covers the cached
    range of every scope below it. *)
Lemma settled_contains sc p d rp rd :
  settled childlessRange sc →
  p ∈ ancestors (scopes sc) d →
  cachedSourceRange (ranges sc) !! p = Some rp →
  cachedSourceRange (ranges sc) !! d = Some rd →
  rangeContains rp rd.
Proof.
  intros (Hw & _ & [[Hempty _]|Hall]).
  { rewrite Hempty. by rewrite lookup_empty. }
  pose proof (wf_parent_before _ Hw) as Hb.
  revert rd. induction (lt_wf d) as [d _ IH]. intros rd Hin Hp Hd.
  destruct (parentOf (scopes sc) d) as [x|] eqn:Hx.
  2:{ rewrite (ancestors_root _ _ Hx) in Hin. by apply elem_of_nil in Hin. }
  rewrite (ancestors_parent _ Hb _ _ Hx) in Hin.
  assert (x < length (scopes sc)) as Hxl.
  { apply Hb in Hx as Hlt. apply parentOf_lt in Hx. lia. }
  pose proof (Hall x Hxl) as Hux. unfold upToDate in Hux.
  assert (rangeContains (computeRange childlessRange (scopes sc) (ranges sc) x) rd)
    as Hstep.
  { eapply computeRange_contains_child; [|done]. by apply (wf_child_listed _ Hw). }
  apply elem_of_cons in Hin as [->|Hin].
  - rewrite Hux in Hp. by injection Hp as <-.
  - eapply rangeContains_trans; [|exact Hstep].
    apply (IH x); [by apply Hb|done|done|done].
Qed.

End Settled.

(** ** Two runs side by side *)

Lemma childrenOf_allocChild_incl {R} d p (sc : ScopeCreator R) q c :
  c ∈ childrenOf (scopes (allocChild d p sc)) q →
  c ∈ childrenOf (scopes sc) q ∨ c = length (scopes sc).
Proof.
  unfold allocChild, childrenOf, setScopes; cbn [scopes].
  destruct (decide (q = length (scopes sc))) as [->|Hq].
  - rewrite list_lookup_alter_eq.
    destruct (decide (p = length (scopes sc))) as [->|Hp].
    + rewrite list_lookup_alter_eq, lookup_app_r, Nat.sub_diag by done. simpl.
      intros Hc%list_elem_of_singleton. by right.
    + rewrite list_lookup_alter_ne, lookup_app_r, Nat.sub_diag by done. simpl.
      by intros ?%elem_of_nil.
  - rewrite list_lookup_alter_ne by done.
    destruct (decide (q < length (scopes sc))) as [Hlt|Hge].
    + destruct (decide (p = q)) as [->|Hp].
      * rewrite list_lookup_alter_eq, lookup_app_l by done.
        destruct (scopes sc !! q) as [s|]; simpl; [|by intros ?%elem_of_nil].
        intros [?|Hc%list_elem_of_singleton]%elem_of_app; [by left|by right].
      * rewrite list_lookup_alter_ne, lookup_app_l by done. by left.
    + assert (alter (pushChild (length (scopes sc))) p
                (scopes sc ++ [mkScope d None [] None]) !! q = None) as ->.
      { apply lookup_ge_None_2. rewrite length_alter, length_app. simpl. lia. }
      by intros ?%elem_of_nil.
Qed.

Lemma childrenOf_setPatternScope (a : Arena) s this q :
  childrenOf (alter (setPatternScope s) this a) q = childrenOf a q.
Proof.
  unfold childrenOf. destruct (decide (this = q)) as [->|].
  - rewrite list_lookup_alter_eq. by destruct (a !! q).
  - by rewrite list_lookup_alter_ne.
Qed.

Lemma foldl_delete_lookup_eq (m1 m2 : gmap ScopePtr SourceRange) l i :
  m1 !! i = m2 !! i →
  foldl (λ m q, delete q m) m1 l !! i = foldl (λ m q, delete q m) m2 l !! i.
Proof.
  revert m1 m2. induction l as [|q l IH]; intros m1 m2 Hm; simpl; [done|].
  apply IH. destruct (decide (i = q)) as [->|].
  - by rewrite !lookup_delete_eq.
  - by rewrite !lookup_delete_ne.
Qed.

Section Agree.
Variable childlessRange : ScopeData → SourceRange.
Variable n0 : nat.

Local Abbreviation ranges' := (specRanges childlessRange).
Local Abbreviation agree := (agreeFrom n0).

Lemma agree_allocChild d p scA scB :
  agree scA scB → agree (allocChild d p scA) (allocChild d p scB).
Proof.
  intros [Hs Hi Hd Hg Hc Hl Hch]. split; simpl; rewrite <- ?Hs; try done.
  - rewrite !length_alter, length_app. simpl. lia.
  - intros q c Hq Hin.
    apply (childrenOf_allocChild_incl d p scA) in Hin as [Hin| ->];
      [by eapply Hch|done].
Qed.

(** Recomputing a scope allocated since [n0] in both runs keeps them in
    agreement. *)
Lemma agree_recompute a rcA rcB p :
  sourceRangeOfIgnoredASTNodes rcA = sourceRangeOfIgnoredASTNodes rcB →
  (∀ i, n0 ≤ i → cachedSourceRange rcA !! i = cachedSourceRange rcB !! i) →
  (∀ q c, n0 ≤ q → c ∈ childrenOf a q → n0 ≤ c) →
  ∀ i, n0 ≤ i →
    cachedSourceRange (recompute childlessRange a rcA p) !! i
    = cachedSourceRange (recompute childlessRange a rcB p) !! i.
Proof.
  intros Hg Hc Hch i Hi. rewrite !recompute_cached.
  destruct (decide (i = p)) as [->|]; [|by apply Hc]. f_equal.
  apply computeRange_ext; [done|by rewrite Hg|].
  intros c Hin. apply Hc. by eapply Hch.
Qed.

Lemma agree_foldl_recompute a rcA rcB l :
  sourceRangeOfIgnoredASTNodes rcA = sourceRangeOfIgnoredASTNodes rcB →
  (∀ i, n0 ≤ i → cachedSourceRange rcA !! i = cachedSourceRange rcB !! i) →
  (∀ q c, n0 ≤ q → c ∈ childrenOf a q → n0 ≤ c) →
  ∀ i, n0 ≤ i →
    cachedSourceRange (foldl (recompute childlessRange a) rcA l) !! i
    = cachedSourceRange (foldl (recompute childlessRange a) rcB l) !! i.
Proof.
  intros Hg Hc Hch. revert rcA rcB Hg Hc.
  induction l as [|p l IH]; intros rcA rcB Hg Hc; simpl; [done|].
  apply IH; [done|]. by apply agree_recompute.
Qed.

Lemma agree_ranges scA scB rcA rcB :
  agree scA scB →
  sourceRangeOfIgnoredASTNodes rcA = sourceRangeOfIgnoredASTNodes rcB →
  (∀ i, n0 ≤ i → cachedSourceRange rcA !! i = cachedSourceRange rcB !! i) →
  agree (setRanges rcA scA) (setRanges rcB scB).
Proof. intros [Hs Hi Hd Hg Hc Hl Hch] Hg' Hc'. by split. Qed.

End Agree.

(** ** The builder does not look at the ranges of older scopes *)

Section Simulation.
Variable childlessRange : ScopeData → SourceRange.
Variable n0 : nat.

Local Abbreviation ranges' := (specRanges childlessRange).
Local Abbreviation agree := (agreeFrom n0).
Local Abbreviation sim := (simulates n0).

Lemma sim_ret {A} (a : A) : sim (ret a) (ret a).
Proof. intros scA scB a' scA' HR [= <- <-]. by exists scB. Qed.

Lemma sim_bind {A B} (mA mB : M RangeCache A) (kA kB : A → M RangeCache B) :
  sim mA mB → (∀ a, sim (kA a) (kB a)) → sim (bind mA kA) (bind mB kB).
Proof.
  intros Hm Hk scA scB b scA' HR (a & scA1 & H1 & H2)%bind_Some.
  destruct (Hm _ _ _ _ HR H1) as (scB1 & HB1 & HR1).
  destruct (Hk _ _ _ _ _ HR1 H2) as (scB' & HB2 & HR2).
  exists scB'. split; [|done]. apply bind_Some. eauto.
Qed.

Lemma sim_forEach {A} (l : list A) (f : A → M RangeCache unit) :
  (∀ x, x ∈ l → sim (f x) (f x)) → sim (forEach l f) (forEach l f).
Proof.
  induction l as [|x l IH]; intros Hf; simpl; [apply sim_ret|].
  apply sim_bind; [apply Hf; left|]. intros _. apply IH.
  intros y Hy. apply Hf. by right.
Qed.

Lemma sim_forEachWith {A S} (l : list A) (s : S) (f : S → A → M RangeCache S) :
  (∀ s x, x ∈ l → sim (f s x) (f s x)) →
  sim (forEachWith l s f) (forEachWith l s f).
Proof.
  revert s. induction l as [|x l IH]; intros s Hf; simpl; [apply sim_ret|].
  apply sim_bind; [apply Hf; left|]. intros s'. apply IH.
  intros s2 y Hy. apply Hf. by right.
Qed.

Lemma sim_when (b : bool) (m : M RangeCache unit) :
  (b = true → sim m m) → sim (when b m) (when b m).
Proof. destruct b; simpl; [auto|intros _; apply sim_ret]. Qed.

Lemma sim_bind_get {B} (kA kB : ScopeCreator RangeCache → M RangeCache B) :
  (∀ sA sB, agree sA sB → sim (kA sA) (kB sB)) →
  sim (bind get kA) (bind get kB).
Proof.
  intros Hk scA scB b scA' HR. unfold bind, get. by apply Hk.
Qed.

Lemma sim_modify (f g : ScopeCreator RangeCache → ScopeCreator RangeCache) :
  (∀ sA sB, agree sA sB → agree (f sA) (g sB)) → sim (modify f) (modify g).
Proof.
  intros Hf scA scB a scA' HR [= <- <-]. exists (g scB). split; [done|auto].
Qed.

Lemma sim_getData p : sim (getData p) (getData p).
Proof.
  intros scA scB a scA' HR [= <- <-]. exists scB.
  unfold getData. by rewrite (ag_scopes _ _ _ HR).
Qed.

Lemma sim_getParent this : sim (getParent this) (getParent this).
Proof.
  intros scA scB a scA' HR [= <- <-]. exists scB.
  unfold getParent. by rewrite (ag_scopes _ _ _ HR).
Qed.

Lemma sim_isDuplicate x b : sim (isDuplicate x b) (isDuplicate x b).
Proof.
  intros scA scB a scA' HR. unfold isDuplicate.
  rewrite (ag_duplicates _ _ _ HR).
  destruct b; intros [= <- <-]; eexists; (split; [done|]); [|done].
  destruct HR. by split.
Qed.

Lemma sim_shouldThisNodeBeScopedWhenEncountered n :
  sim (shouldThisNodeBeScopedWhenEncountered n)
      (shouldThisNodeBeScopedWhenEncountered n).
Proof.
  unfold shouldThisNodeBeScopedWhenEncountered.
  destruct (isHandledSpecially n); [apply sim_ret|].
  apply sim_bind; [apply sim_isDuplicate|]. intros. apply sim_ret.
Qed.

Lemma sim_widen p r : sim (widen (H:=ranges') p r) (widen (H:=ranges') p r).
Proof.
  apply sim_modify. intros sA sB HR. rewrite (ag_scopes _ _ _ HR).
  apply agree_ranges; [done| |]; simpl.
  - by rewrite (ag_ignored _ _ _ HR).
  - intros i Hi. destruct (decide (i = p)) as [->|].
    + by rewrite !lookup_alter_eq, (ag_cached _ _ _ HR).
    + by rewrite !lookup_alter_ne; [apply (ag_cached _ _ _ HR)|..].
Qed.

Lemma sim_setInjectionPoint p :
  sim (modify (setInjectionPoint p)) (modify (setInjectionPoint p)).
Proof. apply sim_modify. intros sA sB [Hs Hi Hd Hg Hc Hl Hch]. by split. Qed.

Lemma sim_clear p :
  sim (modify (λ sc, setRanges
         (clearCachedSourceRangesOfMeAndAncestors (RangeOps:=ranges')
            (scopes sc) p (ranges sc)) sc))
      (modify (λ sc, setRanges
         (clearCachedSourceRangesOfMeAndAncestors (RangeOps:=ranges')
            (scopes sc) p (ranges sc)) sc)).
Proof.
  apply sim_modify. intros sA sB HR. rewrite (ag_scopes _ _ _ HR).
  apply agree_ranges; [done| |]; simpl; [apply (ag_ignored _ _ _ HR)|].
  intros i Hi. apply foldl_delete_lookup_eq.
  destruct (decide (i = p)) as [->|].
  - by rewrite !lookup_delete_eq.
  - rewrite !lookup_delete_ne by done. by apply (ag_cached _ _ _ HR).
Qed.

Lemma sim_cacheSlice p :
  sim (modify (λ sc, setRanges
         (cacheSourceRangesOfSlice (RangeOps:=ranges')
            (scopes sc) p (ranges sc)) sc))
      (modify (λ sc, setRanges
         (cacheSourceRangesOfSlice (RangeOps:=ranges')
            (scopes sc) p (ranges sc)) sc)).
Proof.
  apply sim_modify. intros sA sB HR.
  pose proof (ag_children _ _ _ HR) as Hch. rewrite (ag_scopes _ _ _ HR) in *.
  apply agree_ranges; [done| |]; simpl; unfold spec_cacheSourceRangesOfSlice.
  - rewrite !foldl_recompute_ignored. apply (ag_ignored _ _ _ HR).
  - rewrite <- !foldl_app. apply agree_foldl_recompute; [|apply HR|done].
    apply (ag_ignored _ _ _ HR).
Qed.

Lemma sim_cacheRange p :
  sim (modify (λ sc, setRanges
         (cacheSourceRange (RangeOps:=ranges') (scopes sc) p (ranges sc)) sc))
      (modify (λ sc, setRanges
         (cacheSourceRange (RangeOps:=ranges') (scopes sc) p (ranges sc)) sc)).
Proof.
  apply sim_modify. intros sA sB HR.
  pose proof (ag_children _ _ _ HR) as Hch. rewrite (ag_scopes _ _ _ HR) in *.
  apply agree_ranges; [done| |]; simpl; unfold spec_cacheSourceRange.
  - apply (ag_ignored _ _ _ HR).
  - apply agree_recompute; [|apply HR|done]. apply (ag_ignored _ _ _ HR).
Qed.

Lemma sim_setPatternScope s this :
  sim (modify (λ sc, setScopes (alter (setPatternScope s) this (scopes sc)) sc))
      (modify (λ sc, setScopes (alter (setPatternScope s) this (scopes sc)) sc)).
Proof.
  apply sim_modify. intros sA sB [Hs Hi Hd Hg Hc Hl Hch].
  split; simpl; rewrite <- ?Hs; try done.
  - by rewrite length_alter.
  - intros q c. rewrite childrenOf_setPatternScope. apply Hch.
Qed.

(** *** The visitor and the expansions, given the scopes below *)

Section Step.
Variable dsplit : ScopeData → bool.
Variable rec : ScopeData → ScopePtr → M RangeCache ScopePtr.
Hypothesis Hrec : ∀ d p, sim (rec d p) (rec d p).
(** A scope that hands itself back is the one just allocated. *)
Hypothesis Hrec_child : ∀ d p sc r sc',
  returnsItself d = true → rec d p sc = Some (r, sc') → r = length (scopes sc).

Create HintDb sim.
Local Hint Resolve sim_ret sim_getData sim_getParent sim_isDuplicate
  sim_shouldThisNodeBeScopedWhenEncountered sim_widen sim_setInjectionPoint
  sim_clear sim_cacheSlice sim_cacheRange sim_setPatternScope Hrec : sim.

Ltac sm :=
  lazymatch goal with
  | |- sim (ret _) _ => apply sim_ret
  | |- sim (bind get _) _ =>
      apply sim_bind_get;
      let sA := fresh "sA" in let sB := fresh "sB" in let HR := fresh "HR" in
      intros sA sB HR;
      rewrite ?(ag_scopes _ _ _ HR), ?(ag_injection_point _ _ _ HR); sm
  | |- sim (bind _ _) _ => apply sim_bind; [sm | intros; sm]
  | |- sim (forEach _ _) _ => apply sim_forEach; intros; sm
  | |- sim (forEachWith _ _ _) _ => apply sim_forEachWith; intros; sm
  | |- sim (when _ _) _ => apply sim_when; intros; sm
  | |- sim (if ?b then _ else _) _ => destruct b eqn:?; sm
  | |- sim (match ?x with _ => _ end) _ => destruct x eqn:?; sm
  | |- _ => first [ solve [eauto with sim] | idtac ]
  end.

Local Abbreviation same m := (sim m m).

Lemma sim_addChildrenForCapturesAndClosuresIn e p :
  same (addChildrenForCapturesAndClosuresIn rec e p).
Proof. unfold addChildrenForCapturesAndClosuresIn, forEachUniqueClosureIn. sm. Qed.
Local Hint Resolve sim_addChildrenForCapturesAndClosuresIn : sim.

Lemma sim_createAttachedPropertyWrapperScope pb p :
  same (createAttachedPropertyWrapperScope rec pb p).
Proof. unfold createAttachedPropertyWrapperScope. sm. Qed.
Local Hint Resolve sim_createAttachedPropertyWrapperScope : sim.

Lemma sim_createGenericParamScopes i g p :
  same (createGenericParamScopes rec i g p).
Proof. unfold createGenericParamScopes. sm. Qed.
Local Hint Resolve sim_createGenericParamScopes : sim.

Lemma sim_visitAbstractFunctionDecl f p :
  same (visitAbstractFunctionDecl rec f p).
Proof. unfold visitAbstractFunctionDecl. sm. Qed.
Local Hint Resolve sim_visitAbstractFunctionDecl : sim.

Lemma sim_addChildrenForAllExplicitAccessors l p :
  same (addChildrenForAllExplicitAccessors rec l p).
Proof. unfold addChildrenForAllExplicitAccessors. sm. Qed.
Local Hint Resolve sim_addChildrenForAllExplicitAccessors : sim.

Lemma sim_forEachSpecializeAttrInSourceOrder f fn :
  (∀ a, same (fn a)) → same (forEachSpecializeAttrInSourceOrder f fn).
Proof. intros. unfold forEachSpecializeAttrInSourceOrder. sm. Qed.

Lemma sim_visitExpr e p : same (visitExpr (H:=ranges') rec e p).
Proof. unfold visitExpr. sm. Qed.
Local Hint Resolve sim_visitExpr : sim.

Lemma sim_visitBraceStmt bs p : same (visitBraceStmt dsplit rec bs p).
Proof. unfold visitBraceStmt, splits. sm. Qed.
Local Hint Resolve sim_visitBraceStmt : sim.

Lemma sim_visitPatternBindingDecl pb p :
  same (visitPatternBindingDecl rec pb p).
Proof. unfold visitPatternBindingDecl, inTypeDecl. sm. Qed.
Local Hint Resolve sim_visitPatternBindingDecl : sim.

Lemma sim_visitAndIgnore w p : same (visitAndIgnore (H:=ranges') w p).
Proof. unfold visitAndIgnore. sm. Qed.
Local Hint Resolve sim_visitAndIgnore : sim.

Lemma sim_visitDecl d p : same (visitDecl (H:=ranges') rec d p).
Proof. unfold visitDecl, createSubtree2D. sm. Qed.
Local Hint Resolve sim_visitDecl : sim.

Lemma sim_visitStmt s p : same (visitStmt (H:=ranges') dsplit rec s p).
Proof. unfold visitStmt. sm. Qed.
Local Hint Resolve sim_visitStmt : sim.

Lemma sim_createScopeFor n p :
  same (createScopeFor (H:=ranges') dsplit rec n p).
Proof. unfold createScopeFor. sm. Qed.
Local Hint Resolve sim_createScopeFor : sim.

Lemma sim_addScopeToTree nd : same (addScopeToTree (H:=ranges') dsplit rec nd).
Proof. unfold addScopeToTree. sm. Qed.
Local Hint Resolve sim_addScopeToTree : sim.

Lemma sim_addScopesToTree l : same (addScopesToTree (H:=ranges') dsplit rec l).
Proof.
  unfold addScopesToTree, ensureSourceRangesAreCorrectWhenAddingDescendants.
  destruct (bool_decide (l = [])); sm.
Qed.
Local Hint Resolve sim_addScopesToTree : sim.

Lemma sim_forEachVarDeclWithExplicitAccessors pb i b foundOne :
  (∀ v, same (foundOne v)) →
  same (forEachVarDeclWithExplicitAccessors pb i b foundOne).
Proof. intros. unfold forEachVarDeclWithExplicitAccessors. sm. Qed.

Lemma sim_getStatementConditionIfAny p : same (getStatementConditionIfAny p).
Proof. unfold getStatementConditionIfAny. sm. Qed.
Local Hint Resolve sim_getStatementConditionIfAny : sim.

Lemma sim_createCondScopes this i c : same (createCondScopes rec this i c).
Proof. unfold createCondScopes. sm. Qed.
Local Hint Resolve sim_createCondScopes : sim.

Lemma sim_createSubtreeForCondition this c i :
  same (createSubtreeForCondition (H:=ranges') rec this c i).
Proof. unfold createSubtreeForCondition. sm. Qed.
Local Hint Resolve sim_createSubtreeForCondition : sim.

Lemma sim_createTrailingWhereClauseScope t p :
  same (createTrailingWhereClauseScope rec t p).
Proof. unfold createTrailingWhereClauseScope, createSubtree2D. sm. Qed.
Local Hint Resolve sim_createTrailingWhereClauseScope : sim.

Lemma sim_createBodyScope t p : same (createBodyScope rec t p).
Proof. unfold createBodyScope, createSubtree2D. sm. Qed.
Local Hint Resolve sim_createBodyScope : sim.

Lemma sim_expandScope portion this t :
  same (expandScope (H:=ranges') dsplit rec portion this t).
Proof. unfold expandScope. sm. Qed.
Local Hint Resolve sim_expandScope : sim.

(** The one place where the builder reads a range: the end of the
    initializer of a pattern entry, a scope it has just created. *)
Lemma sim_initializerEnd decl i vis this :
  same (do initializer <- rec (PatternEntryInitializerScope decl i vis) this;
        modify (λ sc, setRanges
          (cacheSourceRange (RangeOps:=ranges') (scopes sc) initializer
             (ranges sc)) sc) ;;
        do sc <- get;
        ret (End (getSourceRange (RangeOps:=ranges') (scopes sc) initializer
                    (ranges sc)))).
Proof.
  intros scA scB a scA' HR (r & scA1 & Hr & Hk)%bind_Some.
  assert (r = length (scopes scA)) as ->.
  { eapply Hrec_child; [|exact Hr]. done. }
  destruct (Hrec _ _ _ _ _ _ HR Hr) as (scB1 & HrB & HR1).
  apply bind_Some in Hk as ([] & scA2 & Hm & Hg).
  destruct (sim_cacheRange (length (scopes scA)) _ _ _ _ HR1 Hm)
    as (scB2 & HmB & HR2).
  injection Hg as <- <-. exists scB2. split; [|done].
  apply bind_Some. exists (length (scopes scA)), scB1. split; [done|].
  apply bind_Some. exists (), scB2. split; [done|].
  unfold bind, get, ret. simpl. unfold spec_getSourceRange.
  rewrite (ag_cached _ _ _ HR2); [done|].
  apply (ag_length _ _ _ HR).
Qed.

Lemma sim_expandAScopeThatCreatesANewInsertionPoint this d :
  same (expandAScopeThatCreatesANewInsertionPoint (H:=ranges') dsplit rec this d).
Proof.
  unfold expandAScopeThatCreatesANewInsertionPoint.
  destruct d; try apply sim_ret.
  - sm.
  - apply sim_bind; [|intros; apply Hrec].
    destruct (_ ≫= getInitAsWritten) as [e|]; [|apply sim_ret].
    destruct (range_isValid _); [|apply sim_ret].
    apply sim_initializerEnd.
  - sm.
  - sm. apply sim_forEachVarDeclWithExplicitAccessors. intros. sm.
  - sm.
  - sm.
Qed.

Lemma sim_createIfNotDuplicate x d this :
  same (createIfNotDuplicate rec x d this).
Proof. unfold createIfNotDuplicate. sm. Qed.
Local Hint Resolve sim_createIfNotDuplicate : sim.

Lemma sim_expandAScopeThatDoesNotCreateANewInsertionPoint this d :
  same (expandAScopeThatDoesNotCreateANewInsertionPoint (H:=ranges')
          dsplit rec this d).
Proof.
  unfold expandAScopeThatDoesNotCreateANewInsertionPoint.
  destruct d; try apply sim_ret; sm.
  apply sim_forEachSpecializeAttrInSourceOrder. intros. sm.
Qed.

Lemma sim_expandMe this d : same (expandMe (H:=ranges') dsplit rec this d).
Proof.
  unfold expandMe. destruct (expansionKind d).
  - apply sim_expandAScopeThatCreatesANewInsertionPoint.
  - apply sim_bind;
      [apply sim_expandAScopeThatDoesNotCreateANewInsertionPoint|].
    intros _. apply sim_getParent.
  - apply sim_getParent.
Qed.

Lemma sim_createSubtreeStep d p :
  same (createSubtreeStep (H:=ranges') dsplit rec d p).
Proof.
  intros scA scB r scA' HR. rewrite !createSubtreeStep_eq.
  rewrite <- (ag_scopes _ _ _ HR). apply sim_expandMe.
  by apply agree_allocChild.
Qed.

End Step.

Lemma sim_createSubtree dsplit depth d p :
  sim (createSubtree (H:=ranges') dsplit depth d p)
      (createSubtree (H:=ranges') dsplit depth d p).
Proof.
  revert d p. induction depth as [|depth IH]; intros d p; simpl.
  - intros scA scB a scA' _ [=].
  - apply sim_createSubtreeStep; [done|].
    intros d' p' sc r sc'. apply createSubtree_returns_child.
Qed.

Lemma sim_forEach_addScopeToTree dsplit depth l :
  sim (forEach l (addScopeToTree (H:=ranges') dsplit
                    (createSubtree (H:=ranges') dsplit depth)))
      (forEach l (addScopeToTree (H:=ranges') dsplit
                    (createSubtree (H:=ranges') dsplit depth))).
Proof.
  apply sim_forEach. intros nd _. apply sim_addScopeToTree.
  apply sim_createSubtree.
Qed.

End Simulation.

(** ** Extending a tree and building it in one pass *)

Lemma forEach_app {R A} (l1 l2 : list A) (f : A → M R unit) sc :
  forEach (l1 ++ l2) f sc = (forEach l1 f ;; forEach l2 f) sc.
Proof.
  revert sc. induction l1 as [|x l1 IH]; intros sc; simpl; [done|].
  unfold bind in *. destruct (f x sc) as [[[] sc1]|]; [|done]. apply IH.
Qed.

Lemma setDeclsSeen_same {R} n (sc sc' : ScopeCreator R) :
  scopes sc = scopes sc' →
  newNodeInjectionPoint sc = newNodeInjectionPoint sc' →
  astDuplicates sc = astDuplicates sc' →
  ranges sc = ranges sc' →
  setDeclsSeen n sc = setDeclsSeen n sc'.
Proof. unfold setDeclsSeen. by intros -> -> -> ->. Qed.

Section OnePass.
Variable childlessRange : ScopeData → SourceRange.
Variable dsplit : ScopeData → bool.

Local Abbreviation ranges' := (specRanges childlessRange).

(** Ranges that are all up to date are determined by the tree and the
    ignored nodes. *)
Lemma allUpToDate_unique (scA scB : ScopeCreator RangeCache) :
  wellFormed scA →
  scopes scA = scopes scB →
  sourceRangeOfIgnoredASTNodes (ranges scA)
  = sourceRangeOfIgnoredASTNodes (ranges scB) →
  cacheInScopes scA → cacheInScopes scB →
  allUpToDate childlessRange scA → allUpToDate childlessRange scB →
  ranges scA = ranges scB.
Proof.
  intros Hw Hs Hg HcA HcB HuA HuB.
  assert (cachedSourceRange (ranges scA) = cachedSourceRange (ranges scB)) as Hc.
  { apply map_eq. intros i.
    destruct (decide (i < length (scopes scA))) as [Hlt|Hge].
    2:{ assert (cachedSourceRange (ranges scA) !! i = None) as ->.
        { apply eq_None_not_Some. intros Hi%HcA. lia. }
        assert (cachedSourceRange (ranges scB) !! i = None) as ->; [|done].
        apply eq_None_not_Some. intros Hi%HcB. rewrite <- Hs in Hi. lia. }
    remember (length (scopes scA) - i) as k eqn:Hk.
    revert i Hlt Hk. induction (lt_wf k) as [k _ IH]. intros i Hlt ->.
    rewrite (HuA i Hlt), (HuB i ltac:(by rewrite <- Hs)). f_equal.
    rewrite <- Hs. apply computeRange_ext; [done|by rewrite Hg|].
    intros c Hin. apply (wf_children _ Hw) in Hin.
    pose proof (wf_parent_before _ Hw _ _ Hin).
    pose proof (parentOf_lt _ _ _ Hin).
    eapply (IH (length (scopes scA) - c)); [lia|done|done]. }
  destruct (ranges scA), (ranges scB). simpl in *. by subst.
Qed.

Lemma addScopesToTree_unfold depth l (sc : ScopeCreator RangeCache) u sc' :
  l ≠ [] →
  addScopesToTree (H:=ranges') dsplit (createSubtree (H:=ranges') dsplit depth)
    l sc = Some (u, sc') →
  ∃ t, forEach l (addScopeToTree (H:=ranges') dsplit
                    (createSubtree (H:=ranges') dsplit depth))
         (setRanges (spec_clearCachedSourceRangesOfMeAndAncestors (scopes sc)
                       (newNodeInjectionPoint sc) (ranges sc)) sc)
       = Some (tt, t) ∧
       sc' = setRanges (spec_cacheSourceRangesOfSlice childlessRange (scopes t)
                          (newNodeInjectionPoint sc) (ranges t)) t.
Proof.
  intros Hl. unfold addScopesToTree. rewrite bool_decide_eq_false_2 by done.
  unfold bind at 1, get, ensureSourceRangesAreCorrectWhenAddingDescendants.
  unfold bind at 1, modify.
  intros ([] & t & Hrun & [= <- <-])%bind_Some. by exists t.
Qed.

Lemma addNewDeclsToTree_unfold depth decls (sc : ScopeCreator RangeCache) u sc' :
  addNewDeclsToTree (H:=ranges') dsplit depth decls sc = Some (u, sc') →
  ∃ t, addScopesToTree (H:=ranges') dsplit
         (createSubtree (H:=ranges') dsplit depth)
         (N_Decl <$> drop (numberOfDeclsAlreadySeen sc) decls) sc
       = Some (tt, t) ∧
       sc' = setDeclsSeen (length decls) t.
Proof.
  unfold addNewDeclsToTree, bind at 1, get.
  intros ([] & t & Hrun & [= <- <-])%bind_Some. by exists t.
Qed.

(** Where the first pass stopped and the extension starts, the two runs
    agree. *)
Lemma agreeFrom_restart sc0 t1 n :
  wellFormed sc0 → framed sc0 t1 →
  let s1 := setDeclsSeen n
              (setRanges (spec_cacheSourceRangesOfSlice childlessRange (scopes t1)
                            (newNodeInjectionPoint sc0) (ranges t1)) t1) in
  cacheInScopes s1 →
  agreeFrom (length (scopes t1)) t1
    (setRanges (spec_clearCachedSourceRangesOfMeAndAncestors (scopes s1)
                  (newNodeInjectionPoint s1) (ranges s1)) s1).
Proof.
  intros Hw Hf s1 Hc1. split; simpl; try done.
  - unfold spec_cacheSourceRangesOfSlice. by rewrite !foldl_recompute_ignored.
  - intros i Hi.
    assert (cachedSourceRange (ranges t1) !! i = None) as ->.
    { apply eq_None_not_Some. intros Hs%(fr_cache _ _ Hf). lia. }
    symmetry. apply eq_None_not_Some. intros Hs.
    apply (foldl_delete_is_Some _ (_ :: _)) in Hs. apply Hc1 in Hs.
    simpl in Hs. lia.
  - intros p c Hp. unfold childrenOf. rewrite lookup_ge_None_2 by lia.
    by intros ?%elem_of_nil.
Qed.

(** Adding siblings does the same whatever the count of declarations
    seen. *)
Lemma addScopesToTree_setDeclsSeen depth l n (sc : ScopeCreator RangeCache)
    u t u' t' :
  addScopesToTree (H:=ranges') dsplit (createSubtree (H:=ranges') dsplit depth)
    l sc = Some (u, t) →
  addScopesToTree (H:=ranges') dsplit (createSubtree (H:=ranges') dsplit depth)
    l (setDeclsSeen n sc) = Some (u', t') →
  scopes t = scopes t' ∧ newNodeInjectionPoint t = newNodeInjectionPoint t' ∧
  astDuplicates t = astDuplicates t' ∧ ranges t = ranges t'.
Proof.
  intros Hr Hr'.
  assert (agreeFrom 0 sc (setDeclsSeen n sc)) as HR.
  { split; simpl; try done; lia. }
  destruct (sim_addScopesToTree childlessRange 0 dsplit _
              (sim_createSubtree childlessRange 0 dsplit depth) l
              _ _ _ _ HR Hr) as (t'' & Hr'' & [Hs Hi Hd Hg Hc _ _]).
  rewrite Hr' in Hr''. injection Hr'' as _ <-.
  split; [done|]. split; [done|]. split; [done|].
  assert (cachedSourceRange (ranges t) = cachedSourceRange (ranges t')) as Hc'.
  { apply map_eq. intros i. apply Hc. lia. }
  destruct (ranges t), (ranges t'). simpl in *. by subst.
Qed.

(** Extending with the declarations appended since the last pass gives the
    creator that a single pass over all of them gives. *)
Lemma extend_equals_one_pass depth decls more sc0 sc1 sc2 sc12 :
  settled childlessRange sc0 →
  numberOfDeclsAlreadySeen sc0 ≤ length decls →
  addNewDeclsToTree (H:=ranges') dsplit depth decls sc0 = Some (tt, sc1) →
  addNewDeclsToTree (H:=ranges') dsplit depth (decls ++ more) sc1
    = Some (tt, sc2) →
  addNewDeclsToTree (H:=ranges') dsplit depth (decls ++ more) sc0
    = Some (tt, sc12) →
  sc2 = sc12.
Proof.
  intros Hs0 Hle HB1 HB2 HA.
  pose proof (addNewDeclsToTree_settled _ _ _ _ _ _ _ Hs0 HB1) as Hs1.
  apply addNewDeclsToTree_unfold in HB1 as (s1 & HB1 & ->).
  apply addNewDeclsToTree_unfold in HB2 as (s2 & HB2 & ->).
  apply addNewDeclsToTree_unfold in HA as (s12 & HA & ->).
  simpl in HB2. rewrite drop_app_length in HB2.
  rewrite drop_app_le, fmap_app in HA by done.
  set (l1 := N_Decl <$> drop (numberOfDeclsAlreadySeen sc0) decls) in *.
  set (l2 := N_Decl <$> more) in *.
  assert (scopes s2 = scopes s12 ∧
          newNodeInjectionPoint s2 = newNodeInjectionPoint s12 ∧
          astDuplicates s2 = astDuplicates s12 ∧ ranges s2 = ranges s12)
    as (? & ? & ? & ?); [|by apply setDeclsSeen_same].
  destruct (decide (l2 = [])) as [Hl2|Hl2].
  { rewrite Hl2, app_nil_r in *. rewrite HB1 in HA. injection HA as <-.
    by injection HB2 as <-. }
  destruct (decide (l1 = [])) as [Hl1|Hl1].
  { rewrite Hl1 in *. simpl in HA. injection HB1 as <-.
    destruct (addScopesToTree_setDeclsSeen _ _ _ _ _ _ _ _ HA HB2)
      as (? & ? & ? & ?).
    done. }
  destruct Hs0 as (Hw0 & Hc0 & Hu0). destruct Hs1 as (Hw1 & Hc1 & Hu1).
  assert (l1 ++ l2 ≠ []) as Hl12 by (by intros [? ?]%app_eq_nil).
  destruct (addScopesToTree_allUpToDate childlessRange dsplit depth _ _ _ _
              Hw0 Hc0 (λ i, settled_outside childlessRange _ i
                               (conj Hw0 (conj Hc0 Hu0))) Hl12 HA)
    as (HwA & HcA & HuA).
  destruct (addScopesToTree_allUpToDate childlessRange dsplit depth _ _ _ _
              Hw1 Hc1 (λ i, settled_outside childlessRange _ i
                               (conj Hw1 (conj Hc1 Hu1))) Hl2 HB2)
    as (HwB & HcB & HuB).
  apply addScopesToTree_unfold in HB1 as (t1 & HB1 & Hs1); [|done].
  apply addScopesToTree_unfold in HA as (tA & HA & ->); [|done].
  apply addScopesToTree_unfold in HB2 as (tB & HB2 & ->); [|done].
  rewrite forEach_app in HA. apply bind_Some in HA as ([] & t1' & HA1 & HA2).
  rewrite HB1 in HA1. injection HA1 as <-.
  assert (framed sc0 t1) as Hf1.
  { eapply forEach_addScopeToTree_framed; [done| |exact HB1].
    pose proof (framed_laws childlessRange sc0 Hw0) as Hlaws.
    apply (H_clear (Laws:=Hlaws)).
    - apply framed_refl; [done|apply below_injection_point|done].
    - split; [apply (wf_injection_point _ Hw0)|apply below_injection_point]. }
  subst s1.
  pose proof (agreeFrom_restart sc0 t1 (length decls) Hw0 Hf1 Hc1) as HR.
  destruct (sim_forEach_addScopeToTree childlessRange _ dsplit depth l2
              _ _ _ _ HR HA2) as (tB' & HB2' & [Hs Hi Hd Hg Hc _ _]).
  simpl in HB2, HB2'. rewrite HB2 in HB2'. injection HB2' as <-.
  split; [done|]. split; [done|]. split; [done|].
  symmetry. apply (allUpToDate_unique _ _ HwA); try done.
  simpl. unfold spec_cacheSourceRangesOfSlice.
  by rewrite !foldl_recompute_ignored.
Qed.

End OnePass.

(** ** C2, C6: extension and ranges *)

Lemma depthFor_app_l l1 l2 : depthFor l1 ≤ depthFor (l1 ++ l2).
Proof. unfold depthFor. rewrite fmap_app, sum_list_with_app. lia. Qed.

(** Extending when nothing was appended changes nothing. *)
Lemma addNewDeclsToTree_nothing_new {R} `{RangeOps R} dsplit depth decls
    (sc : ScopeCreator R) :
  numberOfDeclsAlreadySeen sc = length decls →
  addNewDeclsToTree dsplit depth decls sc = Some (tt, sc).
Proof.
  intros Hn. unfold addNewDeclsToTree, bind, get. rewrite Hn, drop_all. simpl.
  unfold modify, setDeclsSeen. rewrite <- Hn. by destruct sc.
Qed.

Lemma addNewDeclsToTree_seen {R} `{RangeOps R} dsplit depth decls
    (sc : ScopeCreator R) u sc' :
  addNewDeclsToTree dsplit depth decls sc = Some (u, sc') →
  numberOfDeclsAlreadySeen sc' = length decls.
Proof.
  unfold addNewDeclsToTree, bind at 1, get.
  by intros (v & sc1 & _ & [= <- <-])%bind_Some.
Qed.

(** C2. Over the range cache of the specification: building the tree for
    some declarations and extending it with the same declarations leaves
    the creator as the build left it (same scopes, same ranges); extending
    it after declarations were appended gives the very creator that
    building the tree for all of them in one pass gives; and extending
    that once more, with nothing new, changes nothing. [depth] is any
    recursion budget that suffices for the declarations. *)
Theorem C2_idempotent_incremental_extension childlessRange dsplit depth
    (decls more : list Decl) :
  depthFor (decls ++ more) ≤ depth →
  ∃ sc1 sc2,
    createScopeTreeFor (H:=specRanges childlessRange) dsplit depth decls
      = Some (tt, sc1) ∧
    addAnyNewScopesToTree (H:=specRanges childlessRange) dsplit depth decls sc1
      = Some (tt, sc1) ∧
    addAnyNewScopesToTree (H:=specRanges childlessRange) dsplit depth
      (decls ++ more) sc1 = Some (tt, sc2) ∧
    createScopeTreeFor (H:=specRanges childlessRange) dsplit depth
      (decls ++ more) = Some (tt, sc2) ∧
    addAnyNewScopesToTree (H:=specRanges childlessRange) dsplit depth
      (decls ++ more) sc2 = Some (tt, sc2).
Proof.
  intros Hd. pose proof (depthFor_app_l decls more) as Hd1.
  unfold createScopeTreeFor, addAnyNewScopesToTree.
  destruct (addNewDeclsToTree_total (H:=specRanges childlessRange) dsplit depth
              decls ltac:(lia) (newScopeCreator (H:=specRanges childlessRange)))
    as [[[] sc1] H1].
  destruct (addNewDeclsToTree_total (H:=specRanges childlessRange) dsplit depth
              (decls ++ more) Hd sc1) as [[[] sc2] H2].
  destruct (addNewDeclsToTree_total (H:=specRanges childlessRange) dsplit depth
              (decls ++ more) Hd
              (newScopeCreator (H:=specRanges childlessRange)))
    as [[[] sc12] H12].
  assert (sc2 = sc12) as <-.
  { eapply (extend_equals_one_pass childlessRange dsplit depth decls more
              (newScopeCreator (H:=specRanges childlessRange))); try done.
    - apply settled_newScopeCreator.
    - simpl. lia. }
  exists sc1, sc2. split; [done|]. split; [|split; [done|split; [done|]]].
  - apply addNewDeclsToTree_nothing_new. by eapply addNewDeclsToTree_seen.
  - apply addNewDeclsToTree_nothing_new. by eapply addNewDeclsToTree_seen.
Qed.

Lemma C2_witness :
  ∃ sc1 sc2,
    createScopeTreeFor (H:=exampleRanges) neverSplits 60
      [D_PatternBinding oneEntryBinding; D_Type structWithImport]
      = Some (tt, sc1) ∧
    addAnyNewScopesToTree (H:=exampleRanges) neverSplits 60
      [D_PatternBinding oneEntryBinding; D_Type structWithImport] sc1
      = Some (tt, sc1) ∧
    addAnyNewScopesToTree (H:=exampleRanges) neverSplits 60
      ([D_PatternBinding oneEntryBinding; D_Type structWithImport]
       ++ [importAfterStruct]) sc1 = Some (tt, sc2) ∧
    createScopeTreeFor (H:=exampleRanges) neverSplits 60
      ([D_PatternBinding oneEntryBinding; D_Type structWithImport]
       ++ [importAfterStruct]) = Some (tt, sc2) ∧
    addAnyNewScopesToTree (H:=exampleRanges) neverSplits 60
      ([D_PatternBinding oneEntryBinding; D_Type structWithImport]
       ++ [importAfterStruct]) sc2 = Some (tt, sc2).
Proof.
  apply (C2_idempotent_incremental_extension (λ _, invalidRange) neverSplits 60
           [D_PatternBinding oneEntryBinding; D_Type structWithImport]
           [importAfterStruct]).
  vm_compute. lia.
Defined.

(** C6. Over the range cache of the specification: after every public
    operation, that is after [createScopeTreeFor] and after each
    [addAnyNewScopesToTree] that follows, the cached source range of a
    scope covers the cached source range of every scope below it. *)
Theorem C6_range_containment childlessRange dsplit
    (sc : ScopeCreator RangeCache) p d rp rd :
  extendedFrom (H:=specRanges childlessRange) dsplit
    (newScopeCreator (H:=specRanges childlessRange)) sc →
  p ∈ ancestors (scopes sc) d →
  cachedSourceRange (ranges sc) !! p = Some rp →
  cachedSourceRange (ranges sc) !! d = Some rd →
  rangeContains rp rd.
Proof.
  intros Hx. eapply settled_contains.
  eapply extendedFrom_settled; [|exact Hx]. apply settled_newScopeCreator.
Qed.

Lemma C6_witness : rangeContains (exampleRange 3 12) (exampleRange 3 4).
Proof.
  apply (C6_range_containment (λ _, invalidRange) neverSplits exampleTree 0 2).
  - eapply (extended_step _ _ _ 30 [D_Type structWithImport; importAfterStruct]);
      [apply extended_refl|].
    vm_compute. reflexivity.
  - vm_compute. apply list_elem_of_further, list_elem_of_here.
  - vm_compute. reflexivity.
  - vm_compute. reflexivity.
Defined.

(** * Further properties of the builder *)

(** ** The shape of the tree after any number of extensions *)

Lemma wellFormed_new {R} `{RangeOps R} : wellFormed (newScopeCreator (R:=R)).
Proof.
  split; simpl.
  - intros [|i] q; [done|]. by destruct i.
  - intros [|p] c; simpl; [by intros ?%elem_of_nil|].
    destruct p; by intros ?%elem_of_nil.
  - intros p [|c]; [done|]. by destruct c.
  - intros i Hi. lia.
  - intros [|p] s q; [by intros [= <-]|by destruct p].
  - unfold sourceFileScope. lia.
Qed.

Lemma addNewDeclsToTree_wellFormed {R} `{RangeOps R} dsplit depth decls
    (sc : ScopeCreator R) u sc' :
  wellFormed sc →
  addNewDeclsToTree dsplit depth decls sc = Some (u, sc') → wellFormed sc'.
Proof.
  intros Hw Hr.
  by destruct (spec_addNewDeclsToTree (P:=Ext) (Inv:=wellFormed)
                 (Good:=inScopes) (New:=anyScope) dsplit depth decls
                 _ _ _ Hw ltac:(apply GoodAll_nil) Hr) as (_ & ? & _).
Qed.

Lemma extendedFrom_wellFormed {R} `{RangeOps R} dsplit (sc sc' : ScopeCreator R) :
  wellFormed sc → extendedFrom dsplit sc sc' → wellFormed sc'.
Proof.
  intros Hw. induction 1 as [|sc1 depth decls sc2 _ IH Hr]; [done|].
  by eapply addNewDeclsToTree_wellFormed.
Qed.

(** In a well-formed tree every scope but the first hangs, through its
    parents, from the first. *)
Lemma wellFormed_rooted {R} (sc : ScopeCreator R) i :
  wellFormed sc → 0 < i < length (scopes sc) → 0 ∈ ancestors (scopes sc) i.
Proof.
  intros Hw. pose proof (wf_parent_before _ Hw) as Hb.
  induction (lt_wf i) as [i _ IH]. intros Hi.
  destruct (wf_has_parent _ Hw i Hi) as [q Hq].
  rewrite (ancestors_parent _ Hb _ _ Hq). pose proof (Hb _ _ Hq) as Hlt.
  destruct (decide (q = 0)) as [->|Hne]; [left|].
  right. apply IH; lia.
Qed.

(** X1. After [createScopeTreeFor] and any number of calls of
    [addAnyNewScopesToTree], the two directions of the tree agree: a scope
    is among the stored children of [p] exactly when [p] is its parent,
    and a parent was allocated before its child. *)
Theorem tree_links_agree {R} `{RangeOps R} dsplit (sc : ScopeCreator R) p c :
  extendedFrom dsplit newScopeCreator sc →
  (c ∈ childrenOf (scopes sc) p ↔ parentOf (scopes sc) c = Some p) ∧
  (parentOf (scopes sc) c = Some p → p < c < length (scopes sc)).
Proof.
  intros Hx. pose proof (extendedFrom_wellFormed _ _ _ wellFormed_new Hx) as Hw.
  split; [split|].
  - apply (wf_children _ Hw).
  - apply (wf_child_listed _ Hw).
  - intros Hp. split; [by apply (wf_parent_before _ Hw)|by eapply parentOf_lt].
Qed.

Lemma tree_links_agree_witness :
  (2 ∈ childrenOf (scopes exampleTree) 1
   ↔ parentOf (scopes exampleTree) 2 = Some 1) ∧
  (parentOf (scopes exampleTree) 2 = Some 1 → 1 < 2 < length (scopes exampleTree)).
Proof.
  apply (tree_links_agree (H:=exampleRanges) neverSplits exampleTree 1 2).
  eapply (extended_step _ _ _ 30 [D_Type structWithImport; importAfterStruct]);
    [apply extended_refl|].
  vm_compute. reflexivity.
Defined.

(** X2. The tree has one root: after any number of extensions the first
    scope is still the [ASTSourceFileScope], it has no parent, and every
    other scope reaches it through its parents. *)
Theorem every_scope_descends_from_the_source_file {R} `{RangeOps R} dsplit
    (sc : ScopeCreator R) i :
  extendedFrom dsplit newScopeCreator sc →
  dataOf (scopes sc) sourceFileScope = Some ASTSourceFileScope ∧
  parentOf (scopes sc) sourceFileScope = None ∧
  (0 < i < length (scopes sc) → sourceFileScope ∈ ancestors (scopes sc) i).
Proof.
  intros Hx. pose proof (extendedFrom_wellFormed _ _ _ wellFormed_new Hx) as Hw.
  split; [|split].
  - eapply Ext_data; [by eapply extendedFrom_Ext|]. done.
  - destruct (parentOf (scopes sc) sourceFileScope) as [q|] eqn:Hq; [|done].
    apply (wf_parent_before _ Hw) in Hq. unfold sourceFileScope in Hq. lia.
  - by apply wellFormed_rooted.
Qed.

Lemma every_scope_descends_from_the_source_file_witness :
  sourceFileScope ∈ ancestors (scopes exampleTree) 2.
Proof.
  apply (every_scope_descends_from_the_source_file (H:=exampleRanges)
           neverSplits exampleTree 2).
  - eapply (extended_step _ _ _ 30 [D_Type structWithImport; importAfterStruct]);
      [apply extended_refl|].
    vm_compute. reflexivity.
  - vm_compute. lia.
Defined.

(** X3. Extending the tree only adds to it: a scope that was there keeps
    its class, its payload and its parent, and its children are still its
    first children; no identity leaves the duplicate set; and the count of
    the declarations seen is the length of the list handed in. *)
Theorem extension_only_grows_the_tree {R} `{RangeOps R} dsplit depth decls
    (sc : ScopeCreator R) u sc' :
  addAnyNewScopesToTree dsplit depth decls sc = Some (u, sc') →
  (∀ i s, scopes sc !! i = Some s →
     ∃ s', scopes sc' !! i = Some s' ∧ data s' = data s ∧
           parent s' = parent s ∧
           storedChildren s `prefix_of` storedChildren s') ∧
  astDuplicates sc ⊆ astDuplicates sc' ∧
  numberOfDeclsAlreadySeen sc' = length decls.
Proof.
  intros Hr. pose proof (addNewDeclsToTree_Ext _ _ _ _ _ _ Hr) as [He Hd].
  split; [exact He|]. split; [exact Hd|].
  by eapply addNewDeclsToTree_seen.
Qed.

Lemma extension_only_grows_the_tree_witness :
  numberOfDeclsAlreadySeen exampleTree = 2.
Proof.
  apply (extension_only_grows_the_tree (H:=exampleRanges) neverSplits 30
           [D_Type structWithImport; importAfterStruct]
           (newScopeCreator (H:=exampleRanges)) tt exampleTree).
  vm_compute. reflexivity.
Defined.

(** X4. The build returns: with a recursion budget of [depthFor decls],
    which the size of the declarations bounds, [addAnyNewScopesToTree]
    comes back with a creator from every state, so the mutual recursion of
    [createSubtree] and the expansions ends on every syntax tree. *)
Theorem extension_returns {R} `{RangeOps R} dsplit depth decls
    (sc : ScopeCreator R) :
  depthFor decls ≤ depth →
  ∃ sc', addAnyNewScopesToTree dsplit depth decls sc = Some (tt, sc').
Proof.
  intros Hd. destruct (addNewDeclsToTree_total dsplit depth decls Hd sc)
    as [[[] sc'] Hr]. by exists sc'.
Qed.

Lemma extension_returns_witness :
  ∃ sc', addAnyNewScopesToTree (H:=exampleRanges) neverSplits 30
           [D_Type structWithImport; importAfterStruct] exampleTree
         = Some (tt, sc').
Proof.
  apply (extension_returns (H:=exampleRanges) neverSplits 30
           [D_Type structWithImport; importAfterStruct] exampleTree).
  vm_compute. lia.
Defined.

Lemma getStatementConditionIfAny_wellFormed {R} (sc : ScopeCreator R) p :
  wellFormed sc → getStatementConditionIfAny p sc = Some (p, sc).
Proof.
  intros Hw. unfold getStatementConditionIfAny, bind, get, ret. do 2 f_equal.
  destruct (scopes sc !! p) as [s|] eqn:Hs; [|done].
  destruct (data s); try done.
  destruct (statementConditionElementPatternScope s) as [q|] eqn:Hq; [|done].
  simpl. by apply (wf_pattern _ Hw _ _ _ Hs Hq).
Qed.

(** X5. The override of [getStatementConditionIfAny] never changes the
    answer: a conditional clause that has recorded the scope of its
    pattern has recorded itself, because [createSubtree] hands back the
    parent of a [StatementConditionElementPatternScope]; so in every tree
    the builder makes, each scope answers with itself. *)
Theorem statement_condition_is_the_clause_itself {R} `{RangeOps R} dsplit
    (sc : ScopeCreator R) p :
  extendedFrom dsplit newScopeCreator sc →
  getStatementConditionIfAny p sc = Some (p, sc) ∧
  ∀ s q, scopes sc !! p = Some s →
         statementConditionElementPatternScope s = Some q → q = p.
Proof.
  intros Hx. pose proof (extendedFrom_wellFormed _ _ _ wellFormed_new Hx) as Hw.
  split; [by apply getStatementConditionIfAny_wellFormed|].
  apply (wf_pattern _ Hw).
Qed.

Lemma statement_condition_is_the_clause_itself_witness :
  getStatementConditionIfAny 4 treeOfIfLet = Some (4, treeOfIfLet).
Proof.
  apply (statement_condition_is_the_clause_itself (H:=exampleRanges)
           neverSplits treeOfIfLet 4).
  eapply (extended_step _ _ _ 60 ifLetFile); [apply extended_refl|].
  vm_compute. reflexivity.
Defined.

(** ** Where an extension puts its scopes *)

Section TreeFrame.
Context {R : Type} `{RangeOps R}.
Variable sc0 : ScopeCreator R.
Hypothesis wf0 : wellFormed sc0.

Local Abbreviation a0 := (scopes sc0).
Local Abbreviation ip0 := (newNodeInjectionPoint sc0).

Lemma outside_not_below i : outside sc0 i → ¬ below sc0 i.
Proof. intros (Hlt & Hd & Ha) [Hge|Hb]; [lia|congruence]. Qed.

Lemma treeFramed_refl : treeFramed sc0 sc0.
Proof.
  split; [done|apply Ext_refl|done| |].
  - intros i q Hi Hq. apply parentOf_lt in Hq. lia.
  - right. apply isDescendantOrSelf_refl.
Qed.

Lemma treeFramed_length sc : treeFramed sc0 sc → length a0 ≤ length (scopes sc).
Proof. intros Hf. apply Ext_length, (tf_Ext _ _ Hf). Qed.

(** A step that leaves the scopes as they are. *)
Lemma treeFramed_update sc sc' :
  treeFramed sc0 sc → scopes sc' = scopes sc →
  astDuplicates sc ⊆ astDuplicates sc' →
  newNodeInjectionPoint sc' < length (scopes sc) →
  below sc0 (newNodeInjectionPoint sc') →
  treeFramed sc0 sc'.
Proof.
  intros [Hw He Ho Hn Hi] Hs Hd Hlt Hb. split.
  - destruct Hw. split; rewrite ?Hs; done.
  - eapply Ext_trans; [done|]. by apply Ext_same.
  - intros i Hout. rewrite Hs. by apply Ho.
  - intros i q. rewrite Hs. apply Hn.
  - done.
Qed.

Lemma treeFramed_ranges sc rc :
  treeFramed sc0 sc → treeFramed sc0 (setRanges rc sc).
Proof.
  intros Hf. apply (treeFramed_update sc); try done.
  - apply (wf_injection_point _ (tf_wellFormed _ _ Hf)).
  - apply (tf_injection_point _ _ Hf).
Qed.

Lemma treeFramed_laws :
  Laws Ext (treeFramed sc0) (goodBelow sc0) (isNew sc0).
Proof.
  split.
  - apply Ext_refl.
  - apply Ext_trans.
  - intros p sc sc' He%Ext_length [Hp Hb]. split; [lia|done].
  - intros d p sc Hf [Hp Hb]. pose proof (treeFramed_length _ Hf) as Hlen.
    split; [apply Ext_allocChild|]. split; [|split].
    + destruct Hf as [Hw He Ho Hn Hi]. split.
      * by apply wellFormed_allocChild.
      * eapply Ext_trans; [done|apply Ext_allocChild].
      * intros i Hout. rewrite <- (Ho i Hout).
        rewrite allocChild_lookup by done.
        destruct Hout as (Hlt & Hout). rewrite decide_False by lia.
        destruct (scopes sc !! i) as [s|]; [|done]. simpl.
        rewrite decide_False; [done|]. intros ->.
        by eapply outside_not_below.
      * intros i q Hi'. rewrite parentOf_allocChild by done.
        destruct (decide (i = _)); [by intros [= <-]|by apply Hn].
      * done.
    + split; [rewrite allocChild_length; lia|by left].
    + done.
  - intros sc this q Hf Hn [Ht Hb] Hq. split.
    + apply (wf_parent_before _ (tf_wellFormed _ _ Hf)) in Hq. lia.
    + by eapply (tf_new_parents _ _ Hf).
  - intros p r sc Hf _. simpl. split; [by apply Ext_same|].
    by apply treeFramed_ranges.
  - intros p sc Hf _. simpl. split; [by apply Ext_same|].
    by apply treeFramed_ranges.
  - intros p sc Hf _. simpl. split; [by apply Ext_same|].
    by apply treeFramed_ranges.
  - intros p sc Hf _. simpl. split; [by apply Ext_same|].
    by apply treeFramed_ranges.
  - intros x sc Hf. simpl.
    assert (astDuplicates sc ⊆ {[x]} ∪ astDuplicates sc) as Hsub
      by apply union_subseteq_r.
    split; [by apply Ext_same|].
    apply (treeFramed_update sc); try done.
    + apply (wf_injection_point _ (tf_wellFormed _ _ Hf)).
    + apply (tf_injection_point _ _ Hf).
  - intros p sc Hf [Hp Hb]. split; [by apply Ext_same|].
    by apply (treeFramed_update sc).
  - intros this sc Hf [Hp Hb]. simpl. split; [by apply Ext_alter|].
    destruct Hf as [Hw He Ho Hn Hi]. split; simpl.
    + by apply wellFormed_setPatternScope.
    + eapply Ext_trans; [done|]. by apply Ext_alter.
    + intros i Hout. rewrite <- (Ho i Hout).
      rewrite list_lookup_alter_ne; [done|].
      intros ->. by eapply outside_not_below.
    + intros i q. rewrite parentOf_setPatternScope. apply Hn.
    + done.
  - intros n sc Hf. split; [by apply Ext_same|].
    apply (treeFramed_update sc); try done.
    + apply (wf_injection_point _ (tf_wellFormed _ _ Hf)).
    + apply (tf_injection_point _ _ Hf).
  - intros sc Hf. split.
    + apply (wf_injection_point _ (tf_wellFormed _ _ Hf)).
    + apply (tf_injection_point _ _ Hf).
  - intros sc p s q Hf Hp Hs Hq.
    by rewrite (wf_pattern _ (tf_wellFormed _ _ Hf) _ _ _ Hs Hq).
Qed.

Lemma treeFramed_ancestors_old sc i :
  treeFramed sc0 sc → i < length a0 → ancestors (scopes sc) i = ancestors a0 i.
Proof.
  intros Hf Hi. apply ancestors_agree.
  - apply (wf_parent_before _ wf0).
  - apply (wf_parent_before _ (tf_wellFormed _ _ Hf)).
  - intros j Hj. apply Ext_parentOf_old; [apply (tf_Ext _ _ Hf)|lia].
Qed.

(** A scope at or below the injection point of [sc0] is still so in the
    tree as it has become. *)
Lemma treeFramed_below sc i :
  treeFramed sc0 sc → below sc0 i → i < length (scopes sc) →
  isDescendantOrSelf (scopes sc) ip0 i = true.
Proof.
  intros Hf. pose proof (wf_parent_before _ (tf_wellFormed _ _ Hf)) as Hb.
  induction (lt_wf i) as [i _ IH]. intros Hbel Hlt.
  destruct (decide (length a0 ≤ i)) as [Hge|Hold].
  - destruct (wf_has_parent _ (tf_wellFormed _ _ Hf) i) as [q Hq].
    { pose proof (wf_injection_point _ wf0). lia. }
    pose proof (Hb _ _ Hq) as Hqi.
    eapply isDescendantOrSelf_parent; [done|done|].
    apply IH; [done|by eapply (tf_new_parents _ _ Hf)|lia].
  - destruct Hbel as [?|Hd]; [lia|].
    unfold isDescendantOrSelf in *.
    by rewrite (treeFramed_ancestors_old _ _ Hf) by lia.
Qed.

End TreeFrame.

Lemma addNewDeclsToTree_treeFramed {R} `{RangeOps R} dsplit depth decls
    (sc : ScopeCreator R) u sc' :
  wellFormed sc →
  addNewDeclsToTree dsplit depth decls sc = Some (u, sc') →
  treeFramed sc sc'.
Proof.
  intros Hw Hr.
  pose proof (treeFramed_laws sc) as Hlaws.
  by destruct (spec_addNewDeclsToTree (Laws0:=Hlaws) dsplit depth decls
                 _ _ _ (treeFramed_refl sc Hw) ltac:(apply GoodAll_nil) Hr)
    as (_ & ? & _).
Qed.

Lemma extendedFrom_treeFramed {R} `{RangeOps R} dsplit depth decls
    (sc : ScopeCreator R) u sc' :
  extendedFrom dsplit newScopeCreator sc →
  addAnyNewScopesToTree dsplit depth decls sc = Some (u, sc') →
  treeFramed sc sc'.
Proof.
  intros Hx. apply addNewDeclsToTree_treeFramed.
  by eapply extendedFrom_wellFormed; [apply wellFormed_new|].
Qed.

(** X6. An extension puts its scopes below the injection point it starts
    from: every scope it allocates descends from that injection point,
    and a scope that lies neither in the subtree of the injection point
    nor among its ancestors is left exactly as it was, children
    included. *)
Theorem extension_adds_below_the_injection_point {R} `{RangeOps R} dsplit
    depth decls (sc : ScopeCreator R) u sc' :
  extendedFrom dsplit newScopeCreator sc →
  addAnyNewScopesToTree dsplit depth decls sc = Some (u, sc') →
  (∀ i, length (scopes sc) ≤ i < length (scopes sc') →
        newNodeInjectionPoint sc ∈ ancestors (scopes sc') i) ∧
  (∀ i, outside sc i → scopes sc' !! i = scopes sc !! i).
Proof.
  intros Hx Hr.
  pose proof (extendedFrom_wellFormed _ _ _ wellFormed_new Hx) as Hw.
  pose proof (extendedFrom_treeFramed _ _ _ _ _ _ Hx Hr) as Hf.
  split; [|apply (tf_outside _ _ Hf)].
  intros i [Hge Hlt].
  pose proof (treeFramed_below sc Hw sc' i Hf ltac:(by left) Hlt) as Hd.
  apply isDescendantOrSelf_spec in Hd as [->|Hin]; [|done].
  pose proof (wf_injection_point _ Hw). lia.
Qed.

Lemma extension_adds_below_the_injection_point_witness :
  newNodeInjectionPoint treeOfStructThenBinding
  ∈ ancestors (scopes treeWithFunc) 8 ∧
  scopes treeWithFunc !! 1 = scopes treeOfStructThenBinding !! 1.
Proof.
  destruct (extension_adds_below_the_injection_point (H:=exampleRanges)
              neverSplits 30 (structThenBinding ++ [D_Func exampleFunc])
              treeOfStructThenBinding tt treeWithFunc) as [Hnew Hout].
  { eapply (extended_step _ _ _ 30 structThenBinding); [apply extended_refl|].
    vm_compute. reflexivity. }
  { vm_compute. reflexivity. }
  split.
  - apply Hnew. vm_compute. lia.
  - apply Hout. vm_compute. split; [lia|]. split; [reflexivity|].
    intros Hin. repeat (apply elem_of_cons in Hin as [Hin|Hin]; [lia|]).
    by apply elem_of_nil in Hin.
Defined.

(** X7. The injection point only moves down: after an extension it is
    the injection point the extension started from, or a scope below
    it. *)
Theorem injection_point_only_moves_down {R} `{RangeOps R} dsplit depth decls
    (sc : ScopeCreator R) u sc' :
  extendedFrom dsplit newScopeCreator sc →
  addAnyNewScopesToTree dsplit depth decls sc = Some (u, sc') →
  newNodeInjectionPoint sc' = newNodeInjectionPoint sc ∨
  newNodeInjectionPoint sc ∈ ancestors (scopes sc') (newNodeInjectionPoint sc').
Proof.
  intros Hx Hr.
  pose proof (extendedFrom_wellFormed _ _ _ wellFormed_new Hx) as Hw.
  pose proof (extendedFrom_treeFramed _ _ _ _ _ _ Hx Hr) as Hf.
  apply isDescendantOrSelf_spec.
  apply (treeFramed_below sc Hw); [done|apply (tf_injection_point _ _ Hf)|].
  apply (wf_injection_point _ (tf_wellFormed _ _ Hf)).
Qed.

Lemma injection_point_only_moves_down_witness :
  newNodeInjectionPoint treeOfStructThenBinding = newNodeInjectionPoint exampleCreator ∨
  newNodeInjectionPoint exampleCreator
  ∈ ancestors (scopes treeOfStructThenBinding)
              (newNodeInjectionPoint treeOfStructThenBinding).
Proof.
  apply (injection_point_only_moves_down (H:=exampleRanges) neverSplits 30
           structThenBinding exampleCreator tt treeOfStructThenBinding).
  - apply extended_refl.
  - vm_compute. reflexivity.
Defined.

(** ** Scopes that are not expanded *)

(** A scope whose class has [NO_EXPANSION] is allocated under its parent
    and nothing else happens; the parent comes back. *)
Lemma createSubtree_no_expansion {R} `{RangeOps R} dsplit depth d p
    (sc : ScopeCreator R) :
  expansionKind d = NO_EXPANSION →
  createSubtree dsplit (S depth) d p sc = Some (p, allocChild d p sc).
Proof.
  intros Hk. simpl. rewrite createSubtreeStep_eq. unfold expandMe. rewrite Hk.
  unfold getParent. pose proof (allocChild_parentOf d p sc) as Hp.
  unfold parentOf in Hp. by rewrite Hp.
Qed.

Section GenericParams.
Context {R : Type} `{RangeOps R}.
Variable dsplit : ScopeData → bool.
Variable depth : nat.
Variable info : NodeInfo.
Variable params : list nat.
Variable parent : ScopePtr.

Local Abbreviation body :=
  (λ (s : ScopePtr) (i : nat),
     do dup <- isDuplicate (R:=R) (default 0 (params !! i)) true;
     if negb dup
     then createSubtree dsplit depth (GenericParamScope info params i) s
     else ret s).

Lemma genericParams_loop l (sc : ScopeCreator R) r sc' :
  parent < length (scopes sc) →
  forEachWith l parent body sc = Some (r, sc') →
  r = parent ∧ Ext sc sc' ∧
  ∀ j, length (scopes sc) ≤ j < length (scopes sc') →
       parentOf (scopes sc') j = Some parent ∧
       ∃ k, dataOf (scopes sc') j = Some (GenericParamScope info params k).
Proof.
  revert sc. induction l as [|i l IH]; intros sc Hp; simpl.
  { intros [= <- <-]. split; [done|]. split; [apply Ext_refl|]. lia. }
  intros (s1 & sc1 & Hb & Hl)%bind_Some.
  apply bind_Some in Hb as (dup & scd & Hd & Hb).
  unfold isDuplicate in Hd. injection Hd as <- <-.
  set (scd := setDuplicates _ sc) in *.
  assert (Ext sc scd) as Hed.
  { apply Ext_same; [done|]. simpl. apply union_subseteq_r. }
  destruct (negb _).
  - destruct depth as [|n]; [done|].
    rewrite createSubtree_no_expansion in Hb by done.
    injection Hb as <- <-.
    set (d := GenericParamScope info params i) in *.
    destruct (IH (allocChild d parent scd)) as (-> & He & Hnew); [|done|].
    { rewrite allocChild_length. simpl. lia. }
    split; [done|]. split.
    { eapply Ext_trans; [done|]. eapply Ext_trans; [apply Ext_allocChild|done]. }
    intros j [Hge Hlt]. rewrite allocChild_length in Hnew. simpl in Hnew.
    destruct (decide (j = length (scopes sc))) as [->|Hne]; [|apply Hnew; lia].
    split.
    + eapply Ext_parentOf; [done|]. apply (allocChild_parentOf d parent scd).
    + exists i. eapply Ext_dataOf; [done|]. apply (allocChild_data d parent scd).
  - injection Hb as <- <-.
    destruct (IH scd) as (-> & He & Hnew); [done|done|].
    split; [done|]. split; [by eapply Ext_trans|done].
Qed.

End GenericParams.

(** X8. The scopes of generic parameters are siblings, not nested: each
    [GenericParamScope] hands back its parent, so
    [createGenericParamScopes] returns the scope it was given, and every
    scope it allocates is a [GenericParamScope] of the list whose parent
    is that scope. *)
Theorem createGenericParamScopes_makes_siblings {R} `{RangeOps R} dsplit depth
    info generics parent (sc : ScopeCreator R) r sc' :
  parent < length (scopes sc) →
  createGenericParamScopes (createSubtree dsplit depth) info generics parent sc
    = Some (r, sc') →
  r = parent ∧
  ∀ j, length (scopes sc) ≤ j < length (scopes sc') →
       parentOf (scopes sc') j = Some parent ∧
       ∃ params k, generics = Some params ∧
                   dataOf (scopes sc') j = Some (GenericParamScope info params k).
Proof.
  intros Hp. unfold createGenericParamScopes.
  destruct generics as [params|].
  - intros (-> & _ & Hnew)%genericParams_loop; [|done].
    split; [done|]. intros j Hj. destruct (Hnew j Hj) as (? & k & ?).
    split; [done|]. by exists params, k.
  - intros [= <- <-]. split; [done|]. lia.
Qed.

Lemma createGenericParamScopes_makes_siblings_witness :
  parentOf (scopes treeWithGenericParams) 2 = Some 0.
Proof.
  destruct (createGenericParamScopes_makes_siblings (H:=exampleRanges)
              neverSplits 5 (mkInfo 1600 (exampleRange 1 9) false)
              twoGenericParams 0 exampleCreator 0 treeWithGenericParams)
    as [_ Hnew]; [vm_compute; lia|vm_compute; reflexivity|].
  apply Hnew. vm_compute. lia.
Defined.

(** ** Specialize attributes *)

Lemma insertByLocation_perm a l : insertByLocation a l ≡ₚ a :: l.
Proof.
  induction l as [|b l IH]; simpl; [done|].
  destruct (attr_loc a <? attr_loc b); [done|].
  rewrite IH. apply Permutation_swap.
Qed.

Lemma sortByLocation_perm l : sortByLocation l ≡ₚ l.
Proof.
  induction l as [|a l IH]; simpl; [done|].
  unfold sortByLocation in *. simpl. by rewrite insertByLocation_perm, IH.
Qed.

Lemma insertByLocation_sorted a l :
  StronglySorted notAfter l → StronglySorted notAfter (insertByLocation a l).
Proof.
  induction 1 as [|b l Hs IH Hb]; simpl.
  { constructor; [constructor|done]. }
  destruct (attr_loc a <? attr_loc b) eqn:Hlt.
  - apply Nat.ltb_lt in Hlt. constructor; [by constructor|].
    constructor; [unfold notAfter; lia|].
    eapply Forall_impl; [exact Hb|]. unfold notAfter. intros; lia.
  - apply Nat.ltb_ge in Hlt. constructor; [done|].
    rewrite insertByLocation_perm. by constructor.
Qed.

Lemma sortByLocation_sorted l : StronglySorted notAfter (sortByLocation l).
Proof.
  induction l as [|a l IH]; [constructor|].
  unfold sortByLocation in *. simpl. by apply insertByLocation_sorted.
Qed.

Lemma setDuplicates_same {R} (sc : ScopeCreator R) (s : gset nat) :
  s = astDuplicates sc → setDuplicates s sc = sc.
Proof. intros ->. by destruct sc. Qed.

Lemma collect_fresh_attrs {R} l acc (sc : ScopeCreator R) :
  forEachWith l acc (λ acc specializeAttr,
    do dup <- isDuplicate (attr_id specializeAttr) true;
    ret (if negb dup then acc ++ [specializeAttr] else acc)) sc
  = Some (acc ++ firstEncounters (astDuplicates sc) l,
          setDuplicates (list_to_set (attr_id <$> l) ∪ astDuplicates sc) sc).
Proof.
  revert acc sc. induction l as [|a l IH]; intros acc sc; simpl.
  { rewrite app_nil_r. unfold ret. do 2 f_equal. symmetry.
    apply setDuplicates_same. simpl.
    by rewrite (left_id_L ∅ (∪)). }
  unfold bind at 1. unfold bind at 1. unfold isDuplicate, ret.
  rewrite IH. simpl. f_equal. f_equal.
  - destruct (decide (attr_id a ∈ astDuplicates sc)) as [Hin|Hnot].
    + rewrite bool_decide_eq_true_2 by done. simpl.
      by rewrite (subseteq_union_1_L {[attr_id a]} (astDuplicates sc))
        by (by apply singleton_subseteq_l).
    + rewrite bool_decide_eq_false_2 by done. simpl. by rewrite <- app_assoc.
  - unfold setDuplicates. simpl. f_equal.
    change (list_fmap SpecializeAttr ScopePtr attr_id l) with (attr_id <$> l).
    rewrite (assoc_L (∪) (list_to_set _)). f_equal. apply (comm_L (∪)).
Qed.

(** X9. [forEachSpecializeAttrInSourceOrder] first registers every
    specialize attribute of the declaration, and only then runs the
    callback: on each attribute that was not registered before, once, the
    attributes ordered by their locations. *)
Theorem specialize_attributes_in_source_order {R}
    (decl : AbstractFunctionDecl) (fn : SpecializeAttr → M R unit)
    (sc : ScopeCreator R) :
  forEachSpecializeAttrInSourceOrder decl fn sc
  = forEach (sortByLocation
               (firstEncounters (astDuplicates sc) (func_attrs decl))) fn
      (setDuplicates
         (list_to_set (attr_id <$> func_attrs decl) ∪ astDuplicates sc) sc) ∧
  sortByLocation (firstEncounters (astDuplicates sc) (func_attrs decl))
  ≡ₚ firstEncounters (astDuplicates sc) (func_attrs decl) ∧
  StronglySorted notAfter
    (sortByLocation (firstEncounters (astDuplicates sc) (func_attrs decl))).
Proof.
  split; [|split; [apply sortByLocation_perm|apply sortByLocation_sorted]].
  unfold forEachSpecializeAttrInSourceOrder. unfold bind at 1.
  by rewrite collect_fresh_attrs.
Qed.

(** ** Accessors *)

Section Accessors.
Context {R : Type} `{RangeOps R}.
Variable rec : ScopeData → ScopePtr → M R ScopePtr.

Lemma registered_accessor_is_passed_over accessor p (sc : ScopeCreator R) :
  func_self accessor ∈ astDuplicates sc →
  addChildrenForAllExplicitAccessors rec [accessor] p sc = Some (tt, sc).
Proof.
  intros Hin. unfold addChildrenForAllExplicitAccessors. simpl.
  destruct (_ && _); [|done]. simpl.
  unfold bind, isDuplicate, get, ret. simpl.
  rewrite bool_decide_eq_true_2 by done. simpl. do 2 f_equal.
  apply setDuplicates_same. simpl.
  by apply subseteq_union_1_L, singleton_subseteq_l.
Qed.

End Accessors.

(** X10. An explicit accessor is used up the first time
    [addChildrenForAllExplicitAccessors] meets it: [isDuplicate] registers
    it before the storage declarations are compared, so when the parent's
    enclosing storage declaration is not the accessor's storage, no scope
    is created then, and none later either, under any parent. *)
Theorem accessor_of_another_storage_is_used_up {R} `{RangeOps R}
    (rec : ScopeData → ScopePtr → M R ScopePtr) accessor p
    (sc : ScopeCreator R) :
  node_implicit (func_info accessor) = false →
  loc_isValid (getStartLoc (func_info accessor)) = true →
  getEnclosingAbstractStorageDecl (scopes sc) p ≠ func_storage accessor →
  ∃ sc1,
    addChildrenForAllExplicitAccessors rec [accessor] p sc = Some (tt, sc1) ∧
    scopes sc1 = scopes sc ∧
    func_self accessor ∈ astDuplicates sc1 ∧
    ∀ p2, addChildrenForAllExplicitAccessors rec [accessor] p2 sc1
          = Some (tt, sc1).
Proof.
  intros Himp Hloc Hst.
  exists (setDuplicates ({[func_self accessor]} ∪ astDuplicates sc) sc).
  assert (func_self accessor
          ∈ astDuplicates
              (setDuplicates ({[func_self accessor]} ∪ astDuplicates sc) sc))
    as Hin by (simpl; apply elem_of_union_l, elem_of_singleton; done).
  split; [|split; [done|split; [done|]]].
  - unfold addChildrenForAllExplicitAccessors. simpl. rewrite Himp, Hloc. simpl.
    unfold bind, isDuplicate, get, ret. simpl.
    rewrite (bool_decide_eq_false_2 (_ = _)) by done.
    by rewrite andb_false_r.
  - intros p2. by apply registered_accessor_is_passed_over.
Qed.

Lemma accessor_of_another_storage_is_used_up_witness :
  ∃ sc1,
    addChildrenForAllExplicitAccessors
      (createSubtree (H:=exampleRanges) neverSplits 30) [exampleGetter] 0
      exampleCreator = Some (tt, sc1) ∧
    scopes sc1 = scopes exampleCreator.
Proof.
  destruct (accessor_of_another_storage_is_used_up (H:=exampleRanges)
              (createSubtree (H:=exampleRanges) neverSplits 30) exampleGetter 0
              exampleCreator) as (sc1 & Hr & Hs & _);
    [reflexivity|reflexivity|vm_compute; discriminate|].
  by exists sc1.
Defined.

(** ** Nodes that leave the tree alone *)

Lemma forEach_addScopeToTree_handledSpecially {R} `{RangeOps R} dsplit depth
    (l : list ASTNode) (sc : ScopeCreator R) :
  Forall (λ n, isHandledSpecially n = true) l →
  forEach l (addScopeToTree dsplit (createSubtree dsplit depth)) sc
  = Some (tt, sc).
Proof.
  induction 1 as [|n l Hn _ IH]; simpl; [done|].
  unfold bind. rewrite addScopeToTree_skip by (by left). done.
Qed.

(** X11. Variables, parameters among them, and accessors are not scoped
    when they are encountered among the declarations of the file: an
    extension whose new declarations are all of these kinds allocates no
    scope, registers nothing and leaves the injection point where it
    was. *)
Theorem variables_and_accessors_are_not_scoped_when_encountered {R}
    `{RangeOps R} dsplit depth decls (sc : ScopeCreator R) :
  Forall (λ d, isa_VarDecl d = true ∨ isa_Accessor d = true)
         (drop (numberOfDeclsAlreadySeen sc) decls) →
  ∃ sc', addAnyNewScopesToTree dsplit depth decls sc = Some (tt, sc') ∧
         scopes sc' = scopes sc ∧
         astDuplicates sc' = astDuplicates sc ∧
         newNodeInjectionPoint sc' = newNodeInjectionPoint sc.
Proof.
  intros Hall. unfold addAnyNewScopesToTree, addNewDeclsToTree.
  unfold bind at 1. unfold get. unfold bind at 1. unfold addScopesToTree.
  case_bool_decide as Hnil.
  { eexists. split; [reflexivity|]. done. }
  unfold bind at 1. unfold get.
  unfold ensureSourceRangesAreCorrectWhenAddingDescendants.
  unfold bind at 1. unfold modify at 1. unfold bind at 1.
  rewrite forEach_addScopeToTree_handledSpecially.
  - eexists. split; [reflexivity|]. done.
  - apply Forall_fmap. eapply Forall_impl; [exact Hall|].
    intros d Hd. simpl. by apply orb_true_iff.
Qed.

Lemma variables_and_accessors_are_not_scoped_when_encountered_witness :
  ∃ sc', addAnyNewScopesToTree (H:=exampleRanges) neverSplits 30
           [D_Var (exampleVar 96); exampleParam; D_Func exampleGetter]
           exampleCreator
         = Some (tt, sc') ∧
         scopes sc' = scopes exampleCreator ∧
         astDuplicates sc' = astDuplicates exampleCreator.
Proof.
  destruct (variables_and_accessors_are_not_scoped_when_encountered
              (H:=exampleRanges) neverSplits 30
              [D_Var (exampleVar 96); exampleParam; D_Func exampleGetter]
              exampleCreator)
    as (sc' & Hr & Hs & Hdup & _).
  - simpl. repeat constructor; by eauto.
  - by exists sc'.
Defined.

(** X12. A nominal type or an extension that should have a body and was
    not given one gets its scope and nothing below it: no scope for its
    generic parameters, its where clause or its body, and none of them is
    registered. *)
Theorem type_without_body_is_a_leaf {R} `{RangeOps R} dsplit depth t p
    (sc : ScopeCreator R) :
  shouldHaveABody t = true → type_hasBody t = false →
  createSubtree dsplit (S depth)
    (GenericTypeOrExtensionScope GenericTypeOrExtensionWholePortion t) p sc
  = Some (p, allocChild
               (GenericTypeOrExtensionScope GenericTypeOrExtensionWholePortion t)
               p sc).
Proof.
  intros Hs Hb. simpl. rewrite createSubtreeStep_eq. unfold expandMe. simpl.
  rewrite Hs, Hb. simpl. unfold bind, ret, getParent.
  pose proof (allocChild_parentOf
                (GenericTypeOrExtensionScope GenericTypeOrExtensionWholePortion t)
                p sc) as Hp.
  unfold parentOf in Hp. by rewrite Hp.
Qed.

Lemma type_without_body_is_a_leaf_witness :
  createSubtree (H:=exampleRanges) neverSplits 1
    (GenericTypeOrExtensionScope GenericTypeOrExtensionWholePortion
       structWithoutBody) 0 exampleCreator
  = Some (0, allocChild
               (GenericTypeOrExtensionScope GenericTypeOrExtensionWholePortion
                  structWithoutBody) 0 exampleCreator).
Proof.
  apply (type_without_body_is_a_leaf (H:=exampleRanges) neverSplits 0
           structWithoutBody 0 exampleCreator); reflexivity.
Defined.

(** X13. A return statement is scoped as its result: without a result
    nothing happens, not even a widening of the insertion point, and with
    a result [createScopeFor] does for the statement what it does for the
    result expression alone; the range of the statement itself is never
    used. *)
Theorem return_statement_is_scoped_as_its_result {R} `{RangeOps R} dsplit
    (rec : ScopeData → ScopePtr → M R ScopePtr) info p (sc : ScopeCreator R) :
  createScopeFor dsplit rec (N_Stmt (S_Return info None)) p sc = Some (p, sc) ∧
  ∀ e, createScopeFor dsplit rec (N_Stmt (S_Return info (Some e))) p sc
       = createScopeFor dsplit rec (N_Expr e) p sc.
Proof.
  split; [done|]. intros e. unfold createScopeFor. simpl.
  unfold visitExpr, bind.
  by destruct (widen p (node_range (expr_info e)) sc) as [[[] sc1]|];
    [destruct (addChildrenForCapturesAndClosuresIn rec e p sc1) as [[[] sc2]|]|].
Qed.

(** ** The scopes below a scope *)

Section Shapes.
Context {R : Type} `{RangeOps R}.
Variable dsplit : ScopeData → bool.

Lemma scopeAt_Ext (sc sc' : ScopeCreator R) j d q :
  Ext sc sc' → scopeAt (scopes sc) j d q → scopeAt (scopes sc') j d q.
Proof.
  intros He [Hd Hp]. split; [by eapply Ext_dataOf|by eapply Ext_parentOf].
Qed.

Lemma createSubtree_scopeAt depth d p (sc : ScopeCreator R) r sc' :
  createSubtree dsplit depth d p sc = Some (r, sc') →
  scopeAt (scopes sc') (length (scopes sc)) d p.
Proof. intros Hr. destruct (createSubtree_child _ _ _ _ _ _ _ Hr). by split. Qed.

(** A scope that expands with [NO_NEW_INSERTION_POINT]: the parent comes
    back, after the expansion of the scope just allocated. *)
Lemma createSubtree_no_new_insertion_point depth d p (sc : ScopeCreator R) r sc' :
  expansionKind d = NO_NEW_INSERTION_POINT →
  createSubtree dsplit (S depth) d p sc = Some (r, sc') →
  r = p ∧
  expandAScopeThatDoesNotCreateANewInsertionPoint dsplit
    (createSubtree dsplit depth) (length (scopes sc)) d (allocChild d p sc)
  = Some (tt, sc').
Proof.
  intros Hk. simpl. rewrite createSubtreeStep_eq. unfold expandMe. rewrite Hk.
  intros ([] & sc1 & Hx & Hg)%bind_Some.
  pose proof (expandNoNew_Ext _ _ _ _ _ _ _ Hx) as He.
  pose proof (Ext_parentOf _ _ _ _ He (allocChild_parentOf d p sc)) as Hp.
  destruct (getParent_Some _ _ _ _ _ Hp Hg) as [-> ->]. done.
Qed.

Lemma createGenericParamScopes_parent depth info generics parent
    (sc : ScopeCreator R) r sc' :
  createGenericParamScopes (createSubtree dsplit depth) info generics parent sc
    = Some (r, sc') →
  r = parent ∧ Ext sc sc'.
Proof.
  unfold createGenericParamScopes. destruct generics as [params|];
    [|intros [= <- <-]; split; [done|apply Ext_refl]].
  generalize (indices params). intros l. revert sc.
  induction l as [|i l IH]; intros sc; simpl.
  { intros [= <- <-]. split; [done|apply Ext_refl]. }
  intros (s1 & sc1 & (dup & scd & Hd & Hb)%bind_Some & Hl)%bind_Some.
  unfold isDuplicate in Hd. injection Hd as <- <-.
  assert (s1 = parent ∧ Ext sc sc1) as [-> He1].
  { destruct (negb _).
    - split; [by eapply createSubtree_returns_parent; [|exact Hb]|].
      eapply Ext_trans; [|by eapply createSubtree_Ext].
      apply Ext_same; [done|]. simpl. apply union_subseteq_r.
    - injection Hb as <- <-. split; [done|].
      apply Ext_same; [done|]. simpl. apply union_subseteq_r. }
  destruct (IH _ Hl) as [-> He]. split; [done|by eapply Ext_trans].
Qed.

(** The scopes of a function declaration: the scope of the body lies
    under the scope of the parameters, which lies under the scope of the
    declaration whatever the generic parameters are; a
    compiler-synthesized function has no scope for its parameters and the
    scope of its body lies under the scope of the declaration. *)
Lemma functionDecl_scopes depth decl p body (sc : ScopeCreator R) r sc' :
  isa_AccessorDecl decl = false →
  func_body decl = Some body →
  createSubtree dsplit depth (AbstractFunctionDeclScope decl) p sc
    = Some (r, sc') →
  r = p ∧
  scopeAt (scopes sc') (length (scopes sc)) (AbstractFunctionDeclScope decl) p ∧
  ∃ leaf bs,
    scopeAt (scopes sc') bs (bodyScopeOf decl) leaf ∧
    if node_implicit (func_info decl) then leaf = length (scopes sc)
    else scopeAt (scopes sc') leaf
           (AbstractFunctionParamsScope (func_parameters decl))
           (length (scopes sc)).
Proof.
  intros Hacc Hbody Hr.
  pose proof (createSubtree_scopeAt _ _ _ _ _ _ Hr) as Hfd.
  destruct depth as [|depth]; [done|].
  apply createSubtree_no_new_insertion_point in Hr as [-> Hx]; [|done].
  split; [done|]. split; [done|].
  simpl in Hx. rewrite Hacc, Hbody in Hx. simpl in Hx.
  apply bind_Some in Hx as ([] & sa & _ & Hx).
  apply bind_Some in Hx as (leaf & sb & Hleaf & Hx).
  apply bind_Some in Hx as (rb & sc1 & Hb & [= <-]).
  apply bind_Some in Hleaf as (g & sg & Hg & Hleaf).
  apply createGenericParamScopes_parent in Hg as [-> _].
  exists leaf, (length (scopes sb)).
  split; [by eapply createSubtree_scopeAt; exact Hb|].
  destruct (node_implicit (func_info decl)); simpl in Hleaf.
  - by injection Hleaf as <- <-.
  - pose proof (createSubtree_returns_child _ _
                  (AbstractFunctionParamsScope (func_parameters decl))
                  _ _ _ _ eq_refl Hleaf) as ->.
    eapply scopeAt_Ext; [by eapply createSubtree_Ext; exact Hb|].
    by eapply createSubtree_scopeAt.
Qed.

End Shapes.

(** X14. The scopes of a function that was written out, with a body: the
    scope of the declaration is a child of the given parent, which comes
    back; the scope of the parameters is a child of the scope of the
    declaration, also when the function is generic (the scopes of the
    generic parameters are its siblings); and the scope of the body, a
    [MethodBodyScope] in a type context and a [PureFunctionBodyScope]
    otherwise, is a child of the scope of the parameters. *)
Theorem function_body_lies_under_the_parameters {R} `{RangeOps R} dsplit depth
    decl p body (sc : ScopeCreator R) r sc' :
  isa_AccessorDecl decl = false →
  node_implicit (func_info decl) = false →
  func_body decl = Some body →
  createSubtree dsplit depth (AbstractFunctionDeclScope decl) p sc
    = Some (r, sc') →
  r = p ∧
  scopeAt (scopes sc') (length (scopes sc)) (AbstractFunctionDeclScope decl) p ∧
  ∃ ps bs,
    scopeAt (scopes sc') ps
      (AbstractFunctionParamsScope (func_parameters decl)) (length (scopes sc)) ∧
    scopeAt (scopes sc') bs (bodyScopeOf decl) ps.
Proof.
  intros Hacc Himp Hbody Hr.
  destruct (functionDecl_scopes _ _ _ _ _ _ _ _ Hacc Hbody Hr)
    as (-> & Hfd & ps & bs & Hbs & Hps).
  rewrite Himp in Hps. split; [done|]. split; [done|]. by exists ps, bs.
Qed.

Lemma function_body_lies_under_the_parameters_witness :
  ∃ r sc',
    createSubtree (H:=exampleRanges) neverSplits 30
      (AbstractFunctionDeclScope genericFunc) 0 exampleCreator = Some (r, sc') ∧
    r = 0 ∧
    ∃ ps bs,
      scopeAt (scopes sc') ps
        (AbstractFunctionParamsScope (func_parameters genericFunc)) 1 ∧
      scopeAt (scopes sc') bs (bodyScopeOf genericFunc) ps.
Proof.
  destruct (createSubtree (H:=exampleRanges) neverSplits 30
              (AbstractFunctionDeclScope genericFunc) 0 exampleCreator)
    as [[r sc']|] eqn:Hr; [|vm_compute in Hr; discriminate].
  exists r, sc'. split; [done|].
  destruct (function_body_lies_under_the_parameters (H:=exampleRanges)
              neverSplits 30 genericFunc 0 _ exampleCreator r sc'
              eq_refl eq_refl eq_refl Hr) as (-> & _ & Hrest).
  split; [done|exact Hrest].
Defined.

(** X15. The function of a [defer] statement is scoped although it is
    compiler-synthesized: [visitDeferStmt] calls the visitor of the
    function directly, past [shouldCreateScope]. The scope of its
    declaration is a child of the insertion point, which comes back; it
    has no scope for its parameters, and the scope of its body is a child
    of the scope of the declaration. *)
Theorem deferred_function_is_scoped {R} `{RangeOps R} dsplit depth info decl p
    body (sc : ScopeCreator R) r sc' :
  isa_AccessorDecl decl = false →
  node_implicit (func_info decl) = true →
  func_body decl = Some body →
  createScopeFor dsplit (createSubtree dsplit depth)
    (N_Stmt (S_Defer info decl)) p sc = Some (r, sc') →
  shouldCreateScope (N_Decl (D_Func decl)) = false ∧
  r = p ∧
  scopeAt (scopes sc') (length (scopes sc)) (AbstractFunctionDeclScope decl) p ∧
  ∃ bs, scopeAt (scopes sc') bs (bodyScopeOf decl) (length (scopes sc)).
Proof.
  intros Hacc Himp Hbody. unfold createScopeFor. simpl.
  unfold visitAbstractFunctionDecl.
  intros (r0 & sc1 & Hr & [= <- <-])%bind_Some.
  destruct (functionDecl_scopes _ _ _ _ _ _ _ _ Hacc Hbody Hr)
    as (-> & Hfd & leaf & bs & Hbs & Hleaf).
  rewrite Himp in Hleaf. subst leaf.
  split; [by rewrite Himp|]. split; [done|]. split; [done|]. by exists bs.
Qed.

Lemma deferred_function_is_scoped_witness :
  ∃ r sc',
    createScopeFor (H:=exampleRanges) neverSplits
      (createSubtree (H:=exampleRanges) neverSplits 30) (N_Stmt deferStmt) 0
      exampleCreator = Some (r, sc') ∧
    ∃ bs, scopeAt (scopes sc') bs (bodyScopeOf deferredFunc) 1.
Proof.
  destruct (createScopeFor (H:=exampleRanges) neverSplits
              (createSubtree (H:=exampleRanges) neverSplits 30)
              (N_Stmt deferStmt) 0 exampleCreator)
    as [[r sc']|] eqn:Hr; [|vm_compute in Hr; discriminate].
  exists r, sc'. split; [done|].
  destruct (deferred_function_is_scoped (H:=exampleRanges) neverSplits 30
              _ deferredFunc 0 _ exampleCreator r sc'
              eq_refl eq_refl eq_refl Hr) as (_ & _ & _ & Hrest).
  exact Hrest.
Defined.

(** ** Closures and blocks *)

(** X16. The scopes of a closure: the [WholeClosureScope] is a child of
    the given parent, which comes back; the scope of the capture list,
    when there is one, is its first child; the scope of the parameters is
    created when [in] is there; and the scope of the body is a child of
    the [WholeClosureScope] in either case, beside the scope of the
    parameters and not below it, because a [ClosureParametersScope] hands
    back its parent. The block of the closure is scoped below the scope
    of the body. *)
Theorem closure_body_lies_beside_the_parameters {R} `{RangeOps R} dsplit depth
    closureExpr captureList p (sc : ScopeCreator R) r sc' :
  createSubtree dsplit depth (WholeClosureScope closureExpr captureList) p sc
    = Some (r, sc') →
  r = p ∧
  scopeAt (scopes sc') (length (scopes sc))
    (WholeClosureScope closureExpr captureList) p ∧
  (∀ cl, captureList = Some cl →
     scopeAt (scopes sc') (S (length (scopes sc))) (CaptureListScope cl)
       (length (scopes sc))) ∧
  (loc_isValid (closure_inLoc closureExpr) = true →
   ∃ ps, scopeAt (scopes sc') ps
           (ClosureParametersScope closureExpr captureList)
           (length (scopes sc))) ∧
  ∃ b, scopeAt (scopes sc') b (ClosureBodyScope closureExpr captureList)
         (length (scopes sc)) ∧
       scopeAt (scopes sc') (S b) (BraceStmtScope (closure_body closureExpr)) b.
Proof.
  intros Hr. pose proof (createSubtree_scopeAt _ _ _ _ _ _ _ Hr) as Hw.
  destruct depth as [|depth]; [done|].
  apply createSubtree_no_new_insertion_point in Hr as [-> Hx]; [|done].
  split; [done|]. split; [done|]. simpl in Hx.
  apply bind_Some in Hx as ([] & s1 & Hcl & Hx).
  apply bind_Some in Hx as (bp & s2 & Hps & Hx).
  apply bind_Some in Hx as (rb & s3 & Hb & [= <-]).
  pose proof (createSubtree_Ext _ _ _ _ _ _ _ Hb) as He3.
  assert (bp = length (scopes sc) ∧
          (loc_isValid (closure_inLoc closureExpr) = true →
           ∃ ps, scopeAt (scopes s2) ps
                   (ClosureParametersScope closureExpr captureList)
                   (length (scopes sc)))) as [-> Hparams].
  { destruct (loc_isValid _).
    - split; [by eapply createSubtree_returns_parent; [|exact Hps]|].
      intros _. eexists. by eapply createSubtree_scopeAt.
    - injection Hps as <- <-. done. }
  split; [|split].
  - intros cl ->. simpl in Hcl.
    apply bind_Some in Hcl as (rc & s1' & Hc & [= <-]).
    eapply scopeAt_Ext; [exact He3|].
    eapply scopeAt_Ext.
    { destruct (loc_isValid _); [by eapply createSubtree_Ext|].
      injection Hps as <-. apply Ext_refl. }
    apply createSubtree_scopeAt in Hc. by rewrite allocChild_length in Hc.
  - intros Hv. destruct (Hparams Hv) as [ps Hp]. exists ps.
    by eapply scopeAt_Ext.
  - exists (length (scopes s2)). split; [by eapply createSubtree_scopeAt|].
    destruct depth as [|depth]; [done|].
    apply createSubtree_no_new_insertion_point in Hb as [_ Hb]; [|done].
    simpl in Hb. apply bind_Some in Hb as (rr & s4 & Hbr & [= <-]).
    apply createSubtree_scopeAt in Hbr. by rewrite allocChild_length in Hbr.
Qed.

Lemma closure_body_lies_beside_the_parameters_witness :
  ∃ r sc',
    createSubtree (H:=exampleRanges) neverSplits 30
      (WholeClosureScope closureWithParams (Some exampleCaptureList)) 0
      exampleCreator = Some (r, sc') ∧
    ∃ b, scopeAt (scopes sc') b
           (ClosureBodyScope closureWithParams (Some exampleCaptureList)) 1.
Proof.
  destruct (createSubtree (H:=exampleRanges) neverSplits 30
              (WholeClosureScope closureWithParams (Some exampleCaptureList)) 0
              exampleCreator)
    as [[r sc']|] eqn:Hr; [|vm_compute in Hr; discriminate].
  exists r, sc'. split; [done|].
  destruct (closure_body_lies_beside_the_parameters (H:=exampleRanges)
              neverSplits 30 _ _ 0 exampleCreator r sc' Hr)
    as (_ & _ & _ & _ & b & Hb & _).
  by exists b.
Defined.

Section Blocks.
Context {R : Type} `{RangeOps R}.
Variable dsplit : ScopeData → bool.

Lemma forEach_addScopeToTree_Ext depth l (sc : ScopeCreator R) u sc' :
  forEach l (addScopeToTree dsplit (createSubtree dsplit depth)) sc
    = Some (u, sc') → Ext sc sc'.
Proof.
  revert sc. induction l as [|y l IH]; intros sc; simpl.
  - intros [= <- <-]. apply Ext_refl.
  - intros (v & sc2 & Hy%addScopeToTree_Ext & Hl)%bind_Some.
    eapply Ext_trans; [done|]. by eapply IH.
Qed.

End Blocks.

(** X17. The elements of a block are scoped under the injection point of
    the creator, not under the scope of the block: [addScopesToTree]
    always adds to [newNodeInjectionPoint]. The scope of the block is a
    child of the given parent, which comes back, and the scope of the
    first element, when it has one of its own and was not encountered
    before, is the next scope allocated, a child of the injection
    point. *)
Theorem block_elements_go_under_the_injection_point {R} `{RangeOps R} dsplit
    depth info nd rest d p (sc : ScopeCreator R) r sc' :
  directScope nd = Some d →
  getOpaqueValue nd ∉ astDuplicates sc →
  createSubtree dsplit depth (BraceStmtScope (mkBraceStmt info (nd :: rest)))
    p sc = Some (r, sc') →
  r = p ∧
  scopeAt (scopes sc') (length (scopes sc))
    (BraceStmtScope (mkBraceStmt info (nd :: rest))) p ∧
  scopeAt (scopes sc') (S (length (scopes sc))) d (newNodeInjectionPoint sc).
Proof.
  intros Hd Hnot Hr. pose proof (createSubtree_scopeAt _ _ _ _ _ _ _ Hr) as Hb.
  destruct depth as [|depth]; [done|].
  apply createSubtree_no_new_insertion_point in Hr as [-> Hx]; [|done].
  split; [done|]. split; [done|]. simpl in Hx.
  unfold addScopesToTree in Hx. rewrite bool_decide_eq_false_2 in Hx by done.
  unfold bind at 1, get in Hx.
  unfold ensureSourceRangesAreCorrectWhenAddingDescendants in Hx.
  unfold bind at 1, modify at 1 in Hx.
  apply bind_Some in Hx as ([] & s2 & Hl & [= <-]).
  simpl in Hl. apply bind_Some in Hl as ([] & s1 & Hnd & Hl).
  apply forEach_addScopeToTree_Ext in Hl.
  pose proof (λ Hn, addScopeToTree_child _ _ _ _ _ _ _ Hd Hn Hnd) as Hc.
  destruct (Hc Hnot) as (Hdat & Hpar & _). clear Hc.
  simpl in Hdat, Hpar. rewrite length_alter, length_alter, length_app in Hdat, Hpar.
  simpl in Hdat, Hpar. rewrite Nat.add_1_r in Hdat, Hpar.
  eapply (scopeAt_Ext s1); [|by split].
  eapply Ext_trans; [exact Hl|]. by apply Ext_same.
Qed.

Lemma block_elements_go_under_the_injection_point_witness :
  ∃ r sc',
    createSubtree (H:=exampleRanges) neverSplits 60 (BraceStmtScope blockWithIf)
      2 treeOfStructThenBinding = Some (r, sc') ∧
    parentOf (scopes sc') 6 = Some 4.
Proof.
  destruct (createSubtree (H:=exampleRanges) neverSplits 60
              (BraceStmtScope blockWithIf) 2 treeOfStructThenBinding)
    as [[r sc']|] eqn:Hr; [|vm_compute in Hr; discriminate].
  exists r, sc'. split; [done|].
  destruct (block_elements_go_under_the_injection_point (H:=exampleRanges)
              neverSplits 60 (mkInfo 2800 (exampleRange 0 20) false)
              (N_Stmt ifLetStmt) [] _ 2
              treeOfStructThenBinding r sc' eq_refl) as (_ & _ & _ & Hp).
  - apply (bool_decide_eq_false_1 (_ ∈ _)). vm_compute. reflexivity.
  - exact Hr.
  - exact Hp.
Defined.

(** ** Statements with conditions *)

Section Conditions.
Context {R : Type} `{RangeOps R}.
Variable dsplit : ScopeData → bool.
Variable depth : nat.

Local Abbreviation rec := (createSubtree (R:=R) dsplit depth).

Lemma createSubtree_wellFormed d p (sc : ScopeCreator R) r sc' :
  wellFormed sc → p < length (scopes sc) →
  rec d p sc = Some (r, sc') →
  wellFormed sc' ∧ r < length (scopes sc').
Proof.
  intros Hw Hp Hr.
  destruct (spec_createSubtree (P:=Ext) (Inv:=wellFormed) (Good:=inScopes)
              (New:=anyScope) dsplit depth [p] d p ltac:(left)
              sc r sc' Hw (GoodAll_this _ _ Hp) Hr) as (_ & Hw' & Hg).
  split; [done|]. apply Hg. left.
Qed.

Lemma clauseChain_Ext (sc sc' : ScopeCreator R) stmt cond ip l fin :
  Ext sc sc' → clauseChain (scopes sc) stmt cond ip l fin →
  clauseChain (scopes sc') stmt cond ip l fin.
Proof.
  intros He. induction 1 as [|ip i rest c fin Hc _ IH]; [constructor|].
  econstructor; [by eapply scopeAt_Ext|done].
Qed.

Lemma clause_loop stmt cond l ip (sc : ScopeCreator R) r sc' :
  wellFormed sc → ip < length (scopes sc) →
  forEachWith l ip (λ insertionPoint i,
    rec (ConditionalClauseScope stmt cond i) insertionPoint) sc = Some (r, sc') →
  wellFormed sc' ∧ Ext sc sc' ∧ r < length (scopes sc') ∧
  clauseChain (scopes sc') stmt cond ip l r.
Proof.
  revert ip sc. induction l as [|i l IH]; intros ip sc Hw Hp; simpl.
  { intros [= <- <-]. split; [done|]. split; [apply Ext_refl|].
    split; [done|constructor]. }
  intros (c & sc1 & Hc & Hl)%bind_Some.
  destruct (createSubtree_wellFormed _ _ _ _ _ Hw Hp Hc) as [Hw1 Hc1].
  pose proof (createSubtree_scopeAt _ _ _ _ _ _ _ Hc) as Hat.
  pose proof (createSubtree_Ext _ _ _ _ _ _ _ Hc) as He1.
  destruct (IH _ _ Hw1 Hc1 Hl) as (Hw' & He & Hr & Hch).
  split; [done|]. split; [by eapply Ext_trans|]. split; [done|].
  pose proof (createSubtree_returns_child _ _
                (ConditionalClauseScope stmt cond i) _ _ _ _ eq_refl Hc) as ->.
  econstructor; [by eapply scopeAt_Ext|done].
Qed.

(** The scopes of the conditions of a statement are chained below the
    scope of the statement, and what [createCondScopes] hands back is the
    scope of the last condition, or the scope of the statement when it
    has no condition. *)
Lemma createCondScopes_chain this stmt cond (sc : ScopeCreator R) lp sc' :
  wellFormed sc → this < length (scopes sc) →
  createCondScopes rec this stmt cond sc = Some (lp, sc') →
  wellFormed sc' ∧ Ext sc sc' ∧ lp < length (scopes sc') ∧
  clauseChain (scopes sc') stmt cond this (indices cond) lp.
Proof.
  intros Hw Hp. unfold createCondScopes.
  intros (ip & sc1 & Hl & Hg)%bind_Some.
  destruct (clause_loop _ _ _ _ _ _ _ Hw Hp Hl) as (Hw1 & He & Hr & Hch).
  rewrite getStatementConditionIfAny_wellFormed in Hg by done.
  by injection Hg as <- <-.
Qed.

End Conditions.

(** X18. The branches of an [if] statement: the scopes of its conditions
    are chained below the scope of the statement, one under the other; the
    block of the [then] branch is scoped under the last of them, and the
    block of the [else] branch under the scope of the statement itself,
    outside of every condition. The given parent comes back. *)
Theorem else_branch_lies_outside_the_conditions {R} `{RangeOps R} dsplit depth
    stmt cond thenBody elseBody p (sc : ScopeCreator R) r sc' :
  wellFormed sc → p < length (scopes sc) →
  createSubtree dsplit depth
    (IfStmtScope stmt cond (N_Stmt (S_Brace thenBody))
                 (N_Stmt (S_Brace elseBody))) p sc = Some (r, sc') →
  r = p ∧
  ∃ lp ts es,
    clauseChain (scopes sc') stmt cond (length (scopes sc)) (indices cond) lp ∧
    scopeAt (scopes sc') ts (BraceStmtScope thenBody) lp ∧
    scopeAt (scopes sc') es (BraceStmtScope elseBody) (length (scopes sc)).
Proof.
  intros Hw Hp Hr. destruct depth as [|depth]; [done|].
  apply createSubtree_no_new_insertion_point in Hr as [-> Hx]; [|done].
  split; [done|]. simpl in Hx.
  apply bind_Some in Hx as (lp & s1 & Hc & Hx).
  apply bind_Some in Hx as (r1 & s2 & Ht & Hx).
  apply bind_Some in Hx as (r2 & s3 & He & [= <-]).
  apply createCondScopes_chain in Hc as (_ & _ & _ & Hch);
    [|by apply wellFormed_allocChild|rewrite allocChild_length; lia].
  apply (createScopeFor_direct _ _ _ (BraceStmtScope thenBody)) in Ht; [|done].
  apply (createScopeFor_direct _ _ _ (BraceStmtScope elseBody)) in He; [|done].
  pose proof (createSubtree_Ext _ _ _ _ _ _ _ Ht) as Ext12.
  pose proof (createSubtree_Ext _ _ _ _ _ _ _ He) as Ext23.
  exists lp, (length (scopes s1)), (length (scopes s2)).
  split; [|split].
  - eapply clauseChain_Ext; [exact Ext23|].
    eapply clauseChain_Ext; [exact Ext12|done].
  - eapply scopeAt_Ext; [exact Ext23|]. by eapply createSubtree_scopeAt.
  - by eapply createSubtree_scopeAt.
Qed.

Lemma else_branch_lies_outside_the_conditions_witness :
  ∃ r sc',
    createSubtree (H:=exampleRanges) neverSplits 30
      (IfStmtScope (mkInfo 880 (exampleRange 1 18) false)
         [CK_PatternBinding examplePattern None]
         (N_Stmt (S_Brace thenBlock)) (N_Stmt (S_Brace elseBlock)))
      0 exampleCreator = Some (r, sc') ∧
    ∃ es, scopeAt (scopes sc') es (BraceStmtScope elseBlock) 1.
Proof.
  destruct (createSubtree (H:=exampleRanges) neverSplits 30
      (IfStmtScope (mkInfo 880 (exampleRange 1 18) false)
         [CK_PatternBinding examplePattern None]
         (N_Stmt (S_Brace thenBlock)) (N_Stmt (S_Brace elseBlock)))
      0 exampleCreator)
    as [[r sc']|] eqn:Hr; [|vm_compute in Hr; discriminate].
  exists r, sc'. split; [done|].
  assert (0 < length (scopes exampleCreator)) as Hp by (vm_compute; lia).
  destruct (else_branch_lies_outside_the_conditions (H:=exampleRanges)
              neverSplits 30 _ _ _ _ 0 exampleCreator r sc'
              wellFormed_new Hp Hr)
    as (_ & lp & ts & es & _ & _ & Hes).
  by exists es.
Defined.

(** X19. A [guard] statement: the scopes of its conditions are chained
    below the scope of the statement; its body is scoped under the scope
    of the statement itself, not under the conditions; a
    [ConditionalClauseUseScope] that names the scope of the last condition
    as its lookup parent is added as a child of the scope of the
    statement; and the scope of the statement is what comes back, so
    what follows the [guard] is scoped below it. *)
Theorem guard_body_lies_outside_the_conditions {R} `{RangeOps R} dsplit depth
    stmt cond body p (sc : ScopeCreator R) r sc' :
  wellFormed sc → p < length (scopes sc) →
  createSubtree dsplit depth (GuardStmtScope stmt cond (N_Stmt (S_Brace body)))
    p sc = Some (r, sc') →
  r = length (scopes sc) ∧
  ∃ lp bs us,
    clauseChain (scopes sc') stmt cond (length (scopes sc)) (indices cond) lp ∧
    scopeAt (scopes sc') bs (BraceStmtScope body) (length (scopes sc)) ∧
    scopeAt (scopes sc') us (ConditionalClauseUseScope lp (getEndLoc stmt))
      (length (scopes sc)).
Proof.
  intros Hw Hp Hr.
  pose proof (createSubtree_returns_child _ _
                (GuardStmtScope stmt cond (N_Stmt (S_Brace body)))
                _ _ _ _ eq_refl Hr) as ->.
  split; [done|]. destruct depth as [|depth]; [done|].
  simpl in Hr. rewrite createSubtreeStep_eq in Hr. unfold expandMe in Hr.
  simpl in Hr.
  apply bind_Some in Hr as (lp & s1 & Hc & Hx).
  apply bind_Some in Hx as (r1 & s2 & Hb & Hu).
  apply createCondScopes_chain in Hc as (_ & _ & _ & Hch);
    [|by apply wellFormed_allocChild|rewrite allocChild_length; lia].
  apply (createScopeFor_direct _ _ _ (BraceStmtScope body)) in Hb; [|done].
  pose proof (createSubtree_Ext _ _ _ _ _ _ _ Hb) as Ext12.
  pose proof (createSubtree_Ext _ _ _ _ _ _ _ Hu) as Ext23.
  exists lp, (length (scopes s1)), (length (scopes s2)).
  split; [|split].
  - eapply clauseChain_Ext; [exact Ext23|].
    eapply clauseChain_Ext; [exact Ext12|done].
  - eapply scopeAt_Ext; [exact Ext23|]. by eapply createSubtree_scopeAt.
  - by eapply createSubtree_scopeAt.
Qed.

Lemma guard_body_lies_outside_the_conditions_witness :
  ∃ r sc',
    createSubtree (H:=exampleRanges) neverSplits 30 guardLetScope 0
      exampleCreator = Some (r, sc') ∧
    r = 1.
Proof.
  destruct (createSubtree (H:=exampleRanges) neverSplits 30 guardLetScope 0
              exampleCreator)
    as [[r sc']|] eqn:Hr; [|vm_compute in Hr; discriminate].
  exists r, sc'. split; [done|].
  assert (0 < length (scopes exampleCreator)) as Hp by (vm_compute; lia).
  destruct (guard_body_lies_outside_the_conditions (H:=exampleRanges)
              neverSplits 30 _ _ _ 0 exampleCreator r sc'
              wellFormed_new Hp Hr)
    as (Hret & _).
  exact Hret.
Defined.

(** ** The order of the children *)

Lemma StronglySorted_lt_NoDup (l : list nat) : StronglySorted lt l → NoDup l.
Proof.
  induction 1 as [|x l _ IH Hx]; constructor; [|done].
  intros Hin. rewrite Forall_forall in Hx. specialize (Hx _ Hin). lia.
Qed.

Lemma StronglySorted_lt_snoc (l : list nat) n :
  StronglySorted lt l → Forall (λ c, c < n) l → StronglySorted lt (l ++ [n]).
Proof.
  induction 1 as [|x l _ IH Hx]; intros Hall; simpl.
  { constructor; [constructor|done]. }
  apply Forall_cons in Hall as [Hxn Hall].
  constructor; [by apply IH|]. apply Forall_app. split; [done|]. by constructor.
Qed.

Lemma childrenInOrder_same {R} (sc sc' : ScopeCreator R) :
  scopes sc' = scopes sc →
  newNodeInjectionPoint sc' = newNodeInjectionPoint sc →
  childrenInOrder sc → childrenInOrder sc'.
Proof.
  intros Hs Hi [Hw Ho]. split; [by apply (wellFormed_same sc)|].
  intros p. rewrite Hs. apply Ho.
Qed.

#[export] Instance childrenInOrder_laws {R} `{RangeOps R} :
  Laws (R:=R) Ext childrenInOrder inScopes anyScope.
Proof.
  split.
  - apply Ext_refl.
  - apply Ext_trans.
  - intros p sc sc' He%Ext_length. unfold inScopes. lia.
  - intros d p sc [Hw Ho] Hp. split; [apply Ext_allocChild|].
    split; [|unfold inScopes; rewrite allocChild_length; split; [lia|done]].
    split; [by apply wellFormed_allocChild|].
    intros q. rewrite childrenOf_allocChild by done.
    destruct (decide (q = p)) as [->|]; [|by rewrite app_nil_r].
    apply StronglySorted_lt_snoc; [done|].
    apply Forall_forall. intros c Hc.
    apply (wf_children _ Hw) in Hc. by eapply parentOf_lt.
  - intros sc this q [Hw _] _ Ht Hq. apply (wf_parent_before _ Hw) in Hq.
    unfold inScopes in *. lia.
  - intros p r sc Hi _. simpl. split; [by apply Ext_same|].
    by apply (childrenInOrder_same sc).
  - intros p sc Hi _. simpl. split; [by apply Ext_same|].
    by apply (childrenInOrder_same sc).
  - intros p sc Hi _. simpl. split; [by apply Ext_same|].
    by apply (childrenInOrder_same sc).
  - intros p sc Hi _. simpl. split; [by apply Ext_same|].
    by apply (childrenInOrder_same sc).
  - intros x sc Hi. simpl. split; [|by apply (childrenInOrder_same sc)].
    apply Ext_same; [done|]. simpl. apply union_subseteq_r.
  - intros p sc [Hw Ho] Hp. split; [by apply Ext_same|].
    split; [by destruct Hw|done].
  - intros this sc [Hw Ho] _. simpl. split; [by apply Ext_alter|].
    split; [by apply wellFormed_setPatternScope|].
    intros q. simpl. rewrite childrenOf_setPatternScope. apply Ho.
  - intros n sc Hi. split; [by apply Ext_same|].
    by apply (childrenInOrder_same sc).
  - intros sc [Hw _]. apply (wf_injection_point _ Hw).
  - intros sc p s q [Hw _] Hp Hs Hq. by rewrite (wf_pattern _ Hw _ _ _ Hs Hq).
Qed.

Lemma childrenInOrder_new {R} `{RangeOps R} :
  childrenInOrder (newScopeCreator (R:=R)).
Proof.
  split; [apply wellFormed_new|]. intros [|[|p]]; simpl; constructor.
Qed.

Lemma extendedFrom_childrenInOrder {R} `{RangeOps R} dsplit
    (sc sc' : ScopeCreator R) :
  childrenInOrder sc → extendedFrom dsplit sc sc' → childrenInOrder sc'.
Proof.
  intros Hi. induction 1 as [|sc1 depth decls sc2 _ IH Hr]; [done|].
  by destruct (spec_addNewDeclsToTree (P:=Ext) (Inv:=childrenInOrder)
                 (Good:=inScopes) (New:=anyScope) dsplit depth decls
                 _ _ _ IH ltac:(apply GoodAll_nil) Hr) as (_ & ? & _).
Qed.

(** X20. The children of a scope are stored in the order in which they
    were created, and no scope is listed twice: after any number of
    extensions the stored children of every scope are strictly increasing
    in allocation order. *)
Theorem children_are_listed_once_in_creation_order {R} `{RangeOps R} dsplit
    (sc : ScopeCreator R) p :
  extendedFrom dsplit newScopeCreator sc →
  StronglySorted lt (childrenOf (scopes sc) p) ∧
  NoDup (childrenOf (scopes sc) p).
Proof.
  intros Hx.
  destruct (extendedFrom_childrenInOrder _ _ _ childrenInOrder_new Hx)
    as [_ Ho].
  split; [apply Ho|apply StronglySorted_lt_NoDup, Ho].
Qed.

Lemma children_are_listed_once_in_creation_order_witness :
  NoDup (childrenOf (scopes treeOfIfLet) 3).
Proof.
  apply (children_are_listed_once_in_creation_order (H:=exampleRanges)
           neverSplits treeOfIfLet 3).
  eapply (extended_step _ _ _ 60 ifLetFile); [apply extended_refl|].
  vm_compute. reflexivity.
Defined.

(** ** Types, accessors and loops *)

(** X21. The scopes of a nominal type or an extension that has its body:
    the scope of the whole declaration is a child of the given parent,
    which comes back; the scope of the where clause, when there is one,
    and the scope of the body are both children of the scope of the whole
    declaration, because the scopes of the generic parameters and of the
    where clause hand back their parent. *)
Theorem type_body_lies_under_the_whole_declaration {R} `{RangeOps R} dsplit
    depth decl p (sc : ScopeCreator R) r sc' :
  shouldHaveABody decl = true → type_hasBody decl = true →
  createSubtree dsplit depth
    (GenericTypeOrExtensionScope GenericTypeOrExtensionWholePortion decl) p sc
    = Some (r, sc') →
  r = p ∧
  scopeAt (scopes sc') (length (scopes sc))
    (GenericTypeOrExtensionScope GenericTypeOrExtensionWholePortion decl) p ∧
  (type_trailingWhereClause decl = true →
   ∃ ws, scopeAt (scopes sc') ws
           (GenericTypeOrExtensionScope GenericTypeOrExtensionWherePortion decl)
           (length (scopes sc))) ∧
  ∃ bs, scopeAt (scopes sc') bs
          (GenericTypeOrExtensionScope IterableTypeBodyPortion decl)
          (length (scopes sc)).
Proof.
  intros Hs Hb Hr. pose proof (createSubtree_scopeAt _ _ _ _ _ _ _ Hr) as Hw.
  destruct depth as [|depth]; [done|].
  apply createSubtree_no_new_insertion_point in Hr as [-> Hx]; [|done].
  split; [done|]. split; [done|]. simpl in Hx. rewrite Hs, Hb in Hx.
  simpl in Hx. unfold shouldHaveABody in Hs.
  apply bind_Some in Hx as (g & s1 & Hg & Hx).
  apply createGenericParamScopes_parent in Hg as [-> _].
  apply bind_Some in Hx as (leaf & s2 & Hwh & Hx).
  unfold createBodyScope, createTrailingWhereClauseScope, createSubtree2D in *.
  assert (leaf = length (scopes sc) ∧
          (type_trailingWhereClause decl = true →
           ∃ ws, scopeAt (scopes s2) ws
                   (GenericTypeOrExtensionScope
                      GenericTypeOrExtensionWherePortion decl)
                   (length (scopes sc)))) as [-> Hwhere].
  { destruct (type_trailingWhereClause decl).
    - destruct (type_kind decl); try done;
        (split; [by eapply createSubtree_returns_parent; [|exact Hwh]|];
         intros _; eexists; by eapply createSubtree_scopeAt).
    - injection Hwh as <- <-. done. }
  assert (∃ rb, createSubtree dsplit depth
                  (GenericTypeOrExtensionScope IterableTypeBodyPortion decl)
                  (length (scopes sc)) s2 = Some (rb, sc')) as [rb Hbody].
  { destruct (type_kind decl); try done;
      apply bind_Some in Hx as (rb & s3 & Hbody & [= <-]); by exists rb. }
  split.
  - intros Ht. destruct (Hwhere Ht) as [ws Hws]. exists ws.
    eapply scopeAt_Ext; [by eapply createSubtree_Ext|done].
  - eexists. by eapply createSubtree_scopeAt.
Qed.

Lemma type_body_lies_under_the_whole_declaration_witness :
  ∃ r sc',
    createSubtree (H:=exampleRanges) neverSplits 30
      (GenericTypeOrExtensionScope GenericTypeOrExtensionWholePortion
         genericStruct) 0 exampleCreator = Some (r, sc') ∧
    ∃ bs, scopeAt (scopes sc') bs
            (GenericTypeOrExtensionScope IterableTypeBodyPortion genericStruct)
            1.
Proof.
  destruct (createSubtree (H:=exampleRanges) neverSplits 30
      (GenericTypeOrExtensionScope GenericTypeOrExtensionWholePortion
         genericStruct) 0 exampleCreator)
    as [[r sc']|] eqn:Hr; [|vm_compute in Hr; discriminate].
  exists r, sc'. split; [done|].
  destruct (type_body_lies_under_the_whole_declaration (H:=exampleRanges)
              neverSplits 30 genericStruct 0 exampleCreator r sc'
              eq_refl eq_refl Hr) as (_ & _ & _ & Hbs).
  exact Hbs.
Defined.

Section AccessorScopes.
Context {R : Type} `{RangeOps R}.
Variable dsplit : ScopeData → bool.

(** The scope of the body of an accessor lies under the scope of its
    declaration: its parameters are scoped with its storage. *)
Lemma accessorDecl_scopes depth decl p body (sc : ScopeCreator R) r sc' :
  isa_AccessorDecl decl = true →
  func_body decl = Some body →
  createSubtree dsplit depth (AbstractFunctionDeclScope decl) p sc
    = Some (r, sc') →
  r = p ∧
  ∃ bs, scopeAt (scopes sc') bs (bodyScopeOf decl) (length (scopes sc)).
Proof.
  intros Hacc Hbody Hr. destruct depth as [|depth]; [done|].
  apply createSubtree_no_new_insertion_point in Hr as [-> Hx]; [|done].
  split; [done|].
  simpl in Hx. rewrite Hacc, Hbody in Hx. simpl in Hx.
  apply bind_Some in Hx as ([] & sa & _ & Hx).
  apply bind_Some in Hx as (leaf & sa' & [= <- <-] & Hx).
  apply bind_Some in Hx as (rb & sc1 & Hb & [= <-]).
  eexists. by eapply createSubtree_scopeAt; exact Hb.
Qed.

Lemma addChildrenForAllExplicitAccessors_Ext depth l p (sc : ScopeCreator R)
    u sc' :
  addChildrenForAllExplicitAccessors (createSubtree dsplit depth) l p sc
    = Some (u, sc') → Ext sc sc'.
Proof.
  apply specExt_Ext with (q := noScopes), specExt_any with (L := [p]).
  apply (spec_addChildrenForAllExplicitAccessors (New:=anyScope));
    [apply createSubtree_spec_Ext|apply list_elem_of_here].
Qed.

End AccessorScopes.

(** X22. An accessor of a variable that was written out, met for the
    first time, is scoped under the variable: the scope of the variable
    answers [getEnclosingAbstractStorageDecl] with the variable, so the
    accessor gets the scope of its declaration as a child of the
    [VarDeclScope], and the scope of its body directly below that (an
    accessor gets no scope for parameters). The given parent comes
    back. *)
Theorem accessor_is_scoped_under_its_variable {R} `{RangeOps R} dsplit depth
    decl accessor rest body p (sc : ScopeCreator R) r sc' :
  var_accessors decl = accessor :: rest →
  isa_AccessorDecl accessor = true →
  node_implicit (func_info accessor) = false →
  loc_isValid (getStartLoc (func_info accessor)) = true →
  func_storage accessor = Some (node_id (var_info decl)) →
  func_body accessor = Some body →
  func_self accessor ∉ astDuplicates sc →
  createSubtree dsplit depth (VarDeclScope decl) p sc = Some (r, sc') →
  r = p ∧
  scopeAt (scopes sc') (length (scopes sc)) (VarDeclScope decl) p ∧
  scopeAt (scopes sc') (S (length (scopes sc)))
    (AbstractFunctionDeclScope accessor) (length (scopes sc)) ∧
  ∃ bs, scopeAt (scopes sc') bs (bodyScopeOf accessor) (S (length (scopes sc))).
Proof.
  intros Hl Hacc Himp Hloc Hst Hbody Hnot Hr.
  pose proof (createSubtree_scopeAt _ _ _ _ _ _ _ Hr) as Hv.
  destruct depth as [|depth]; [done|].
  apply createSubtree_no_new_insertion_point in Hr as [-> Hx]; [|done].
  split; [done|]. split; [done|]. simpl in Hx. rewrite Hl in Hx.
  unfold addChildrenForAllExplicitAccessors in Hx. simpl in Hx.
  rewrite Himp, Hloc in Hx. simpl in Hx.
  apply bind_Some in Hx as ([] & s1 & Ha & Hrest).
  change (addChildrenForAllExplicitAccessors (createSubtree dsplit depth) rest
            (length (scopes sc)) s1 = Some ((), sc')) in Hrest.
  apply addChildrenForAllExplicitAccessors_Ext in Hrest.
  unfold bind at 1, isDuplicate at 1 in Ha.
  rewrite (bool_decide_eq_false_2 (_ ∈ _)) in Ha by done.
  unfold bind at 1, get in Ha. simpl in Ha.
  assert (getEnclosingAbstractStorageDecl
            (scopes (allocChild (VarDeclScope decl) p sc)) (length (scopes sc))
          = Some (node_id (var_info decl))) as Henc.
  { unfold getEnclosingAbstractStorageDecl. simpl.
    destruct (allocChild_lookup_new (VarDeclScope decl) p sc)
      as (s & Hs & Hd & _).
    unfold allocChild in Hs. simpl in Hs. rewrite Hs. by rewrite Hd. }
  unfold allocChild in Henc. simpl in Henc. rewrite Henc, Hst in Ha.
  rewrite bool_decide_eq_true_2 in Ha by done. simpl in Ha.
  unfold visitAbstractFunctionDecl in Ha.
  apply bind_Some in Ha as (ra & s1' & Ha & [= <-]).
  pose proof (createSubtree_scopeAt _ _ _ _ _ _ _ Ha) as Hat.
  destruct (accessorDecl_scopes _ _ _ _ _ _ _ _ Hacc Hbody Ha)
    as (_ & bs & Hbs).
  simpl in Hat, Hbs.
  rewrite length_alter, length_alter, length_app in Hat, Hbs.
  simpl in Hat, Hbs. rewrite Nat.add_1_r in Hat, Hbs.
  split; [by eapply scopeAt_Ext|].
  exists bs. by eapply scopeAt_Ext.
Qed.

Lemma accessor_is_scoped_under_its_variable_witness :
  ∃ r sc',
    createSubtree (H:=exampleRanges) neverSplits 30 (VarDeclScope varWithGetter)
      0 exampleCreator = Some (r, sc') ∧
    scopeAt (scopes sc') 2 (AbstractFunctionDeclScope getterOfVar) 1.
Proof.
  destruct (createSubtree (H:=exampleRanges) neverSplits 30
              (VarDeclScope varWithGetter) 0 exampleCreator)
    as [[r sc']|] eqn:Hr; [|vm_compute in Hr; discriminate].
  exists r, sc'. split; [done|].
  destruct (accessor_is_scoped_under_its_variable (H:=exampleRanges)
              neverSplits 30 varWithGetter getterOfVar [] _ 0 exampleCreator
              r sc' eq_refl eq_refl eq_refl eq_refl eq_refl eq_refl)
    as (_ & _ & Hacc & _).
  - simpl. apply not_elem_of_empty.
  - exact Hr.
  - exact Hacc.
Defined.

Lemma visitExpr_closure {R} `{RangeOps R} dsplit depth c q
    (sc : ScopeCreator R) r sc' :
  closure_self c ∉ astDuplicates sc →
  visitExpr (createSubtree dsplit depth) (Some (E_Closure c)) q sc
    = Some (r, sc') →
  scopeAt (scopes sc') (length (scopes sc)) (WholeClosureScope c None) q.
Proof.
  intros Hnot. unfold visitExpr.
  intros ([] & s1 & Hv & [= <- <-])%bind_Some.
  unfold bind at 1, widen, modify in Hv.
  unfold addChildrenForCapturesAndClosuresIn, forEachUniqueClosureIn in Hv.
  simpl in Hv. apply bind_Some in Hv as ([] & s2 & Hv & [= <-]).
  unfold bind at 1, isDuplicate in Hv. simpl in Hv.
  rewrite (bool_decide_eq_false_2 (_ ∈ _)) in Hv by done. simpl in Hv.
  apply bind_Some in Hv as (rc & s3 & Hc & [= <-]).
  by apply createSubtree_scopeAt in Hc.
Qed.

(** X23. The scopes of a [for] ... [in] loop: the [ForEachStmtScope] is a
    child of the given parent, which comes back; the
    [ForEachPatternScope] is a child of the [ForEachStmtScope], and the
    block of the loop is scoped under the [ForEachPatternScope]; a closure
    that is the sequence expression is scoped under the
    [ForEachStmtScope], before and beside the scope of the pattern. *)
Theorem loop_body_lies_under_the_pattern {R} `{RangeOps R} dsplit depth stmt
    sequence whereExpr body p (sc : ScopeCreator R) r sc' :
  createSubtree dsplit depth (ForEachStmtScope stmt sequence whereExpr body)
    p sc = Some (r, sc') →
  r = p ∧
  scopeAt (scopes sc') (length (scopes sc))
    (ForEachStmtScope stmt sequence whereExpr body) p ∧
  (∃ ps bs,
     scopeAt (scopes sc') ps
       (ForEachPatternScope stmt sequence whereExpr body) (length (scopes sc)) ∧
     scopeAt (scopes sc') bs (BraceStmtScope body) ps) ∧
  ∀ c, sequence = Some (E_Closure c) →
       closure_self c ∉ astDuplicates sc →
       scopeAt (scopes sc') (S (length (scopes sc))) (WholeClosureScope c None)
         (length (scopes sc)).
Proof.
  intros Hr. pose proof (createSubtree_scopeAt _ _ _ _ _ _ _ Hr) as Hf.
  destruct depth as [|depth]; [done|].
  apply createSubtree_no_new_insertion_point in Hr as [-> Hx]; [|done].
  split; [done|]. split; [done|]. simpl in Hx.
  apply bind_Some in Hx as (r1 & s1 & Hseq & Hx).
  apply bind_Some in Hx as (r2 & s2 & Hp & [= <-]).
  pose proof (createSubtree_scopeAt _ _ _ _ _ _ _ Hp) as Hps.
  pose proof (createSubtree_Ext _ _ _ _ _ _ _ Hp) as He.
  split.
  - exists (length (scopes s1)). destruct depth as [|depth]; [done|].
    apply createSubtree_no_new_insertion_point in Hp as [_ Hp]; [|done].
    simpl in Hp. apply bind_Some in Hp as (r3 & s3 & _ & Hp).
    apply bind_Some in Hp as (r4 & s4 & Hb & [= <-]).
    unfold visitBraceStmt in Hb.
    apply bind_Some in Hb as (ip & s5 & Hb & Hs).
    apply bind_Some in Hs as (b & s6 & Hs & [= _ <-]).
    unfold splits, getData, bind, ret in Hs. injection Hs as _ <-.
    eexists. split; [done|]. by eapply createSubtree_scopeAt.
  - intros c -> Hnot. eapply scopeAt_Ext; [exact He|].
    eapply visitExpr_closure in Hseq; [|done].
    by rewrite allocChild_length in Hseq.
Qed.

Lemma loop_body_lies_under_the_pattern_witness :
  ∃ r sc',
    createSubtree (H:=exampleRanges) neverSplits 30 forEachScope 0
      exampleCreator = Some (r, sc') ∧
    r = 0.
Proof.
  destruct (createSubtree (H:=exampleRanges) neverSplits 30 forEachScope 0
              exampleCreator)
    as [[r sc']|] eqn:Hr; [|vm_compute in Hr; discriminate].
  exists r, sc'. split; [done|].
  destruct (loop_body_lies_under_the_pattern (H:=exampleRanges) neverSplits 30
              _ _ _ _ 0 exampleCreator r sc' Hr) as (Hret & _).
  exact Hret.
Defined.

(** ** Pattern bindings and the members of a type *)

Section Wrappers.
Context {R : Type} `{RangeOps R}.
Variable dsplit : ScopeData → bool.
Variable depth : nat.
Variable p : ScopePtr.

Local Abbreviation wrap :=
  (λ vd : VarDecl,
     when (hasCustomAttribute vd)
       (createSubtree (R:=R) dsplit (S depth) (AttachedPropertyWrapperScope vd) p
        ;; ret tt)).

Lemma wrapper_loop l (sc : ScopeCreator R) :
  ∃ sc', forEach l wrap sc = Some (tt, sc') ∧ Ext sc sc' ∧
         (Forall (λ vd, hasCustomAttribute vd = false) l → sc' = sc).
Proof.
  revert sc. induction l as [|vd l IH]; intros sc; cbn [forEach].
  { exists sc. split; [done|]. split; [apply Ext_refl|done]. }
  unfold bind at 1. destruct (hasCustomAttribute vd) eqn:Hv; unfold when.
  - unfold bind at 1. rewrite createSubtree_no_expansion by done.
    cbv beta iota.
    destruct (IH (allocChild (AttachedPropertyWrapperScope vd) p sc))
      as (sc' & Hr & He & _).
    exists sc'. split; [exact Hr|].
    split; [eapply Ext_trans; [apply Ext_allocChild|done]|].
    intros Hall. apply Forall_cons in Hall as [? _]. congruence.
  - cbv beta iota. destruct (IH sc) as (sc' & Hr & He & Hsame). exists sc'.
    split; [exact Hr|]. split; [done|].
    intros Hall. apply Forall_cons in Hall as [_ Hall]. by apply Hsame.
Qed.

End Wrappers.

(** X24. The scopes of attached property wrappers follow the first
    pattern of a binding only: when no variable of the first pattern has
    a custom attribute nothing is created, whatever the other entries
    hold; and when the first variable of the first pattern has one, its
    [AttachedPropertyWrapperScope] is the next scope allocated, a child of
    the given parent. *)
Theorem property_wrapper_scopes_follow_the_first_pattern {R} `{RangeOps R}
    dsplit depth patternBinding parent (sc : ScopeCreator R) :
  ∃ sc',
    createAttachedPropertyWrapperScope (createSubtree dsplit (S depth))
      patternBinding parent sc = Some (tt, sc') ∧
    (Forall (λ vd, hasCustomAttribute vd = false)
            (firstPatternVars patternBinding) → sc' = sc) ∧
    (∀ vd rest, firstPatternVars patternBinding = vd :: rest →
       hasCustomAttribute vd = true →
       scopeAt (scopes sc') (length (scopes sc))
         (AttachedPropertyWrapperScope vd) parent).
Proof.
  unfold createAttachedPropertyWrapperScope.
  destruct (wrapper_loop dsplit depth parent (firstPatternVars patternBinding) sc)
    as (sc' & Hr & He & Hsame).
  exists sc'. split; [done|]. split; [done|].
  intros vd rest Hl Hv. rewrite Hl in Hr. cbn [forEach] in Hr.
  unfold bind at 1 in Hr. rewrite Hv in Hr. unfold when at 1 in Hr.
  unfold bind at 1 in Hr. rewrite createSubtree_no_expansion in Hr by done.
  cbv beta iota in Hr. unfold ret at 1 in Hr.
  destruct (wrapper_loop dsplit depth parent rest
              (allocChild (AttachedPropertyWrapperScope vd) parent sc))
    as (sc2 & Hr2 & He2 & _).
  rewrite Hr2 in Hr. injection Hr as <-.
  eapply scopeAt_Ext; [exact He2|].
  split; [apply allocChild_data|apply allocChild_parentOf].
Qed.

(** X25. A pattern entry without an initializer as written, or whose
    initializer has no valid range, gets no scope for an initializer: its
    use scope, with an invalid end of the initializer, is the only scope
    created under the scope of the entry, and is what comes back. With an
    initializer, the [PatternEntryInitializerScope] is the first child of
    the scope of the entry and the use scope comes after it. *)
Theorem pattern_entry_initializer_scope {R} `{RangeOps R} dsplit depth
    decl patternEntryIndex vis p (sc : ScopeCreator R) r sc' :
  createSubtree dsplit depth (PatternEntryDeclScope decl patternEntryIndex vis)
    p sc = Some (r, sc') →
  scopeAt (scopes sc') (length (scopes sc))
    (PatternEntryDeclScope decl patternEntryIndex vis) p ∧
  if hasInitializerAsWritten decl patternEntryIndex
  then scopeAt (scopes sc') (S (length (scopes sc)))
         (PatternEntryInitializerScope decl patternEntryIndex vis)
         (length (scopes sc)) ∧
       S (length (scopes sc)) < r
  else r = S (length (scopes sc)) ∧
       scopeAt (scopes sc') r
         (PatternEntryUseScope decl patternEntryIndex vis None)
         (length (scopes sc)).
Proof.
  intros Hr. pose proof (createSubtree_scopeAt _ _ _ _ _ _ _ Hr) as Hd.
  split; [done|]. destruct depth as [|depth]; [done|].
  simpl in Hr. rewrite createSubtreeStep_eq in Hr. unfold expandMe in Hr.
  simpl in Hr. apply bind_Some in Hr as (e & s1 & Hi & Hu).
  pose proof (createSubtree_returns_child _ _
                (PatternEntryUseScope decl patternEntryIndex vis e)
                _ _ _ _ eq_refl Hu) as ->.
  pose proof (createSubtree_scopeAt _ _ _ _ _ _ _ Hu) as Hus.
  unfold hasInitializerAsWritten.
  destruct (getPatternEntry decl patternEntryIndex ≫= getInitAsWritten)
    as [x|]; [destruct (range_isValid (node_range (expr_info x)))|].
  - apply bind_Some in Hi as (ri & s2 & Hc & Hi).
    apply bind_Some in Hi as ([] & s3 & [= <-] & Hi).
    apply bind_Some in Hi as (s4 & s5 & [= <- <-] & [= _ <-]).
    pose proof (createSubtree_scopeAt _ _ _ _ _ _ _ Hc) as His.
    pose proof (createSubtree_Ext _ _ _ _ _ _ _ Hc) as He.
    clear He. rewrite allocChild_length in *. simpl in *.
    split.
    + eapply scopeAt_Ext; [by eapply createSubtree_Ext; exact Hu|].
      eapply (scopeAt_Ext s2); [by apply Ext_same|done].
    + destruct His as [Hdat _]. unfold dataOf in Hdat.
      destruct (scopes s2 !! S (length (scopes sc))) eqn:Hl; [|done].
      by apply lookup_lt_Some in Hl.
  - injection Hi as <- <-. rewrite allocChild_length in *. done.
  - injection Hi as <- <-. rewrite allocChild_length in *. done.
Qed.

Lemma pattern_entry_initializer_scope_witness :
  ∃ r sc',
    createSubtree (H:=exampleRanges) neverSplits 30
      (PatternEntryDeclScope oneEntryBinding 0 LocalVariable) 0 exampleCreator
      = Some (r, sc') ∧
    r = 2.
Proof.
  destruct (createSubtree (H:=exampleRanges) neverSplits 30
              (PatternEntryDeclScope oneEntryBinding 0 LocalVariable) 0
              exampleCreator)
    as [[r sc']|] eqn:Hr; [|vm_compute in Hr; discriminate].
  exists r, sc'. split; [done|].
  destruct (pattern_entry_initializer_scope (H:=exampleRanges) neverSplits 30
              _ _ _ 0 exampleCreator r sc' Hr) as (_ & Hret & _).
  exact Hret.
Defined.

Section Members.
Context {R : Type} `{RangeOps R}.
Variable dsplit : ScopeData → bool.
Variable depth : nat.

Lemma member_loop l this (sc : ScopeCreator R) u sc' :
  forEach l (λ member,
    do dup <- isDuplicate (node_id (decl_info member)) true;
    when (negb dup)
      (createScopeFor dsplit (createSubtree dsplit depth) (N_Decl member) this
       ;; ret tt)) sc = Some (u, sc') →
  Ext sc sc'.
Proof.
  revert sc. induction l as [|m l IH]; intros sc; simpl.
  { intros [= <- <-]. apply Ext_refl. }
  intros ([] & s1 & Hm & Hl)%bind_Some.
  eapply Ext_trans; [|by eapply IH]. clear Hl IH.
  apply bind_Some in Hm as (dup & sd & Hd & Hm).
  unfold isDuplicate in Hd. injection Hd as <- <-.
  eapply (Ext_trans _
            (setDuplicates ({[node_id (decl_info m)]} ∪ astDuplicates sc) sc)).
  { apply Ext_same; [done|]. simpl. apply union_subseteq_r. }
  destruct (negb _); simpl in Hm.
  - apply bind_Some in Hm as (r & s2 & Hc & [= <-]).
    by eapply createScopeFor_Ext.
  - injection Hm as <-. apply Ext_refl.
Qed.

End Members.

(** X26. The members of a type are scoped under the scope of its body:
    [IterableTypeBodyPortion::expandScope] hands every member to
    [createScopeFor] with the scope of the body as the parent, whatever
    the injection point of the creator is. The scope of the first member,
    when it has one of its own and was not encountered before, is the next
    scope allocated, a child of the scope of the body; the given parent
    comes back. *)
Theorem type_members_go_under_the_body {R} `{RangeOps R} dsplit depth decl
    member rest d p (sc : ScopeCreator R) r sc' :
  shouldHaveABody decl = true →
  type_members decl = member :: rest →
  directScope (N_Decl member) = Some d →
  node_id (decl_info member) ∉ astDuplicates sc →
  createSubtree dsplit depth
    (GenericTypeOrExtensionScope IterableTypeBodyPortion decl) p sc
    = Some (r, sc') →
  r = p ∧
  scopeAt (scopes sc') (length (scopes sc))
    (GenericTypeOrExtensionScope IterableTypeBodyPortion decl) p ∧
  scopeAt (scopes sc') (S (length (scopes sc))) d (length (scopes sc)).
Proof.
  intros Hs Hl Hd Hnot Hr.
  pose proof (createSubtree_scopeAt _ _ _ _ _ _ _ Hr) as Hb.
  destruct depth as [|depth]; [done|].
  apply createSubtree_no_new_insertion_point in Hr as [-> Hx]; [|done].
  split; [done|]. split; [done|]. simpl in Hx. rewrite Hs, Hl in Hx.
  simpl in Hx. apply bind_Some in Hx as ([] & s1 & Hm & Hrest).
  apply member_loop in Hrest.
  unfold bind at 1, isDuplicate in Hm.
  rewrite (bool_decide_eq_false_2 (_ ∈ _)) in Hm by done. simpl in Hm.
  apply bind_Some in Hm as (rm & s2 & Hc & [= <-]).
  apply (createScopeFor_direct _ _ _ d) in Hc; [|done].
  apply createSubtree_scopeAt in Hc. simpl in Hc.
  rewrite length_alter, length_alter, length_app in Hc. simpl in Hc.
  rewrite Nat.add_1_r in Hc. by eapply scopeAt_Ext.
Qed.

Lemma type_members_go_under_the_body_witness :
  ∃ r sc',
    createSubtree (H:=exampleRanges) neverSplits 30
      (GenericTypeOrExtensionScope IterableTypeBodyPortion structWithMethod) 0
      exampleCreator = Some (r, sc') ∧
    scopeAt (scopes sc') 2 (AbstractFunctionDeclScope exampleFunc) 1.
Proof.
  destruct (createSubtree (H:=exampleRanges) neverSplits 30
      (GenericTypeOrExtensionScope IterableTypeBodyPortion structWithMethod) 0
      exampleCreator)
    as [[r sc']|] eqn:Hr; [|vm_compute in Hr; discriminate].
  exists r, sc'. split; [done|].
  destruct (type_members_go_under_the_body (H:=exampleRanges) neverSplits 30
              structWithMethod (D_Func exampleFunc) [] _ 0 exampleCreator r sc'
              eq_refl eq_refl eq_refl) as (_ & _ & Hm).
  - simpl. apply not_elem_of_empty.
  - exact Hr.
  - exact Hm.
Defined.

(** ** The accessors of a subscript *)

Section Subscripts.
Context {R : Type} `{RangeOps R}.
Variable dsplit : ScopeData → bool.
Variable depth : nat.

Local Abbreviation rec := (createSubtree (R:=R) dsplit depth).

(** Parameters without default values are registered and nothing else
    happens. *)
Lemma params_without_defaults (l : list ParamDecl) this (sc : ScopeCreator R) :
  Forall (λ pd, getDefaultValue pd = None) l →
  forEach l (λ pd,
    do dup <- isDuplicate (node_id (param_info pd)) true;
    when (negb dup && bool_decide (is_Some (getDefaultValue pd)))
         (rec (DefaultArgumentInitializerScope pd) this ;; ret tt)) sc
  = Some (tt, setDuplicates
                (list_to_set ((λ pd, node_id (param_info pd)) <$> l)
                 ∪ astDuplicates sc) sc).
Proof.
  intros Hall. revert sc. induction Hall as [|pd l Hpd _ IH]; intros sc.
  { cbn [forEach]. unfold ret. do 2 f_equal. symmetry.
    apply setDuplicates_same. simpl. by rewrite (left_id_L ∅ (∪)). }
  cbn [forEach]. unfold bind at 1. unfold bind at 1. unfold isDuplicate.
  rewrite Hpd. rewrite (bool_decide_eq_false_2 (is_Some None))
    by (by intros [? ?]).
  rewrite andb_false_r. unfold when, ret at 1. rewrite IH.
  unfold setDuplicates. simpl. do 3 f_equal.
  rewrite (assoc_L (∪) (list_to_set _)). f_equal. apply (comm_L (∪)).
Qed.

Lemma paramsScope_without_defaults l q (sc : ScopeCreator R) r sc' :
  Forall (λ pd, getDefaultValue pd = None) l →
  createSubtree dsplit (S depth) (AbstractFunctionParamsScope l) q sc
    = Some (r, sc') →
  r = length (scopes sc) ∧
  sc' = setDuplicates
          (list_to_set ((λ pd, node_id (param_info pd)) <$> l)
           ∪ astDuplicates sc)
          (allocChild (AbstractFunctionParamsScope l) q sc).
Proof.
  intros Hall. cbn [createSubtree]. rewrite createSubtreeStep_eq.
  unfold expandMe. cbn [expansionKind expandAScopeThatCreatesANewInsertionPoint].
  unfold bind at 1. rewrite params_without_defaults by done.
  intros [= <- <-]. done.
Qed.

End Subscripts.

(** X27. An accessor of a subscript is scoped under the scope of the
    parameters of the subscript: that scope passes
    [getEnclosingAbstractStorageDecl] on to its parent, the
    [SubscriptDeclScope], which answers with the subscript. For a
    subscript without generic parameters whose indices have no default
    values, an explicit accessor met for the first time gets the scope of
    its declaration as a child of the [AbstractFunctionParamsScope], and
    the scope of its body directly below that. The given parent comes
    back. *)
Theorem accessor_is_scoped_under_the_parameters_of_its_subscript {R}
    `{RangeOps R} dsplit depth decl accessor rest body p
    (sc : ScopeCreator R) r sc' :
  subscript_genericParams decl = None →
  Forall (λ pd, getDefaultValue pd = None) (subscript_indices decl) →
  subscript_accessors decl = accessor :: rest →
  isa_AccessorDecl accessor = true →
  node_implicit (func_info accessor) = false →
  loc_isValid (getStartLoc (func_info accessor)) = true →
  func_storage accessor = Some (node_id (subscript_info decl)) →
  func_body accessor = Some body →
  func_self accessor ∉ astDuplicates sc →
  func_self accessor
  ∉ (λ pd, node_id (param_info pd)) <$> subscript_indices decl →
  createSubtree dsplit depth (SubscriptDeclScope decl) p sc = Some (r, sc') →
  r = p ∧
  scopeAt (scopes sc') (length (scopes sc)) (SubscriptDeclScope decl) p ∧
  scopeAt (scopes sc') (S (length (scopes sc)))
    (AbstractFunctionParamsScope (subscript_indices decl)) (length (scopes sc)) ∧
  scopeAt (scopes sc') (S (S (length (scopes sc))))
    (AbstractFunctionDeclScope accessor) (S (length (scopes sc))) ∧
  ∃ bs, scopeAt (scopes sc') bs (bodyScopeOf accessor)
          (S (S (length (scopes sc)))).
Proof.
  intros Hgen Hidx Hl Hacc Himp Hloc Hst Hbody Hnot Hnotp Hr.
  pose proof (createSubtree_scopeAt _ _ _ _ _ _ _ Hr) as Hsub.
  destruct depth as [|depth']; [done|].
  apply createSubtree_no_new_insertion_point in Hr as [-> Hx]; [|done].
  split; [done|]. split; [done|].
  cbn [expandAScopeThatDoesNotCreateANewInsertionPoint] in Hx.
  rewrite Hgen, Hl in Hx. unfold createGenericParamScopes in Hx.
  unfold bind at 1, ret at 1 in Hx.
  apply bind_Some in Hx as (params & sp & Hp & Hx).
  pose proof (createSubtree_scopeAt _ _ _ _ _ _ _ Hp) as Hps.
  destruct depth' as [|depth]; [done|].
  apply paramsScope_without_defaults in Hp as [-> ->]; [|done].
  set (sc0 := allocChild (SubscriptDeclScope decl) p sc) in *.
  set (ids := list_to_set _ ∪ astDuplicates sc0) in *.
  set (sc1 := allocChild (AbstractFunctionParamsScope (subscript_indices decl))
                (length (scopes sc)) sc0) in *.
  assert (length (scopes sc0) = S (length (scopes sc))) as Hlen0
    by (subst sc0; rewrite allocChild_length; lia).
  rewrite Hlen0 in *.
  assert (Ext (setDuplicates ids sc1) sc') as Hext.
  { unfold addChildrenForAllExplicitAccessors in Hx.
    revert Hx. generalize (setDuplicates ids sc1). clear.
    generalize (accessor :: rest). intros l s Hx.
    eapply (addChildrenForAllExplicitAccessors_Ext dsplit (S depth)). exact Hx. }
  split.
  { eapply scopeAt_Ext; [exact Hext|]. exact Hps. }
  unfold addChildrenForAllExplicitAccessors in Hx. cbn [forEach] in Hx.
  rewrite Himp, Hloc in Hx. unfold negb at 1, andb at 1, when at 1 in Hx.
  apply bind_Some in Hx as ([] & s2 & Ha & Hrest).
  change (addChildrenForAllExplicitAccessors (createSubtree dsplit (S depth))
            rest (S (length (scopes sc))) s2 = Some ((), sc')) in Hrest.
  apply addChildrenForAllExplicitAccessors_Ext in Hrest.
  unfold bind at 1, isDuplicate at 1 in Ha.
  rewrite (bool_decide_eq_false_2 (_ ∈ _)) in Ha.
  2:{ cbn [astDuplicates setDuplicates]. subst ids sc0. simpl.
      intros [Hin|Hin]%elem_of_union; [|done].
      apply elem_of_list_to_set in Hin. done. }
  unfold bind at 1, get in Ha.
  assert (getEnclosingAbstractStorageDecl (scopes sc1) (S (length (scopes sc)))
          = Some (node_id (subscript_info decl))) as Henc.
  { unfold getEnclosingAbstractStorageDecl. cbn [enclosingStorageFrom].
    destruct (allocChild_lookup_new
                (AbstractFunctionParamsScope (subscript_indices decl))
                (length (scopes sc)) sc0) as (s & Hs & Hd & Hpar).
    rewrite Hlen0 in Hs. fold sc1 in Hs. rewrite Hs, Hd, Hpar.
    destruct (allocChild_lookup_new (SubscriptDeclScope decl) p sc)
      as (s0 & Hs0 & Hd0 & _).
    fold sc0 in Hs0.
    pose proof (allocChild_lookup_old
                  (AbstractFunctionParamsScope (subscript_indices decl))
                  (length (scopes sc)) sc0 _ _ Hs0) as Hs1.
    fold sc1 in Hs1. rewrite Hs1. rewrite decide_True by done. simpl.
    by rewrite Hd0. }
  cbn [scopes setDuplicates] in Ha. rewrite Henc, Hst in Ha.
  rewrite bool_decide_eq_true_2 in Ha by done.
  unfold negb at 1, andb at 1, when at 1, visitAbstractFunctionDecl in Ha.
  apply bind_Some in Ha as (ra & s2' & Ha & [= <-]).
  pose proof (createSubtree_scopeAt _ _ _ _ _ _ _ Ha) as Hat.
  destruct (accessorDecl_scopes _ _ _ _ _ _ _ _ Hacc Hbody Ha)
    as (_ & bs & Hbs).
  cbn [scopes setDuplicates] in Hat, Hbs.
  assert (length (scopes sc1) = S (S (length (scopes sc)))) as Hlen1
    by (subst sc1; rewrite allocChild_length; lia).
  rewrite Hlen1 in Hat, Hbs.
  split; [eapply scopeAt_Ext; [exact Hrest|exact Hat]|].
  exists bs. eapply scopeAt_Ext; [exact Hrest|exact Hbs].
Qed.

Lemma accessor_is_scoped_under_the_parameters_of_its_subscript_witness :
  ∃ r sc',
    createSubtree (H:=exampleRanges) neverSplits 30
      (SubscriptDeclScope exampleSubscript) 0 exampleCreator = Some (r, sc') ∧
    scopeAt (scopes sc') 3 (AbstractFunctionDeclScope getterOfSubscript) 2.
Proof.
  destruct (createSubtree (H:=exampleRanges) neverSplits 30
              (SubscriptDeclScope exampleSubscript) 0 exampleCreator)
    as [[r sc']|] eqn:Hr; [|vm_compute in Hr; discriminate].
  exists r, sc'. split; [done|].
  destruct (accessor_is_scoped_under_the_parameters_of_its_subscript
              (H:=exampleRanges) neverSplits 30 exampleSubscript
              getterOfSubscript [] _ 0 exampleCreator r sc'
              eq_refl ltac:(repeat constructor) eq_refl eq_refl eq_refl eq_refl
              eq_refl eq_refl)
    as (_ & _ & _ & Hacc & _).
  - simpl. apply not_elem_of_empty.
  - simpl. intros Hin. apply list_elem_of_singleton in Hin. discriminate.
  - exact Hr.
  - exact Hacc.
Defined.
(** * What the guards let through *)

(** ** [createScopeFor] on expressions and statements *)

Section Accepted.
Context {R : Type} `{RangeOps R}.
Variable dsplit : ScopeData → bool.

Lemma addChildForClosure_Ext depth p f (sc : ScopeCreator R) u sc' :
  addChildForClosure (createSubtree dsplit depth) p f sc = Some (u, sc') →
  Ext sc sc'.
Proof.
  destruct (decide (closure_self f.2 ∈ astDuplicates sc)) as [Hin|Hnot].
  { rewrite addChildForClosure_skip by done. intros [= _ <-]. apply Ext_refl. }
  unfold addChildForClosure, bind at 1, isDuplicate. simpl.
  rewrite bool_decide_eq_false_2 by done. simpl.
  intros (r & s1 & Hc & [= _ <-])%bind_Some.
  eapply Ext_trans; [|by eapply createSubtree_Ext].
  apply Ext_same; [done|]. simpl. apply union_subseteq_r.
Qed.

Lemma forEach_addChildForClosure_Ext depth p l (sc : ScopeCreator R) u sc' :
  forEach l (addChildForClosure (createSubtree dsplit depth) p) sc
    = Some (u, sc') →
  Ext sc sc'.
Proof.
  revert sc. induction l as [|f l IH]; intros sc; simpl.
  { intros [= _ <-]. apply Ext_refl. }
  intros (v & s1 & Hf%addChildForClosure_Ext & Hl)%bind_Some.
  eapply Ext_trans; [done|]. by eapply IH.
Qed.

(** An expression handed to [createScopeFor] widens the scope at hand by
    its range and has its closures scoped from there; the scope at hand
    comes back. *)
Lemma createScopeFor_expr_eq (rec : ScopeData → ScopePtr → M R ScopePtr) e p
    (sc : ScopeCreator R) r sc' :
  createScopeFor dsplit rec (N_Expr e) p sc = Some (r, sc') ↔
  r = p ∧
  addChildrenForCapturesAndClosuresIn rec e p
    (setRanges (widenSourceRangeForIgnoredASTNode (scopes sc) p
                  (node_range (expr_info e)) (ranges sc)) sc)
  = Some (tt, sc').
Proof.
  unfold createScopeFor. simpl. unfold visitExpr, bind, widen, modify, ret.
  destruct (addChildrenForCapturesAndClosuresIn rec e p _) as [[[] s1]|].
  - split; [by intros [= <- <-]|by intros [-> [= <-]]].
  - split; [done|by intros [_ ?]].
Qed.

Lemma first_closure_scoped depth e p f rest (sc0 sc' : ScopeCreator R) :
  forEachClosureIn e = f :: rest →
  closure_self f.2 ∉ astDuplicates sc0 →
  addChildrenForCapturesAndClosuresIn (createSubtree dsplit depth) e p sc0
    = Some (tt, sc') →
  scopeAt (scopes sc') (length (scopes sc0)) (WholeClosureScope f.2 f.1) p.
Proof.
  intros Hf Hnot. rewrite addChildrenForCapturesAndClosuresIn_eq, Hf.
  cbn [forEach]. intros (v & s1 & H1 & Hrest)%bind_Some.
  apply forEach_addChildForClosure_Ext in Hrest.
  eapply scopeAt_Ext; [exact Hrest|].
  revert H1. unfold addChildForClosure, bind at 1, isDuplicate. simpl.
  rewrite bool_decide_eq_false_2 by done. simpl.
  intros (rc & s2 & Hc & [= _ <-])%bind_Some.
  by apply createSubtree_scopeAt in Hc.
Qed.

Lemma createScopeFor_expr depth e p (sc : ScopeCreator R) :
  4 * sizeNode (N_Expr e) ≤ depth →
  ∃ sc',
    createScopeFor dsplit (createSubtree dsplit depth) (N_Expr e) p sc
      = Some (p, sc') ∧
    addChildrenForCapturesAndClosuresIn (createSubtree dsplit depth) e p
      (setRanges (widenSourceRangeForIgnoredASTNode (scopes sc) p
                    (node_range (expr_info e)) (ranges sc)) sc)
      = Some (tt, sc') ∧
    (forEachClosureIn e = [] →
     sc' = setRanges (widenSourceRangeForIgnoredASTNode (scopes sc) p
                        (node_range (expr_info e)) (ranges sc)) sc) ∧
    (∀ f rest,
       forEachClosureIn e = f :: rest →
       closure_self f.2 ∉ astDuplicates sc →
       scopeAt (scopes sc') (length (scopes sc))
         (WholeClosureScope f.2 f.1) p).
Proof.
  intros Hd.
  destruct (createScopeFor_total dsplit depth (N_Expr e) p Hd sc)
    as [[r sc'] Hrun].
  pose proof Hrun as [-> Hcl]%createScopeFor_expr_eq.
  exists sc'. split; [done|]. split; [done|]. split.
  - intros Hnil. revert Hcl.
    rewrite addChildrenForCapturesAndClosuresIn_eq, Hnil. simpl.
    by intros [= <-].
  - intros f rest Hf Hnot.
    by apply (first_closure_scoped depth e p f rest _ sc' Hf) in Hcl.
Qed.

(** A statement with a scope of its own gets it, as a child of the scope
    at hand. *)
Lemma createScopeFor_stmt_direct depth s d p (sc : ScopeCreator R) r sc' :
  directScope (N_Stmt s) = Some d →
  createScopeFor dsplit (createSubtree dsplit depth) (N_Stmt s) p sc
    = Some (r, sc') →
  scopeAt (scopes sc') (length (scopes sc)) d p.
Proof.
  intros Hd Hrun. apply (createScopeFor_direct _ _ _ _ _ _ _ _ Hd) in Hrun.
  by eapply createSubtree_scopeAt.
Qed.

(** A return statement with a result does what the result does. *)
Lemma createScopeFor_return (rec : ScopeData → ScopePtr → M R ScopePtr) i e p
    (sc : ScopeCreator R) :
  createScopeFor dsplit rec (N_Stmt (S_Return i (Some e))) p sc
  = createScopeFor dsplit rec (N_Expr e) p sc.
Proof.
  unfold createScopeFor. simpl. unfold visitExpr, bind.
  by destruct (widen p (node_range (expr_info e)) sc) as [[[] sc1]|];
    [destruct (addChildrenForCapturesAndClosuresIn rec e p sc1) as [[[] sc2]|]|].
Qed.

(** ** The duplicate set along a list of siblings *)

(** A node that comes again in a list of siblings adds nothing to what
    the list gives without the repeat. *)
Lemma forEach_addScopeToTree_repeat depth l l' nd (sc : ScopeCreator R) :
  isHandledSpecially nd = false → nd ∈ l →
  forEach (l ++ nd :: l') (addScopeToTree dsplit (createSubtree dsplit depth)) sc
  = forEach (l ++ l') (addScopeToTree dsplit (createSubtree dsplit depth)) sc.
Proof.
  intros Hs Hin. rewrite !forEach_app.
  assert (∀ (m1 m2 m2' : M R unit),
            (∀ s2, m1 sc = Some (tt, s2) → m2 s2 = m2' s2) →
            (m1 ;; m2) sc = (m1 ;; m2') sc) as Hbind.
  { intros m1 m2 m2' Heq. unfold bind.
    destruct (m1 sc) as [[[] s2]|]; [by apply Heq|done]. }
  apply Hbind. intros s2 Hl.
  apply (forEach_addScopeToTree_registers _ _ _ nd) in Hl; [|done..].
  cbn [forEach]. unfold bind at 1.
  rewrite addScopeToTree_skip by (by right). done.
Qed.

Lemma addScopesToTree_repeat depth l1 l2 l3 nd (sc : ScopeCreator R) :
  isHandledSpecially nd = false →
  addScopesToTree dsplit (createSubtree dsplit depth)
    (l1 ++ nd :: l2 ++ nd :: l3) sc
  = addScopesToTree dsplit (createSubtree dsplit depth)
      (l1 ++ nd :: l2 ++ l3) sc.
Proof.
  intros Hs. unfold addScopesToTree.
  rewrite !bool_decide_eq_false_2 by (by destruct l1).
  unfold ensureSourceRangesAreCorrectWhenAddingDescendants, bind, get, modify.
  replace (l1 ++ nd :: l2 ++ nd :: l3) with ((l1 ++ nd :: l2) ++ nd :: l3)
    by (by rewrite <- app_assoc).
  replace (l1 ++ nd :: l2 ++ l3) with ((l1 ++ nd :: l2) ++ l3)
    by (by rewrite <- app_assoc).
  rewrite forEach_addScopeToTree_repeat; [done|done|].
  apply elem_of_app. right. apply list_elem_of_here.
Qed.

End Accepted.

(** ** C7, C8, C10: what [shouldCreateScope] rejects and what it lets
    through *)

(** C7. A pattern-binding declaration whose start and end positions are
    equal is excluded from scope creation: [shouldCreateScope] is false
    and [createScopeFor] hands back the parent and leaves the creator as
    it is. An expression or a statement with the same zero-width range is
    included and processed for scopes: [shouldCreateScope] is true and
    [createScopeFor] returns. For the expression, the scope at hand is
    widened by the range of the expression and its closures are scoped
    from there: without closures the widening is all that happens, and a
    first closure that is not registered gets the next scope, a
    [WholeClosureScope] under the scope at hand; the scope at hand comes
    back. For the statement: one with a scope of its own gets it, as the
    next scope and a child of the scope at hand; a control-transfer
    statement widens the scope at hand by its range; a return with a
    result does what its result does. *)
Theorem C7_degenerate_range_policy {R} `{RangeOps R} dsplit depth
    (pb : PatternBindingDecl) (e : Expr) (s : Stmt) (p : ScopePtr)
    (sc : ScopeCreator R) :
  zeroWidth (pbd_info pb) →
  zeroWidth (expr_info e) →
  zeroWidth (stmt_info s) →
  4 * sizeNode (N_Expr e) ≤ depth →
  4 * sizeNode (N_Stmt s) ≤ depth →
  (shouldCreateScope (N_Decl (D_PatternBinding pb)) = false ∧
   skippedEntirely (N_Decl (D_PatternBinding pb))) ∧
  (shouldCreateScope (N_Expr e) = true ∧
   ∃ sc',
     createScopeFor dsplit (createSubtree dsplit depth) (N_Expr e) p sc
       = Some (p, sc') ∧
     addChildrenForCapturesAndClosuresIn (createSubtree dsplit depth) e p
       (setRanges (widenSourceRangeForIgnoredASTNode (scopes sc) p
                     (node_range (expr_info e)) (ranges sc)) sc)
       = Some (tt, sc') ∧
     (forEachClosureIn e = [] →
      sc' = setRanges (widenSourceRangeForIgnoredASTNode (scopes sc) p
                         (node_range (expr_info e)) (ranges sc)) sc) ∧
     (∀ f rest,
        forEachClosureIn e = f :: rest →
        closure_self f.2 ∉ astDuplicates sc →
        scopeAt (scopes sc') (length (scopes sc))
          (WholeClosureScope f.2 f.1) p)) ∧
  (shouldCreateScope (N_Stmt s) = true ∧
   ∃ r sc',
     createScopeFor dsplit (createSubtree dsplit depth) (N_Stmt s) p sc
       = Some (r, sc') ∧
     (∀ d, directScope (N_Stmt s) = Some d →
           scopeAt (scopes sc') (length (scopes sc)) d p) ∧
     (∀ k i, s = S_Ignored k i →
             r = p ∧
             sc' = setRanges (widenSourceRangeForIgnoredASTNode (scopes sc) p
                                (node_range i) (ranges sc)) sc) ∧
     (∀ i e', s = S_Return i (Some e') →
              createScopeFor dsplit (createSubtree dsplit depth) (N_Expr e') p sc
                = Some (r, sc'))).
Proof.
  intros Hpb _ _ He Hs.
  assert (Hno : shouldCreateScope (N_Decl (D_PatternBinding pb)) = false).
  { apply shouldCreateScope_false_iff. right. eexists. split; [done|].
    right. done. }
  split; [split; [done|by apply createScopeFor_skip]|].
  split; (split; [done|]).
  - apply createScopeFor_expr, He.
  - destruct (createScopeFor_total dsplit depth (N_Stmt s) p Hs sc)
      as [[r sc'] Hrun].
    exists r, sc'. split; [done|]. split; [|split].
    + intros d Hd. by eapply createScopeFor_stmt_direct.
    + intros k i ->. revert Hrun. unfold createScopeFor. simpl.
      unfold visitAndIgnore, bind, widen, modify, ret. by intros [= <- <-].
    + intros i e' ->. by rewrite createScopeFor_return in Hrun.
Qed.

Lemma C7_witness :
  skippedEntirely (H:=exampleRanges) (N_Decl (D_PatternBinding zeroWidthBinding)) ∧
  (∃ sc',
     createScopeFor (H:=exampleRanges) neverSplits
       (createSubtree (H:=exampleRanges) neverSplits 30)
       (N_Expr zeroWidthExpr) 0 exampleCreator = Some (0, sc') ∧
     ranges sc'
     = widenSourceRangeForIgnoredASTNode (RangeOps:=exampleRanges)
         (scopes exampleCreator) 0 (exampleRange 5 5)
         (ranges exampleCreator) ∧
     scopes sc' = scopes exampleCreator) ∧
  (∃ sc',
     createScopeFor (H:=exampleRanges) neverSplits
       (createSubtree (H:=exampleRanges) neverSplits 30)
       (N_Expr (E_Closure zeroWidthClosure)) 0 exampleCreator = Some (0, sc') ∧
     scopeAt (scopes sc') 1 (WholeClosureScope zeroWidthClosure None) 0) ∧
  (∃ r sc',
     createScopeFor (H:=exampleRanges) neverSplits
       (createSubtree (H:=exampleRanges) neverSplits 30)
       (N_Stmt zeroWidthBlock) 0 exampleCreator = Some (r, sc') ∧
     ∃ bs, zeroWidthBlock = S_Brace bs ∧
           scopeAt (scopes sc') 1 (BraceStmtScope bs) 0).
Proof.
  destruct (C7_degenerate_range_policy (H:=exampleRanges) neverSplits 30
              zeroWidthBinding (E_Closure zeroWidthClosure) zeroWidthBlock 0
              exampleCreator)
    as ((_ & Hpb) & (_ & sc1 & He & _ & _ & Hcl) & (_ & r & sc2 & Hs & Hd & _));
    [reflexivity|reflexivity|reflexivity|vm_compute; lia|vm_compute; lia|].
  split; [exact Hpb|]. split; [|split].
  - destruct (C7_degenerate_range_policy (H:=exampleRanges) neverSplits 30
                zeroWidthBinding zeroWidthExpr zeroWidthBlock 0 exampleCreator)
      as (_ & (_ & sc0 & He0 & _ & Hnil & _) & _);
      [reflexivity|reflexivity|reflexivity|vm_compute; lia|vm_compute; lia|].
    exists sc0. split; [exact He0|]. rewrite (Hnil eq_refl). done.
  - exists sc1. split; [exact He|].
    apply (Hcl (None, zeroWidthClosure) []); [reflexivity|].
    simpl. apply not_elem_of_empty.
  - exists r, sc2. split; [exact Hs|]. eexists. split; [reflexivity|].
    apply Hd. reflexivity.
Defined.

(** C10. Every statement and every expression is a candidate for scoping,
    compiler-synthesized or not and whatever its range:
    [shouldCreateScope] is true of it and [createScopeFor] hands it to
    the visitor, while a declaration is rejected exactly when it is
    compiler-synthesized or a zero-width pattern binding. So a
    compiler-synthesized statement or expression is still
    processed and contributes scopes: [createScopeFor] on the
    compiler-synthesized return of an expression returns the scope at
    hand, after widening it by the range of the expression and scoping
    the closures of the expression from there, so that a first closure
    that is not registered gets the next scope, a [WholeClosureScope]
    under the scope at hand; the same holds for a compiler-synthesized
    expression itself; and a compiler-synthesized statement with a scope
    of its own gets it, as the next scope and a child of the scope at
    hand. *)
Theorem C10_statements_and_expressions_always_scoped {R} `{RangeOps R}
    dsplit depth :
  (∀ s, shouldCreateScope (N_Stmt s) = true ∧
        ∀ rec p, createScopeFor (R:=R) dsplit rec (N_Stmt s) p
                 = visitStmt dsplit rec s p) ∧
  (∀ e, shouldCreateScope (N_Expr e) = true ∧
        ∀ rec p, createScopeFor (R:=R) dsplit rec (N_Expr e) p
                 = visitExpr rec (Some e) p) ∧
  (∀ d, shouldCreateScope (N_Decl d) = false ↔
        node_implicit (decl_info d) = true ∨
        (isa_PatternBindingDecl d = true ∧ zeroWidth (decl_info d))) ∧
  (∀ i e p (sc : ScopeCreator R),
     node_implicit i = true →
     4 * sizeNode (N_Stmt (S_Return i (Some e))) ≤ depth →
     ∃ sc',
       createScopeFor dsplit (createSubtree dsplit depth)
         (N_Stmt (S_Return i (Some e))) p sc = Some (p, sc') ∧
       addChildrenForCapturesAndClosuresIn (createSubtree dsplit depth) e p
         (setRanges (widenSourceRangeForIgnoredASTNode (scopes sc) p
                       (node_range (expr_info e)) (ranges sc)) sc)
         = Some (tt, sc') ∧
       ∀ f rest,
         forEachClosureIn e = f :: rest →
         closure_self f.2 ∉ astDuplicates sc →
         scopeAt (scopes sc') (length (scopes sc))
           (WholeClosureScope f.2 f.1) p) ∧
  (∀ e p (sc : ScopeCreator R),
     node_implicit (expr_info e) = true →
     4 * sizeNode (N_Expr e) ≤ depth →
     ∃ sc',
       createScopeFor dsplit (createSubtree dsplit depth) (N_Expr e) p sc
         = Some (p, sc') ∧
       addChildrenForCapturesAndClosuresIn (createSubtree dsplit depth) e p
         (setRanges (widenSourceRangeForIgnoredASTNode (scopes sc) p
                       (node_range (expr_info e)) (ranges sc)) sc)
         = Some (tt, sc') ∧
       ∀ f rest,
         forEachClosureIn e = f :: rest →
         closure_self f.2 ∉ astDuplicates sc →
         scopeAt (scopes sc') (length (scopes sc))
           (WholeClosureScope f.2 f.1) p) ∧
  (∀ s d p (sc : ScopeCreator R),
     node_implicit (stmt_info s) = true →
     directScope (N_Stmt s) = Some d →
     4 * sizeNode (N_Stmt s) ≤ depth →
     ∃ r sc',
       createScopeFor dsplit (createSubtree dsplit depth) (N_Stmt s) p sc
         = Some (r, sc') ∧
       scopeAt (scopes sc') (length (scopes sc)) d p).
Proof.
  split; [done|]. split; [done|]. split; [|split; [|split]].
  - intros d. rewrite shouldCreateScope_false_iff. split.
    + intros [?|(d' & [= <-] & Hd)]; done.
    + intros Hd. right. by exists d.
  - intros i e p sc _ Hd.
    destruct (createScopeFor_expr dsplit depth e p sc)
      as (sc' & Hrun & Hcl & _ & Hfirst); [simpl in *; lia|].
    exists sc'. by rewrite createScopeFor_return.
  - intros e p sc _ Hd.
    destruct (createScopeFor_expr dsplit depth e p sc Hd)
      as (sc' & Hrun & Hcl & _ & Hfirst).
    by exists sc'.
  - intros s d p sc _ Hdir Hd.
    destruct (createScopeFor_total dsplit depth (N_Stmt s) p Hd sc)
      as [[r sc'] Hrun].
    exists r, sc'. split; [done|]. by eapply createScopeFor_stmt_direct.
Qed.

Lemma C10_witness :
  ∃ sc',
    createScopeFor (H:=exampleRanges) neverSplits
      (createSubtree (H:=exampleRanges) neverSplits 30)
      (N_Stmt implicitReturnOfClosure) 0 exampleCreator = Some (0, sc') ∧
    node_implicit (stmt_info implicitReturnOfClosure) = true ∧
    scopeAt (scopes sc') 1 (WholeClosureScope exampleClosure None) 0.
Proof.
  destruct (C10_statements_and_expressions_always_scoped (H:=exampleRanges)
              neverSplits 30) as (_ & _ & _ & Hret & _).
  destruct (Hret (stmt_info implicitReturnOfClosure) (E_Closure exampleClosure)
              0 exampleCreator) as (sc' & Hrun & _ & Hcl);
    [reflexivity|vm_compute; lia|].
  exists sc'. split; [exact Hrun|]. split; [reflexivity|].
  apply (Hcl (None, exampleClosure) []); [reflexivity|].
  simpl. apply not_elem_of_empty.
Defined.

(** C8, as amended. A declaration that is compiler-synthesized is skipped
    entirely, whether or not it has a source range: [shouldCreateScope]
    rejects it and [createScopeFor] hands back the parent and leaves the
    creator as it is, so that no scope is created and nothing is widened.
    A statement or an expression is not subject to the rule:
    compiler-synthesized or not, with or without a source range,
    [shouldCreateScope] accepts it and [createScopeFor] hands it to its
    visitor. There, an expression widens the scope at hand by its range
    and has its closures scoped from there: without closures the widening
    is all that happens, and a first closure that is not registered gets
    the next scope, a [WholeClosureScope] under the scope at hand. A
    statement with a scope of its own gets it, as the next scope and a
    child of the scope at hand; a control-transfer statement widens the
    scope at hand by its range; a return statement does what its result
    does, which is nothing, not even a widening, when it has none. *)
Theorem C8_skip_rule {R} `{RangeOps R} dsplit depth :
  (∀ d, node_implicit (decl_info d) = true →
        shouldCreateScope (N_Decl d) = false ∧ skippedEntirely (N_Decl d)) ∧
  (∀ s, shouldCreateScope (N_Stmt s) = true ∧
        ∀ rec p, createScopeFor (R:=R) dsplit rec (N_Stmt s) p
                 = visitStmt dsplit rec s p) ∧
  (∀ e, shouldCreateScope (N_Expr e) = true ∧
        ∀ rec p, createScopeFor (R:=R) dsplit rec (N_Expr e) p
                 = visitExpr rec (Some e) p) ∧
  (∀ e p (sc : ScopeCreator R),
     4 * sizeNode (N_Expr e) ≤ depth →
     ∃ sc',
       createScopeFor dsplit (createSubtree dsplit depth) (N_Expr e) p sc
         = Some (p, sc') ∧
       addChildrenForCapturesAndClosuresIn (createSubtree dsplit depth) e p
         (setRanges (widenSourceRangeForIgnoredASTNode (scopes sc) p
                       (node_range (expr_info e)) (ranges sc)) sc)
         = Some (tt, sc') ∧
       (forEachClosureIn e = [] →
        sc' = setRanges (widenSourceRangeForIgnoredASTNode (scopes sc) p
                           (node_range (expr_info e)) (ranges sc)) sc) ∧
       (∀ f rest,
          forEachClosureIn e = f :: rest →
          closure_self f.2 ∉ astDuplicates sc →
          scopeAt (scopes sc') (length (scopes sc))
            (WholeClosureScope f.2 f.1) p)) ∧
  (∀ s d p (sc : ScopeCreator R),
     directScope (N_Stmt s) = Some d →
     4 * sizeNode (N_Stmt s) ≤ depth →
     ∃ r sc',
       createScopeFor dsplit (createSubtree dsplit depth) (N_Stmt s) p sc
         = Some (r, sc') ∧
       scopeAt (scopes sc') (length (scopes sc)) d p) ∧
  (∀ k i rec p (sc : ScopeCreator R),
     createScopeFor dsplit rec (N_Stmt (S_Ignored k i)) p sc
     = Some (p, setRanges (widenSourceRangeForIgnoredASTNode (scopes sc) p
                             (node_range i) (ranges sc)) sc)) ∧
  (∀ i rec p (sc : ScopeCreator R),
     (∀ e, createScopeFor dsplit rec (N_Stmt (S_Return i (Some e))) p sc
           = createScopeFor dsplit rec (N_Expr e) p sc) ∧
     createScopeFor dsplit rec (N_Stmt (S_Return i None)) p sc = Some (p, sc)).
Proof.
  split; [|split; [done|split; [done|split; [|split; [|split]]]]].
  - intros d Hd.
    assert (shouldCreateScope (N_Decl d) = false) as Hno.
    { apply shouldCreateScope_false_iff. right. exists d. by eauto. }
    split; [done|by apply createScopeFor_skip].
  - intros e p sc Hd. by apply createScopeFor_expr.
  - intros s d p sc Hdir Hd.
    destruct (createScopeFor_total dsplit depth (N_Stmt s) p Hd sc)
      as [[r sc'] Hrun].
    exists r, sc'. split; [done|]. by eapply createScopeFor_stmt_direct.
  - done.
  - intros i rec p sc. split; [|done]. intros e. apply createScopeFor_return.
Qed.

Lemma C8_witness :
  skippedEntirely (H:=exampleRanges) (N_Decl implicitImportWithRange) ∧
  ∃ r sc',
    createScopeFor (H:=exampleRanges) neverSplits
      (createSubtree (H:=exampleRanges) neverSplits 30)
      (N_Stmt (S_Brace implicitBlockWithoutRange)) 0 exampleCreator
      = Some (r, sc') ∧
    scopeAt (scopes sc') 1 (BraceStmtScope implicitBlockWithoutRange) 0.
Proof.
  destruct (C8_skip_rule (H:=exampleRanges) neverSplits 30)
    as (Hdecl & _ & _ & _ & Hstmt & _).
  split.
  - apply (Hdecl implicitImportWithRange). reflexivity.
  - apply (Hstmt (S_Brace implicitBlockWithoutRange) _ 0 exampleCreator);
      [reflexivity|vm_compute; lia].
Defined.

(** C8 as stated fails in both directions. A compiler-synthesized
    declaration that does have a source range is skipped entirely all the
    same; and a compiler-synthesized block that has no source range is not
    skipped: it gets its scope. *)
Lemma C8_counterexample :
  (node_implicit (decl_info implicitImportWithRange) = true ∧
   range_isValid (node_range (decl_info implicitImportWithRange)) = true ∧
   skippedEntirely (H:=exampleRanges) (N_Decl implicitImportWithRange)) ∧
  (node_implicit (brace_info implicitBlockWithoutRange) = true ∧
   range_isValid (node_range (brace_info implicitBlockWithoutRange)) = false ∧
   ¬ skippedEntirely (H:=exampleRanges)
       (N_Stmt (S_Brace implicitBlockWithoutRange)) ∧
   ∃ sc',
     createScopeFor (H:=exampleRanges) neverSplits
       (createSubtree (H:=exampleRanges) neverSplits 30)
       (N_Stmt (S_Brace implicitBlockWithoutRange)) 0 exampleCreator
       = Some (0, sc') ∧
     length (scopes exampleCreator) = 1 ∧
     length (scopes sc') = 2 ∧
     dataOf (scopes sc') 1 = Some (BraceStmtScope implicitBlockWithoutRange)).
Proof.
  split.
  - split; [done|]. split; [done|]. by apply createScopeFor_skip.
  - split; [done|]. split; [done|]. split.
    + intros Hskip.
      specialize (Hskip neverSplits
                    (createSubtree (H:=exampleRanges) neverSplits 30)
                    0 exampleCreator).
      vm_compute in Hskip. discriminate Hskip.
    + vm_compute. eexists. done.
Qed.

(** ** C3: meeting a node twice *)

(** C3, as amended. The duplicate set guards the encounter of a node among
    siblings, not the number of scopes made from it. A node met among the
    siblings handed to [addScopesToTree], and not a variable or an
    accessor (which the pattern code handles itself), has its [ASTNode]
    word inserted into the duplicate set before it is scoped: the guard
    answers whether the word was new and leaves it in the set, and
    [createScopeFor] runs in a creator that holds it. Nothing the builder
    does takes a member out of the set: not the creation of a subtree,
    not the scoping of a sibling, not an extension of the tree. So
    meeting the node again among siblings is silently treated as already
    handled, not as an error, and leaves the tree and the creator exactly
    as they are: wherever its word is in the set; later in a list of
    siblings that holds it already, where [addScopesToTree] gives what it
    gives for the list without the repeat; and after its first encounter,
    by itself or as one of the new declarations of a build or an
    extension, followed by any number of re-entrant extensions. *)
Theorem C3_deduplication {R} `{RangeOps R} dsplit depth (nd : ASTNode)
    (sc : ScopeCreator R) :
  isHandledSpecially nd = false →
  shouldThisNodeBeScopedWhenEncountered nd sc
  = Some (negb (bool_decide (getOpaqueValue nd ∈ astDuplicates sc)),
          setDuplicates ({[getOpaqueValue nd]} ∪ astDuplicates sc) sc) ∧
  (∀ u sc1,
     getOpaqueValue nd ∉ astDuplicates sc →
     addScopeToTree dsplit (createSubtree dsplit depth) nd sc = Some (u, sc1) →
     ∃ r scb,
       createScopeFor dsplit (createSubtree dsplit depth) nd
         (newNodeInjectionPoint sc)
         (setDuplicates ({[getOpaqueValue nd]} ∪ astDuplicates sc) sc)
         = Some (r, scb) ∧
       sc1 = setInjectionPoint r scb ∧
       getOpaqueValue nd ∈ astDuplicates sc1) ∧
  ((∀ depth' d p (s s' : ScopeCreator R) r,
      createSubtree dsplit depth' d p s = Some (r, s') →
      astDuplicates s ⊆ astDuplicates s') ∧
   (∀ depth' nd' (s s' : ScopeCreator R) u,
      addScopeToTree dsplit (createSubtree dsplit depth') nd' s = Some (u, s') →
      astDuplicates s ⊆ astDuplicates s') ∧
   (∀ depth' decls (s s' : ScopeCreator R) u,
      addAnyNewScopesToTree dsplit depth' decls s = Some (u, s') →
      astDuplicates s ⊆ astDuplicates s')) ∧
  (∀ depth' (sc2 : ScopeCreator R),
     getOpaqueValue nd ∈ astDuplicates sc2 →
     addScopeToTree dsplit (createSubtree dsplit depth') nd sc2
       = Some (tt, sc2)) ∧
  (∀ depth' l1 l2 l3 (s : ScopeCreator R),
     addScopesToTree dsplit (createSubtree dsplit depth')
       (l1 ++ nd :: l2 ++ nd :: l3) s
     = addScopesToTree dsplit (createSubtree dsplit depth')
         (l1 ++ nd :: l2 ++ l3) s) ∧
  (∀ u sc1 sc2 depth',
     addScopeToTree dsplit (createSubtree dsplit depth) nd sc = Some (u, sc1) →
     extendedFrom dsplit sc1 sc2 →
     getOpaqueValue nd ∈ astDuplicates sc2 ∧
     addScopeToTree dsplit (createSubtree dsplit depth') nd sc2
       = Some (tt, sc2)) ∧
  (∀ decls d u sc1 sc2 depth',
     nd = N_Decl d →
     d ∈ drop (numberOfDeclsAlreadySeen sc) decls →
     addNewDeclsToTree dsplit depth decls sc = Some (u, sc1) →
     extendedFrom dsplit sc1 sc2 →
     getOpaqueValue nd ∈ astDuplicates sc2 ∧
     addScopeToTree dsplit (createSubtree dsplit depth') nd sc2
       = Some (tt, sc2)).
Proof.
  intros Hs. split; [by apply shouldThisNodeBeScopedWhenEncountered_eq|].
  split; [|split; [|split; [|split; [|split]]]].
  - intros u sc1 Hnot Hr.
    pose proof (addScopeToTree_registers _ _ _ _ _ _ Hs Hr) as Hin.
    destruct (addScopeToTree_scoped _ _ _ _ _ _ Hs Hnot Hr)
      as (r & scb & Hc & ->).
    by exists r, scb.
  - split; [|split].
    + intros depth' d p s s' r Hr. by apply createSubtree_Ext in Hr as [_ ?].
    + intros depth' nd' s s' u Hr. by apply addScopeToTree_Ext in Hr as [_ ?].
    + intros depth' decls s s' [] Hr.
      assert (extendedFrom dsplit s s') as Hx.
      { eapply extended_step; [apply extended_refl|exact Hr]. }
      by apply extendedFrom_Ext in Hx as [_ ?].
  - intros depth' sc2 Hin. apply addScopeToTree_skip. by right.
  - intros depth' l1 l2 l3 s. by apply addScopesToTree_repeat.
  - intros u sc1 sc2 depth' Hr Hx.
    apply addScopeToTree_registers in Hr; [|done].
    apply extendedFrom_Ext in Hx as [_ Hsub].
    split; [by apply Hsub|]. apply addScopeToTree_skip. right. by apply Hsub.
  - intros decls d u sc1 sc2 depth' -> Hin Hr Hx.
    eapply addNewDeclsToTree_registers in Hr; [|done..].
    apply extendedFrom_Ext in Hx as [_ Hsub].
    split; [by apply Hsub|]. apply addScopeToTree_skip. right. by apply Hsub.
Qed.

Lemma C3_witness :
  ∃ sc1,
    addScopeToTree (H:=exampleRanges) neverSplits
      (createSubtree (H:=exampleRanges) neverSplits 20)
      (N_Decl (D_Func exampleFunc)) exampleCreator = Some (tt, sc1) ∧
    length (scopes sc1) = 5 ∧
    getOpaqueValue (N_Decl (D_Func exampleFunc)) ∈ astDuplicates sc1 ∧
    addScopeToTree (H:=exampleRanges) neverSplits
      (createSubtree (H:=exampleRanges) neverSplits 20)
      (N_Decl (D_Func exampleFunc)) sc1 = Some (tt, sc1) ∧
    addScopesToTree (H:=exampleRanges) neverSplits
      (createSubtree (H:=exampleRanges) neverSplits 20)
      [N_Decl (D_Func exampleFunc); N_Decl importAfterStruct;
       N_Decl (D_Func exampleFunc)] exampleCreator
    = addScopesToTree (H:=exampleRanges) neverSplits
        (createSubtree (H:=exampleRanges) neverSplits 20)
        [N_Decl (D_Func exampleFunc); N_Decl importAfterStruct] exampleCreator.
Proof.
  destruct (C3_deduplication (H:=exampleRanges) neverSplits 20
              (N_Decl (D_Func exampleFunc)) exampleCreator)
    as (_ & _ & _ & _ & Hrepeat & Hagain & _); [reflexivity|].
  destruct (addScopeToTree (H:=exampleRanges) neverSplits
              (createSubtree (H:=exampleRanges) neverSplits 20)
              (N_Decl (D_Func exampleFunc)) exampleCreator)
    as [[[] sc1]|] eqn:Hr; [|vm_compute in Hr; discriminate].
  exists sc1. split; [reflexivity|].
  destruct (Hagain tt sc1 sc1 20 eq_refl (extended_refl _ _)) as [Hin Hskip].
  split; [|split; [exact Hin|split; [exact Hskip|]]].
  - vm_compute in Hr. injection Hr as <-. reflexivity.
  - exact (Hrepeat 20 [] [N_Decl importAfterStruct] [] exampleCreator).
Defined.

(** C3 as stated fails: the scope of a function declaration, the scope of
    its parameters and the scope of its body are made from the one
    declaration, in one visit; the declaration scope and the body scope
    are constructed from it. *)
Lemma C3_counterexample :
  ∃ sc,
    createScopeTreeFor (H:=exampleRanges) neverSplits 20 [D_Func exampleFunc]
      = Some (tt, sc) ∧
    dataOf (scopes sc) 1 = Some (AbstractFunctionDeclScope exampleFunc) ∧
    dataOf (scopes sc) 3 = Some (PureFunctionBodyScope exampleFunc) ∧
    constructedFrom (AbstractFunctionDeclScope exampleFunc)
      = Some (node_id (func_info exampleFunc)) ∧
    constructedFrom (PureFunctionBodyScope exampleFunc)
      = Some (node_id (func_info exampleFunc)).
Proof. vm_compute. eexists. done. Qed.
